(** * UPI QR code generator: a shallow embedding of [src/lib/upi/qr-generator.ts]

    The TypeScript module builds a UPI deep link, encodes it as a QR symbol
    (byte mode, error-correction level M, versions 1 to 10, mask 0) and renders
    the symbol as an SVG data URI.  It also exports a validator of UPI ids.
    The payment form of [src/unnamed/part_001] calls the three exported
    functions; the part of it that does is embedded as well.

    JavaScript numbers that the module uses as integers are [Z]; strings are
    lists of UTF-16 code units; arrays are lists of JavaScript values, with the
    holes and [undefined] of the language kept; exceptions are an error monad;
    the two module-level tables are an explicit module state. *)

From Stdlib Require Import ZArith List Bool Lia String Ascii Permutation.
Import ListNotations.
Local Open Scope Z_scope.

(* ================================================================== *)
(** * Part I: the JavaScript runtime the module relies on              *)
(* ================================================================== *)

(** The values that occur in the module's arrays. *)
Inductive jsval : Type :=
| Undefined
| Null
| Num (z : Z).

(** The exceptions the built-ins used by the module can raise.  [Diverged]
    is not a JavaScript exception: it marks a [while] loop of the embedding
    whose iteration bound ran out. *)
Inductive exn : Type :=
| RangeError
| URIError
| TypeError
| InvalidCharacterError
| Diverged.

Inductive result (A : Type) : Type :=
| Ok (a : A)
| Throw (e : exn).

Arguments Ok {A} a.
Arguments Throw {A} e.

Definition bind {A B : Type} (r : result A) (k : A -> result B) : result B :=
  match r with
  | Ok a => k a
  | Throw e => Throw e
  end.

Notation "x <- e ;; k" := (bind e (fun x => k))
  (at level 61, e at next level, right associativity).

(** ** Loops *)

(** [for (const x of l) body]. *)
Fixpoint foldM {A S : Type} (body : A -> S -> result S) (l : list A) (s : S)
  : result S :=
  match l with
  | [] => Ok s
  | x :: l' => s' <- body x s ;; foldM body l' s'
  end.

Fixpoint zseq (lo : Z) (n : nat) : list Z :=
  match n with
  | O => []
  | S n' => lo :: zseq (lo + 1) n'
  end.

(** The values taken by [i] in [for (let i = lo; i < hi; i++)]. *)
Definition zrange (lo hi : Z) : list Z := zseq lo (Z.to_nat (hi - lo)).

Definition for_range {S : Type} (lo hi : Z) (body : Z -> S -> result S) (s : S)
  : result S :=
  foldM body (zrange lo hi) s.

(** The same loop when the body cannot throw. *)
Definition for_pure {S : Type} (lo hi : Z) (body : Z -> S -> S) (s : S) : S :=
  fold_left (fun s i => body i s) (zrange lo hi) s.

(** [while (cond) body], bounded by [fuel] iterations. *)
Fixpoint while_loop {S : Type} (fuel : nat) (cond : S -> bool)
  (body : S -> result S) (s : S) : result S :=
  match fuel with
  | O => if cond s then Throw Diverged else Ok s
  | S fuel' =>
      if cond s then s' <- body s ;; while_loop fuel' cond body s' else Ok s
  end.

(** ** Numbers *)

(** [ToInt32], the conversion applied to both operands of [^]. *)
Definition ToInt32 (v : jsval) : Z :=
  match v with
  | Num z => (z + 2147483648) mod 4294967296 - 2147483648
  | _ => 0
  end.

(** [x ^ y]. *)
Definition js_xor (x y : jsval) : jsval := Num (Z.lxor (ToInt32 x) (ToInt32 y)).

(** [ToNumber]; [None] is NaN. *)
Definition ToNumber (v : jsval) : option Z :=
  match v with
  | Undefined => None
  | Null => Some 0
  | Num z => Some z
  end.

(** [v === n] for a number literal [n]. *)
Definition strict_eq_num (v : jsval) (n : Z) : bool :=
  match v with
  | Num z => z =? n
  | _ => false
  end.

(** [v === null]. *)
Definition is_null (v : jsval) : bool :=
  match v with
  | Null => true
  | _ => false
  end.

(** [v ?? d]. *)
Definition nullish_or (v d : jsval) : jsval :=
  match v with
  | Num z => Num z
  | _ => d
  end.

(** ** Arrays *)

(** [a[i]]: [undefined] outside the array. *)
Definition arr_get (a : list jsval) (i : Z) : jsval :=
  if i <? 0 then Undefined else nth (Z.to_nat i) a Undefined.

(** [a[n] = v] for [n >= 0]: past the end the array grows, the skipped
    positions being holes (they read as [undefined]). *)
Fixpoint set_nth (a : list jsval) (n : nat) (v : jsval) : list jsval :=
  match a, n with
  | [], O => [v]
  | [], S n' => Undefined :: set_nth [] n' v
  | _ :: a', O => v :: a'
  | x :: a', S n' => x :: set_nth a' n' v
  end.

(** [a[i] = v].  A negative [i] names a property that is not an element:
    the elements are unchanged. *)
Definition arr_set (a : list jsval) (i : Z) (v : jsval) : list jsval :=
  if i <? 0 then a else set_nth a (Z.to_nat i) v.

(** [a[k]] indexed by a value: only a number names an element. *)
Definition arr_index (a : list jsval) (k : jsval) : jsval :=
  match k with
  | Num z => arr_get a z
  | _ => Undefined
  end.

Definition len {A : Type} (l : list A) : Z := Z.of_nat (List.length l).

(** [a.slice(from, to)] for [0 <= from]. *)
Definition slice {A : Type} (a : list A) (from to : Z) : list A :=
  firstn (Z.to_nat (to - from)) (skipn (Z.to_nat from) a).

(** ** Two-dimensional arrays *)

Definition matrix : Type := list (list jsval).

Fixpoint upd_row (m : matrix) (n : nat) (f : list jsval -> list jsval)
  : option matrix :=
  match m, n with
  | [], _ => None
  | row :: m', O => Some (f row :: m')
  | row :: m', S n' =>
      match upd_row m' n' f with
      | Some m'' => Some (row :: m'')
      | None => None
      end
  end.

(** [m[r][c]]: when [m[r]] is [undefined] the property read throws. *)
Definition mget (m : matrix) (r c : Z) : result jsval :=
  if r <? 0 then Throw TypeError
  else match nth_error m (Z.to_nat r) with
       | Some row => Ok (arr_get row c)
       | None => Throw TypeError
       end.

(** [m[r][c] = v]. *)
Definition mset (m : matrix) (r c : Z) (v : jsval) : result matrix :=
  if r <? 0 then Throw TypeError
  else match upd_row m (Z.to_nat r) (fun row => arr_set row c v) with
       | Some m' => Ok m'
       | None => Throw TypeError
       end.

(** [Array.from({ length: size }, () => new Array(size).fill(v))]: every row
    is a fresh array. *)
Definition new_matrix (size : Z) (v : jsval) : matrix :=
  repeat (repeat v (Z.to_nat size)) (Z.to_nat size).

(** ** Strings *)

(** A string is its sequence of UTF-16 code units. *)
Definition jsstring : Type := list Z.

Definition lit (s : string) : jsstring :=
  map (fun a => Z.of_N (N_of_ascii a)) (list_ascii_of_string s).

(** The double-quote character. *)
Definition dq : jsstring := [34].

(** [parts.join(sep)]. *)
Fixpoint join (sep : jsstring) (parts : list jsstring) : jsstring :=
  match parts with
  | [] => []
  | [p] => p
  | p :: rest => p ++ sep ++ join sep rest
  end.

(** Truthiness of an optional string property: [undefined] and the empty
    string are falsy. *)
Definition truthy (s : option jsstring) : bool :=
  match s with
  | Some (_ :: _) => true
  | _ => false
  end.

(** [!s] and [s === '']. *)
Definition is_nil (s : jsstring) : bool :=
  match s with
  | [] => true
  | _ => false
  end.

Definition str_or_empty (s : option jsstring) : jsstring :=
  match s with
  | Some t => t
  | None => []
  end.

(** Binary digits, most significant first, of a non-negative integer:
    [n.toString(2)] as a list of bits ([true] is the character 1). *)
Fixpoint pos_bits (p : positive) (acc : list bool) : list bool :=
  match p with
  | xH => true :: acc
  | xO p' => pos_bits p' (false :: acc)
  | xI p' => pos_bits p' (true :: acc)
  end.

(** [n.toString(2)] for [n >= 0].  For a negative [n] the source's string
    starts with a minus sign, which a list of bits does not hold: the
    properties below take character codes, lengths and bytes only. *)
Definition toString2 (n : Z) : list bool :=
  match n with
  | Zpos p => pos_bits p []
  | _ => [false]
  end.

(** [s.padStart(k, '0')] on a string of binary digits. *)
Definition padStart0 (k : Z) (s : list bool) : list bool :=
  repeat false (Z.to_nat (k - len s)) ++ s.

(** [parseInt(s, 2)] on a non-empty string of binary digits. *)
Definition parseInt2 (s : list bool) : Z :=
  fold_left (fun acc b => 2 * acc + (if b : bool then 1 else 0)) s 0.

(** Decimal digits of a non-negative integer, as in a template literal. *)
Fixpoint pos_digits (fuel : nat) (n : Z) (acc : jsstring) : jsstring :=
  match fuel with
  | O => acc
  | S fuel' =>
      let acc' := (48 + n mod 10) :: acc in
      if n <? 10 then acc' else pos_digits fuel' (n / 10) acc'
  end.

Definition toString10 (n : Z) : jsstring :=
  if n <? 0 then 45 :: pos_digits (S (Z.to_nat (Z.log2 (- n)))) (- n) []
  else pos_digits (S (Z.to_nat (Z.log2 n))) n [].

(** ** Percent-encoding and UTF-8 *)

Definition in_range (lo hi c : Z) : bool := (lo <=? c) && (c <=? hi).

Definition is_upper (c : Z) : bool := in_range 65 90 c.
Definition is_lower (c : Z) : bool := in_range 97 122 c.
Definition is_digit (c : Z) : bool := in_range 48 57 c.
Definition is_alpha (c : Z) : bool := is_upper c || is_lower c.
Definition is_alnum (c : Z) : bool := is_alpha c || is_digit c.

(** The characters [encodeURIComponent] leaves alone: letters, digits and
    [- _ . ! ~ * ' ( )]. *)
Definition uriUnescaped (c : Z) : bool :=
  is_alnum c
  || existsb (Z.eqb c) [45; 95; 46; 33; 126; 42; 39; 40; 41].

Definition is_high_surrogate (c : Z) : bool := in_range 55296 56319 c.
Definition is_low_surrogate (c : Z) : bool := in_range 56320 57343 c.

(** The UTF-8 octets of a code point. *)
Definition utf8 (cp : Z) : list Z :=
  if cp <? 128 then [cp]
  else if cp <? 2048 then
    [Z.lor 192 (Z.shiftr cp 6); Z.lor 128 (Z.land cp 63)]
  else if cp <? 65536 then
    [Z.lor 224 (Z.shiftr cp 12);
     Z.lor 128 (Z.land (Z.shiftr cp 6) 63);
     Z.lor 128 (Z.land cp 63)]
  else
    [Z.lor 240 (Z.shiftr cp 18);
     Z.lor 128 (Z.land (Z.shiftr cp 12) 63);
     Z.lor 128 (Z.land (Z.shiftr cp 6) 63);
     Z.lor 128 (Z.land cp 63)].

Definition hex_digit (n : Z) : Z := if n <? 10 then 48 + n else 55 + n.

(** One octet as [%XX], upper-case hexadecimal. *)
Definition pct (o : Z) : jsstring := [37; hex_digit (o / 16); hex_digit (o mod 16)].

Definition pct_octets (os : list Z) : jsstring := flat_map pct os.

Definition surrogate_pair (hi lo : Z) : Z :=
  (hi - 55296) * 1024 + (lo - 56320) + 65536.

(** [encodeURIComponent(s)]: a lone surrogate throws [URIError]. *)
Fixpoint encodeURIComponent (s : jsstring) : result jsstring :=
  match s with
  | [] => Ok []
  | c :: rest =>
      if uriUnescaped c then
        r <- encodeURIComponent rest ;; Ok (c :: r)
      else if is_low_surrogate c then Throw URIError
      else if is_high_surrogate c then
        match rest with
        | d :: rest' =>
            if is_low_surrogate d then
              r <- encodeURIComponent rest' ;;
              Ok (pct_octets (utf8 (surrogate_pair c d)) ++ r)
            else Throw URIError
        | [] => Throw URIError
        end
      else
        r <- encodeURIComponent rest ;; Ok (pct_octets (utf8 c) ++ r)
  end.

(** [Buffer.from(s)]: the UTF-8 octets of the string, a lone surrogate being
    replaced by U+FFFD. *)
Fixpoint utf8_bytes (s : jsstring) : list Z :=
  match s with
  | [] => []
  | c :: rest =>
      if is_low_surrogate c then utf8 65533 ++ utf8_bytes rest
      else if is_high_surrogate c then
        match rest with
        | d :: rest' =>
            if is_low_surrogate d then
              utf8 (surrogate_pair c d) ++ utf8_bytes rest'
            else utf8 65533 ++ utf8_bytes rest
        | [] => utf8 65533
        end
      else utf8 c ++ utf8_bytes rest
  end.

(** ** Base64 *)

Definition b64_char (n : Z) : Z :=
  if n <? 26 then 65 + n
  else if n <? 52 then 97 + (n - 26)
  else if n <? 62 then 48 + (n - 52)
  else if n =? 62 then 43
  else 47.

Fixpoint base64 (bytes : list Z) : jsstring :=
  match bytes with
  | [] => []
  | [a] =>
      [b64_char (a / 4); b64_char ((a mod 4) * 16); 61; 61]
  | [a; b] =>
      [b64_char (a / 4); b64_char ((a mod 4) * 16 + b / 16);
       b64_char ((b mod 16) * 4); 61]
  | a :: b :: c :: rest =>
      b64_char (a / 4) :: b64_char ((a mod 4) * 16 + b / 16)
      :: b64_char ((b mod 16) * 4 + c / 64) :: b64_char (c mod 64)
      :: base64 rest
  end.

(** [btoa(s)]: the code units are taken as bytes; one above 255 throws. *)
Definition btoa (s : jsstring) : result jsstring :=
  if forallb (fun c => c <=? 255) s then Ok (base64 s)
  else Throw InvalidCharacterError.

(** [Buffer.from(s).toString('base64')]. *)
Definition buffer_base64 (s : jsstring) : jsstring := base64 (utf8_bytes s).

(* ================================================================== *)
(** * Part II: the module                                              *)
(* ================================================================== *)

(** ** UPI URI builder *)

(** A JavaScript number is an IEEE-754 double.  [buildUpiUri] makes two
    observations of [params.amount]: the test [amount && amount > 0] and the
    text of [amount.toFixed(2)].  The embedding keeps a number as these two
    observations. *)
Record jsnumber : Type := {
  positive_amount : bool;
  toFixed2 : jsstring
}.

Record UpiQrParams : Type := {
  vpa : jsstring;
  payeeName : option jsstring;
  amount : option jsnumber;
  currency : option jsstring;
  note : option jsstring;
  mcc : option jsstring;
  txnRefId : option jsstring
}.

(** The array [parts] of [buildUpiUri], as it stands before the join. *)
Definition buildUpiUri_parts (params : UpiQrParams) : result (list jsstring) :=
  pa <- encodeURIComponent (vpa params) ;;
  let parts := [lit "upi://pay?pa=" ++ pa] in
  parts <- (if truthy (payeeName params)
            then pn <- encodeURIComponent (str_or_empty (payeeName params)) ;;
                 Ok (parts ++ [lit "pn=" ++ pn])
            else Ok parts) ;;
  let parts :=
    match amount params with
    | Some a => if positive_amount a then parts ++ [lit "am=" ++ toFixed2 a]
                else parts
    | None => parts
    end in
  let parts :=
    parts ++ [lit "cu=" ++ match currency params with
                           | Some c => c
                           | None => lit "INR"
                           end] in
  parts <- (if truthy (note params)
            then tn <- encodeURIComponent (str_or_empty (note params)) ;;
                 Ok (parts ++ [lit "tn=" ++ tn])
            else Ok parts) ;;
  let parts :=
    if truthy (mcc params)
    then parts ++ [lit "mc=" ++ str_or_empty (mcc params)]
    else parts in
  parts <- (if truthy (txnRefId params)
            then tr <- encodeURIComponent (str_or_empty (txnRefId params)) ;;
                 Ok (parts ++ [lit "tr=" ++ tr])
            else Ok parts) ;;
  Ok parts.

Definition buildUpiUri (params : UpiQrParams) : result jsstring :=
  parts <- buildUpiUri_parts params ;;
  Ok (join (lit "&") parts).

(** ** Module state and the monad of the encoder *)

(** The two module-level arrays.  They are created by [new Array(256)], so
    every element starts as a hole. *)
Record module_state : Type := {
  EXP_TABLE : list jsval;
  LOG_TABLE : list jsval
}.

Definition fresh_module : module_state :=
  {| EXP_TABLE := repeat Undefined 256; LOG_TABLE := repeat Undefined 256 |}.

(** Code that runs against the module state and may throw. *)
Definition M (A : Type) : Type := module_state -> result A * module_state.

Definition retM {A : Type} (a : A) : M A := fun st => (Ok a, st).

Definition bindM {A B : Type} (m : M A) (k : A -> M B) : M B :=
  fun st =>
    match m st with
    | (Ok a, st') => k a st'
    | (Throw e, st') => (Throw e, st')
    end.

Definition liftM {A : Type} (r : result A) : M A := fun st => (r, st).

Notation "x <~ e ;; k" := (bindM e (fun x => k))
  (at level 61, e at next level, right associativity).

Fixpoint forM {A S : Type} (body : A -> S -> M S) (l : list A) (s : S) : M S :=
  match l with
  | [] => retM s
  | x :: l' => s' <~ body x s ;; forM body l' s'
  end.

(** ** Galois field tables *)

(** The immediately-invoked [initGaloisField], run once when the module is
    loaded. *)
Definition initGaloisField (st : module_state) : module_state :=
  let '(_, exp, log) :=
    for_pure 0 256
      (fun i '(x, exp, log) =>
         let exp := arr_set exp i (Num x) in
         let log := arr_set log x (Num i) in
         let x := x * 2 in
         let x := if x >=? 256 then Z.lxor x 285 else x in
         (x, exp, log))
      (1, EXP_TABLE st, LOG_TABLE st) in
  {| EXP_TABLE := exp; LOG_TABLE := log |}.

(** The module state every exported function runs against. *)
Definition loaded_module : module_state :=
  Eval vm_compute in initGaloisField fresh_module.

(** [EXP_TABLE[k]] and [LOG_TABLE[k]]. *)
Definition readEXP (k : jsval) : M jsval :=
  fun st => (Ok (arr_index (EXP_TABLE st) k), st).

Definition readLOG (k : jsval) : M jsval :=
  fun st => (Ok (arr_index (LOG_TABLE st) k), st).

(** [EXP_TABLE[(x + y) % 255]]: when one operand of the sum is [undefined]
    the index is NaN and the read gives [undefined]. *)
Definition sum_rem_255 (x y : jsval) : jsval :=
  match ToNumber x, ToNumber y with
  | Some a, Some b => Num (Z.rem (a + b) 255)
  | _, _ => Undefined
  end.

Definition gfMul (a b : jsval) : M jsval :=
  if strict_eq_num a 0 || strict_eq_num b 0 then retM (Num 0)
  else
    la <~ readLOG a ;;
    lb <~ readLOG b ;;
    readEXP (sum_rem_255 la lb).

(** ** Reed-Solomon *)

Definition rsGenPoly (ecLen : Z) : M (list jsval) :=
  forM
    (fun i poly =>
       newPoly <~
         forM
           (fun j newPoly =>
              let newPoly :=
                arr_set newPoly j (js_xor (arr_get newPoly j) (arr_get poly j)) in
              e <~ readEXP (Num i) ;;
              g <~ gfMul (arr_get poly j) e ;;
              retM (arr_set newPoly (j + 1) (js_xor (arr_get newPoly (j + 1)) g)))
           (zrange 0 (len poly))
           (repeat (Num 0) (Z.to_nat (len poly + 1))) ;;
       retM newPoly)
    (zrange 0 ecLen)
    [Num 1].

(** [new Array(ecLen)] throws a [RangeError] unless [ecLen] is an array
    length, an integer from 0 to 2^32 - 1. *)
Definition rsEncode (data : list jsval) (ecLen : Z) : M (list jsval) :=
  gen <~ rsGenPoly ecLen ;;
  msg <~ liftM (if (ecLen <? 0) || (4294967295 <? ecLen)
                then Throw RangeError
                else Ok (data ++ repeat (Num 0) (Z.to_nat ecLen))) ;;
  msg <~
    forM
      (fun i msg =>
         let coef := arr_get msg i in
         if strict_eq_num coef 0 then retM msg
         else
           forM
             (fun j msg =>
                g <~ gfMul (arr_get gen j) coef ;;
                retM (arr_set msg (i + j) (js_xor (arr_get msg (i + j)) g)))
             (zrange 0 (len gen))
             msg)
      (zrange 0 (len data))
      msg ;;
  retM (skipn (List.length data) msg).

(** ** Version table *)

(** [version, totalCodewords, ecCodewordsPerBlock, group1Blocks,
    group1DataCw, group2Blocks, group2DataCw]. *)
Definition VERSION_TABLE : list (Z * Z * Z * Z * Z * Z * Z) :=
  [ (1, 16, 10, 1, 16, 0, 0);
    (2, 28, 16, 1, 28, 0, 0);
    (3, 44, 26, 1, 44, 0, 0);
    (4, 64, 18, 2, 32, 0, 0);
    (5, 86, 24, 2, 43, 0, 0);
    (6, 108, 16, 4, 27, 0, 0);
    (7, 124, 18, 4, 31, 0, 0);
    (8, 152, 22, 2, 38, 2, 38);
    (9, 180, 22, 3, 36, 2, 36);
    (10, 216, 26, 4, 43, 1, 43) ].

Record version_info : Type := {
  version : Z;
  totalDcw : Z;
  ecCwPerBlock : Z;
  blocks : list (Z * Z)
}.

(** The two [for] loops that push the blocks of group 1, then of group 2. *)
Definition make_blocks (ecPerBlock g1b g1d g2b g2d : Z) : list (Z * Z) :=
  let blocks := for_pure 0 g1b (fun _ bs => bs ++ [(g1d, ecPerBlock)]) [] in
  for_pure 0 g2b (fun _ bs => bs ++ [(g2d, ecPerBlock)]) blocks.

(** [blocks.reduce((s, b) => s + b[0], 0)]. *)
Definition sum_dcw (blocks : list (Z * Z)) : Z :=
  fold_left (fun s b => s + fst b) blocks 0.

(** The [for ... of VERSION_TABLE] loop of [pickVersion]; [None] when the loop
    ends without returning. *)
Fixpoint pickVersion_loop (table : list (Z * Z * Z * Z * Z * Z * Z))
  (dataLen : Z) : option version_info :=
  match table with
  | [] => None
  | (ver, totalCw, ecPerBlock, g1b, g1d, g2b, g2d) :: rest =>
      let blocks := make_blocks ecPerBlock g1b g1d g2b g2d in
      let totalDataCw := sum_dcw blocks in
      let countBits := if ver <=? 9 then 8 else 16 in
      let totalBits := 4 + countBits + dataLen * 8 in
      let totalDataBits := totalDataCw * 8 in
      if totalBits <=? totalDataBits then
        Some {| version := ver; totalDcw := totalCw;
                ecCwPerBlock := ecPerBlock; blocks := blocks |}
      else pickVersion_loop rest dataLen
  end.

Definition pickVersion (dataLen : Z) : version_info :=
  match pickVersion_loop VERSION_TABLE dataLen with
  | Some info => info
  | None =>
      (* Fallback to version 10 *)
      let '(e0, e1, e2, e3, e4, e5, e6) :=
        nth 9 VERSION_TABLE (0, 0, 0, 0, 0, 0, 0) in
      {| version := e0; totalDcw := e1; ecCwPerBlock := e2;
         blocks := make_blocks e2 e3 e4 e5 e6 |}
  end.

(** ** Bit stream *)

Definition padBytes : list jsval := [Num 236; Num 17].

(** [v.toString(2).padStart(8, '0')] for an array element; the elements
    that reach it are non-negative integers, and a method call on
    [undefined] or [null] throws. *)
Definition byte_bits (v : jsval) : result (list bool) :=
  match v with
  | Num z => Ok (padStart0 8 (toString2 z))
  | _ => Throw TypeError
  end.

(** The loop [for (let i = 0; i < bits.length; i += 8)] that cuts the bit
    string into codewords: [i] takes the values [8k] below the length. *)
Definition split_codewords (bits : list bool) : list jsval :=
  map (fun k => Num (parseInt2 (slice bits (8 * k) (8 * k + 8))))
      (zrange 0 ((len bits + 7) / 8)).

Definition encodeDataByte (data : jsstring) (version : Z)
  (blocks : list (Z * Z)) : M (list (list jsval) * list (list jsval)) :=
  let totalDataCw := sum_dcw blocks in
  let countBits := if version <=? 9 then 8 else 16 in
  (* Build bit stream *)
  let bits := [false; true; false; false] in
  let bits := bits ++ padStart0 countBits (toString2 (len data)) in
  let bits :=
    fold_left (fun bits c => bits ++ padStart0 8 (toString2 c)) data bits in
  (* Terminator *)
  let capacity := totalDataCw * 8 in
  let termLen := Z.min 4 (capacity - len bits) in
  bits <~ liftM (if termLen <? 0 then Throw RangeError
                 else Ok (bits ++ repeat false (Z.to_nat termLen))) ;;
  (* Pad to byte boundary *)
  bits <~ liftM (while_loop 8
                   (fun bits => negb (Z.rem (len bits) 8 =? 0))
                   (fun bits => Ok (bits ++ [false]))
                   bits) ;;
  (* Pad bytes *)
  st <~ liftM (while_loop (Z.to_nat capacity)
                 (fun '(bits, padIdx) => len bits <? capacity)
                 (fun '(bits, padIdx) =>
                    b <- byte_bits (arr_get padBytes (Z.rem padIdx 2)) ;;
                    Ok (bits ++ b, padIdx + 1))
                 (bits, 0)) ;;
  let bits := fst st in
  (* Split into codewords *)
  let codewords := split_codewords bits in
  (* Split into data blocks and compute EC for each *)
  r <~ forM
         (fun '(dcw, ecCw) '(dataBlocks, ecBlocks, offset) =>
            let block := slice codewords offset (offset + dcw) in
            ec <~ rsEncode block ecCw ;;
            retM (dataBlocks ++ [block], ecBlocks ++ [ec], offset + dcw))
         blocks
         ([], [], 0) ;;
  let '(dataBlocks, ecBlocks, _) := r in
  retM (dataBlocks, ecBlocks).

(** [Math.max(...blocks.map((b) => b.length))]; lengths are non-negative,
    and for an empty list, where JavaScript gives -Infinity, the loop bound 0
    runs the loop as many times: not at all. *)
Definition max_len (bs : list (list jsval)) : Z :=
  fold_left (fun acc b => Z.max acc (len b)) bs 0.

Definition interleave_pass (bs : list (list jsval)) (result : list jsval)
  : list jsval :=
  for_pure 0 (max_len bs)
    (fun i result =>
       fold_left
         (fun result block =>
            if i <? len block then result ++ [arr_get block i] else result)
         bs result)
    result.

Definition interleave (dataBlocks ecBlocks : list (list jsval)) : list jsval :=
  interleave_pass ecBlocks (interleave_pass dataBlocks []).

(** ** Matrix builder *)

(** Alignment pattern positions per version. *)
Definition ALIGNMENT_POSITIONS : list (Z * list Z) :=
  [ (2, [6; 18]);
    (3, [6; 22]);
    (4, [6; 26]);
    (5, [6; 30]);
    (6, [6; 34]);
    (7, [6; 22; 38]);
    (8, [6; 24; 42]);
    (9, [6; 26; 46]);
    (10, [6; 28; 52]) ].

Fixpoint lookup_positions (tbl : list (Z * list Z)) (v : Z) : option (list Z) :=
  match tbl with
  | [] => None
  | (k, ps) :: tbl' => if k =? v then Some ps else lookup_positions tbl' v
  end.

(** [if (m[r][c] === null) m[r][c] = v]. *)
Definition set_if_null (m : matrix) (r c : Z) (v : jsval) : result matrix :=
  x <- mget m r c ;;
  if is_null x then mset m r c v else Ok m.

Definition drawFinder (size row col : Z) (m : matrix) : result matrix :=
  for_range (-1) 8
    (fun r m =>
       for_range (-1) 8
         (fun c m =>
            let mr := row + r in
            let mc := col + c in
            if (mr <? 0) || (mr >=? size) || (mc <? 0) || (mc >=? size)
            then Ok m
            else if (r =? -1) || (r =? 7) || (c =? -1) || (c =? 7)
            then mset m mr mc (Num 0)
            else if ((r =? 0) || (r =? 6)) || ((c =? 0) || (c =? 6))
                    || ((r >=? 2) && (r <=? 4) && (c >=? 2) && (c <=? 4))
            then mset m mr mc (Num 1)
            else mset m mr mc (Num 0))
         m)
    m.

Definition drawAlignment (row col : Z) (m : matrix) : result matrix :=
  for_range (-2) 3
    (fun r m =>
       for_range (-2) 3
         (fun c m =>
            let val :=
              if (Z.abs r =? 2) || (Z.abs c =? 2) || ((r =? 0) && (c =? 0))
              then 1 else 0 in
            mset m (row + r) (col + c) (Num val))
         m)
    m.

Definition createMatrix (version : Z) : result (matrix * Z) :=
  let size := version * 4 + 17 in
  let m := new_matrix size Null in
  (* Finder patterns *)
  m <- drawFinder size 0 0 m ;;
  m <- drawFinder size 0 (size - 7) m ;;
  m <- drawFinder size (size - 7) 0 m ;;
  (* Timing patterns *)
  m <- for_range 8 (size - 8)
         (fun i m =>
            let v := Num (if Z.rem i 2 =? 0 then 1 else 0) in
            m <- set_if_null m 6 i v ;;
            set_if_null m i 6 v)
         m ;;
  (* Dark module *)
  m <- mset m (size - 8) 8 (Num 1) ;;
  (* Alignment patterns *)
  m <- (if version >=? 2 then
          match lookup_positions ALIGNMENT_POSITIONS version with
          | Some positions =>
              foldM
                (fun row m =>
                   foldM
                     (fun col m =>
                        x <- mget m row col ;;
                        if negb (is_null x) then Ok m
                        else drawAlignment row col m)
                     positions m)
                positions m
          | None => Ok m
          end
        else Ok m) ;;
  (* Reserve format info areas *)
  m <- for_range 0 8
         (fun i m =>
            m <- set_if_null m 8 i (Num 0) ;;
            m <- set_if_null m i 8 (Num 0) ;;
            m <- set_if_null m 8 (size - 1 - i) (Num 0) ;;
            set_if_null m (size - 1 - i) 8 (Num 0))
         m ;;
  m <- set_if_null m 8 8 (Num 0) ;;
  Ok (m, size).

(** ** Data placer *)

(** The state of the loops of [placeData].  [pl_written] is bookkeeping of
    the embedding: the cells assigned so far, latest first. *)
Record place_state : Type := {
  pl_col : Z;
  pl_matrix : matrix;
  pl_bitIdx : Z;
  pl_upward : bool;
  pl_written : list (Z * Z)
}.

(** [bits[k]] parsed as a digit, 0 past the end. *)
Definition bit_at (bits : list bool) (k : Z) : jsval :=
  if k <? len bits
  then Num (if nth (Z.to_nat k) bits false then 1 else 0)
  else Num 0.

(** The body of [for (let c = 0; c < 2; c++)]. *)
Definition place_cell (bits : list bool) (row col c : Z) (st : place_state)
  : result place_state :=
  let cc := col - c in
  x <- mget (pl_matrix st) row cc ;;
  if negb (is_null x) then Ok st
  else
    m <- mset (pl_matrix st) row cc (bit_at bits (pl_bitIdx st)) ;;
    Ok {| pl_col := pl_col st; pl_matrix := m;
          pl_bitIdx := pl_bitIdx st + 1; pl_upward := pl_upward st;
          pl_written := (row, cc) :: pl_written st |}.

(** [Array.from({ length: size }, (_, i) => size - 1 - i)] or
    [Array.from({ length: size }, (_, i) => i)]. *)
Definition place_rows (size : Z) (upward : bool) : list Z :=
  if upward then map (fun i => size - 1 - i) (zrange 0 size)
  else zrange 0 size.

(** One iteration of the column loop, with its update [col -= 2]. *)
Definition place_column (bits : list bool) (size : Z) (st : place_state)
  : result place_state :=
  let col := if pl_col st =? 6 then 5 else pl_col st in
  st <- foldM
          (fun row st => for_range 0 2 (place_cell bits row col) st)
          (place_rows size (pl_upward st)) st ;;
  Ok {| pl_col := col - 2; pl_matrix := pl_matrix st;
        pl_bitIdx := pl_bitIdx st; pl_upward := negb (pl_upward st);
        pl_written := pl_written st |}.

Definition data_bits (data : list jsval) : result (list bool) :=
  foldM (fun byte bits => b <- byte_bits byte ;; Ok (bits ++ b)) data [].

Definition placeData_run (m : matrix) (size : Z) (data : list jsval)
  : result place_state :=
  bits <- data_bits data ;;
  while_loop (Z.to_nat size)
    (fun st => pl_col st >=? 1)
    (place_column bits size)
    {| pl_col := size - 1; pl_matrix := m; pl_bitIdx := 0;
       pl_upward := true; pl_written := [] |}.

(** [placeData] mutates its argument; the embedding returns the matrix. *)
Definition placeData (m : matrix) (size : Z) (data : list jsval)
  : result matrix :=
  st <- placeData_run m size data ;;
  Ok (pl_matrix st).

(** ** Masker and format writer *)

(** The first double loop of [applyMask]: [result[r][c] = matrix[r][c] ?? 0]. *)
Definition applyMask_copy (m : matrix) (size : Z) : result matrix :=
  for_range 0 size
    (fun r res =>
       for_range 0 size
         (fun c res =>
            x <- mget m r c ;;
            mset res r c (nullish_or x (Num 0)))
         res)
    (new_matrix size (Num 0)).

Definition maskFn (r c : Z) : bool := Z.rem (r + c) 2 =? 0.

(** The second double loop: [result[r][c] ^= 1] where the template is unset
    and the mask function holds. *)
Definition applyMask_mask (template res : matrix) (size : Z) : result matrix :=
  for_range 0 size
    (fun r res =>
       for_range 0 size
         (fun c res =>
            t <- mget template r c ;;
            if is_null t && maskFn r c then
              x <- mget res r c ;;
              mset res r c (js_xor x (Num 1))
            else Ok res)
         res)
    res.

(** ['101010000010010'], one digit per element. *)
Definition formatBits : list Z := [1; 0; 1; 0; 1; 0; 0; 0; 0; 0; 1; 0; 0; 1; 0].

(** [parseInt(formatBits[k], 10)]; every index the module uses is in the
    string. *)
Definition formatBit (k : Z) : jsval := Num (nth (Z.to_nat k) formatBits 0).

Definition hPositions : list (Z * Z) :=
  [(8, 0); (8, 1); (8, 2); (8, 3); (8, 4); (8, 5); (8, 7); (8, 8)].

Definition vPositions : list (Z * Z) :=
  [(7, 8); (5, 8); (4, 8); (3, 8); (2, 8); (1, 8); (0, 8)].

(** [const [r, c] = positions[i]]: destructuring [undefined] throws. *)
Definition position_at (ps : list (Z * Z)) (i : Z) : result (Z * Z) :=
  match nth_error ps (Z.to_nat i) with
  | Some p => Ok p
  | None => Throw TypeError
  end.

(** The four loops that write the format information. *)
Definition applyMask_format (res : matrix) (size : Z) : result matrix :=
  res <- for_range 0 8
           (fun i res =>
              p <- position_at hPositions i ;;
              mset res (fst p) (snd p) (formatBit i))
           res ;;
  res <- for_range 0 7
           (fun i res =>
              p <- position_at vPositions i ;;
              mset res (fst p) (snd p) (formatBit (14 - i)))
           res ;;
  (* Right side *)
  res <- for_range 0 7
           (fun i res => mset res 8 (size - 1 - i) (formatBit i))
           res ;;
  (* Bottom side *)
  for_range 0 8
    (fun i res => mset res (size - 8 + i) 8 (formatBit (14 - i)))
    res.

Definition applyMask (m : matrix) (size : Z) : result matrix :=
  res <- applyMask_copy m size ;;
  (* Re-create to know which are data modules; [(size - 17) / 4] is the
     floor of the quotient *)
  t <- createMatrix ((size - 17) / 4) ;;
  res <- applyMask_mask (fst t) res size ;;
  applyMask_format res size.

Definition generateQrMatrix (data : jsstring) : M matrix :=
  let info := pickVersion (len data) in
  b <~ encodeDataByte data (version info) (blocks info) ;;
  let interleaved := interleave (fst b) (snd b) in
  liftM (t <- createMatrix (version info) ;;
         m <- placeData (fst t) (snd t) interleaved ;;
         applyMask m (snd t)).

(** ** SVG renderer *)

Definition qrToSvg (m : matrix) (moduleSize quietZone : Z) : result jsstring :=
  let size := len m in
  let fullSize := (size + quietZone * 2) * moduleSize in
  paths <- for_range 0 size
             (fun r paths =>
                for_range 0 size
                  (fun c paths =>
                     x <- mget m r c ;;
                     if strict_eq_num x 1 then
                       let x := (c + quietZone) * moduleSize in
                       let y := (r + quietZone) * moduleSize in
                       Ok (paths ++ lit "M" ++ toString10 x ++ lit ","
                             ++ toString10 y ++ lit "h" ++ toString10 moduleSize
                             ++ lit "v" ++ toString10 moduleSize ++ lit "h-"
                             ++ toString10 moduleSize ++ lit "z")
                     else Ok paths)
                  paths)
             [] ;;
  Ok (join []
        [ lit "<svg xmlns=" ++ dq ++ lit "http://www.w3.org/2000/svg" ++ dq
            ++ lit " viewBox=" ++ dq ++ lit "0 0 " ++ toString10 fullSize
            ++ lit " " ++ toString10 fullSize ++ dq
            ++ lit " width=" ++ dq ++ toString10 fullSize ++ dq
            ++ lit " height=" ++ dq ++ toString10 fullSize ++ dq ++ lit ">";
          lit "<rect width=" ++ dq ++ toString10 fullSize ++ dq
            ++ lit " height=" ++ dq ++ toString10 fullSize ++ dq
            ++ lit " fill=" ++ dq ++ lit "white" ++ dq ++ lit "/>";
          lit "<path d=" ++ dq ++ paths ++ dq
            ++ lit " fill=" ++ dq ++ lit "black" ++ dq ++ lit "/>";
          lit "</svg>" ]).

(** ** Public API *)

(** [window_defined] is the outcome of [typeof window !== 'undefined']: the
    browser path uses [btoa], the server path [Buffer]. *)
Definition generateUpiQrCode (window_defined : bool) (params : UpiQrParams)
  : M jsstring :=
  uri <~ liftM (buildUpiUri params) ;;
  m <~ generateQrMatrix uri ;;
  svg <~ liftM (qrToSvg m 4 4) ;;
  if window_defined then
    b <~ liftM (btoa svg) ;;
    retM (lit "data:image/svg+xml;base64," ++ b)
  else
    retM (lit "data:image/svg+xml;base64," ++ buffer_base64 svg).

(** ** UPI id validator *)

(** The WhiteSpace and LineTerminator code units removed by [trim]. *)
Definition is_space (c : Z) : bool :=
  in_range 9 13 c
  || existsb (Z.eqb c) [32; 160; 5760; 8232; 8233; 8239; 8287; 12288; 65279]
  || in_range 8192 8202 c.

Fixpoint trimStart (s : jsstring) : jsstring :=
  match s with
  | [] => []
  | c :: s' => if is_space c then trimStart s' else s
  end.

Definition trim (s : jsstring) : jsstring :=
  rev (trimStart (rev (trimStart s))).

(** The regular expressions the validator needs: a character class, a
    sequence, and a greedy bounded repetition [r{0,n}]. *)
Inductive regex : Type :=
| Class (p : Z -> bool)
| Cat (r1 r2 : regex)
| Upto (n : nat) (r : regex).

(** The greedy repetition [{0,n}] of a matcher [m]: try one more round of
    [m], and fall back on stopping here. *)
Fixpoint upto_loop (m : jsstring -> (jsstring -> bool) -> bool)
  (k : jsstring -> bool) (n : nat) (s : jsstring) : bool :=
  match n with
  | O => k s
  | S n' => m s (fun s' => upto_loop m k n' s') || k s
  end.

(** Backtracking matcher in continuation-passing style: [rmatch r s k] tries
    every way [r] can match a prefix of [s], the greedy way first, and asks
    the continuation [k] about the rest. *)
Fixpoint rmatch (r : regex) (s : jsstring) (k : jsstring -> bool) : bool :=
  match r with
  | Class p =>
      match s with
      | c :: s' => p c && k s'
      | [] => false
      end
  | Cat r1 r2 => rmatch r1 s (fun s' => rmatch r2 s' k)
  | Upto n r1 => upto_loop (rmatch r1) k n s
  end.

(** [/^r$/.test(s)]: with the anchor [^] and no flag only a match starting at
    index 0 counts, and [$] asks for the end of the input. *)
Definition regex_test (r : regex) (s : jsstring) : bool :=
  rmatch r s (fun rest => match rest with [] => true | _ => false end).

Definition is_char (x : Z) (c : Z) : bool := c =? x.

(** [[a-zA-Z0-9._-]]. *)
Definition is_local_char (c : Z) : bool :=
  is_alnum c || existsb (Z.eqb c) [46; 95; 45].

(** [/^[a-zA-Z0-9][a-zA-Z0-9._-]{0,49}@[a-zA-Z][a-zA-Z0-9]{0,49}$/]. *)
Definition upi_regex : regex :=
  Cat (Class is_alnum)
    (Cat (Upto 49 (Class is_local_char))
       (Cat (Class (is_char 64))
          (Cat (Class is_alpha) (Upto 49 (Class is_alnum))))).

Record validation : Type := {
  valid : bool;
  message : option jsstring
}.

(** [(trimmed.match(/@/g) || []).length]. *)
Definition atCount (s : jsstring) : Z :=
  len (filter (is_char 64) s).

Definition validateUpiId (upiId : jsstring) : validation :=
  if is_nil upiId || is_nil (trim upiId)
  then {| valid := false; message := Some (lit "UPI ID is required") |}
  else
    let trimmed := trim upiId in
    (* Must contain exactly one @ *)
    if negb (atCount trimmed =? 1) then
      {| valid := false;
         message := Some (lit "UPI ID must contain exactly one @ symbol (e.g. name@upi)") |}
    else if negb (regex_test upi_regex trimmed) then
      {| valid := false;
         message := Some (lit "Invalid UPI ID format. Expected: username@handle (e.g. merchant@upi, john.doe@oksbi)") |}
    else {| valid := true; message := None |}.

(** ** The payment form, [src/unnamed/part_001] *)

(** What the UPI code of the form reads from its state: whether the payment
    method is ['upi'], the text of the UPI id field, and the amount.  The
    form passes [amount > 0 ? amount : undefined], a test that agrees with the
    one [buildUpiUri] makes. *)
Record upi_form : Type := {
  form_method_upi : bool;
  form_upiId : jsstring;
  form_amount : jsnumber
}.

Definition form_amount_param (f : upi_form) : option jsnumber :=
  if positive_amount (form_amount f) then Some (form_amount f) else None.

(** [upiValidResult]. *)
Definition upiValidResult (f : upi_form) : validation :=
  if negb (form_method_upi f) || is_nil (form_upiId f)
  then {| valid := false; message := Some (lit "UPI ID is required") |}
  else validateUpiId (form_upiId f).

(** The parameters of the QR code of the form. *)
Definition form_qr_params (f : upi_form) : UpiQrParams :=
  {| vpa := trim (form_upiId f);
     payeeName := Some (lit "Pay Simul Test");
     amount := form_amount_param f;
     currency := Some (lit "INR");
     note := Some (lit "Payment Simulation");
     mcc := None;
     txnRefId := None |}.

(** [try { return e } catch { return null }]: every exception is caught; a
    loop of the embedding that runs out of fuel is not an exception. *)
Definition catch_null {A : Type} (m : M A) : M (option A) :=
  fun st =>
    match m st with
    | (Ok a, st') => (Ok (Some a), st')
    | (Throw Diverged, st') => (Throw Diverged, st')
    | (Throw _, st') => (Ok None, st')
    end.

(** [upiQrDataUri]; [None] is [null]. *)
Definition upiQrDataUri (window_defined : bool) (f : upi_form)
  : M (option jsstring) :=
  if negb (form_method_upi f) || negb (valid (upiValidResult f))
  then retM None
  else catch_null (generateUpiQrCode window_defined (form_qr_params f)).

(** The [upiUri] the form appends to the payload when the method is ['upi']
    and the id field is not empty; [None] when it appends nothing. *)
Definition form_upiUri (f : upi_form) : option (result jsstring) :=
  if form_method_upi f && negb (is_nil (form_upiId f))
  then Some (buildUpiUri
               {| vpa := trim (form_upiId f);
                  payeeName := None;
                  amount := form_amount_param f;
                  currency := Some (lit "INR");
                  note := None;
                  mcc := None;
                  txnRefId := None |})
  else None.

(* ================================================================== *)
(** * Part III: notions used to state the properties                   *)
(* ================================================================== *)

(** ** Version table rows *)

Definition row_version (row : Z * Z * Z * Z * Z * Z * Z) : Z :=
  let '(ver, _, _, _, _, _, _) := row in ver.

Definition row_blocks (row : Z * Z * Z * Z * Z * Z * Z) : list (Z * Z) :=
  let '(_, _, ecPerBlock, g1b, g1d, g2b, g2d) := row in
  make_blocks ecPerBlock g1b g1d g2b g2d.

(** The record [pickVersion] returns for a row. *)
Definition row_info (row : Z * Z * Z * Z * Z * Z * Z) : version_info :=
  let '(ver, totalCw, ecPerBlock, _, _, _, _) := row in
  {| version := ver; totalDcw := totalCw; ecCwPerBlock := ecPerBlock;
     blocks := row_blocks row |}.

(** Required bits against available bits, as [pickVersion] compares them. *)
Definition row_fits (row : Z * Z * Z * Z * Z * Z * Z) (dataLen : Z) : bool :=
  4 + (if row_version row <=? 9 then 8 else 16) + dataLen * 8
  <=? sum_dcw (row_blocks row) * 8.

(** What the block list of a record sums to, checked against the field
    [totalDcw]: equal below version 10, one short at version 10. *)
Definition block_sum_matches (info : version_info) : bool :=
  sum_dcw (blocks info)
  =? (if version info =? 10 then totalDcw info - 1 else totalDcw info).

(** The rows of a table come in increasing version order and no version
    exceeds [top]. *)
Fixpoint versions_ascend (top : Z) (table : list (Z * Z * Z * Z * Z * Z * Z))
  : Prop :=
  match table with
  | [] => True
  | row :: rest =>
      row_version row <= top
      /\ Forall (fun r => row_version row <= row_version r) rest
      /\ versions_ascend top rest
  end.

(** The version selected when the loop over a table ends in [o], with [top]
    the version of the fallback. *)
Definition loop_version (top : Z) (o : option version_info) : Z :=
  match o with
  | Some info => version info
  | None => top
  end.

(** The longest payload a row accepts. *)
Definition row_max_len (row : Z * Z * Z * Z * Z * Z * Z) : Z :=
  (sum_dcw (row_blocks row) * 8 - 4 - (if row_version row <=? 9 then 8 else 16))
  / 8.

(** ** Equality tests on values *)

Definition jsval_eqb (x y : jsval) : bool :=
  match x, y with
  | Undefined, Undefined => true
  | Null, Null => true
  | Num a, Num b => a =? b
  | _, _ => false
  end.

(** ** The field tables, entry by entry *)

(** [LOG_TABLE[a]] is a number between 0 and 255 for every non-zero byte. *)
Definition log_entry_ok (st : module_state) (a : Z) : bool :=
  (a =? 0)
  || match arr_get (LOG_TABLE st) a with
     | Num l => in_range 0 255 l
     | _ => false
     end.

(** [EXP_TABLE[k]] is a byte. *)
Definition exp_entry_ok (st : module_state) (k : Z) : bool :=
  match arr_get (EXP_TABLE st) k with
  | Num z => in_range 0 255 z
  | _ => false
  end.

(** [gfMul(1, a)] is [a]. *)
Definition unit_law_ok (st : module_state) (a : Z) : bool :=
  (a =? 0)
  || match fst (gfMul (Num 1) (Num a) st) with
     | Ok v => jsval_eqb v (Num a)
     | Throw _ => false
     end.

(** ** Shape of a matrix *)

(** [size] rows of [size] cells. *)
Definition square (size : Z) (m : matrix) : Prop :=
  len m = size /\ Forall (fun row => len row = size) m.

Definition squareb (size : Z) (m : matrix) : bool :=
  (len m =? size) && forallb (fun row => len row =? size) m.

(** [createMatrix v] returns [size = v * 4 + 17] and a square matrix of that
    size. *)
Definition template_ok (v : Z) : bool :=
  match createMatrix v with
  | Ok (t, size) => (size =? v * 4 + 17) && squareb size t
  | Throw _ => false
  end.

(** ** Values emitted by the URI builder *)

(** [params.currency ?? 'INR']. *)
Definition currency_text (params : UpiQrParams) : jsstring :=
  match currency params with
  | Some c => c
  | None => lit "INR"
  end.

(** An element pushed under a condition. *)
Definition opt_part (b : bool) (s : jsstring) : list jsstring :=
  if b then [s] else [].

(** [amount.toFixed(2)] when the amount is emitted. *)
Definition amount_text (params : UpiQrParams) : option jsstring :=
  match amount params with
  | Some a => if positive_amount a then Some (toFixed2 a) else None
  | None => None
  end.

(** The element of [parts] for a key is the one that starts with the key and
    [=]; [emits parts key v] says that the value [v] is emitted for [key]. *)
Definition emits (parts : list jsstring) (key : string) (v : jsstring) : Prop :=
  In (lit key ++ v) parts.

(** The property as first stated: the values of the keys pa, pn, tn, mc and
    tr are the percent-encodings of their fields. *)
Definition all_text_values_percent_encoded : Prop :=
  forall (params : UpiQrParams) (parts : list jsstring),
    buildUpiUri_parts params = Ok parts ->
    (forall v, emits parts "upi://pay?pa=" v ->
               encodeURIComponent (vpa params) = Ok v)
    /\ (forall v, emits parts "pn=" v ->
                  encodeURIComponent (str_or_empty (payeeName params)) = Ok v)
    /\ (forall v, emits parts "tn=" v ->
                  encodeURIComponent (str_or_empty (note params)) = Ok v)
    /\ (forall v, emits parts "mc=" v ->
                  encodeURIComponent (str_or_empty (mcc params)) = Ok v)
    /\ (forall v, emits parts "tr=" v ->
                  encodeURIComponent (str_or_empty (txnRefId params)) = Ok v).

(** ** Shape of a UPI id *)

(** [localpart@handle]: the local part is a letter or digit followed by at
    most 49 characters among letters, digits, [.], [_] and [-]; the handle
    is a letter followed by at most 49 letters or digits. *)
Definition upi_shape (s : jsstring) : Prop :=
  exists c0 l h0 h,
    s = (c0 :: l) ++ [64] ++ (h0 :: h)
    /\ is_alnum c0 = true
    /\ (List.length l <= 49)%nat
    /\ forallb is_local_char l = true
    /\ is_alpha h0 = true
    /\ (List.length h <= 49)%nat
    /\ forallb is_alnum h = true.

(** ** Loops that update one cell per iteration *)

(** The body of a double loop over the cells of a matrix with [size] rows,
    when all it does at [(r, c)] is replace the cell by [g r c] of its old
    value. *)
Definition cell_step (size : Z) (step : Z -> Z -> matrix -> result matrix)
  (g : Z -> Z -> jsval -> jsval) : Prop :=
  forall (res : matrix) (r c : Z),
    len res = size -> 0 <= r < size -> 0 <= c ->
    exists res' old,
      mget res r c = Ok old
      /\ step r c res = Ok res'
      /\ len res' = size
      /\ mget res' r c = Ok (g r c old)
      /\ forall r' c', (r', c') <> (r, c) -> mget res' r' c' = mget res r' c'.

(** What the mask pass does to the cell [(r, c)], given the template. *)
Definition mask_cell (template : matrix) (r c : Z) (old : jsval) : jsval :=
  match mget template r c with
  | Ok t => if is_null t && maskFn r c then js_xor old (Num 1) else old
  | Throw _ => old
  end.

(** What the copy pass puts in the cell [(r, c)]. *)
Definition copy_cell (m : matrix) (r c : Z) (old : jsval) : jsval :=
  match mget m r c with
  | Ok x => nullish_or x (Num 0)
  | Throw _ => old
  end.

(** ** Data placement *)

(** The columns the column loop of [placeData] handles when it starts at
    [col], and whether it ends within [fuel] iterations. *)
Fixpoint covered_cols (fuel : nat) (col : Z) : list Z :=
  match fuel with
  | O => []
  | S fuel' =>
      if col >=? 1 then
        let c := if col =? 6 then 5 else col in
        c :: (c - 1) :: covered_cols fuel' (c - 2)
      else []
  end.

Fixpoint loop_ends (fuel : nat) (col : Z) : bool :=
  match fuel with
  | O => negb (col >=? 1)
  | S fuel' =>
      if col >=? 1 then loop_ends fuel' ((if col =? 6 then 5 else col) - 2)
      else true
  end.

(** What holds of the state of [placeData] all along, [m0] being the matrix
    it was called with: the cells written so far are distinct, were unset in
    [m0] and now hold a bit, every other cell is as in [m0], and [bitIdx]
    counts the writes. *)
Definition place_inv (m0 : matrix) (st : place_state) : Prop :=
  len (pl_matrix st) = len m0
  /\ NoDup (pl_written st)
  /\ (forall r c, In (r, c) (pl_written st) ->
        0 <= r < len m0 /\ 0 <= c
        /\ mget m0 r c = Ok Null
        /\ (mget (pl_matrix st) r c = Ok (Num 0)
            \/ mget (pl_matrix st) r c = Ok (Num 1)))
  /\ (forall r c, ~ In (r, c) (pl_written st) ->
        mget (pl_matrix st) r c = mget m0 r c)
  /\ pl_bitIdx st = len (pl_written st).

(** The cell [(r, c)] has been dealt with: written, or fixed from the start. *)
Definition covered (m0 : matrix) (st : place_state) (r c : Z) : Prop :=
  In (r, c) (pl_written st) \/ exists y, mget m0 r c = Ok y /\ y <> Null.

(** One step of placement: the invariant is kept, writes are only added, and
    the loop variables of the column loop are left alone. *)
Definition place_ok (m0 : matrix) (st st' : place_state) : Prop :=
  place_inv m0 st'
  /\ incl (pl_written st) (pl_written st')
  /\ pl_col st' = pl_col st
  /\ pl_upward st' = pl_upward st.

(** A cell of a template is a module value: 0 or 1. *)
Definition is_module (v : jsval) : bool :=
  match v with
  | Num z => (z =? 0) || (z =? 1)
  | _ => false
  end.

(** The facts about [createMatrix v] that placement relies on: it is a square
    of the right size, the column loop ends and stays on columns of the
    matrix, every unset cell lies in a column the loop handles, and every
    other cell holds 0 or 1. *)
Definition placement_template_ok (v : Z) : bool :=
  match createMatrix v with
  | Ok (m0, size) =>
      (size =? v * 4 + 17)
      && squareb size m0
      && loop_ends (Z.to_nat size) (size - 1)
      && forallb (fun c => (0 <=? c) && (c <? size))
           (covered_cols (Z.to_nat size) (size - 1))
      && forallb
           (fun r =>
              forallb
                (fun c =>
                   match mget m0 r c with
                   | Ok Null =>
                       existsb (Z.eqb c) (covered_cols (Z.to_nat size) (size - 1))
                   | Ok x => is_module x
                   | Throw _ => false
                   end)
                (zrange 0 size))
           (zrange 0 size)
  | Throw _ => false
  end.

(** ** Purity *)

(** A computation that leaves the module state as it found it. *)
Definition readonly {A : Type} (m : M A) : Prop :=
  forall st, snd (m st) = st.

(** Code units of the ASCII range. *)
Definition is_ascii (c : Z) : bool := (0 <=? c) && (c <? 128).

(** ** Sample inputs *)

(** A parameter object with only the payee address set. *)
Definition params_of_vpa (v : jsstring) : UpiQrParams :=
  {| vpa := v; payeeName := None; amount := None; currency := None;
     note := None; mcc := None; txnRefId := None |}.

(** A payee address of 193 letters: the URI built from it has 213 code
    units, one more than version 10 holds. *)
Definition overflow_params : UpiQrParams := params_of_vpa (repeat 97 193).

(** A payee address that is a lone high surrogate. *)
Definition lone_surrogate_params : UpiQrParams := params_of_vpa [55296].

(** A currency text of eight euro signs (U+20AC): the URI has 26 code units
    and version 2 is selected, but each euro sign takes 14 bits. *)
Definition wide_currency_params : UpiQrParams :=
  {| vpa := lit "a"; payeeName := None; amount := None;
     currency := Some (repeat 8364 8); note := None; mcc := None;
     txnRefId := None |}.

(** A merchant category code with a space in it. *)
Definition spaced_mcc_params : UpiQrParams :=
  {| vpa := lit "a"; payeeName := None; amount := None; currency := None;
     note := None; mcc := Some (lit "5 1"); txnRefId := None |}.

(** ** Codewords *)

(** A value that is a byte. *)
Definition is_byte (v : jsval) : bool :=
  match v with
  | Num z => in_range 0 255 z
  | _ => false
  end.

(** The eight binary digits of a codeword, as [placeData] spells them. *)
Definition codeword_bits (v : jsval) : list bool :=
  match v with
  | Num z => padStart0 8 (toString2 z)
  | _ => []
  end.

(** The bit string of a sequence of codewords. *)
Definition bits_of (codewords : list jsval) : list bool :=
  flat_map codeword_bits codewords.

(** The count indicator width [pickVersion] and [encodeDataByte] use. *)
Definition count_bits (version : Z) : Z := if version <=? 9 then 8 else 16.

(** Mode indicator, character count and the characters, as
    [encodeDataByte] writes them at the head of the bit string. *)
Definition payload_bits (data : jsstring) (version : Z) : list bool :=
  [false; true; false; false]
  ++ padStart0 (count_bits version) (toString2 (len data))
  ++ flat_map (fun c => padStart0 8 (toString2 c)) data.

(** The slices [encodeDataByte] cuts out of the codewords, block after
    block. *)
Fixpoint block_slices (codewords : list jsval) (blocks : list (Z * Z))
  (offset : Z) : list (list jsval) :=
  match blocks with
  | [] => []
  | (dcw, _) :: rest =>
      slice codewords offset (offset + dcw)
      :: block_slices codewords rest (offset + dcw)
  end.

(** Reading a byte-mode segment back from data codewords: skip the 4 mode
    bits, read the count, then that many 8-bit characters. *)
Definition decode_payload (version : Z) (codewords : list jsval) : jsstring :=
  let bits := bits_of codewords in
  let cb := count_bits version in
  let n := parseInt2 (slice bits 4 (4 + cb)) in
  map (fun k => parseInt2 (slice bits (4 + cb + 8 * k) (4 + cb + 8 * k + 8)))
      (zrange 0 n).

(** A character that byte mode can carry, and the checks of the binary
    conversions on such characters and on the lengths a symbol holds. *)
Definition is_latin1 (c : Z) : bool := in_range 0 255 c.

Definition byte_conversion_ok (c : Z) : bool :=
  (len (padStart0 8 (toString2 c)) =? 8)
  && (parseInt2 (padStart0 8 (toString2 c)) =? c).

Definition count_conversion_ok (n : Z) : bool :=
  (len (padStart0 8 (toString2 n)) =? 8)
  && (parseInt2 (padStart0 8 (toString2 n)) =? n)
  && (len (padStart0 16 (toString2 n)) =? 16)
  && (parseInt2 (padStart0 16 (toString2 n)) =? n).

(** The codewords [interleave] takes in round [i]: the [i]-th of every
    block that has one. *)
Definition column (i : Z) (bs : list (list jsval)) : list jsval :=
  flat_map (fun b => if i <? len b then [arr_get b i] else []) bs.

(** ** The whole symbol *)

(** A row of the version table is usable: version between 1 and 10, block
    sizes non-negative, at most 255 error-correction codewords a block. *)
Definition row_ok (row : Z * Z * Z * Z * Z * Z * Z) : bool :=
  in_range 1 10 (row_version row)
  && forallb (fun b => (0 <=? fst b) && in_range 0 255 (snd b))
       (row_blocks row).

(** The payload, with its mode and count bits, fits the version
    [pickVersion] selects for its length. *)
Definition payload_fits (data : jsstring) : Prop :=
  len (payload_bits data (version (pickVersion (len data))))
  <= sum_dcw (blocks (pickVersion (len data))) * 8.

(** The cells of [placeData], in the order they were written, carry the
    bits of the stream in order (0 past its end). *)
Definition placed_in_order (bits : list bool) (st : place_state) : Prop :=
  forall (k : nat) (r c : Z),
    nth_error (rev (pl_written st)) k = Some (r, c) ->
    mget (pl_matrix st) r c = Ok (bit_at bits (Z.of_nat k)).

(** The cells [applyMask] overwrites with format information, with the bit
    each receives, in the order of the four loops. *)
Definition format_writes (size : Z) : list (Z * Z * jsval) :=
  map (fun i => (fst (nth (Z.to_nat i) hPositions (0, 0)),
                 snd (nth (Z.to_nat i) hPositions (0, 0)), formatBit i))
      (zrange 0 8)
  ++ map (fun i => (fst (nth (Z.to_nat i) vPositions (0, 0)),
                    snd (nth (Z.to_nat i) vPositions (0, 0)),
                    formatBit (14 - i)))
       (zrange 0 7)
  ++ map (fun i => (8, size - 1 - i, formatBit i)) (zrange 0 7)
  ++ map (fun i => (size - 8 + i, 8, formatBit (14 - i))) (zrange 0 8).

(** The value the last write of a list leaves in a cell, if any write
    touches it. *)
Fixpoint last_write (ws : list (Z * Z * jsval)) (r c : Z) : option jsval :=
  match ws with
  | [] => None
  | (r', c', v) :: rest =>
      match last_write rest r c with
      | Some v' => Some v'
      | None => if (r' =? r) && (c' =? c) then Some v else None
      end
  end.

(** The cells of a template that are unset, row by row. *)
Definition null_cells (t : matrix) (size : Z) : list (Z * Z) :=
  filter (fun rc => match mget t (fst rc) (snd rc) with
                    | Ok Null => true
                    | _ => false
                    end)
    (list_prod (zrange 0 size) (zrange 0 size)).

Definition sumZ (l : list Z) : Z := fold_right Z.add 0 l.

(** Data and error-correction codewords of a block list. *)
Definition total_codewords (blocks : list (Z * Z)) : Z :=
  sumZ (map fst blocks) + sumZ (map snd blocks).

(** The template of a row's version has an unset cell for every bit of the
    row's codewords, and none of them is a cell of the format information. *)
Definition row_template_ok (row : Z * Z * Z * Z * Z * Z * Z) : bool :=
  match createMatrix (row_version row) with
  | Ok (t, size) =>
      (8 * total_codewords (row_blocks row) <=? len (null_cells t size))
      && forallb (fun w => match mget t (fst (fst w)) (snd (fst w)) with
                           | Ok x => negb (is_null x)
                           | Throw _ => false
                           end)
           (format_writes size)
  | Throw _ => false
  end.

(** ** The field behind the tables *)

(** Multiplication by the generator 2, with the reduction of
    [initGaloisField]. *)
Definition xtime (x : Z) : Z :=
  let x := x * 2 in if x >=? 256 then Z.lxor x 285 else x.

(** [EXP_TABLE[k]] is a non-zero byte whose logarithm is [k] modulo 255, and
    the next entry is its double. *)
Definition exp_log_ok (st : module_state) (k : Z) : bool :=
  match arr_get (EXP_TABLE st) k with
  | Num z =>
      in_range 1 255 z
      && match arr_get (LOG_TABLE st) z with
         | Num l => in_range 0 255 l && (Z.rem l 255 =? k)
         | _ => false
         end
      && jsval_eqb (arr_get (EXP_TABLE st) (Z.rem (k + 1) 255)) (Num (xtime z))
  | _ => false
  end.

(** [LOG_TABLE[a]] is an exponent that [EXP_TABLE] sends back to [a]. *)
Definition log_exp_ok (st : module_state) (a : Z) : bool :=
  (a =? 0)
  || match arr_get (LOG_TABLE st) a with
     | Num l => jsval_eqb (arr_get (EXP_TABLE st) (Z.rem l 255)) (Num a)
     | _ => false
     end.

(** The number a value holds, the products, powers and logarithms as
    numbers. *)
Definition num_of (v : jsval) : Z :=
  match v with
  | Num z => z
  | _ => 0
  end.

Definition gf (a b : Z) : Z :=
  match fst (gfMul (Num a) (Num b) loaded_module) with
  | Ok v => num_of v
  | Throw _ => 0
  end.

Definition gexp (k : Z) : Z := num_of (arr_get (EXP_TABLE loaded_module) k).

Definition glog (a : Z) : Z := num_of (arr_get (LOG_TABLE loaded_module) a).

(** The double of a byte as the sum of the doubles of its bits. *)
Definition xtime_sum (b : Z) : Z :=
  fold_right
    (fun i acc => Z.lxor (if Z.testbit b i then xtime (2 ^ i) else 0) acc)
    0 [0; 1; 2; 3; 4; 5; 6; 7].

Definition xtime_ok (b : Z) : bool :=
  in_range 0 255 (xtime b) && (xtime b =? xtime_sum b).

(** ** Polynomials over the field *)

(** The numbers of an array of coefficients. *)
Definition vals (l : list jsval) : list Z := map num_of l.

(** The value at [x] of the polynomial with the coefficients [p], highest
    degree first (Horner's rule): sums are [xor], products [gfMul]. *)
Definition poly_eval (p : list Z) (x : Z) : Z :=
  fold_left (fun acc c => Z.lxor (gf acc x) c) p 0.

(** [y] times [x] to the [r]. *)
Definition xpow (x : Z) (r : nat) (y : Z) : Z :=
  Nat.iter r (fun y => gf y x) y.

(** The block [d] followed by [e] is a codeword of the Reed-Solomon code
    with [len e] check symbols: as a polynomial it vanishes at the powers
    [2^0 .. 2^(len e - 1)], the roots of the generator. *)
Definition rs_codeword (d e : list jsval) : Prop :=
  forall r, 0 <= r < len e -> poly_eval (vals (d ++ e)) (gexp r) = 0.

(** ** Text of a URI *)

(** The characters [encodeURIComponent] can emit: the unescaped ones, and
    [%] followed by upper-case hexadecimal digits. *)
Definition is_uri_char (c : Z) : bool := uriUnescaped c || (c =? 37).

(** A string of JavaScript: every code unit is a 16-bit number. *)
Definition wf_string (s : jsstring) : bool := forallb (in_range 0 65535) s.

(** The fields [buildUpiUri] percent-encodes are strings. *)
Definition wf_text_fields (params : UpiQrParams) : Prop :=
  wf_string (vpa params) = true
  /\ wf_string (str_or_empty (payeeName params)) = true
  /\ wf_string (str_or_empty (note params)) = true
  /\ wf_string (str_or_empty (txnRefId params)) = true.

(** The fields [buildUpiUri] copies as they are hold ASCII text. *)
Definition ascii_raw_fields (params : UpiQrParams) : Prop :=
  forallb is_ascii (currency_text params) = true
  /\ forallb is_ascii (str_or_empty (mcc params)) = true
  /\ forall a, amount_text params = Some a -> forallb is_ascii a = true.

(** ** Function patterns *)

Definition cell_is (t : matrix) (r c : Z) (v : jsval) : bool :=
  match mget t r c with
  | Ok x => jsval_eqb x v
  | Throw _ => false
  end.

(** A finder pattern: a dark 7x7 frame around a dark 3x3 centre. *)
Definition finder_module (r c : Z) : Z :=
  if (r =? 0) || (r =? 6) || (c =? 0) || (c =? 6)
     || ((2 <=? r) && (r <=? 4) && (2 <=? c) && (c <=? 4))
  then 1 else 0.

(** A timing pattern alternates, dark on even indices. *)
Definition timing_module (i : Z) : Z := if Z.even i then 1 else 0.

Definition no_format (size r c : Z) : bool :=
  match last_write (format_writes size) r c with
  | None => true
  | Some _ => false
  end.

(** The template of a version holds the three finder patterns and the two
    timing patterns, in cells that the format information leaves alone. *)
Definition template_patterns_ok (v : Z) : bool :=
  match createMatrix v with
  | Ok (t, size) =>
      forallb
        (fun r =>
           forallb
             (fun c =>
                cell_is t r c (Num (finder_module r c))
                && no_format size r c
                && cell_is t r (size - 7 + c) (Num (finder_module r c))
                && no_format size r (size - 7 + c)
                && cell_is t (size - 7 + r) c (Num (finder_module r c))
                && no_format size (size - 7 + r) c)
             (zrange 0 7))
        (zrange 0 7)
      && forallb
           (fun i =>
              cell_is t 6 i (Num (timing_module i))
              && no_format size 6 i
              && cell_is t i 6 (Num (timing_module i))
              && no_format size i 6)
           (zrange 8 (size - 8))
  | Throw _ => false
  end.

(** The two 6x3 areas next to the top-right and bottom-left finder
    patterns are unset in the template. *)
Definition version_area_unset (v : Z) : bool :=
  match createMatrix v with
  | Ok (t, size) =>
      forallb
        (fun r =>
           forallb (fun c => cell_is t r c Null && cell_is t c r Null)
             (zrange (size - 11) (size - 8)))
        (zrange 0 6)
  | Throw _ => false
  end.

(** The alignment positions of a version that lie on the timing patterns,
    between the finder patterns. *)
Definition middle_positions (v : Z) : list Z :=
  match lookup_positions ALIGNMENT_POSITIONS v with
  | Some ps => filter (fun p => (8 <=? p) && (p <? v * 4 + 17 - 8)) ps
  | None => []
  end.

(** Around such a position the rows 4, 5, 7 and 8 (and the columns, on the
    other timing pattern) are unset in the template. *)
Definition timing_alignment_absent (v : Z) : bool :=
  match createMatrix v with
  | Ok (t, size) =>
      forallb
        (fun p =>
           forallb
             (fun r =>
                forallb
                  (fun c => cell_is t r (p + c) Null && cell_is t (p + c) r Null)
                  (zrange (-2) 3))
             [4; 5; 7; 8])
        (middle_positions v)
  | Throw _ => false
  end.

(** ** The SVG document *)





(** ** More sample inputs *)

Definition sample_uri : jsstring := lit "upi://pay?pa=merchant@upi&cu=INR".

Definition sample_form : upi_form :=
  {| form_method_upi := true;
     form_upiId := lit " merchant@upi ";
     form_amount := {| positive_amount := true; toFixed2 := lit "100.00" |} |}.

(* ================================================================== *)
(** * Part IV: properties                                              *)
(* ================================================================== *)

(** ** Ranges *)

Lemma In_zseq (x lo : Z) (n : nat) :
  In x (zseq lo n) <-> lo <= x < lo + Z.of_nat n.
Proof.
  revert lo; induction n as [|n IH]; intros lo; cbn [zseq In].
  - lia.
  - rewrite IH. lia.
Qed.

Lemma In_zrange (x lo hi : Z) : In x (zrange lo hi) <-> lo <= x < hi.
Proof. unfold zrange. rewrite In_zseq. lia. Qed.

(** ** Version selection *)

Lemma pickVersion_loop_cons row rest dataLen :
  pickVersion_loop (row :: rest) dataLen
  = if row_fits row dataLen then Some (row_info row)
    else pickVersion_loop rest dataLen.
Proof.
  destruct row as [[[[[[ver totalCw] ecPerBlock] g1b] g1d] g2b] g2d].
  reflexivity.
Qed.

Lemma pickVersion_loop_some table dataLen info :
  pickVersion_loop table dataLen = Some info ->
  exists row, In row table /\ info = row_info row /\ row_fits row dataLen = true.
Proof.
  induction table as [|row rest IH]; [discriminate|].
  rewrite pickVersion_loop_cons.
  destruct (row_fits row dataLen) eqn:E.
  - intros [= <-]. exists row. cbn. auto.
  - intros H. destruct (IH H) as (r & Hin & Hr). exists r. cbn. auto.
Qed.

Lemma pickVersion_in_table dataLen :
  exists row, In row VERSION_TABLE /\ pickVersion dataLen = row_info row.
Proof.
  unfold pickVersion.
  destruct (pickVersion_loop VERSION_TABLE dataLen) as [info|] eqn:E.
  - destruct (pickVersion_loop_some _ _ _ E) as (row & Hin & -> & _). eauto.
  - exists (10, 216, 26, 4, 43, 1, 43). split; [cbn; tauto | reflexivity].
Qed.

Lemma table_block_sums :
  forallb (fun row => block_sum_matches (row_info row)) VERSION_TABLE = true.
Proof. vm_compute. reflexivity. Qed.

(** C3 (the code departs from the specification).  The block list [pickVersion]
    returns sums to the reported [totalDcw] for versions 1 to 9 only: the row
    of version 10 lists 4 + 1 blocks of 43 data codewords, 215 in all, against
    a reported total of 216.  The first payload length that selects version
    10 is 179; from 213 on the fallback returns the same row. *)
Theorem pickVersion_block_sum :
  (forall dataLen,
      sum_dcw (blocks (pickVersion dataLen))
      = if version (pickVersion dataLen) =? 10
        then totalDcw (pickVersion dataLen) - 1
        else totalDcw (pickVersion dataLen))
  /\ (version (pickVersion 179) = 10
      /\ sum_dcw (blocks (pickVersion 179)) = 215
      /\ totalDcw (pickVersion 179) = 216)
  /\ (pickVersion_loop VERSION_TABLE 213 = None
      /\ sum_dcw (blocks (pickVersion 213)) = 215
      /\ totalDcw (pickVersion 213) = 216).
Proof.
  split; [|split; vm_compute; auto].
  intros dataLen.
  destruct (pickVersion_in_table dataLen) as (row & Hin & ->).
  pose proof table_block_sums as H.
  rewrite forallb_forall in H. specialize (H row Hin).
  unfold block_sum_matches in H. apply Z.eqb_eq in H. exact H.
Qed.

Lemma version_row_info row : version (row_info row) = row_version row.
Proof.
  destruct row as [[[[[[ver totalCw] ecPerBlock] g1b] g1d] g2b] g2d].
  reflexivity.
Qed.

Lemma row_fits_antitone row m n :
  m <= n -> row_fits row n = true -> row_fits row m = true.
Proof.
  unfold row_fits. intros Hmn H.
  apply Z.leb_le in H. apply Z.leb_le. lia.
Qed.

Lemma loop_version_lower top table n row :
  versions_ascend top table ->
  Forall (fun r => row_version row <= row_version r) table ->
  row_version row <= top ->
  row_version row <= loop_version top (pickVersion_loop table n).
Proof.
  induction table as [|r rest IH]; intros Hasc Hall Htop; [exact Htop|].
  rewrite pickVersion_loop_cons.
  destruct Hasc as (_ & _ & Hrest).
  destruct (row_fits r n); cbn [loop_version].
  - rewrite version_row_info. now inversion Hall.
  - apply IH; auto. now inversion Hall.
Qed.

Lemma loop_version_monotonic top table m n :
  versions_ascend top table -> m <= n ->
  loop_version top (pickVersion_loop table m)
  <= loop_version top (pickVersion_loop table n).
Proof.
  intros Hasc Hmn.
  induction table as [|row rest IH]; [cbn; lia|].
  rewrite !pickVersion_loop_cons.
  destruct Hasc as (Hle & Hall & Hrest).
  destruct (row_fits row n) eqn:En.
  - rewrite (row_fits_antitone row m n Hmn En). lia.
  - destruct (row_fits row m) eqn:Em.
    + cbn [loop_version]. rewrite version_row_info.
      apply loop_version_lower; assumption.
    + apply IH, Hrest.
Qed.

Lemma VERSION_TABLE_ascends : versions_ascend 10 VERSION_TABLE.
Proof.
  cbn [versions_ascend VERSION_TABLE].
  repeat match goal with
         | |- _ /\ _ => split
         | |- Forall _ _ => constructor
         | |- True => exact I
         end; cbn [row_version]; lia.
Qed.

Lemma pickVersion_loop_version dataLen :
  version (pickVersion dataLen)
  = loop_version 10 (pickVersion_loop VERSION_TABLE dataLen).
Proof.
  unfold pickVersion.
  destruct (pickVersion_loop VERSION_TABLE dataLen); reflexivity.
Qed.

Lemma loop_version_first top table n row :
  versions_ascend top table -> In row table -> row_fits row n = true ->
  loop_version top (pickVersion_loop table n) <= row_version row.
Proof.
  induction table as [|r rest IH]; intros Hasc Hin Hfit; [destruct Hin|].
  rewrite pickVersion_loop_cons. destruct Hasc as (_ & Hall & Hrest).
  destruct (row_fits r n) eqn:E; cbn [loop_version].
  - rewrite version_row_info. destruct Hin as [->|Hin]; [lia|].
    rewrite Forall_forall in Hall. now apply Hall.
  - destruct Hin as [->|Hin]; [congruence|]. now apply IH.
Qed.

Lemma pickVersion_loop_none table n :
  pickVersion_loop table n = None ->
  forall row, In row table -> row_fits row n = false.
Proof.
  induction table as [|r rest IH]; intros H row Hin; [destruct Hin|].
  rewrite pickVersion_loop_cons in H.
  destruct (row_fits r n) eqn:E; [discriminate|].
  destruct Hin as [->|Hin]; [exact E | now apply IH].
Qed.

(** C8.  A longer payload never selects a smaller version.  The selected
    version is the first of the table, in increasing version order, whose
    capacity covers the required bits: no row that fits has a smaller
    version, and when some row fits the record returned is that of a row
    that fits. *)
Theorem pickVersion_monotonic (m n : Z) :
  m <= n ->
  version (pickVersion m) <= version (pickVersion n)
  /\ (forall row, In row VERSION_TABLE -> row_fits row n = true ->
        version (pickVersion n) <= row_version row)
  /\ ((exists row, In row VERSION_TABLE /\ row_fits row n = true) ->
      exists row, In row VERSION_TABLE /\ row_fits row n = true
                  /\ pickVersion n = row_info row).
Proof.
  intros Hmn. split; [|split].
  - rewrite !pickVersion_loop_version.
    apply loop_version_monotonic; [apply VERSION_TABLE_ascends | exact Hmn].
  - intros row Hin Hfit. rewrite pickVersion_loop_version.
    now apply loop_version_first; [apply VERSION_TABLE_ascends | |].
  - intros (row & Hin & Hfit). unfold pickVersion.
    destruct (pickVersion_loop VERSION_TABLE n) as [info|] eqn:E.
    + destruct (pickVersion_loop_some _ _ _ E) as (r & Hr & -> & Hf). eauto.
    + rewrite (pickVersion_loop_none _ _ E row Hin) in Hfit. discriminate.
Qed.

Lemma pickVersion_monotonic_witness :
  14 <= 200 /\ version (pickVersion 14) <= version (pickVersion 200).
Proof.
  split; [lia | apply (proj1 (pickVersion_monotonic 14 200 ltac:(lia)))].
Defined.

(** ** Galois field *)

Lemma loaded_module_is_init : loaded_module = initGaloisField fresh_module.
Proof. vm_compute. reflexivity. Qed.

Lemma jsval_eqb_eq (x y : jsval) : jsval_eqb x y = true -> x = y.
Proof.
  destruct x, y; cbn; try discriminate; try reflexivity.
  intros H. apply Z.eqb_eq in H. now subst.
Qed.

Lemma in_range_bounds (lo hi z : Z) : in_range lo hi z = true -> lo <= z <= hi.
Proof.
  unfold in_range. intros H. apply andb_prop in H. destruct H as [H1 H2].
  apply Z.leb_le in H1, H2. lia.
Qed.

Lemma sum_rem_255_comm (x y : jsval) : sum_rem_255 x y = sum_rem_255 y x.
Proof.
  unfold sum_rem_255. destruct (ToNumber x), (ToNumber y); try reflexivity.
  now rewrite Z.add_comm.
Qed.

Lemma gfMul_comm (a b : jsval) (st : module_state) : gfMul a b st = gfMul b a st.
Proof.
  unfold gfMul. rewrite orb_comm.
  destruct (strict_eq_num b 0 || strict_eq_num a 0); [reflexivity|].
  unfold bindM, readLOG, readEXP. now rewrite sum_rem_255_comm.
Qed.

Lemma gfMul_zero_r (a : jsval) (st : module_state) :
  gfMul a (Num 0) st = (Ok (Num 0), st).
Proof. unfold gfMul. cbn [strict_eq_num Z.eqb]. now rewrite orb_true_r. Qed.

Lemma log_entries_ok : forallb (log_entry_ok loaded_module) (zrange 0 256) = true.
Proof. vm_compute. reflexivity. Qed.

Lemma exp_entries_ok : forallb (exp_entry_ok loaded_module) (zrange 0 255) = true.
Proof. vm_compute. reflexivity. Qed.

Lemma unit_laws_ok : forallb (unit_law_ok loaded_module) (zrange 0 256) = true.
Proof. vm_compute. reflexivity. Qed.

Lemma log_entry (a : Z) :
  1 <= a <= 255 ->
  exists l, arr_get (LOG_TABLE loaded_module) a = Num l /\ 0 <= l <= 255.
Proof.
  intros Ha. pose proof log_entries_ok as H. rewrite forallb_forall in H.
  specialize (H a (proj2 (In_zrange a 0 256) ltac:(lia))).
  unfold log_entry_ok in H.
  destruct (a =? 0) eqn:E; [apply Z.eqb_eq in E; lia|]. cbn [orb] in H.
  destruct (arr_get (LOG_TABLE loaded_module) a) as [| |l]; try discriminate.
  exists l. split; [reflexivity | now apply in_range_bounds].
Qed.

Lemma exp_entry (k : Z) :
  0 <= k <= 254 ->
  exists z, arr_get (EXP_TABLE loaded_module) k = Num z /\ 0 <= z <= 255.
Proof.
  intros Hk. pose proof exp_entries_ok as H. rewrite forallb_forall in H.
  specialize (H k (proj2 (In_zrange k 0 255) ltac:(lia))).
  unfold exp_entry_ok in H.
  destruct (arr_get (EXP_TABLE loaded_module) k) as [| |z]; try discriminate.
  exists z. split; [reflexivity | now apply in_range_bounds].
Qed.

Lemma gfMul_byte (a b : Z) :
  0 <= a <= 255 -> 0 <= b <= 255 ->
  exists z, gfMul (Num a) (Num b) loaded_module = (Ok (Num z), loaded_module)
            /\ 0 <= z <= 255.
Proof.
  intros Ha Hb. unfold gfMul. cbn [strict_eq_num].
  destruct (a =? 0) eqn:Ea; [exists 0; split; [reflexivity | lia]|].
  destruct (b =? 0) eqn:Eb; [exists 0; split; [reflexivity | lia]|].
  apply Z.eqb_neq in Ea, Eb. cbn [orb].
  unfold bindM, readLOG, readEXP. cbn [arr_index].
  destruct (log_entry a ltac:(lia)) as (la & -> & Hla).
  destruct (log_entry b ltac:(lia)) as (lb & -> & Hlb).
  unfold sum_rem_255. cbn [ToNumber arr_index].
  pose proof (Z.rem_bound_pos (la + lb) 255 ltac:(lia) ltac:(lia)).
  destruct (exp_entry (Z.rem (la + lb) 255) ltac:(lia)) as (z & -> & Hz).
  exists z. split; [reflexivity | exact Hz].
Qed.

(** C7.  On the tables built by [initGaloisField] (reduction constant
    0x11d = 285), for all bytes [a] and [b]: a product with 0 is 0, 1 is a
    left unit on the non-zero bytes, the product is commutative, and it is
    again a byte. *)
Theorem gfMul_laws (a b : Z) :
  0 <= a <= 255 -> 0 <= b <= 255 ->
  fst (gfMul (Num a) (Num 0) (initGaloisField fresh_module)) = Ok (Num 0)
  /\ fst (gfMul (Num 0) (Num a) (initGaloisField fresh_module)) = Ok (Num 0)
  /\ (a <> 0 ->
      fst (gfMul (Num 1) (Num a) (initGaloisField fresh_module)) = Ok (Num a))
  /\ fst (gfMul (Num a) (Num b) (initGaloisField fresh_module))
     = fst (gfMul (Num b) (Num a) (initGaloisField fresh_module))
  /\ exists z, fst (gfMul (Num a) (Num b) (initGaloisField fresh_module))
               = Ok (Num z) /\ 0 <= z <= 255.
Proof.
  intros Ha Hb. rewrite <- loaded_module_is_init.
  split; [|split; [|split; [|split]]].
  - now rewrite gfMul_zero_r.
  - now rewrite gfMul_comm, gfMul_zero_r.
  - intros Hne. pose proof unit_laws_ok as H. rewrite forallb_forall in H.
    specialize (H a (proj2 (In_zrange a 0 256) ltac:(lia))).
    unfold unit_law_ok in H.
    destruct (a =? 0) eqn:E; [apply Z.eqb_eq in E; contradiction|].
    cbn [orb] in H.
    destruct (fst (gfMul (Num 1) (Num a) loaded_module)) as [v|];
      [|discriminate].
    f_equal. now apply jsval_eqb_eq.
  - now rewrite gfMul_comm.
  - destruct (gfMul_byte a b Ha Hb) as (z & -> & Hz).
    exists z. split; [reflexivity | exact Hz].
Qed.

Lemma gfMul_laws_witness :
  fst (gfMul (Num 87) (Num 0) (initGaloisField fresh_module)) = Ok (Num 0)
  /\ fst (gfMul (Num 1) (Num 87) (initGaloisField fresh_module)) = Ok (Num 87)
  /\ fst (gfMul (Num 87) (Num 19) (initGaloisField fresh_module))
     = fst (gfMul (Num 19) (Num 87) (initGaloisField fresh_module)).
Proof.
  pose proof (gfMul_laws 87 19 ltac:(lia) ltac:(lia)) as (H1 & _ & H3 & H4 & _).
  split; [exact H1|]. split; [apply H3; lia | exact H4].
Defined.

(** ** The error monads *)

Lemma bind_Ok {A B : Type} (r : result A) (k : A -> result B) (b : B) :
  bind r k = Ok b -> exists a, r = Ok a /\ k a = Ok b.
Proof. destruct r as [a|e]; cbn; [eauto | discriminate]. Qed.

Lemma bindM_Ok {A B : Type} (m : M A) (k : A -> M B) (b : B)
  (st st' : module_state) :
  bindM m k st = (Ok b, st') ->
  exists a st1, m st = (Ok a, st1) /\ k a st1 = (Ok b, st').
Proof.
  unfold bindM. destruct (m st) as [[a|e] st1]; [eauto | discriminate].
Qed.

Ltac inv_bind H :=
  let a := fresh "x" in
  let Ha := fresh "Hx" in
  apply bind_Ok in H; destruct H as (a & Ha & H).

(** ** Arrays and matrices *)

Lemma nth_set_nth (a : list jsval) (n n' : nat) (v : jsval) :
  nth n' (set_nth a n v) Undefined
  = if Nat.eqb n' n then v else nth n' a Undefined.
Proof.
  revert a n'; induction n as [|n IH]; intros [|x a] [|n']; cbn; auto.
  all: try (destruct n'; reflexivity).
  rewrite IH. destruct (Nat.eqb n' n); [reflexivity | destruct n'; reflexivity].
Qed.

Lemma length_set_nth (a : list jsval) (n : nat) (v : jsval) :
  (n < List.length a)%nat -> List.length (set_nth a n v) = List.length a.
Proof.
  revert a; induction n as [|n IH]; intros [|x a]; cbn; try lia.
  intros H. rewrite IH; lia.
Qed.

Lemma arr_get_set_same (a : list jsval) (i : Z) (v : jsval) :
  0 <= i -> arr_get (arr_set a i v) i = v.
Proof.
  intros Hi. unfold arr_get, arr_set.
  destruct (i <? 0) eqn:E; [apply Z.ltb_lt in E; lia|].
  rewrite nth_set_nth, Nat.eqb_refl. reflexivity.
Qed.

Lemma arr_get_set_other (a : list jsval) (i j : Z) (v : jsval) :
  i <> j -> arr_get (arr_set a i v) j = arr_get a j.
Proof.
  intros Hij. unfold arr_get, arr_set.
  destruct (j <? 0) eqn:Ej; [reflexivity|].
  destruct (i <? 0) eqn:Ei; [reflexivity|].
  apply Z.ltb_ge in Ei, Ej.
  rewrite nth_set_nth.
  destruct (Nat.eqb (Z.to_nat j) (Z.to_nat i)) eqn:E; [|reflexivity].
  apply Nat.eqb_eq in E. lia.
Qed.

Lemma len_arr_set (a : list jsval) (i : Z) (v : jsval) :
  0 <= i < len a -> len (arr_set a i v) = len a.
Proof.
  unfold arr_set, len. intros Hi.
  destruct (i <? 0) eqn:E; [reflexivity|].
  rewrite length_set_nth; lia.
Qed.

Lemma upd_row_some (m : matrix) (n : nat) (f : list jsval -> list jsval) :
  (n < List.length m)%nat -> exists m', upd_row m n f = Some m'.
Proof.
  revert m; induction n as [|n IH]; intros [|row m]; cbn; try lia; eauto.
  intros H. destruct (IH m ltac:(lia)) as (m' & ->). eauto.
Qed.

Lemma upd_row_nth_same (m m' : matrix) (n : nat) f :
  upd_row m n f = Some m' ->
  exists row, nth_error m n = Some row /\ nth_error m' n = Some (f row).
Proof.
  revert m m'; induction n as [|n IH]; intros [|row m] m'; cbn; try discriminate.
  - intros [= <-]. eauto.
  - destruct (upd_row m n f) as [m''|] eqn:E; [|discriminate].
    intros [= <-]. cbn. eauto.
Qed.

Lemma upd_row_nth_other (m m' : matrix) (n n' : nat) f :
  upd_row m n f = Some m' -> n' <> n -> nth_error m' n' = nth_error m n'.
Proof.
  revert m m' n'; induction n as [|n IH]; intros [|row m] m' n'; cbn;
    try discriminate.
  - intros [= <-] Hn. destruct n'; [lia | reflexivity].
  - destruct (upd_row m n f) as [m''|] eqn:E; [|discriminate].
    intros [= <-] Hn. destruct n' as [|n']; [reflexivity|]. cbn.
    eapply IH; [eassumption | lia].
Qed.

Lemma upd_row_length (m m' : matrix) (n : nat) f :
  upd_row m n f = Some m' -> List.length m' = List.length m.
Proof.
  revert m m'; induction n as [|n IH]; intros [|row m] m'; cbn; try discriminate.
  - intros [= <-]. reflexivity.
  - destruct (upd_row m n f) as [m''|] eqn:E; [|discriminate].
    intros [= <-]. cbn. f_equal. eauto.
Qed.

Lemma mset_Ok (m : matrix) (r c : Z) (v : jsval) :
  0 <= r < len m -> exists m', mset m r c v = Ok m'.
Proof.
  intros Hr. unfold mset, len in *.
  destruct (r <? 0) eqn:E; [apply Z.ltb_lt in E; lia|].
  destruct (upd_row_some m (Z.to_nat r) (fun row => arr_set row c v)) as (m' & ->);
    [lia | eauto].
Qed.

Lemma mset_inv (m m' : matrix) (r c : Z) (v : jsval) :
  mset m r c v = Ok m' ->
  0 <= r /\ upd_row m (Z.to_nat r) (fun row => arr_set row c v) = Some m'.
Proof.
  unfold mset. destruct (r <? 0) eqn:E; [discriminate|].
  apply Z.ltb_ge in E.
  destruct (upd_row m (Z.to_nat r) _) as [m''|]; [|discriminate].
  intros [= <-]. auto.
Qed.

Lemma mget_mset_same (m m' : matrix) (r c : Z) (v : jsval) :
  mset m r c v = Ok m' -> 0 <= c -> mget m' r c = Ok v.
Proof.
  intros H Hc. apply mset_inv in H. destruct H as (Hr & H).
  apply upd_row_nth_same in H. destruct H as (row & _ & H).
  unfold mget. destruct (r <? 0) eqn:E; [apply Z.ltb_lt in E; lia|].
  rewrite H, arr_get_set_same; auto.
Qed.

Lemma mget_mset_other_row (m m' : matrix) (r c r' c' : Z) (v : jsval) :
  mset m r c v = Ok m' -> r' <> r -> mget m' r' c' = mget m r' c'.
Proof.
  intros H Hr'. apply mset_inv in H. destruct H as (Hr & H).
  unfold mget. destruct (r' <? 0) eqn:E; [reflexivity|].
  apply Z.ltb_ge in E.
  rewrite (upd_row_nth_other _ _ _ (Z.to_nat r') _ H); [reflexivity | lia].
Qed.

Lemma mget_mset_other_col (m m' : matrix) (r c c' : Z) (v : jsval) :
  mset m r c v = Ok m' -> c' <> c -> mget m' r c' = mget m r c'.
Proof.
  intros H Hc'. apply mset_inv in H. destruct H as (Hr & H).
  apply upd_row_nth_same in H. destruct H as (row & H1 & H2).
  unfold mget. destruct (r <? 0); [reflexivity|].
  rewrite H1, H2, arr_get_set_other; auto.
Qed.

Lemma mget_mset_other (m m' : matrix) (r c r' c' : Z) (v : jsval) :
  mset m r c v = Ok m' -> (r', c') <> (r, c) -> mget m' r' c' = mget m r' c'.
Proof.
  intros H Hne.
  destruct (Z.eq_dec r' r) as [->|Hr].
  - eapply mget_mset_other_col; [eassumption | congruence].
  - eapply mget_mset_other_row; eassumption.
Qed.

Lemma len_mset (m m' : matrix) (r c : Z) (v : jsval) :
  mset m r c v = Ok m' -> len m' = len m.
Proof.
  intros H. apply mset_inv in H. destruct H as (_ & H).
  unfold len. now rewrite (upd_row_length _ _ _ _ H).
Qed.

(** ** Capacity overflow *)

Lemma row_fits_max_len row n : row_fits row n = true -> n <= row_max_len row.
Proof.
  unfold row_fits, row_max_len. intros H. apply Z.leb_le in H.
  apply Z.div_le_lower_bound; lia.
Qed.

Lemma table_max_len :
  forallb (fun row => row_max_len row <=? 212) VERSION_TABLE = true.
Proof. vm_compute. reflexivity. Qed.

Lemma pickVersion_loop_overflow n :
  213 <= n -> pickVersion_loop VERSION_TABLE n = None.
Proof.
  intros Hn.
  destruct (pickVersion_loop VERSION_TABLE n) as [info|] eqn:E; [|reflexivity].
  destruct (pickVersion_loop_some _ _ _ E) as (row & Hin & _ & Hfit).
  apply row_fits_max_len in Hfit.
  pose proof table_max_len as H. rewrite forallb_forall in H.
  specialize (H row Hin). apply Z.leb_le in H. lia.
Qed.

(** The fallback is taken exactly from 213 code units on. *)
Lemma pickVersion_loop_fallback_iff n :
  pickVersion_loop VERSION_TABLE n = None <-> 213 <= n.
Proof.
  split; [|apply pickVersion_loop_overflow].
  intros H. destruct (Z_lt_le_dec n 213) as [Hlt|Hge]; [|exact Hge].
  pose proof (pickVersion_loop_none _ _ H (10, 216, 26, 4, 43, 1, 43)) as Hrow.
  assert (Hfit : row_fits (10, 216, 26, 4, 43, 1, 43) n = true).
  { unfold row_fits.
    change (sum_dcw (row_blocks (10, 216, 26, 4, 43, 1, 43))) with 215.
    change (row_version (10, 216, 26, 4, 43, 1, 43)) with 10.
    change (10 <=? 9) with false. cbv iota. apply Z.leb_le. lia. }
  rewrite Hrow in Hfit; [discriminate | cbn; tauto].
Qed.

Lemma pickVersion_overflow n :
  213 <= n ->
  pickVersion n
  = {| version := 10; totalDcw := 216; ecCwPerBlock := 26;
       blocks := [(43, 26); (43, 26); (43, 26); (43, 26); (43, 26)] |}.
Proof.
  intros Hn. unfold pickVersion. rewrite (pickVersion_loop_overflow n Hn).
  reflexivity.
Qed.

Lemma len_app {A : Type} (l1 l2 : list A) : len (l1 ++ l2) = len l1 + len l2.
Proof. unfold len. rewrite length_app. lia. Qed.

Lemma len_repeat {A : Type} (x : A) (n : nat) : len (repeat x n) = Z.of_nat n.
Proof. unfold len. now rewrite repeat_length. Qed.

Lemma len_nonneg {A : Type} (l : list A) : 0 <= len l.
Proof. unfold len. lia. Qed.

Lemma len_padStart0 (k : Z) (s : list bool) : k <= len (padStart0 k s).
Proof.
  unfold padStart0. rewrite len_app, len_repeat.
  pose proof (len_nonneg s). lia.
Qed.

Lemma len_payload_bits (data : jsstring) (bits : list bool) :
  len bits + 8 * len data
  <= len (fold_left (fun bits c => bits ++ padStart0 8 (toString2 c)) data bits).
Proof.
  revert bits; induction data as [|c data IH]; intros bits; cbn [fold_left].
  - change (len (@nil Z)) with 0. lia.
  - specialize (IH (bits ++ padStart0 8 (toString2 c))).
    rewrite len_app in IH. pose proof (len_padStart0 8 (toString2 c)).
    assert (len (c :: data) = 1 + len data)
      by (unfold len; cbn [List.length]; lia).
    lia.
Qed.

Lemma encodeDataByte_overflow (data : jsstring) (st : module_state) :
  213 <= len data ->
  encodeDataByte data 10 [(43, 26); (43, 26); (43, 26); (43, 26); (43, 26)] st
  = (Throw RangeError, st).
Proof.
  intros Hn. unfold encodeDataByte.
  change (sum_dcw [(43, 26); (43, 26); (43, 26); (43, 26); (43, 26)] * 8)
    with 1720.
  change (if 10 <=? 9 then 8 else 16) with 16.
  cbv zeta.
  match goal with
  | |- context [Z.min 4 (1720 - len ?bits) <? 0] =>
      pose proof (len_payload_bits data
                    ([false; true; false; false]
                       ++ padStart0 16 (toString2 (len data)))) as Hlen;
      assert (Hneg : (Z.min 4 (1720 - len bits) <? 0) = true)
  end.
  { apply Z.ltb_lt. rewrite len_app in Hlen.
    pose proof (len_padStart0 16 (toString2 (len data))).
    change (len [false; true; false; false]) with 4 in Hlen. lia. }
  rewrite Hneg. reflexivity.
Qed.

Lemma generateQrMatrix_overflow (data : jsstring) (st : module_state) :
  213 <= len data -> generateQrMatrix data st = (Throw RangeError, st).
Proof.
  intros Hn. unfold generateQrMatrix. rewrite (pickVersion_overflow _ Hn).
  cbn [version blocks]. unfold bindM.
  rewrite (encodeDataByte_overflow data st Hn). reflexivity.
Qed.

(** C1 (the code departs from the specification).  Whenever the URI built from the
    parameters has 213 code units or more, so that no tabulated version
    holds it, [generateUpiQrCode] throws a RangeError instead of returning a
    data URI: [pickVersion] falls back to version 10, and [encodeDataByte]
    then asks [repeat] for a negative number of terminator bits. *)
Theorem generateUpiQrCode_overflow_throws (window_defined : bool)
  (params : UpiQrParams) (uri : jsstring) (st : module_state) :
  buildUpiUri params = Ok uri ->
  213 <= len uri ->
  generateUpiQrCode window_defined params st = (Throw RangeError, st).
Proof.
  intros Huri Hn. unfold generateUpiQrCode, bindM, liftM.
  rewrite Huri, (generateQrMatrix_overflow uri st Hn). reflexivity.
Qed.

Lemma overflow_params_uri :
  buildUpiUri overflow_params
  = Ok (lit "upi://pay?pa=" ++ repeat 97 193 ++ lit "&cu=INR").
Proof. vm_compute. reflexivity. Qed.

Lemma generateUpiQrCode_overflow_throws_witness :
  generateUpiQrCode true overflow_params loaded_module
  = (Throw RangeError, loaded_module).
Proof.
  apply (generateUpiQrCode_overflow_throws true overflow_params
           (lit "upi://pay?pa=" ++ repeat 97 193 ++ lit "&cu=INR")
           loaded_module).
  - exact overflow_params_uri.
  - vm_compute. discriminate.
Defined.

(** Two more inputs on which the entry point throws: [encodeURIComponent]
    rejects a lone surrogate, and a code unit above 255 takes more than the
    8 bits [pickVersion] counted for it. *)
Lemma generateUpiQrCode_lone_surrogate_throws (window_defined : bool) :
  generateUpiQrCode window_defined lone_surrogate_params loaded_module
  = (Throw URIError, loaded_module).
Proof. destruct window_defined; vm_compute; reflexivity. Qed.

Lemma generateUpiQrCode_wide_currency_throws (window_defined : bool) :
  version (pickVersion 26) = 2
  /\ generateUpiQrCode window_defined wide_currency_params loaded_module
     = (Throw RangeError, loaded_module).
Proof. destruct window_defined; vm_compute; auto. Qed.

(** ** The dark module *)

Lemma createMatrix_size (v : Z) (m : matrix) (size : Z) :
  createMatrix v = Ok (m, size) -> size = v * 4 + 17.
Proof.
  unfold createMatrix. intros H.
  repeat inv_bind H. now inversion H.
Qed.

Lemma foldM_mset_other_rows {A : Type} (f g : A -> Z) (h : A -> jsval)
  (l : list A) (res m : matrix) (r c : Z) :
  foldM (fun i res => mset res (f i) (g i) (h i)) l res = Ok m ->
  Forall (fun i => f i <> r) l ->
  mget m r c = mget res r c.
Proof.
  revert res; induction l as [|i l IH]; intros res H Hall; cbn [foldM] in H.
  - now inversion H.
  - inv_bind H. inversion Hall as [|? ? Hi Hl]; subst.
    rewrite (IH _ H Hl).
    eapply mget_mset_other_row; eauto.
Qed.

Lemma bottom_strip_dark_cell (res m : matrix) (size : Z) :
  for_range 0 8 (fun i res => mset res (size - 8 + i) 8 (formatBit (14 - i))) res
  = Ok m ->
  mget m (size - 8) 8 = Ok (Num 0).
Proof.
  unfold for_range. change (zrange 0 8) with (0 :: zrange 1 8).
  cbn [foldM]. intros H. inv_bind H.
  rewrite (foldM_mset_other_rows (fun i => size - 8 + i) (fun _ => 8)
             (fun i => formatBit (14 - i)) _ _ _ (size - 8) 8 H).
  - replace (size - 8 + 0) with (size - 8) in Hx by lia.
    apply (mget_mset_same _ _ _ _ _ Hx). lia.
  - apply Forall_forall. intros i Hi. apply In_zrange in Hi. lia.
Qed.

Lemma applyMask_dark_cell (m res : matrix) (size : Z) :
  applyMask m size = Ok res -> mget res (size - 8) 8 = Ok (Num 0).
Proof.
  unfold applyMask. intros H. do 3 inv_bind H.
  unfold applyMask_format in H. do 3 inv_bind H.
  now apply bottom_strip_dark_cell in H.
Qed.

(** C2 (the code departs from the specification).  In every matrix that
    [generateQrMatrix] returns, the cell at row [size - 8], column 8 is 0:
    [createMatrix] sets the dark module to 1, but the last loop of
    [applyMask] starts at row [size - 8] and overwrites it with
    [formatBits[14]], which is 0. *)
Theorem generateQrMatrix_dark_module_is_light (data : jsstring)
  (st st' : module_state) (m : matrix) :
  generateQrMatrix data st = (Ok m, st') ->
  mget m (version (pickVersion (len data)) * 4 + 17 - 8) 8 = Ok (Num 0).
Proof.
  unfold generateQrMatrix. intros H.
  apply bindM_Ok in H. destruct H as (b & st1 & _ & H).
  unfold liftM in H. inversion H as [[H' Hst]]. clear H.
  inv_bind H'. destruct x as [m0 size].
  apply createMatrix_size in Hx. cbn [fst snd] in H'.
  inv_bind H'. apply applyMask_dark_cell in H'. now subst.
Qed.

Lemma generateQrMatrix_dark_module_is_light_witness :
  exists m,
    generateQrMatrix (lit "upi://pay?pa=a%40b&cu=INR") loaded_module
    = (Ok m, loaded_module)
    /\ mget m (version (pickVersion 25) * 4 + 17 - 8) 8 = Ok (Num 0).
Proof.
  destruct (generateQrMatrix (lit "upi://pay?pa=a%40b&cu=INR") loaded_module)
    as [[m|e] st] eqn:E.
  - exists m. split.
    + revert E. vm_compute. intros [= <- <-]. reflexivity.
    + apply (generateQrMatrix_dark_module_is_light
               (lit "upi://pay?pa=a%40b&cu=INR") loaded_module st m E).
  - exfalso. revert E. vm_compute. discriminate.
Defined.

(** ** URI builder *)

(** The array of parts, piece by piece. *)
Lemma buildUpiUri_parts_shape (params : UpiQrParams) (parts : list jsstring) :
  buildUpiUri_parts params = Ok parts ->
  exists epa epn etn etr,
    encodeURIComponent (vpa params) = Ok epa
    /\ (truthy (payeeName params) = true ->
        encodeURIComponent (str_or_empty (payeeName params)) = Ok epn)
    /\ (truthy (note params) = true ->
        encodeURIComponent (str_or_empty (note params)) = Ok etn)
    /\ (truthy (txnRefId params) = true ->
        encodeURIComponent (str_or_empty (txnRefId params)) = Ok etr)
    /\ parts
       = [lit "upi://pay?pa=" ++ epa]
         ++ opt_part (truthy (payeeName params)) (lit "pn=" ++ epn)
         ++ match amount_text params with
            | Some t => [lit "am=" ++ t]
            | None => []
            end
         ++ [lit "cu=" ++ currency_text params]
         ++ opt_part (truthy (note params)) (lit "tn=" ++ etn)
         ++ opt_part (truthy (mcc params))
              (lit "mc=" ++ str_or_empty (mcc params))
         ++ opt_part (truthy (txnRefId params)) (lit "tr=" ++ etr).
Proof.
  unfold buildUpiUri_parts, amount_text, currency_text. intros H.
  destruct (encodeURIComponent (vpa params)) as [epa|]; [|discriminate H].
  cbn [bind] in H. exists epa.
  destruct (truthy (payeeName params));
    [destruct (encodeURIComponent (str_or_empty (payeeName params))) as [epn|];
     [|discriminate H] | pose (epn := @nil Z)];
    cbn [bind] in H; exists epn.
  all: destruct (truthy (note params));
    [destruct (encodeURIComponent (str_or_empty (note params))) as [etn|];
     [|discriminate H] | pose (etn := @nil Z)];
    cbn [bind] in H; exists etn.
  all: destruct (truthy (txnRefId params));
    [destruct (encodeURIComponent (str_or_empty (txnRefId params))) as [etr|];
     [|discriminate H] | pose (etr := @nil Z)];
    cbn [bind] in H; exists etr.
  all: injection H as <-.
  all: split; [reflexivity|].
  all: split; [intros; reflexivity || discriminate|].
  all: split; [intros; reflexivity || discriminate|].
  all: split; [intros; reflexivity || discriminate|].
  all: destruct (amount params) as [[[] fx]|], (truthy (mcc params));
    cbn [opt_part positive_amount toFixed2 app]; reflexivity.
Qed.

Lemma In_opt_part (b : bool) (s x : jsstring) :
  In x (opt_part b s) -> b = true /\ x = s.
Proof. destruct b; cbn; [intros [<-|[]]; auto | intros []]. Qed.

(** Find the element of the parts that carries a key: the keys differ in
    their first two characters. *)
Ltac find_part H :=
  cbn [app] in H;
  repeat match type of H with
         | In _ (_ :: _) => destruct H as [H|H]
         | In _ (_ ++ _) => apply in_app_or in H; destruct H as [H|H]
         | In _ (opt_part _ _) =>
             apply In_opt_part in H; destruct H as [? H]; symmetry in H
         | In _ (match ?o with Some _ => _ | None => _ end) => destruct o eqn:?
         | In _ [] => destruct H
         end;
  try discriminate H.

(** What each key of the array of parts carries: pa, pn, tn and tr the
    percent-encodings of the payee address, payee name, note and
    transaction reference; mc the merchant category code as it is; cu the
    currency text and am the amount text. *)
Lemma buildUpiUri_values (params : UpiQrParams) (parts : list jsstring) :
  buildUpiUri_parts params = Ok parts ->
  buildUpiUri params = Ok (join (lit "&") parts)
  /\ (forall v, emits parts "upi://pay?pa=" v ->
                encodeURIComponent (vpa params) = Ok v)
  /\ (forall v, emits parts "pn=" v ->
                encodeURIComponent (str_or_empty (payeeName params)) = Ok v)
  /\ (forall v, emits parts "tn=" v ->
                encodeURIComponent (str_or_empty (note params)) = Ok v)
  /\ (forall v, emits parts "tr=" v ->
                encodeURIComponent (str_or_empty (txnRefId params)) = Ok v)
  /\ (forall v, emits parts "mc=" v -> mcc params = Some v)
  /\ (forall v, emits parts "cu=" v -> v = currency_text params)
  /\ (forall v, emits parts "am=" v ->
                exists a, amount params = Some a /\ positive_amount a = true
                          /\ v = toFixed2 a).
Proof.
  intros H. split; [unfold buildUpiUri; now rewrite H|].
  destruct (buildUpiUri_parts_shape params parts H)
    as (epa & epn & etn & etr & Hpa & Hpn & Htn & Htr & ->).
  unfold emits.
  change (lit "upi://pay?pa=")
    with [117; 112; 105; 58; 47; 47; 112; 97; 121; 63; 112; 97; 61].
  change (lit "pn=") with [112; 110; 61].
  change (lit "am=") with [97; 109; 61].
  change (lit "cu=") with [99; 117; 61].
  change (lit "tn=") with [116; 110; 61].
  change (lit "mc=") with [109; 99; 61].
  change (lit "tr=") with [116; 114; 61].
  repeat split; intros v Hin; find_part Hin; injection Hin as <-; auto.
  - (* mc *)
    destruct (mcc params) as [[|c s]|]; try discriminate. reflexivity.
  - (* am *)
    unfold amount_text in *.
    destruct (amount params) as [a|]; [|discriminate].
    destruct (positive_amount a) eqn:Ea; [|discriminate].
    exists a. split; [reflexivity|]. split; [exact Ea | congruence].
Qed.

(** An octet takes three characters, and a code point at least one octet. *)
Lemma pct_octets_length (os : list Z) :
  List.length (pct_octets os) = (3 * List.length os)%nat.
Proof.
  unfold pct_octets. induction os as [|o os IH]; [reflexivity|].
  cbn [flat_map pct List.length app]. rewrite IH. lia.
Qed.

Lemma utf8_nonempty (cp : Z) : (1 <= List.length (utf8 cp))%nat.
Proof.
  unfold utf8.
  destruct (cp <? 128), (cp <? 2048), (cp <? 65536); cbn [List.length]; lia.
Qed.

(** Percent-encoding never shortens a text, and lengthens it as soon as one
    character is escaped: an escaped character of one or two code units
    becomes at least three characters. *)
Lemma encodeURIComponent_grows (s r : jsstring) :
  encodeURIComponent s = Ok r ->
  (List.length s <= List.length r)%nat
  /\ (existsb (fun c => negb (uriUnescaped c)) s = true ->
      (List.length s < List.length r)%nat).
Proof.
  remember (List.length s) as n eqn:En.
  revert s r En. induction n as [n IH] using lt_wf_ind. intros s r En.
  destruct s as [|c rest];
    [intros [= <-]; subst n; split; [cbn; lia | discriminate]|].
  cbn [encodeURIComponent existsb List.length] in *.
  destruct (uriUnescaped c) eqn:Eu.
  - destruct (encodeURIComponent rest) as [r'|] eqn:Er; [|discriminate].
    cbn [bind]. intros [= <-]. cbn [negb orb List.length].
    destruct (IH (List.length rest) ltac:(lia) rest r' eq_refl Er) as [H1 H2].
    subst n. split; [lia|]. intros H. specialize (H2 H). lia.
  - destruct (is_low_surrogate c); [discriminate|].
    destruct (is_high_surrogate c).
    + destruct rest as [|d rest']; [discriminate|].
      destruct (is_low_surrogate d); [|discriminate].
      destruct (encodeURIComponent rest') as [r'|] eqn:Er; [|discriminate].
      cbn [bind]. intros [= <-].
      cbn [List.length] in En.
      destruct (IH (List.length rest') ltac:(lia) rest' r' eq_refl Er)
        as [H1 _].
      rewrite length_app, pct_octets_length.
      pose proof (utf8_nonempty (surrogate_pair c d)).
      subst n. cbn [List.length]. split; [lia | intros _; lia].
    + destruct (encodeURIComponent rest) as [r'|] eqn:Er; [|discriminate].
      cbn [bind]. intros [= <-].
      destruct (IH (List.length rest) ltac:(lia) rest r' eq_refl Er)
        as [H1 _].
      rewrite length_app, pct_octets_length.
      pose proof (utf8_nonempty c).
      subst n. split; [lia | intros _; lia].
Qed.

(** A text with an escaped character is not its own percent-encoding. *)
Lemma encodeURIComponent_escapes (s : jsstring) :
  existsb (fun c => negb (uriUnescaped c)) s = true ->
  encodeURIComponent s <> Ok s.
Proof.
  intros He H. destruct (encodeURIComponent_grows s s H) as [_ Hlt].
  specialize (Hlt He). lia.
Qed.

(** The property as first stated (the values of pa, pn, tn, mc and tr are
    the percent-encodings of their fields) does not hold of the builder:
    with the merchant category code [5 1] it emits [mc=5 1], while the
    percent-encoding is [5%201]. *)
Lemma mcc_value_not_percent_encoded : ~ all_text_values_percent_encoded.
Proof.
  intros H.
  specialize (H spaced_mcc_params
                [lit "upi://pay?pa=a"; lit "cu=INR"; lit "mc=5 1"] eq_refl).
  destruct H as (_ & _ & _ & H & _).
  specialize (H (lit "5 1")). unfold emits in H.
  assert (Hin : In (lit "mc=" ++ lit "5 1")
                  [lit "upi://pay?pa=a"; lit "cu=INR"; lit "mc=5 1"])
    by (cbn; auto).
  specialize (H Hin). vm_compute in H. discriminate H.
Qed.

(** C6 (the code departs from the specification).  The specification has
    every text value of the query string percent-encoded, the merchant
    category code included; [buildUpiUri] encodes the payee address, payee
    name, note and transaction reference but pushes the merchant category
    code as it is.  Whenever the code holds a character that
    percent-encoding escapes (a space, [&], [=], [%], ...), the one value
    emitted for mc is the field itself, which is not its percent-encoding,
    while the values of pa, pn, tn and tr in the same array of parts are
    the percent-encodings of their fields. *)
Theorem buildUpiUri_mcc_not_percent_encoded
  (params : UpiQrParams) (parts : list jsstring) (m : jsstring) :
  buildUpiUri_parts params = Ok parts ->
  mcc params = Some m ->
  existsb (fun c => negb (uriUnescaped c)) m = true ->
  buildUpiUri params = Ok (join (lit "&") parts)
  /\ emits parts "mc=" m
  /\ (forall v, emits parts "mc=" v -> v = m)
  /\ encodeURIComponent m <> Ok m
  /\ (forall v, emits parts "mc=" v -> encodeURIComponent m <> Ok v)
  /\ (forall v, emits parts "upi://pay?pa=" v ->
                encodeURIComponent (vpa params) = Ok v)
  /\ (forall v, emits parts "pn=" v ->
                encodeURIComponent (str_or_empty (payeeName params)) = Ok v)
  /\ (forall v, emits parts "tn=" v ->
                encodeURIComponent (str_or_empty (note params)) = Ok v)
  /\ (forall v, emits parts "tr=" v ->
                encodeURIComponent (str_or_empty (txnRefId params)) = Ok v).
Proof.
  intros H Hm He.
  destruct (buildUpiUri_values params parts H)
    as (Huri & Hpa & Hpn & Htn & Htr & Hmc & _).
  pose proof (encodeURIComponent_escapes m He) as Hne.
  assert (Hone : forall v, emits parts "mc=" v -> v = m)
    by (intros v Hv; specialize (Hmc v Hv); congruence).
  split; [exact Huri|]. split.
  - destruct (buildUpiUri_parts_shape params parts H)
      as (epa & epn & etn & etr & _ & _ & _ & _ & ->).
    unfold emits. rewrite Hm.
    destruct m as [|c m']; [discriminate He|].
    cbn [truthy str_or_empty opt_part].
    apply in_or_app. right. apply in_or_app. right.
    apply in_or_app. right. apply in_or_app. right.
    apply in_or_app. right. apply in_or_app. left. left. reflexivity.
  - split; [exact Hone|]. split; [exact Hne|].
    split; [intros v Hv; rewrite (Hone v Hv); exact Hne|].
    repeat split; assumption.
Qed.

Lemma buildUpiUri_mcc_not_percent_encoded_witness :
  (buildUpiUri spaced_mcc_params = Ok (lit "upi://pay?pa=a&cu=INR&mc=5 1")
   /\ emits [lit "upi://pay?pa=a"; lit "cu=INR"; lit "mc=5 1"] "mc="
        (lit "5 1")
   /\ encodeURIComponent (lit "5 1") = Ok (lit "5%201")
   /\ encodeURIComponent (lit "5 1") <> Ok (lit "5 1"))
  /\ (buildUpiUri
        {| vpa := lit "a"; payeeName := None; amount := None;
           currency := None; note := None; mcc := Some (lit "1&am=9");
           txnRefId := None |}
      = Ok (lit "upi://pay?pa=a&cu=INR&mc=1&am=9")
      /\ encodeURIComponent (lit "1&am=9") = Ok (lit "1%26am%3D9")).
Proof.
  split.
  - pose proof (buildUpiUri_mcc_not_percent_encoded spaced_mcc_params
                  [lit "upi://pay?pa=a"; lit "cu=INR"; lit "mc=5 1"]
                  (lit "5 1") eq_refl eq_refl eq_refl)
      as (H1 & H2 & _ & H3 & _).
    split; [exact H1|]. split; [exact H2|]. split; [reflexivity | exact H3].
  - pose proof (buildUpiUri_mcc_not_percent_encoded
                  {| vpa := lit "a"; payeeName := None; amount := None;
                     currency := None; note := None;
                     mcc := Some (lit "1&am=9"); txnRefId := None |}
                  [lit "upi://pay?pa=a"; lit "cu=INR"; lit "mc=1&am=9"]
                  (lit "1&am=9") eq_refl eq_refl eq_refl)
      as (H1 & _).
    split; [exact H1 | reflexivity].
Defined.

(** ** UPI id validator *)

Lemma upto_loop_class (p : Z -> bool) (k : jsstring -> bool) (n : nat)
  (s : jsstring) :
  upto_loop (rmatch (Class p)) k n s = true
  <-> exists pre rest,
        s = pre ++ rest /\ (List.length pre <= n)%nat
        /\ forallb p pre = true /\ k rest = true.
Proof.
  revert s; induction n as [|n IH]; intros s; cbn [upto_loop rmatch].
  - split.
    + intros H. exists [], s. cbn. auto with arith.
    + intros (pre & rest & -> & Hlen & _ & Hk).
      destruct pre; [exact Hk | cbn in Hlen; lia].
  - rewrite orb_true_iff. split.
    + intros [H|H].
      * destruct s as [|c s]; [discriminate|].
        apply andb_prop in H. destruct H as [Hc H].
        apply IH in H. destruct H as (pre & rest & -> & Hlen & Hall & Hk).
        exists (c :: pre), rest. cbn. rewrite Hc, Hall. auto with arith.
      * exists [], s. cbn. auto with arith.
    + intros (pre & rest & -> & Hlen & Hall & Hk).
      destruct pre as [|c pre]; [right; exact Hk|left].
      cbn in Hall, Hlen |- *. apply andb_prop in Hall. destruct Hall as [Hc Hall].
      rewrite Hc. cbn. apply IH. exists pre, rest. auto with arith.
Qed.

Lemma regex_test_upi (s : jsstring) :
  regex_test upi_regex s = true <-> upi_shape s.
Proof.
  unfold regex_test, upi_regex, upi_shape. cbn [rmatch]. split.
  - destruct s as [|c0 s]; [discriminate|].
    intros H. apply andb_prop in H. destruct H as [Hc0 H].
    apply upto_loop_class in H. destruct H as (l & rest & -> & Hl & Hall & H).
    destruct rest as [|at_ rest]; [discriminate|].
    apply andb_prop in H. destruct H as [Hat H].
    apply Z.eqb_eq in Hat. subst at_.
    destruct rest as [|h0 rest]; [discriminate|].
    apply andb_prop in H. destruct H as [Hh0 H].
    apply upto_loop_class in H. destruct H as (h & rest' & -> & Hh & Hallh & H).
    destruct rest'; [|discriminate]. rewrite app_nil_r.
    exists c0, l, h0, h. auto 10.
  - intros (c0 & l & h0 & h & -> & Hc0 & Hl & Hall & Hh0 & Hh & Hallh).
    cbn [app]. rewrite Hc0. cbn [andb].
    apply upto_loop_class. exists l, (64 :: h0 :: h).
    repeat split; auto.
    unfold is_char at 1. cbn [andb Z.eqb Pos.eqb]. rewrite Hh0. cbn [andb].
    apply upto_loop_class. exists h, []. rewrite app_nil_r. auto.
Qed.

Lemma trimStart_app_spaces (ws s : jsstring) :
  forallb is_space ws = true -> trimStart (ws ++ s) = trimStart s.
Proof.
  induction ws as [|c ws IH]; cbn [forallb app trimStart]; [reflexivity|].
  intros H. apply andb_prop in H. destruct H as [Hc H]. rewrite Hc. auto.
Qed.

Lemma trimStart_spaces (ws : jsstring) :
  forallb is_space ws = true -> trimStart ws = [].
Proof.
  intros H. rewrite <- (app_nil_r ws). now rewrite trimStart_app_spaces.
Qed.

Lemma trimStart_nil_spaces (s : jsstring) :
  trimStart s = [] -> forallb is_space s = true.
Proof.
  induction s as [|c s IH]; cbn [trimStart forallb]; [reflexivity|].
  destruct (is_space c); [auto | discriminate].
Qed.

Lemma trimStart_app_keep (s t : jsstring) :
  trimStart s <> [] -> trimStart (s ++ t) = trimStart s ++ t.
Proof.
  induction s as [|c s IH]; cbn [trimStart app]; [congruence|].
  destruct (is_space c); auto.
Qed.

Lemma forallb_rev {A : Type} (p : A -> bool) (l : list A) :
  forallb p l = true -> forallb p (rev l) = true.
Proof.
  rewrite !forallb_forall. intros H x Hx. apply H. now apply in_rev.
Qed.

Lemma trim_surrounded (ws1 s ws2 : jsstring) :
  forallb is_space ws1 = true -> forallb is_space ws2 = true ->
  trim (ws1 ++ s ++ ws2) = trim s.
Proof.
  intros H1 H2. unfold trim. rewrite (trimStart_app_spaces ws1 _ H1).
  destruct (trimStart s) as [|c t] eqn:E.
  - rewrite (trimStart_spaces (s ++ ws2)); [reflexivity|].
    rewrite forallb_app, H2, (trimStart_nil_spaces s E). reflexivity.
  - rewrite trimStart_app_keep by congruence. rewrite E, rev_app_distr.
    rewrite (trimStart_app_spaces (rev ws2)); [reflexivity|].
    now apply forallb_rev.
Qed.

Lemma validateUpiId_first_test (s : jsstring) :
  is_nil s || is_nil (trim s) = is_nil (trim s).
Proof. destruct s; reflexivity. Qed.

Lemma validateUpiId_unfold (s : jsstring) :
  validateUpiId s
  = if is_nil (trim s)
    then {| valid := false; message := Some (lit "UPI ID is required") |}
    else if negb (atCount (trim s) =? 1)
    then {| valid := false;
            message := Some (lit "UPI ID must contain exactly one @ symbol (e.g. name@upi)") |}
    else if negb (regex_test upi_regex (trim s))
    then {| valid := false;
            message := Some (lit "Invalid UPI ID format. Expected: username@handle (e.g. merchant@upi, john.doe@oksbi)") |}
    else {| valid := true; message := None |}.
Proof.
  unfold validateUpiId. rewrite validateUpiId_first_test. reflexivity.
Qed.

(** C10.  [validateUpiId] is a total function that depends on its argument
    only through the trimmed string: it answers [valid = true] exactly when
    the trimmed string has exactly one [@] and the shape
    [localpart@handle], and every [valid = false] answer carries a
    non-empty message. *)
Theorem validateUpiId_classifies (ws1 s ws2 : jsstring) :
  (forallb is_space ws1 = true -> forallb is_space ws2 = true ->
   validateUpiId (ws1 ++ s ++ ws2) = validateUpiId s)
  /\ (valid (validateUpiId s) = true
      <-> atCount (trim s) = 1 /\ upi_shape (trim s))
  /\ (valid (validateUpiId s) = false ->
      exists msg, message (validateUpiId s) = Some msg /\ msg <> []).
Proof.
  split; [|split].
  - intros H1 H2. rewrite !validateUpiId_unfold.
    now rewrite (trim_surrounded ws1 s ws2 H1 H2).
  - rewrite validateUpiId_unfold.
    destruct (is_nil (trim s)) eqn:En.
    { cbn [valid]. split; [discriminate|].
      intros (_ & c0 & l & h0 & h & Hs & _).
      destruct (trim s); [discriminate Hs | discriminate En]. }
    destruct (atCount (trim s) =? 1) eqn:Ea; cbn [negb valid].
    2:{ split; [discriminate|]. intros (H & _). apply Z.eqb_neq in Ea. lia. }
    apply Z.eqb_eq in Ea.
    destruct (regex_test upi_regex (trim s)) eqn:Er; cbn [negb valid].
    + apply regex_test_upi in Er. tauto.
    + split; [discriminate|]. intros (_ & H). apply regex_test_upi in H.
      congruence.
  - rewrite validateUpiId_unfold.
    destruct (is_nil (trim s)); [cbn; eexists; split; [reflexivity|discriminate]|].
    destruct (negb (atCount (trim s) =? 1));
      [cbn; eexists; split; [reflexivity|discriminate]|].
    destruct (negb (regex_test upi_regex (trim s)));
      [cbn; eexists; split; [reflexivity|discriminate]|].
    cbn. discriminate.
Qed.

Lemma validateUpiId_classifies_witness :
  validateUpiId (lit "  merchant@upi ") = validateUpiId (lit "merchant@upi")
  /\ valid (validateUpiId (lit "merchant@upi")) = true
  /\ exists msg, message (validateUpiId (lit "a@@b")) = Some msg /\ msg <> [].
Proof.
  split; [|split].
  - apply (proj1 (validateUpiId_classifies (lit "  ") (lit "merchant@upi")
                    (lit " "))); reflexivity.
  - reflexivity.
  - apply (proj2 (proj2 (validateUpiId_classifies [] (lit "a@@b") []))).
    reflexivity.
Defined.

(** ** Masking *)

Lemma NoDup_zseq (lo : Z) (n : nat) : NoDup (zseq lo n).
Proof.
  revert lo; induction n as [|n IH]; intros lo; cbn [zseq]; constructor.
  - rewrite In_zseq. lia.
  - apply IH.
Qed.

Lemma NoDup_zrange (lo hi : Z) : NoDup (zrange lo hi).
Proof. apply NoDup_zseq. Qed.

Lemma mget_Ok (m : matrix) (r c : Z) :
  0 <= r < len m -> exists x, mget m r c = Ok x.
Proof.
  intros Hr. unfold mget, len in *.
  destruct (r <? 0) eqn:E; [apply Z.ltb_lt in E; lia|].
  destruct (nth_error m (Z.to_nat r)) as [row|] eqn:En; [eauto|].
  apply nth_error_None in En. lia.
Qed.

Section CellLoops.

Variable size : Z.
Variable step : Z -> Z -> matrix -> result matrix.
Variable g : Z -> Z -> jsval -> jsval.
Hypothesis Hstep : cell_step size step g.

Lemma row_loop_cells (r : Z) (cs : list Z) (res : matrix) :
  NoDup cs -> (forall c, In c cs -> 0 <= c) ->
  len res = size -> 0 <= r < size ->
  exists res',
    foldM (step r) cs res = Ok res'
    /\ len res' = size
    /\ (forall c, In c cs ->
          exists old, mget res r c = Ok old /\ mget res' r c = Ok (g r c old))
    /\ (forall r' c', ~ (r' = r /\ In c' cs) ->
          mget res' r' c' = mget res r' c').
Proof.
  intros Hnd Hpos Hlen Hr. revert res Hlen.
  induction cs as [|c cs IH]; intros res Hlen; cbn [foldM].
  - exists res. repeat split; auto. intros c [].
  - apply NoDup_cons_iff in Hnd. destruct Hnd as [Hnotin Hnd'].
    destruct (Hstep res r c Hlen Hr (Hpos c (or_introl eq_refl)))
      as (res1 & old & Hold & Hs & Hlen1 & Hsame & Hother).
    rewrite Hs. cbn [bind].
    destruct (IH Hnd' (fun c' H => Hpos c' (or_intror H)) res1 Hlen1)
      as (res' & Hf & Hlen' & Hin & Hout).
    exists res'. split; [exact Hf|]. split; [exact Hlen'|]. split.
    + intros c' [<-|Hc'].
      * exists old. split; [exact Hold|].
        rewrite Hout by tauto. exact Hsame.
      * destruct (Hin c' Hc') as (old' & Ho1 & Ho2).
        exists old'. split; [|exact Ho2].
        rewrite <- Ho1. symmetry. apply Hother. congruence.
    + intros r' c' Hn. rewrite Hout by (cbn in Hn; tauto).
      apply Hother. intros [= -> ->]. apply Hn. cbn. auto.
Qed.

Lemma matrix_loop_cells (rs cs : list Z) (res : matrix) :
  NoDup rs -> NoDup cs ->
  (forall r, In r rs -> 0 <= r < size) -> (forall c, In c cs -> 0 <= c) ->
  len res = size ->
  exists res',
    foldM (fun r res => foldM (step r) cs res) rs res = Ok res'
    /\ len res' = size
    /\ (forall r c, In r rs -> In c cs ->
          exists old, mget res r c = Ok old /\ mget res' r c = Ok (g r c old))
    /\ (forall r c, ~ (In r rs /\ In c cs) -> mget res' r c = mget res r c).
Proof.
  intros Hndr Hndc Hrs Hcs. revert res.
  induction rs as [|r rs IH]; intros res Hlen; cbn [foldM].
  - exists res. repeat split; auto. intros r c [].
  - apply NoDup_cons_iff in Hndr. destruct Hndr as [Hnotin Hndr'].
    destruct (row_loop_cells r cs res Hndc Hcs Hlen
                (Hrs r (or_introl eq_refl)))
      as (res1 & Hf1 & Hlen1 & Hin1 & Hout1).
    rewrite Hf1. cbn [bind].
    destruct (IH Hndr' (fun r' H => Hrs r' (or_intror H)) res1 Hlen1)
      as (res' & Hf & Hlen' & Hin & Hout).
    exists res'. split; [exact Hf|]. split; [exact Hlen'|]. split.
    + intros r' c [<-|Hr'] Hc.
      * destruct (Hin1 c Hc) as (old & Ho1 & Ho2).
        exists old. split; [exact Ho1|]. rewrite Hout by tauto. exact Ho2.
      * destruct (Hin r' c Hr' Hc) as (old & Ho1 & Ho2).
        exists old. split; [|exact Ho2].
        rewrite <- Ho1. symmetry. apply Hout1. intros [-> _]. contradiction.
    + intros r' c Hn. rewrite Hout by (cbn in Hn; tauto).
      apply Hout1. intros [-> Hc]. apply Hn. cbn. auto.
Qed.

(** A double [for] loop over all cells. *)
Lemma all_cells_loop (res : matrix) :
  len res = size ->
  exists res',
    for_range 0 size (fun r res => for_range 0 size (step r) res) res = Ok res'
    /\ len res' = size
    /\ forall r c, 0 <= r < size -> 0 <= c < size ->
         exists old, mget res r c = Ok old /\ mget res' r c = Ok (g r c old).
Proof.
  intros Hlen. unfold for_range.
  destruct (matrix_loop_cells (zrange 0 size) (zrange 0 size) res
              (NoDup_zrange _ _) (NoDup_zrange _ _)) as (res' & Hf & Hl & Hin & _).
  - intros r Hr. now apply In_zrange in Hr.
  - intros c Hc. apply In_zrange in Hc. lia.
  - exact Hlen.
  - exists res'. split; [exact Hf|]. split; [exact Hl|].
    intros r c Hr Hc. apply Hin; now apply In_zrange.
Qed.

End CellLoops.

Lemma mset_cell_step (res res' : matrix) (r c : Z) (v : jsval) :
  mset res r c v = Ok res' -> 0 <= c ->
  len res' = len res
  /\ mget res' r c = Ok v
  /\ forall r' c', (r', c') <> (r, c) -> mget res' r' c' = mget res r' c'.
Proof.
  intros H Hc. split; [now apply len_mset in H|]. split.
  - eapply mget_mset_same; eauto.
  - intros r' c' Hne. eapply mget_mset_other; eauto.
Qed.

Lemma mask_is_cell_step (size : Z) (template : matrix) :
  len template = size ->
  cell_step size
    (fun r c res =>
       t <- mget template r c ;;
       if is_null t && maskFn r c then
         x <- mget res r c ;; mset res r c (js_xor x (Num 1))
       else Ok res)
    (mask_cell template).
Proof.
  intros Ht res r c Hlen Hr Hc. unfold mask_cell.
  destruct (mget_Ok template r c ltac:(lia)) as (t & ->).
  destruct (mget_Ok res r c ltac:(lia)) as (old & Hold).
  cbn [bind]. destruct (is_null t && maskFn r c).
  - rewrite Hold. cbn [bind].
    destruct (mset_Ok res r c (js_xor old (Num 1)) ltac:(lia)) as (res' & Hs).
    destruct (mset_cell_step _ _ _ _ _ Hs Hc) as (H1 & H2 & H3).
    exists res', old. rewrite Hs. repeat split; auto. lia.
  - exists res, old. repeat split; auto.
Qed.

Lemma copy_is_cell_step (size : Z) (m : matrix) :
  len m = size ->
  cell_step size
    (fun r c res => x <- mget m r c ;; mset res r c (nullish_or x (Num 0)))
    (copy_cell m).
Proof.
  intros Hm res r c Hlen Hr Hc. unfold copy_cell.
  destruct (mget_Ok m r c ltac:(lia)) as (x & ->).
  destruct (mget_Ok res r c ltac:(lia)) as (old & Hold).
  cbn [bind].
  destruct (mset_Ok res r c (nullish_or x (Num 0)) ltac:(lia)) as (res' & Hs).
  destruct (mset_cell_step _ _ _ _ _ Hs Hc) as (H1 & H2 & H3).
  exists res', old. rewrite Hs. repeat split; auto. lia.
Qed.

Lemma squareb_square (size : Z) (m : matrix) :
  squareb size m = true -> square size m.
Proof.
  unfold squareb, square. intros H. apply andb_prop in H. destruct H as [H1 H2].
  apply Z.eqb_eq in H1. split; [exact H1|].
  apply Forall_forall. intros row Hrow.
  rewrite forallb_forall in H2. apply Z.eqb_eq. now apply H2.
Qed.

Lemma templates_ok : forallb template_ok (zrange 1 11) = true.
Proof. vm_compute. reflexivity. Qed.

Lemma createMatrix_tabulated (v : Z) :
  1 <= v <= 10 ->
  exists t, createMatrix v = Ok (t, v * 4 + 17) /\ square (v * 4 + 17) t.
Proof.
  intros Hv. pose proof templates_ok as H. rewrite forallb_forall in H.
  specialize (H v (proj2 (In_zrange v 1 11) ltac:(lia))).
  unfold template_ok in H.
  destruct (createMatrix v) as [[t size]|]; [|discriminate].
  apply andb_prop in H. destruct H as [H1 H2]. apply Z.eqb_eq in H1. subst size.
  exists t. split; [reflexivity | now apply squareb_square].
Qed.

Lemma len_new_matrix (size : Z) (v : jsval) :
  0 <= size -> len (new_matrix size v) = size.
Proof. intros H. unfold new_matrix. rewrite len_repeat. lia. Qed.

Lemma mget_new_matrix (size : Z) (v : jsval) (r c : Z) :
  0 <= r < size -> 0 <= c < size -> mget (new_matrix size v) r c = Ok v.
Proof.
  intros Hr Hc. unfold mget, new_matrix.
  destruct (r <? 0) eqn:E; [apply Z.ltb_lt in E; lia|].
  rewrite (nth_error_nth' _ (repeat v (Z.to_nat size)))
    by (rewrite repeat_length; lia).
  rewrite nth_repeat. unfold arr_get.
  destruct (c <? 0) eqn:E'; [apply Z.ltb_lt in E'; lia|].
  f_equal. apply nth_repeat_lt. lia.
Qed.

(** C5.  For a tabulated version [v] and a matrix [m] with [size] rows,
    the copy pass of [applyMask] puts [m[r][c] ?? 0] in every cell, and the
    mask pass, run against the template [createMatrix] rebuilds, leaves
    every cell the template fixes as it was and applies [^ 1] exactly to
    the cells that the template leaves unset and where [(r + c) % 2 === 0]. *)
Theorem applyMask_mask_only_data_cells (v : Z) (m : matrix) :
  1 <= v <= 10 ->
  len m = v * 4 + 17 ->
  exists res0 t res1,
    applyMask_copy m (v * 4 + 17) = Ok res0
    /\ createMatrix v = Ok (t, v * 4 + 17)
    /\ createMatrix ((v * 4 + 17 - 17) / 4) = Ok (t, v * 4 + 17)
    /\ applyMask_mask t res0 (v * 4 + 17) = Ok res1
    /\ applyMask m (v * 4 + 17) = applyMask_format res1 (v * 4 + 17)
    /\ forall r c,
         0 <= r < v * 4 + 17 -> 0 <= c < v * 4 + 17 ->
         exists x tv,
           mget m r c = Ok x
           /\ mget t r c = Ok tv
           /\ mget res0 r c = Ok (nullish_or x (Num 0))
           /\ mget res1 r c
              = Ok (if is_null tv && maskFn r c
                    then js_xor (nullish_or x (Num 0)) (Num 1)
                    else nullish_or x (Num 0)).
Proof.
  intros Hv Hm. set (size := v * 4 + 17) in *.
  assert (Hsize : 0 <= size) by (unfold size; lia).
  destruct (createMatrix_tabulated v Hv) as (t & Ht & Hsq).
  fold size in Ht, Hsq. destruct Hsq as [Hlt _].
  destruct (all_cells_loop size _ _ (copy_is_cell_step size m Hm)
              (new_matrix size (Num 0)) (len_new_matrix _ _ Hsize))
    as (res0 & Hcopy & Hlen0 & Hcells0).
  change (applyMask_copy m size = Ok res0) in Hcopy.
  destruct (all_cells_loop size _ _ (mask_is_cell_step size t Hlt) res0 Hlen0)
    as (res1 & Hmask & Hlen1 & Hcells1).
  change (applyMask_mask t res0 size = Ok res1) in Hmask.
  assert (Hdiv : (size - 17) / 4 = v).
  { unfold size. replace (v * 4 + 17 - 17) with (v * 4) by lia.
    apply Z.div_mul. lia. }
  exists res0, t, res1.
  split; [exact Hcopy|]. split; [exact Ht|].
  split; [rewrite Hdiv; exact Ht|]. split; [exact Hmask|]. split.
  - unfold applyMask. rewrite Hcopy. cbn [bind].
    rewrite Hdiv, Ht. cbn [bind fst]. rewrite Hmask. reflexivity.
  - intros r c Hr Hc.
    destruct (Hcells0 r c Hr Hc) as (old0 & _ & H0).
    destruct (Hcells1 r c Hr Hc) as (old1 & Ho1 & H1).
    destruct (mget_Ok m r c ltac:(lia)) as (x & Hx).
    destruct (mget_Ok t r c ltac:(lia)) as (tv & Htv).
    unfold copy_cell in H0. rewrite Hx in H0.
    unfold mask_cell in H1. rewrite Htv in H1.
    rewrite H0 in Ho1. injection Ho1 as <-.
    exists x, tv. auto.
Qed.

Lemma applyMask_mask_only_data_cells_witness :
  exists res0 t res1,
    applyMask_copy (new_matrix 21 (Num 1)) 21 = Ok res0
    /\ createMatrix 1 = Ok (t, 21)
    /\ applyMask_mask t res0 21 = Ok res1
    /\ mget res1 0 0 = Ok (Num 1)
    /\ mget res1 10 10 = Ok (Num 0).
Proof.
  destruct (applyMask_mask_only_data_cells 1 (new_matrix 21 (Num 1)))
    as (res0 & t & res1 & H0 & Ht & _ & H1 & _ & Hcells).
  - lia.
  - reflexivity.
  - exists res0, t, res1.
    split; [exact H0|]. split; [exact Ht|]. split; [exact H1|].
    assert (Et : createMatrix 1 = Ok (fst (match createMatrix 1 with
                                           | Ok p => p
                                           | Throw _ => ([], 0)
                                           end), 21))
      by (vm_compute; reflexivity).
    rewrite Et in Ht. injection Ht as Ht.
    split.
    + destruct (Hcells 0 0) as (x & tv & Hx & Htv & _ & Hr); [lia | lia |].
      rewrite <- Ht in Htv. vm_compute in Hx, Htv.
      injection Hx as <-. injection Htv as <-. exact Hr.
    + destruct (Hcells 10 10) as (x & tv & Hx & Htv & _ & Hr); [lia | lia |].
      rewrite <- Ht in Htv. vm_compute in Hx, Htv.
      injection Hx as <-. injection Htv as <-. exact Hr.
Defined.

(** ** Data placement *)

Lemma placement_templates_ok : forallb placement_template_ok (zrange 1 11) = true.
Proof. vm_compute. reflexivity. Qed.

Lemma bit_at_module (bits : list bool) (k : Z) :
  bit_at bits k = Num 0 \/ bit_at bits k = Num 1.
Proof.
  unfold bit_at. destruct (k <? len bits); [|auto].
  destruct (nth (Z.to_nat k) bits false); auto.
Qed.

Lemma place_ok_refl (m0 : matrix) (st : place_state) :
  place_inv m0 st -> place_ok m0 st st.
Proof.
  intros H. split; [exact H|]. split; [apply incl_refl|]. split; reflexivity.
Qed.

Lemma place_ok_trans (m0 : matrix) (st1 st2 st3 : place_state) :
  place_ok m0 st1 st2 -> place_ok m0 st2 st3 -> place_ok m0 st1 st3.
Proof.
  intros (_ & Hi1 & Hc1 & Hu1) (Hinv & Hi2 & Hc2 & Hu2).
  split; [exact Hinv|]. split; [eapply incl_tran; eauto|]. split; congruence.
Qed.

Lemma covered_mono (m0 : matrix) (st st' : place_state) (r c : Z) :
  incl (pl_written st) (pl_written st') -> covered m0 st r c -> covered m0 st' r c.
Proof. intros Hi [H|H]; [left; now apply Hi | right; exact H]. Qed.

Lemma place_cell_ok (m0 : matrix) (bits : list bool) (row col c : Z)
  (st : place_state) :
  place_inv m0 st -> 0 <= row < len m0 -> 0 <= col - c ->
  exists st',
    place_cell bits row col c st = Ok st'
    /\ place_ok m0 st st'
    /\ covered m0 st' row (col - c).
Proof.
  intros Hinv Hrow Hcc. pose proof Hinv as (Hlen & Hnd & Hw & Hrest & Hidx).
  unfold place_cell.
  destruct (mget_Ok (pl_matrix st) row (col - c) ltac:(lia)) as (x & Hx).
  rewrite Hx. cbn [bind].
  destruct (is_null x) eqn:Enull; cbn [negb].
  - (* the cell is unset: it is written *)
    destruct x; try discriminate Enull.
    assert (Hnew : ~ In (row, col - c) (pl_written st)).
    { intros Hin. destruct (Hw _ _ Hin) as (_ & _ & _ & [H|H]);
        rewrite Hx in H; discriminate H. }
    destruct (mset_Ok (pl_matrix st) row (col - c)
                (bit_at bits (pl_bitIdx st)) ltac:(lia)) as (m' & Hs).
    rewrite Hs. cbn [bind].
    destruct (mset_cell_step _ _ _ _ _ Hs Hcc) as (Hl' & Hsame & Hother).
    eexists. split; [reflexivity|]. split; [|left; cbn; auto].
    unfold place_ok, place_inv.
    cbn [pl_matrix pl_written pl_bitIdx pl_col pl_upward].
    split; [split; [|split; [|split; [|split]]] | split; [|split]].
    + congruence.
    + constructor; assumption.
    + intros r c' [[= <- <-]|Hin].
      * split; [lia|]. split; [lia|]. split.
        -- rewrite <- Hrest by assumption. exact Hx.
        -- rewrite Hsame.
           destruct (bit_at_module bits (pl_bitIdx st)) as [->| ->]; auto.
      * destruct (Hw _ _ Hin) as (H1 & H2 & H3 & H4).
        split; [exact H1|]. split; [exact H2|]. split; [exact H3|].
        rewrite Hother by (intros [= -> ->]; contradiction). exact H4.
    + intros r c' Hn. rewrite Hother by (intros [= -> ->]; apply Hn; now left).
      apply Hrest. intros Hin. apply Hn. now right.
    + rewrite Hidx. unfold len. cbn [List.length]. lia.
    + apply incl_tl, incl_refl.
    + reflexivity.
    + reflexivity.
  - (* the cell is set: it is skipped *)
    exists st. split; [reflexivity|]. split; [now apply place_ok_refl|].
    destruct (in_dec (fun p q : Z * Z =>
                        ltac:(decide equality; apply Z.eq_dec))
                (row, col - c) (pl_written st)) as [Hin|Hnin].
    + now left.
    + right. exists x. split.
      * rewrite <- Hrest by assumption. exact Hx.
      * intros ->. discriminate Enull.
Qed.

Lemma place_pair_ok (m0 : matrix) (bits : list bool) (row col : Z)
  (st : place_state) :
  place_inv m0 st -> 0 <= row < len m0 -> 1 <= col ->
  exists st',
    for_range 0 2 (place_cell bits row col) st = Ok st'
    /\ place_ok m0 st st'
    /\ covered m0 st' row col
    /\ covered m0 st' row (col - 1).
Proof.
  intros Hinv Hrow Hcol. unfold for_range.
  change (zrange 0 2) with [0; 1]. cbn [foldM].
  destruct (place_cell_ok m0 bits row col 0 st Hinv Hrow ltac:(lia))
    as (st1 & -> & Hok1 & Hc1).
  cbn [bind].
  destruct (place_cell_ok m0 bits row col 1 st1 (proj1 Hok1) Hrow ltac:(lia))
    as (st2 & -> & Hok2 & Hc2).
  cbn [bind]. exists st2. split; [reflexivity|].
  split; [eapply place_ok_trans; eauto|]. split; [|exact Hc2].
  rewrite Z.sub_0_r in Hc1.
  eapply covered_mono; [apply Hok2 | exact Hc1].
Qed.

Lemma place_rows_ok (m0 : matrix) (bits : list bool) (col : Z)
  (rows : list Z) (st : place_state) :
  place_inv m0 st -> (forall row, In row rows -> 0 <= row < len m0) ->
  1 <= col ->
  exists st',
    foldM (fun row st => for_range 0 2 (place_cell bits row col) st) rows st
    = Ok st'
    /\ place_ok m0 st st'
    /\ forall row, In row rows ->
         covered m0 st' row col /\ covered m0 st' row (col - 1).
Proof.
  intros Hinv Hrows Hcol. revert st Hinv.
  induction rows as [|row rows IH]; intros st Hinv; cbn [foldM].
  - exists st. split; [reflexivity|]. split; [now apply place_ok_refl|].
    intros row [].
  - destruct (place_pair_ok m0 bits row col st Hinv
                (Hrows row (or_introl eq_refl)) Hcol)
      as (st1 & -> & Hok1 & Hc1 & Hc1').
    cbn [bind].
    destruct (IH (fun r H => Hrows r (or_intror H)) st1 (proj1 Hok1))
      as (st2 & Hf & Hok2 & Hc2).
    exists st2. split; [exact Hf|].
    split; [eapply place_ok_trans; eauto|].
    intros r [<-|Hr]; [|now apply Hc2].
    split; (eapply covered_mono; [apply Hok2 | assumption]).
Qed.

Lemma In_place_rows (size : Z) (upward : bool) (r : Z) :
  In r (place_rows size upward) <-> 0 <= r < size.
Proof.
  unfold place_rows. destruct upward; [|apply In_zrange].
  rewrite in_map_iff. split.
  - intros (i & <- & Hi). apply In_zrange in Hi. lia.
  - intros Hr. exists (size - 1 - r). split; [lia|]. apply In_zrange. lia.
Qed.

Lemma place_column_ok (m0 : matrix) (bits : list bool) (size : Z)
  (st : place_state) :
  place_inv m0 st -> len m0 = size ->
  1 <= (if pl_col st =? 6 then 5 else pl_col st) ->
  exists st',
    place_column bits size st = Ok st'
    /\ place_inv m0 st'
    /\ incl (pl_written st) (pl_written st')
    /\ pl_col st' = (if pl_col st =? 6 then 5 else pl_col st) - 2
    /\ forall r, 0 <= r < size ->
         covered m0 st' r (if pl_col st =? 6 then 5 else pl_col st)
         /\ covered m0 st' r ((if pl_col st =? 6 then 5 else pl_col st) - 1).
Proof.
  intros Hinv Hlen Hcol. unfold place_column.
  set (col := if pl_col st =? 6 then 5 else pl_col st) in *.
  destruct (place_rows_ok m0 bits col (place_rows size (pl_upward st)) st Hinv)
    as (st1 & -> & (Hinv1 & Hincl & _ & _) & Hcov).
  { intros row Hrow. apply In_place_rows in Hrow. lia. }
  { exact Hcol. }
  cbn [bind]. eexists. split; [reflexivity|].
  cbn [pl_col pl_written].
  split; [|split; [exact Hincl|split; [reflexivity|]]].
  - unfold place_inv in *. cbn [pl_matrix pl_written pl_bitIdx]. exact Hinv1.
  - intros r Hr. unfold covered in *. cbn [pl_written].
    apply Hcov. now apply In_place_rows.
Qed.

Lemma place_loop_ok (m0 : matrix) (bits : list bool) (size : Z) (fuel : nat)
  (st : place_state) :
  place_inv m0 st -> len m0 = size ->
  loop_ends fuel (pl_col st) = true ->
  exists st',
    while_loop fuel (fun st => pl_col st >=? 1) (place_column bits size) st
    = Ok st'
    /\ place_inv m0 st'
    /\ incl (pl_written st) (pl_written st')
    /\ forall r c, 0 <= r < size -> In c (covered_cols fuel (pl_col st)) ->
         covered m0 st' r c.
Proof.
  intros Hinv Hlen. revert st Hinv.
  induction fuel as [|fuel IH]; intros st Hinv Hends;
    cbn [while_loop loop_ends covered_cols] in *.
  - destruct (pl_col st >=? 1); [discriminate Hends|].
    exists st. split; [reflexivity|]. split; [exact Hinv|].
    split; [apply incl_refl|]. intros r c _ [].
  - destruct (pl_col st >=? 1) eqn:Ecol.
    2:{ exists st. split; [reflexivity|]. split; [exact Hinv|].
        split; [apply incl_refl|]. intros r c _ []. }
    assert (Hc : 1 <= (if pl_col st =? 6 then 5 else pl_col st)).
    { apply Z.geb_le in Ecol. destruct (pl_col st =? 6); lia. }
    destruct (place_column_ok m0 bits size st Hinv Hlen Hc)
      as (st1 & -> & Hinv1 & Hincl1 & Hcol1 & Hcov1).
    cbn [bind]. rewrite <- Hcol1 in Hends.
    destruct (IH st1 Hinv1 Hends) as (st2 & Hw & Hinv2 & Hincl2 & Hcov2).
    exists st2. split; [exact Hw|]. split; [exact Hinv2|].
    split; [eapply incl_tran; eauto|].
    intros r c Hr [<-|[<-|Hin]].
    + eapply covered_mono; [exact Hincl2 | now apply Hcov1].
    + eapply covered_mono; [exact Hincl2 | now apply Hcov1].
    + apply Hcov2; [exact Hr|]. rewrite Hcol1. exact Hin.
Qed.

Lemma data_bits_numbers_acc (codewords : list Z) (acc : list bool) :
  exists bits,
    foldM (fun byte bits => b <- byte_bits byte ;; Ok (bits ++ b))
      (map Num codewords) acc = Ok bits.
Proof.
  revert acc; induction codewords as [|z cw IH]; intros acc; cbn [map foldM].
  - eauto.
  - cbn [byte_bits bind]. apply IH.
Qed.

Lemma data_bits_numbers (codewords : list Z) :
  exists bits, data_bits (map Num codewords) = Ok bits.
Proof. apply data_bits_numbers_acc. Qed.

Lemma is_module_cases (x : jsval) : is_module x = true -> x = Num 0 \/ x = Num 1.
Proof.
  destruct x as [| |z]; try discriminate. cbn.
  intros H. apply orb_prop in H.
  destruct H as [H|H]; apply Z.eqb_eq in H; subst; auto.
Qed.

Lemma mget_in_cols (size : Z) (m : matrix) (r c : Z) :
  square size m -> mget m r c = Ok Null -> 0 <= c < size.
Proof.
  intros [_ Hrows] H. unfold mget in H.
  destruct (r <? 0); [discriminate|].
  destruct (nth_error m (Z.to_nat r)) as [row|] eqn:En; [|discriminate].
  injection H as H. unfold arr_get in H.
  destruct (c <? 0) eqn:Ec; [discriminate|]. apply Z.ltb_ge in Ec.
  rewrite Forall_forall in Hrows.
  specialize (Hrows row (nth_error_In _ _ En)). unfold len in Hrows.
  destruct (Z_lt_le_dec c size) as [Hlt|Hge]; [lia|].
  rewrite nth_overflow in H by lia. discriminate H.
Qed.

(** C4.  For a tabulated version and any stream of codewords (bytes, on
    which [toString2] is the source's [toString(2)]), [placeData] returns;
    it assigns each cell that [createMatrix] left unset exactly once;
    afterwards every cell of the matrix is 0 or 1, and the cells
    [createMatrix] had fixed are as they were. *)
Theorem placeData_fills_unset_cells_once (v : Z) (codewords : list Z) :
  1 <= v <= 10 ->
  forallb is_byte (map Num codewords) = true ->
  exists m0 st,
    createMatrix v = Ok (m0, v * 4 + 17)
    /\ placeData_run m0 (v * 4 + 17) (map Num codewords) = Ok st
    /\ placeData m0 (v * 4 + 17) (map Num codewords) = Ok (pl_matrix st)
    /\ NoDup (pl_written st)
    /\ pl_bitIdx st = len (pl_written st)
    /\ (forall r c, In (r, c) (pl_written st) ->
          0 <= r < v * 4 + 17 /\ 0 <= c < v * 4 + 17
          /\ mget m0 r c = Ok Null)
    /\ forall r c,
         0 <= r < v * 4 + 17 -> 0 <= c < v * 4 + 17 ->
         exists x y,
           mget m0 r c = Ok x
           /\ mget (pl_matrix st) r c = Ok y
           /\ (y = Num 0 \/ y = Num 1)
           /\ (x = Null -> In (r, c) (pl_written st))
           /\ (x <> Null -> y = x /\ ~ In (r, c) (pl_written st)).
Proof.
  intros Hv _. remember (v * 4 + 17) as size eqn:Esize.
  pose proof placement_templates_ok as Hok. rewrite forallb_forall in Hok.
  specialize (Hok v (proj2 (In_zrange v 1 11) ltac:(lia))).
  unfold placement_template_ok in Hok.
  destruct (createMatrix v) as [[m0 size']|]; [|discriminate].
  repeat (apply andb_prop in Hok; destruct Hok as [Hok ?]).
  apply Z.eqb_eq in Hok. rewrite <- Esize in Hok. subst size'.
  match goal with H : squareb _ _ = true |- _ =>
    apply squareb_square in H; rename H into Hsq end.
  match goal with H : loop_ends _ _ = true |- _ => rename H into Hends end.
  match goal with H : forallb (fun r => forallb _ _) _ = true |- _ =>
    rename H into Hcells end.
  pose proof Hsq as [Hlen _].
  destruct (data_bits_numbers codewords) as (bits & Hbits).
  set (st0 := {| pl_col := size - 1; pl_matrix := m0; pl_bitIdx := 0;
                 pl_upward := true; pl_written := [] |}).
  assert (Hinv0 : place_inv m0 st0).
  { unfold place_inv, st0. cbn [pl_matrix pl_written pl_bitIdx].
    split; [reflexivity|]. split; [constructor|].
    split; [intros r c []|]. split; [reflexivity|]. reflexivity. }
  destruct (place_loop_ok m0 bits size (Z.to_nat size) st0 Hinv0 Hlen Hends)
    as (st & Hrun & Hinv & _ & Hcov).
  pose proof Hinv as (_ & Hnd & Hw & Hrest & Hidx).
  assert (Hrun' : placeData_run m0 size (map Num codewords) = Ok st).
  { unfold placeData_run. rewrite Hbits. exact Hrun. }
  exists m0, st.
  split; [reflexivity|]. split; [exact Hrun'|].
  split; [unfold placeData; now rewrite Hrun'|].
  split; [exact Hnd|]. split; [exact Hidx|]. split.
  - intros r c Hin. destruct (Hw r c Hin) as (Hr & _ & Hnull & _).
    split; [lia|]. split; [|exact Hnull].
    eapply mget_in_cols; eauto.
  - intros r c Hr Hc.
    rewrite forallb_forall in Hcells.
    specialize (Hcells r (proj2 (In_zrange r 0 size) Hr)).
    rewrite forallb_forall in Hcells.
    specialize (Hcells c (proj2 (In_zrange c 0 size) Hc)).
    destruct (mget m0 r c) as [x|] eqn:Ex; [|discriminate].
    assert (Hx : x = Null \/ x <> Null)
      by (destruct x; auto; right; discriminate).
    destruct Hx as [->|Hx].
    + (* an unset cell: the loop reaches its column and writes it *)
      apply existsb_exists in Hcells. destruct Hcells as (c' & Hc' & Heq).
      apply Z.eqb_eq in Heq. subst c'.
      assert (Hin : In (r, c) (pl_written st)).
      { destruct (Hcov r c Hr Hc') as [Hin|(y & Hy & Hne)]; [exact Hin|].
        rewrite Ex in Hy. injection Hy as <-. contradiction. }
      destruct (Hw r c Hin) as (_ & _ & _ & Hbit).
      destruct Hbit as [Hbit|Hbit]; eexists Null, _;
        (split; [reflexivity|]; split; [exact Hbit|];
         split; [auto|]; split; [auto | congruence]).
    + (* a fixed cell: never written *)
      assert (Hmod : is_module x = true) by (destruct x; auto; contradiction).
      assert (Hnin : ~ In (r, c) (pl_written st)).
      { intros Hin. destruct (Hw r c Hin) as (_ & _ & Hnull & _).
        rewrite Ex in Hnull. injection Hnull as ->. contradiction. }
      exists x, x. split; [reflexivity|].
      split; [rewrite Hrest by assumption; exact Ex|].
      split; [now apply is_module_cases|]. split; [contradiction | auto].
Qed.

Lemma placeData_fills_unset_cells_once_witness :
  exists m0 st,
    createMatrix 1 = Ok (m0, 21)
    /\ placeData_run m0 21 (map Num [64; 20; 134]) = Ok st
    /\ NoDup (pl_written st)
    /\ pl_bitIdx st = len (pl_written st).
Proof.
  destruct (placeData_fills_unset_cells_once 1 [64; 20; 134])
    as (m0 & st & H1 & H2 & _ & H3 & H4 & _).
  - lia.
  - reflexivity.
  - exists m0, st. auto.
Defined.

(** ** Purity of the public entry point *)

Lemma readonly_ret {A : Type} (a : A) : readonly (retM a).
Proof. intros st. reflexivity. Qed.

Lemma readonly_lift {A : Type} (r : result A) : readonly (liftM r).
Proof. intros st. reflexivity. Qed.

Lemma readonly_bind {A B : Type} (m : M A) (k : A -> M B) :
  readonly m -> (forall a, readonly (k a)) -> readonly (bindM m k).
Proof.
  intros Hm Hk st. unfold bindM. specialize (Hm st).
  destruct (m st) as [[a|e] st1]; cbn [snd] in Hm; subst st1.
  - apply Hk.
  - reflexivity.
Qed.

Lemma readonly_forM {A S : Type} (body : A -> S -> M S) (l : list A) (s : S) :
  (forall x s, readonly (body x s)) -> readonly (forM body l s).
Proof.
  intros Hbody. revert s; induction l as [|x l IH]; intros s; cbn [forM].
  - apply readonly_ret.
  - apply readonly_bind; [apply Hbody | intros s'; apply IH].
Qed.

Lemma readonly_readEXP (k : jsval) : readonly (readEXP k).
Proof. intros st. reflexivity. Qed.

Lemma readonly_readLOG (k : jsval) : readonly (readLOG k).
Proof. intros st. reflexivity. Qed.

Lemma readonly_gfMul (a b : jsval) : readonly (gfMul a b).
Proof.
  unfold gfMul. destruct (strict_eq_num a 0 || strict_eq_num b 0).
  - apply readonly_ret.
  - repeat (apply readonly_bind; [|intros ?]);
      auto using readonly_readLOG, readonly_readEXP.
Qed.

Lemma readonly_rsGenPoly (ecLen : Z) : readonly (rsGenPoly ecLen).
Proof.
  unfold rsGenPoly. apply readonly_forM. intros i poly.
  apply readonly_bind; [|intros ?; apply readonly_ret].
  apply readonly_forM. intros j newPoly.
  apply readonly_bind; [apply readonly_readEXP | intros e].
  apply readonly_bind; [apply readonly_gfMul | intros g'; apply readonly_ret].
Qed.

Lemma readonly_rsEncode (data : list jsval) (ecLen : Z) :
  readonly (rsEncode data ecLen).
Proof.
  unfold rsEncode. apply readonly_bind; [apply readonly_rsGenPoly | intros gen].
  apply readonly_bind; [apply readonly_lift | intros msg0].
  apply readonly_bind; [|intros ?; apply readonly_ret].
  apply readonly_forM. intros i msg.
  destruct (strict_eq_num (arr_get msg i) 0); [apply readonly_ret|].
  apply readonly_forM. intros j msg'.
  apply readonly_bind; [apply readonly_gfMul | intros g'; apply readonly_ret].
Qed.

Lemma readonly_encodeDataByte (data : jsstring) (version : Z)
  (blocks : list (Z * Z)) :
  readonly (encodeDataByte data version blocks).
Proof.
  unfold encodeDataByte.
  apply readonly_bind; [apply readonly_lift | intros bits].
  apply readonly_bind; [apply readonly_lift | intros bits'].
  apply readonly_bind; [apply readonly_lift | intros st'].
  apply readonly_bind.
  - apply readonly_forM. intros [dcw ecCw] [[dataBlocks ecBlocks] offset].
    apply readonly_bind; [apply readonly_rsEncode | intros ec].
    apply readonly_ret.
  - intros [[dataBlocks ecBlocks] offset]. apply readonly_ret.
Qed.

Lemma readonly_generateQrMatrix (data : jsstring) :
  readonly (generateQrMatrix data).
Proof.
  unfold generateQrMatrix.
  apply readonly_bind; [apply readonly_encodeDataByte | intros b].
  apply readonly_lift.
Qed.

Lemma readonly_generateUpiQrCode (window_defined : bool) (params : UpiQrParams) :
  readonly (generateUpiQrCode window_defined params).
Proof.
  unfold generateUpiQrCode.
  apply readonly_bind; [apply readonly_lift | intros uri].
  apply readonly_bind; [apply readonly_generateQrMatrix | intros m].
  apply readonly_bind; [apply readonly_lift | intros svg].
  destruct window_defined; [|apply readonly_ret].
  apply readonly_bind; [apply readonly_lift | intros b; apply readonly_ret].
Qed.

(** ** The two base64 paths agree on ASCII text *)

Lemma utf8_bytes_ascii (s : jsstring) :
  forallb is_ascii s = true -> utf8_bytes s = s.
Proof.
  induction s as [|c s IH]; cbn [forallb utf8_bytes]; [reflexivity|].
  intros H. apply andb_prop in H. destruct H as [Hc Hs].
  unfold is_ascii in Hc. apply andb_prop in Hc. destruct Hc as [H0 H1].
  apply Z.leb_le in H0. apply Z.ltb_lt in H1.
  unfold is_low_surrogate, is_high_surrogate, in_range.
  replace (56320 <=? c) with false by (symmetry; apply Z.leb_gt; lia).
  replace (55296 <=? c) with false by (symmetry; apply Z.leb_gt; lia).
  cbn [andb]. unfold utf8.
  replace (c <? 128) with true by (symmetry; apply Z.ltb_lt; lia).
  cbn [app]. now rewrite IH.
Qed.

Lemma btoa_ascii (s : jsstring) :
  forallb is_ascii s = true -> btoa s = Ok (base64 s).
Proof.
  intros H. unfold btoa.
  replace (forallb (fun c => c <=? 255) s) with true; [reflexivity|].
  symmetry. rewrite forallb_forall in *. intros c Hc. specialize (H c Hc).
  unfold is_ascii in H. apply andb_prop in H. destruct H as [_ H].
  apply Z.ltb_lt in H. apply Z.leb_le. lia.
Qed.

Lemma pos_digits_ascii (fuel : nat) (n : Z) (acc : jsstring) :
  0 <= n -> forallb is_ascii acc = true ->
  forallb is_ascii (pos_digits fuel n acc) = true.
Proof.
  revert n acc; induction fuel as [|fuel IH]; intros n acc Hn Hacc;
    cbn [pos_digits]; [exact Hacc|].
  assert (Hd : forallb is_ascii ((48 + n mod 10) :: acc) = true).
  { cbn [forallb]. rewrite Hacc, andb_true_r. unfold is_ascii.
    pose proof (Z.mod_pos_bound n 10 ltac:(lia)).
    apply andb_true_intro. split; [apply Z.leb_le | apply Z.ltb_lt]; lia. }
  destruct (n <? 10); [exact Hd|].
  apply IH; [apply Z.div_pos; lia | exact Hd].
Qed.

Lemma toString10_ascii (n : Z) : forallb is_ascii (toString10 n) = true.
Proof.
  unfold toString10. destruct (n <? 0) eqn:E.
  - apply Z.ltb_lt in E. cbn [forallb].
    rewrite pos_digits_ascii; [reflexivity | lia | reflexivity].
  - apply Z.ltb_ge in E. apply pos_digits_ascii; [lia | reflexivity].
Qed.

Lemma ascii_app (a b : jsstring) :
  forallb is_ascii a = true -> forallb is_ascii b = true ->
  forallb is_ascii (a ++ b) = true.
Proof. intros Ha Hb. now rewrite forallb_app, Ha, Hb. Qed.

Lemma ascii_cons (c : Z) (s : jsstring) :
  is_ascii c = true -> forallb is_ascii s = true ->
  forallb is_ascii (c :: s) = true.
Proof. intros Hc Hs. cbn [forallb]. now rewrite Hc, Hs. Qed.

Ltac ascii_pieces :=
  repeat match goal with
         | |- forallb is_ascii (_ ++ _) = true => apply ascii_app
         | |- forallb is_ascii (toString10 _) = true => apply toString10_ascii
         | |- forallb is_ascii (_ :: _) = true =>
             apply ascii_cons; [reflexivity|]
         | |- forallb is_ascii _ = true => assumption || reflexivity
         end.

Lemma foldM_preserves {A S : Type} (P : S -> Prop) (body : A -> S -> result S)
  (l : list A) (s s' : S) :
  (forall x s s', body x s = Ok s' -> P s -> P s') ->
  foldM body l s = Ok s' -> P s -> P s'.
Proof.
  intros Hbody. revert s; induction l as [|x l IH]; intros s; cbn [foldM].
  - intros [= <-]. auto.
  - intros H Hs. inv_bind H. eauto.
Qed.

Lemma qrToSvg_ascii (m : matrix) (svg : jsstring) :
  qrToSvg m 4 4 = Ok svg -> forallb is_ascii svg = true.
Proof.
  unfold qrToSvg. intros H. inv_bind H. injection H as <-.
  assert (Hpaths : forallb is_ascii x = true).
  { unfold for_range in Hx.
    refine (foldM_preserves (fun p => forallb is_ascii p = true) _ _ _ _ _
              Hx eq_refl).
    intros r p p' Hrow.
    refine (foldM_preserves (fun p => forallb is_ascii p = true) _ _ _ _ _ Hrow).
    intros c q q' Hq Hascii. inv_bind Hq.
    destruct (strict_eq_num x0 1); injection Hq as <-; [|exact Hascii].
    ascii_pieces. }
  cbn [join]. ascii_pieces.
Qed.

(** C9.  A call of [generateUpiQrCode] leaves the module state as it found
    it, and a second call with the same parameters, run after the first and
    whether or not [window] is defined at either call, gives the same
    outcome: the same data URI, or the same exception. *)
Theorem generateUpiQrCode_pure (w1 w2 : bool) (params : UpiQrParams)
  (st : module_state) :
  snd (generateUpiQrCode w1 params st) = st
  /\ generateUpiQrCode w2 params (snd (generateUpiQrCode w1 params st))
     = generateUpiQrCode w1 params st.
Proof.
  split; [apply readonly_generateUpiQrCode|].
  rewrite (readonly_generateUpiQrCode w1 params st).
  unfold generateUpiQrCode, bindM, liftM, retM.
  destruct (buildUpiUri params) as [uri|e]; [|reflexivity].
  destruct (generateQrMatrix uri st) as [[m|e] st1]; [|reflexivity].
  destruct (qrToSvg m 4 4) as [svg|e] eqn:Esvg; [|destruct w1, w2; reflexivity].
  apply qrToSvg_ascii in Esvg.
  unfold buffer_base64.
  rewrite (btoa_ascii svg Esvg), (utf8_bytes_ascii svg Esvg).
  destruct w1, w2; reflexivity.
Qed.

(** ** Reed-Solomon: shape of the polynomials *)

(** A loop in the monad of the encoder whose body always returns and keeps
    an invariant. *)
Lemma forM_inv {A S : Type} (I : S -> Prop) (body : A -> S -> M S)
  (l : list A) (s : S) (st : module_state) :
  I s ->
  (forall x s, In x l -> I s -> exists s', body x s st = (Ok s', st) /\ I s') ->
  exists s', forM body l s st = (Ok s', st) /\ I s'.
Proof.
  revert s; induction l as [|x l IH]; intros s Hs Hbody; cbn [forM].
  - exists s. split; [reflexivity | exact Hs].
  - destruct (Hbody x s (or_introl eq_refl) Hs) as (s1 & H1 & Hs1).
    unfold bindM. rewrite H1.
    apply IH; [exact Hs1|]. intros y s' Hy. apply Hbody. now right.
Qed.

Lemma bindM_step {A B : Type} (m : M A) (k : A -> M B) (a : A)
  (st st' : module_state) :
  m st = (Ok a, st') -> bindM m k st = k a st'.
Proof. intros H. unfold bindM. now rewrite H. Qed.

Lemma is_byte_inv (v : jsval) :
  is_byte v = true -> exists z, v = Num z /\ 0 <= z <= 255.
Proof.
  destruct v as [| |z]; try discriminate. cbn. intros H.
  exists z. split; [reflexivity | now apply in_range_bounds].
Qed.

Lemma is_byte_intro (z : Z) : 0 <= z <= 255 -> is_byte (Num z) = true.
Proof.
  intros H. cbn. unfold in_range.
  apply andb_true_intro. split; apply Z.leb_le; lia.
Qed.

Lemma lxor_byte (a b : Z) :
  0 <= a <= 255 -> 0 <= b <= 255 -> 0 <= Z.lxor a b <= 255.
Proof.
  intros Ha Hb.
  assert (H0 : 0 <= Z.lxor a b) by (apply Z.lxor_nonneg; lia).
  split; [exact H0|].
  destruct (Z.eq_dec (Z.lxor a b) 0) as [->|Hne]; [lia|].
  assert (Hlt : Z.lxor a b < 2 ^ 8); [|lia].
  apply Z.log2_lt_pow2; [lia|].
  eapply Z.le_lt_trans; [apply Z.log2_lxor; lia|].
  apply Z.max_lub_lt.
  - destruct (Z.eq_dec a 0) as [->|]; [cbn; lia|].
    apply Z.log2_lt_pow2; lia.
  - destruct (Z.eq_dec b 0) as [->|]; [cbn; lia|].
    apply Z.log2_lt_pow2; lia.
Qed.

Lemma ToInt32_byte (z : Z) : 0 <= z <= 255 -> ToInt32 (Num z) = z.
Proof.
  intros H. cbn [ToInt32].
  rewrite Z.mod_small by lia. lia.
Qed.

Lemma js_xor_byte (x y : jsval) :
  is_byte x = true -> is_byte y = true -> is_byte (js_xor x y) = true.
Proof.
  intros Hx Hy.
  destruct (is_byte_inv x Hx) as (a & -> & Ha).
  destruct (is_byte_inv y Hy) as (b & -> & Hb).
  unfold js_xor. rewrite !ToInt32_byte by assumption.
  apply is_byte_intro. now apply lxor_byte.
Qed.

Lemma gfMul_bytes (x y : jsval) :
  is_byte x = true -> is_byte y = true ->
  exists v, gfMul x y loaded_module = (Ok v, loaded_module) /\ is_byte v = true.
Proof.
  intros Hx Hy.
  destruct (is_byte_inv x Hx) as (a & -> & Ha).
  destruct (is_byte_inv y Hy) as (b & -> & Hb).
  destruct (gfMul_byte a b Ha Hb) as (z & Hz & Hr).
  exists (Num z). split; [exact Hz | now apply is_byte_intro].
Qed.

Lemma arr_get_in (a : list jsval) (i : Z) :
  0 <= i < len a -> In (arr_get a i) a.
Proof.
  intros Hi. unfold arr_get, len in *.
  destruct (i <? 0) eqn:E; [apply Z.ltb_lt in E; lia|].
  apply nth_In. lia.
Qed.

Lemma forallb_arr_get (p : jsval -> bool) (a : list jsval) (i : Z) :
  forallb p a = true -> 0 <= i < len a -> p (arr_get a i) = true.
Proof.
  intros H Hi. rewrite forallb_forall in H. now apply H, arr_get_in.
Qed.

Lemma forallb_set_nth (p : jsval -> bool) (a : list jsval) (n : nat)
  (v : jsval) :
  forallb p a = true -> p v = true -> (n < List.length a)%nat ->
  forallb p (set_nth a n v) = true.
Proof.
  revert a; induction n as [|n IH]; intros [|x a] Ha Hv Hn; cbn in *; try lia.
  - apply andb_prop in Ha. destruct Ha as [_ Ha]. now rewrite Hv, Ha.
  - apply andb_prop in Ha. destruct Ha as [Hx Ha].
    rewrite Hx. cbn. apply IH; auto. lia.
Qed.

Lemma forallb_arr_set (p : jsval -> bool) (a : list jsval) (i : Z)
  (v : jsval) :
  forallb p a = true -> p v = true -> 0 <= i < len a ->
  forallb p (arr_set a i v) = true.
Proof.
  intros Ha Hv Hi. unfold arr_set, len in *.
  destruct (i <? 0) eqn:E; [exact Ha|].
  apply forallb_set_nth; auto. lia.
Qed.

Lemma arr_get_repeat (v : jsval) (n : nat) (i : Z) :
  0 <= i < Z.of_nat n -> arr_get (repeat v n) i = v.
Proof.
  intros Hi. unfold arr_get.
  destruct (i <? 0) eqn:E; [apply Z.ltb_lt in E; lia|].
  apply nth_repeat_lt. lia.
Qed.

Lemma forallb_repeat {A : Type} (p : A -> bool) (v : A) (n : nat) :
  p v = true -> forallb p (repeat v n) = true.
Proof. intros H. induction n; cbn; [reflexivity | now rewrite H]. Qed.

(** One round of the generator construction: from a polynomial of bytes
    with leading coefficient 1 to the next one, one coefficient longer. *)
Lemma rsGenPoly_round (i : Z) (poly : list jsval) :
  0 <= i <= 254 -> 1 <= len poly ->
  forallb is_byte poly = true -> arr_get poly 0 = Num 1 ->
  exists newPoly,
    forM
      (fun j newPoly =>
         let newPoly :=
           arr_set newPoly j (js_xor (arr_get newPoly j) (arr_get poly j)) in
         e <~ readEXP (Num i) ;;
         g <~ gfMul (arr_get poly j) e ;;
         retM (arr_set newPoly (j + 1) (js_xor (arr_get newPoly (j + 1)) g)))
      (zrange 0 (len poly))
      (repeat (Num 0) (Z.to_nat (len poly + 1))) loaded_module
    = (Ok newPoly, loaded_module)
    /\ len newPoly = len poly + 1
    /\ forallb is_byte newPoly = true
    /\ arr_get newPoly 0 = Num 1.
Proof.
  intros Hi Hlen Hbytes Hlead.
  pose proof (len_nonneg poly) as Hnn.
  set (n := len poly) in *.
  (* the coefficient at index 0 is settled by the first iteration *)
  assert (Hloop : forall js np,
             (forall j, In j js -> 0 <= j < n) -> NoDup js ->
             len np = n + 1 -> forallb is_byte np = true ->
             exists np',
               forM
                 (fun j newPoly =>
                    let newPoly :=
                      arr_set newPoly j
                        (js_xor (arr_get newPoly j) (arr_get poly j)) in
                    e <~ readEXP (Num i) ;;
                    g <~ gfMul (arr_get poly j) e ;;
                    retM (arr_set newPoly (j + 1)
                            (js_xor (arr_get newPoly (j + 1)) g)))
                 js np loaded_module
               = (Ok np', loaded_module)
               /\ len np' = n + 1 /\ forallb is_byte np' = true
               /\ (~ In 0 js -> arr_get np' 0 = arr_get np 0)
               /\ (arr_get np 0 = Num 0 ->
                   In 0 js -> arr_get np' 0 = Num 1)).
  { induction js as [|j js IH]; intros np Hjs Hnd Hl Hb; cbn [forM].
    - exists np. unfold retM. repeat split; auto. intros _ [].
    - assert (Hj : 0 <= j < n) by (apply Hjs; now left).
      apply NoDup_cons_iff in Hnd. destruct Hnd as [Hnotin Hnd].
      destruct (exp_entry i Hi) as (e & He & Her).
      destruct (gfMul_bytes (arr_get poly j) (Num e)) as (g & Hg & Hgb);
        [apply forallb_arr_get; fold n; auto; lia | now apply is_byte_intro|].
      set (np1 := arr_set np j (js_xor (arr_get np j) (arr_get poly j))).
      assert (Hb1 : forallb is_byte np1 = true).
      { apply forallb_arr_set; [exact Hb| |lia].
        apply js_xor_byte; apply forallb_arr_get; auto; fold n; lia. }
      assert (Hl1 : len np1 = n + 1) by (unfold np1; rewrite len_arr_set; lia).
      set (np2 := arr_set np1 (j + 1) (js_xor (arr_get np1 (j + 1)) g)).
      assert (Hb2 : forallb is_byte np2 = true).
      { apply forallb_arr_set; [exact Hb1| |lia].
        apply js_xor_byte; [apply forallb_arr_get; auto; lia | exact Hgb]. }
      assert (Hl2 : len np2 = n + 1) by (unfold np2; rewrite len_arr_set; lia).
      rewrite (bindM_step _ _ np2 loaded_module loaded_module).
      2:{ cbv zeta. fold np1.
          rewrite (bindM_step _ _ (Num e) loaded_module loaded_module)
            by (unfold readEXP; cbn [arr_index]; now rewrite He).
          rewrite (bindM_step _ _ g loaded_module loaded_module) by exact Hg.
          reflexivity. }
      destruct (IH np2 (fun j' H => Hjs j' (or_intror H)) Hnd Hl2 Hb2)
        as (np' & Hf & Hl' & Hb' & Hkeep & Hset).
      exists np'. split; [exact Hf|]. split; [exact Hl'|]. split; [exact Hb'|].
      assert (H2 : arr_get np2 0 = arr_get np1 0)
        by (unfold np2; apply arr_get_set_other; lia).
      split.
      + intros Hn0. rewrite Hkeep by (intros H; apply Hn0; now right).
        rewrite H2. unfold np1. apply arr_get_set_other.
        intros ->. apply Hn0. now left.
      + intros Hz [->|Hin].
        * rewrite Hkeep by exact Hnotin. rewrite H2. unfold np1.
          rewrite arr_get_set_same by lia. rewrite Hz, Hlead. reflexivity.
        * assert (j <> 0) by (intros ->; contradiction).
          apply Hset; [|exact Hin]. rewrite H2. unfold np1.
          rewrite arr_get_set_other by auto. exact Hz. }
  destruct (Hloop (zrange 0 n) (repeat (Num 0) (Z.to_nat (n + 1))))
    as (np' & Hf & Hl' & Hb' & _ & Hset).
  - intros j Hj. now apply In_zrange in Hj.
  - apply NoDup_zrange.
  - rewrite len_repeat. lia.
  - now apply forallb_repeat.
  - exists np'. split; [exact Hf|]. split; [exact Hl'|]. split; [exact Hb'|].
    apply Hset; [apply arr_get_repeat; lia | apply In_zrange; lia].
Qed.

Lemma forM_range_inv {St : Type} (I : Z -> St -> Prop)
  (body : Z -> St -> M St) (lo : Z) (n : nat) (s : St) (st : module_state) :
  I lo s ->
  (forall i s, lo <= i < lo + Z.of_nat n -> I i s ->
     exists s', body i s st = (Ok s', st) /\ I (i + 1) s') ->
  exists s', forM body (zseq lo n) s st = (Ok s', st) /\ I (lo + Z.of_nat n) s'.
Proof.
  revert lo s; induction n as [|n IH]; intros lo s Hs Hbody; cbn [zseq forM].
  - exists s. rewrite Z.add_0_r. split; [reflexivity | exact Hs].
  - destruct (Hbody lo s ltac:(lia) Hs) as (s1 & H1 & Hs1).
    rewrite (bindM_step _ _ s1 st st H1).
    destruct (IH (lo + 1) s1 Hs1) as (s' & Hf & Hs').
    + intros i s2 Hi. apply Hbody. lia.
    + exists s'. split; [exact Hf|].
      replace (lo + Z.of_nat (S n)) with (lo + 1 + Z.of_nat n) by lia.
      exact Hs'.
Qed.

(** The generator polynomial: [ecLen + 1] bytes, the first of them 1. *)
Lemma rsGenPoly_shape (ecLen : Z) :
  0 <= ecLen <= 255 ->
  exists gen,
    rsGenPoly ecLen loaded_module = (Ok gen, loaded_module)
    /\ len gen = ecLen + 1
    /\ forallb is_byte gen = true
    /\ arr_get gen 0 = Num 1.
Proof.
  intros Hec. unfold rsGenPoly, zrange.
  destruct (forM_range_inv
              (fun i poly => len poly = i + 1 /\ forallb is_byte poly = true
                             /\ arr_get poly 0 = Num 1)
              (fun i poly =>
                 newPoly <~
                   forM
                     (fun j newPoly =>
                        let newPoly :=
                          arr_set newPoly j
                            (js_xor (arr_get newPoly j) (arr_get poly j)) in
                        e <~ readEXP (Num i) ;;
                        g <~ gfMul (arr_get poly j) e ;;
                        retM (arr_set newPoly (j + 1)
                                (js_xor (arr_get newPoly (j + 1)) g)))
                     (zrange 0 (len poly))
                     (repeat (Num 0) (Z.to_nat (len poly + 1))) ;;
                 retM newPoly)
              0 (Z.to_nat (ecLen - 0)) [Num 1] loaded_module)
    as (gen & Hf & Hl & Hb & Hlead).
  - repeat split.
  - intros i poly Hi (Hl & Hb & Hlead).
    destruct (rsGenPoly_round i poly ltac:(lia) ltac:(lia) Hb Hlead)
      as (np & Hnp & Hl' & Hb' & Hlead').
    exists np. rewrite (bindM_step _ _ np loaded_module loaded_module Hnp).
    split; [reflexivity|]. split; [lia | auto].
  - exists gen. split; [exact Hf|]. split; [lia | auto].
Qed.

Lemma forallb_skipn {A : Type} (p : A -> bool) (n : nat) (l : list A) :
  forallb p l = true -> forallb p (skipn n l) = true.
Proof.
  rewrite !forallb_forall. intros H x Hx. apply H.
  rewrite <- (firstn_skipn n l). apply in_or_app. now right.
Qed.

Lemma forallb_firstn {A : Type} (p : A -> bool) (n : nat) (l : list A) :
  forallb p l = true -> forallb p (firstn n l) = true.
Proof.
  rewrite !forallb_forall. intros H x Hx. apply H.
  rewrite <- (firstn_skipn n l). apply in_or_app. now left.
Qed.

(** The error-correction codewords of a block of bytes: [ecLen] bytes. *)
Lemma rsEncode_shape (data : list jsval) (ecLen : Z) :
  0 <= ecLen <= 255 -> forallb is_byte data = true ->
  exists ec,
    rsEncode data ecLen loaded_module = (Ok ec, loaded_module)
    /\ len ec = ecLen
    /\ forallb is_byte ec = true.
Proof.
  intros Hec Hdata. unfold rsEncode.
  destruct (rsGenPoly_shape ecLen Hec) as (gen & Hgen & Hlgen & Hbgen & _).
  rewrite (bindM_step _ _ gen loaded_module loaded_module Hgen).
  replace ((ecLen <? 0) || (4294967295 <? ecLen)) with false by lia.
  rewrite (bindM_step _ _ (data ++ repeat (Num 0) (Z.to_nat ecLen))
             loaded_module loaded_module eq_refl).
  set (n := len data + ecLen).
  pose proof (len_nonneg data) as Hnn.
  destruct (forM_inv
              (fun msg => len msg = n /\ forallb is_byte msg = true)
              (fun i msg =>
                 let coef := arr_get msg i in
                 if strict_eq_num coef 0 then retM msg
                 else
                   forM
                     (fun j msg =>
                        g <~ gfMul (arr_get gen j) coef ;;
                        retM (arr_set msg (i + j)
                                (js_xor (arr_get msg (i + j)) g)))
                     (zrange 0 (len gen)) msg)
              (zrange 0 (len data))
              (data ++ repeat (Num 0) (Z.to_nat ecLen)) loaded_module)
    as (msg & Hf & Hl & Hb).
  - split.
    + rewrite len_app, len_repeat. unfold n. lia.
    + rewrite forallb_app, Hdata. cbn. now apply forallb_repeat.
  - intros i msg Hi (Hl & Hb). apply In_zrange in Hi. cbv zeta.
    destruct (strict_eq_num (arr_get msg i) 0);
      [exists msg; split; [reflexivity | auto]|].
    assert (Hcoef : is_byte (arr_get msg i) = true)
      by (apply forallb_arr_get; [exact Hb | unfold n in Hl; lia]).
    apply (forM_inv (fun msg => len msg = n /\ forallb is_byte msg = true));
      [auto|].
    intros j msg' Hj (Hl' & Hb'). apply In_zrange in Hj.
    destruct (gfMul_bytes (arr_get gen j) (arr_get msg i)) as (g & Hg & Hgb);
      [apply forallb_arr_get; auto; lia | exact Hcoef|].
    rewrite (bindM_step _ _ g loaded_module loaded_module Hg).
    eexists. split; [reflexivity|].
    assert (Hij : 0 <= i + j < len msg') by (unfold n in Hl'; lia).
    split.
    + rewrite len_arr_set; auto.
    + apply forallb_arr_set; auto.
      apply js_xor_byte; [now apply forallb_arr_get | exact Hgb].
  - rewrite (bindM_step _ _ msg loaded_module loaded_module Hf).
    eexists. split; [reflexivity|]. split.
    + unfold len in *. rewrite length_skipn. unfold n in Hl. lia.
    + now apply forallb_skipn.
Qed.

(** A negative length is no array length: [rsEncode] throws at
    [new Array(ecLen)], whatever the data and the state of the tables. *)
Lemma rsEncode_negative_length (data : list jsval) (ecLen : Z)
  (st : module_state) :
  ecLen < 0 -> rsEncode data ecLen st = (Throw RangeError, st).
Proof.
  intros Hneg.
  assert (Hr : zrange 0 ecLen = [])
    by (unfold zrange; now replace (Z.to_nat (ecLen - 0)) with O by lia).
  unfold rsEncode, rsGenPoly. rewrite Hr.
  replace (ecLen <? 0) with true by lia.
  reflexivity.
Qed.

(** ** Bit stream: the loops of [encodeDataByte] *)

(** A [while] loop with an invariant and a measure that its body
    decreases returns, within any bound at least the measure. *)
Lemma while_loop_inv {St : Type} (I : St -> Prop) (measure : St -> nat)
  (cond : St -> bool) (body : St -> result St) (fuel : nat) (s : St) :
  I s -> (measure s <= fuel)%nat ->
  (forall s, I s -> cond s = true ->
     exists s', body s = Ok s' /\ I s' /\ (measure s' < measure s)%nat) ->
  exists s', while_loop fuel cond body s = Ok s' /\ I s' /\ cond s' = false.
Proof.
  intros Hs Hm Hbody. revert s Hs Hm.
  induction fuel as [|fuel IH]; intros s Hs Hm; cbn [while_loop].
  - destruct (cond s) eqn:Ec.
    + destruct (Hbody s Hs Ec) as (s' & _ & _ & Hlt). lia.
    + exists s. auto.
  - destruct (cond s) eqn:Ec; [|exists s; auto].
    destruct (Hbody s Hs Ec) as (s1 & -> & Hs1 & Hlt). cbn [bind].
    apply IH; [exact Hs1 | lia].
Qed.

Lemma fold_left_bits {A : Type} (f : A -> list bool) (l : list A)
  (acc : list bool) :
  fold_left (fun bits c => bits ++ f c) l acc = acc ++ flat_map f l.
Proof.
  revert acc; induction l as [|x l IH]; intros acc; cbn [fold_left flat_map].
  - now rewrite app_nil_r.
  - rewrite IH. now rewrite app_assoc.
Qed.

Lemma len_cons {A : Type} (x : A) (l : list A) : len (x :: l) = 1 + len l.
Proof. unfold len. cbn [List.length]. lia. Qed.

(** The loop that pads to a byte boundary appends fewer than 8 zero bits and
    stops on a multiple of 8. *)
Lemma align_loop (bits : list bool) :
  exists k bits',
    while_loop 8 (fun bits => negb (Z.rem (len bits) 8 =? 0))
      (fun bits => Ok (bits ++ [false])) bits = Ok bits'
    /\ bits' = bits ++ repeat false k
    /\ (len bits') mod 8 = 0
    /\ len bits' < len bits + 8.
Proof.
  pose proof (len_nonneg bits) as Hnn.
  destruct (while_loop_inv
              (fun b => exists k, b = bits ++ repeat false k
                                  /\ len b + (- len b) mod 8
                                     = len bits + (- len bits) mod 8)
              (fun b => Z.to_nat ((- len b) mod 8))
              (fun bits => negb (Z.rem (len bits) 8 =? 0))
              (fun bits => Ok (bits ++ [false])) 8 bits)
    as (b' & Hw & (k & Hk & Hsum) & Hc).
  - exists 0%nat. cbn. now rewrite app_nil_r.
  - pose proof (Z.mod_pos_bound (- len bits) 8 ltac:(lia)). lia.
  - intros b (k & -> & Hsum) Hc.
    eexists. split; [reflexivity|].
    pose proof (len_nonneg (bits ++ repeat false k)) as Hb.
    set (n := len (bits ++ repeat false k)) in *.
    assert (Hrem : n mod 8 <> 0).
    { apply negb_true_iff, Z.eqb_neq in Hc.
      rewrite Z.rem_mod_nonneg in Hc by lia. exact Hc. }
    assert (Hstep : (- (n + 1)) mod 8 = (- n) mod 8 - 1).
    { pose proof (Z.mod_pos_bound n 8 ltac:(lia)).
      pose proof (Z.mod_pos_bound (- n) 8 ltac:(lia)).
      pose proof (Z.mod_pos_bound (- (n + 1)) 8 ltac:(lia)).
      pose proof (Z.div_mod n 8 ltac:(lia)).
      pose proof (Z.div_mod (- n) 8 ltac:(lia)).
      pose proof (Z.div_mod (- (n + 1)) 8 ltac:(lia)).
      lia. }
    assert (Hlen : len ((bits ++ repeat false k) ++ [false]) = n + 1).
    { rewrite len_app. fold n. reflexivity. }
    split.
    + exists (S k). split.
      * rewrite <- app_assoc. f_equal.
        change [false] with (repeat false 1). rewrite <- repeat_app.
        f_equal. lia.
      * rewrite Hlen, Hstep. lia.
    + rewrite Hlen, Hstep.
      pose proof (Z.mod_pos_bound (- n) 8 ltac:(lia)).
      pose proof (Z.mod_pos_bound (- (n + 1)) 8 ltac:(lia)). lia.
  - exists k, b'. split; [exact Hw|]. split; [exact Hk|].
    pose proof (len_nonneg b') as Hb.
    apply negb_false_iff, Z.eqb_eq in Hc.
    rewrite Z.rem_mod_nonneg in Hc by lia.
    split; [exact Hc|].
    assert (H0 : (- len b') mod 8 = 0).
    { pose proof (Z.mod_pos_bound (- len b') 8 ltac:(lia)).
      pose proof (Z.div_mod (len b') 8 ltac:(lia)).
      pose proof (Z.div_mod (- len b') 8 ltac:(lia)). lia. }
    pose proof (Z.mod_pos_bound (- len bits) 8 ltac:(lia)). lia.
Qed.

(** The loop that appends pad bytes ends exactly at the capacity. *)
Lemma pad_loop (capacity : Z) (bits : list bool) :
  capacity mod 8 = 0 -> (len bits) mod 8 = 0 -> len bits <= capacity ->
  exists pad bits' idx,
    while_loop (Z.to_nat capacity)
      (fun '(bits, padIdx) => len bits <? capacity)
      (fun '(bits, padIdx) =>
         b <- byte_bits (arr_get padBytes (Z.rem padIdx 2)) ;;
         Ok (bits ++ b, padIdx + 1))
      (bits, 0) = Ok (bits', idx)
    /\ bits' = bits ++ pad
    /\ len bits' = capacity.
Proof.
  intros Hcap Hbits Hle.
  pose proof (len_nonneg bits) as Hnn.
  destruct (while_loop_inv
              (fun s : list bool * Z =>
                 (exists pad, fst s = bits ++ pad)
                 /\ (len (fst s)) mod 8 = 0 /\ len (fst s) <= capacity
                 /\ 0 <= snd s)
              (fun s => Z.to_nat (capacity - len (fst s)))
              (fun '(bits, padIdx) => len bits <? capacity)
              (fun '(bits, padIdx) =>
                 b <- byte_bits (arr_get padBytes (Z.rem padIdx 2)) ;;
                 Ok (bits ++ b, padIdx + 1))
              (Z.to_nat capacity) (bits, 0))
    as ([b' idx] & Hw & ((pad & Hpad) & Hm8 & Hle' & Hidx) & Hc).
  - cbn [fst snd]. repeat split; auto; try lia.
    exists []. now rewrite app_nil_r.
  - cbn [fst]. lia.
  - intros [b idx] ((pad & Hpad) & Hm8 & Hle' & Hidx) Hc. cbn [fst snd] in *.
    apply Z.ltb_lt in Hc.
    assert (Hb : exists w, byte_bits (arr_get padBytes (Z.rem idx 2)) = Ok w
                           /\ len w = 8).
    { pose proof (Z.rem_bound_pos idx 2 Hidx ltac:(lia)) as Hr.
      assert (Hcases : Z.rem idx 2 = 0 \/ Z.rem idx 2 = 1) by lia.
      destruct Hcases as [-> | ->]; eexists; split; reflexivity. }
    destruct Hb as (w & -> & Hw8). cbn [bind].
    eexists. split; [reflexivity|]. cbn [fst snd].
    rewrite len_app, Hw8.
    assert (Hfit : len b + 8 <= capacity).
    { pose proof (Z.div_mod (len b) 8 ltac:(lia)).
      pose proof (Z.div_mod capacity 8 ltac:(lia)). lia. }
    repeat split; try lia.
    + exists (pad ++ w). rewrite Hpad. now rewrite app_assoc.
    + rewrite Z.add_mod by lia. rewrite Hm8. reflexivity.
  - cbn [fst snd] in *. apply Z.ltb_ge in Hc.
    exists pad, b', idx. split; [exact Hw|]. split; [exact Hpad | lia].
Qed.

Lemma byte_conversions_ok : forallb byte_conversion_ok (zrange 0 256) = true.
Proof. vm_compute. reflexivity. Qed.

Lemma count_conversions_ok : forallb count_conversion_ok (zrange 0 256) = true.
Proof. vm_compute. reflexivity. Qed.

Lemma byte_conversion (c : Z) :
  0 <= c <= 255 ->
  len (padStart0 8 (toString2 c)) = 8
  /\ parseInt2 (padStart0 8 (toString2 c)) = c.
Proof.
  intros Hc. pose proof byte_conversions_ok as H. rewrite forallb_forall in H.
  specialize (H c (proj2 (In_zrange c 0 256) ltac:(lia))).
  unfold byte_conversion_ok in H. apply andb_prop in H. destruct H as [H1 H2].
  apply Z.eqb_eq in H1, H2. auto.
Qed.

Lemma count_conversion (version n : Z) :
  0 <= n <= 255 ->
  len (padStart0 (count_bits version) (toString2 n)) = count_bits version
  /\ parseInt2 (padStart0 (count_bits version) (toString2 n)) = n.
Proof.
  intros Hn. pose proof count_conversions_ok as H. rewrite forallb_forall in H.
  specialize (H n (proj2 (In_zrange n 0 256) ltac:(lia))).
  unfold count_conversion_ok in H.
  repeat (apply andb_prop in H; destruct H as [H ?]).
  repeat match goal with Hq : (_ =? _) = true |- _ => apply Z.eqb_eq in Hq end.
  unfold count_bits. destruct (version <=? 9); auto.
Qed.

(** Eight bits read as a number and written back are the same eight bits. *)
Lemma eight_bits_round_trip (l : list bool) :
  List.length l = 8%nat -> padStart0 8 (toString2 (parseInt2 l)) = l.
Proof.
  intros H.
  destruct l as [|b1 [|b2 [|b3 [|b4 [|b5 [|b6 [|b7 [|b8 [|b9 l]]]]]]]]];
    try discriminate H.
  destruct b1, b2, b3, b4, b5, b6, b7, b8; reflexivity.
Qed.

Lemma parseInt2_bounds (l : list bool) (acc : Z) :
  0 <= acc ->
  acc * 2 ^ len l
  <= fold_left (fun acc b => 2 * acc + (if b : bool then 1 else 0)) l acc
  < (acc + 1) * 2 ^ len l.
Proof.
  revert acc; induction l as [|b l IH]; intros acc Hacc; cbn [fold_left].
  - change (len (@nil bool)) with 0. lia.
  - rewrite len_cons.
    pose proof (len_nonneg l) as Hl.
    replace (2 ^ (1 + len l)) with (2 * 2 ^ len l)
      by (rewrite Z.pow_add_r by lia; reflexivity).
    assert (Hp : 0 < 2 ^ len l) by (apply Z.pow_pos_nonneg; lia).
    specialize (IH (2 * acc + (if b then 1 else 0))
                  ltac:(destruct b; lia)).
    destruct b; nia.
Qed.

Lemma parseInt2_byte (l : list bool) :
  (List.length l <= 8)%nat -> 0 <= parseInt2 l <= 255.
Proof.
  intros H. pose proof (parseInt2_bounds l 0 ltac:(lia)) as Hb.
  fold (parseInt2 l) in Hb.
  assert (Hp : 2 ^ len l <= 2 ^ 8)
    by (apply Z.pow_le_mono_r; unfold len; lia).
  change (2 ^ 8) with 256 in Hp. lia.
Qed.

Lemma map_zseq_shift {B : Type} (f : Z -> B) (lo : Z) (n : nat) :
  map f (zseq (lo + 1) n) = map (fun i => f (i + 1)) (zseq lo n).
Proof.
  revert lo; induction n as [|n IH]; intros lo; cbn [zseq map];
    [reflexivity|].
  f_equal. apply IH.
Qed.

Lemma slice_app_skip {A : Type} (pre l : list A) (from to : Z) :
  0 <= from ->
  slice (pre ++ l) (len pre + from) (len pre + to) = slice l from to.
Proof.
  intros Hf. unfold slice, len.
  replace (Z.to_nat (Z.of_nat (List.length pre) + to
                     - (Z.of_nat (List.length pre) + from)))
    with (Z.to_nat (to - from)) by lia.
  f_equal.
  replace (Z.to_nat (Z.of_nat (List.length pre) + from))
    with (List.length pre + Z.to_nat from)%nat by lia.
  rewrite skipn_app.
  rewrite (skipn_all2 pre) by lia. cbn [app].
  f_equal. lia.
Qed.

Lemma slice_prefix {A : Type} (chunk rest : list A) :
  slice (chunk ++ rest) 0 (len chunk) = chunk.
Proof.
  unfold slice, len. cbn [Z.to_nat skipn].
  replace (Z.to_nat (Z.of_nat (List.length chunk) - 0))
    with (List.length chunk + 0)%nat by lia.
  rewrite firstn_app_2. cbn. now rewrite app_nil_r.
Qed.

Lemma split_codewords_cons (chunk rest : list bool) :
  List.length chunk = 8%nat ->
  split_codewords (chunk ++ rest)
  = Num (parseInt2 chunk) :: split_codewords rest.
Proof.
  intros H8. unfold split_codewords.
  assert (Hlen : len chunk = 8) by (unfold len; lia).
  pose proof (len_nonneg rest) as Hnn.
  rewrite len_app, Hlen.
  replace ((8 + len rest + 7) / 8) with (1 + (len rest + 7) / 8)
    by (replace (8 + len rest + 7) with (1 * 8 + (len rest + 7)) by lia;
        rewrite Z.div_add_l by lia; reflexivity).
  assert (Hq : 0 <= (len rest + 7) / 8) by (apply Z.div_pos; lia).
  unfold zrange.
  replace (Z.to_nat (1 + (len rest + 7) / 8 - 0))
    with (S (Z.to_nat ((len rest + 7) / 8 - 0))) by lia.
  cbn [zseq map]. f_equal.
  - f_equal. f_equal. change (8 * 0) with 0. change (0 + 8) with 8.
    rewrite <- Hlen. apply slice_prefix.
  - change (0 + 1) with (0 + 1). rewrite map_zseq_shift.
    apply map_ext_in. intros k Hk. apply In_zseq in Hk.
    f_equal. f_equal.
    replace (8 * (k + 1)) with (len chunk + 8 * k) by lia.
    replace (len chunk + 8 * k + 8) with (len chunk + (8 * k + 8)) by lia.
    apply slice_app_skip. lia.
Qed.

Lemma split_codewords_nil : split_codewords [] = [].
Proof. reflexivity. Qed.

(** Cutting a bit string whose length is a multiple of 8 into codewords
    loses nothing: the codewords are bytes, one per 8 bits, and spell the
    bit string back. *)
Lemma split_codewords_bits (k : nat) (bits : list bool) :
  List.length bits = (8 * k)%nat ->
  bits_of (split_codewords bits) = bits
  /\ List.length (split_codewords bits) = k
  /\ forallb is_byte (split_codewords bits) = true.
Proof.
  revert bits; induction k as [|k IH]; intros bits Hlen.
  - destruct bits; [|discriminate]. repeat split.
  - assert (Hc : List.length (firstn 8 bits) = 8%nat)
      by (rewrite length_firstn; lia).
    assert (Hr : List.length (skipn 8 bits) = (8 * k)%nat)
      by (rewrite length_skipn; lia).
    rewrite <- (firstn_skipn 8 bits) at 1 2 3 4.
    rewrite split_codewords_cons by exact Hc.
    destruct (IH _ Hr) as (H1 & H2 & H3).
    unfold bits_of in *. cbn [flat_map codeword_bits List.length forallb].
    rewrite H1, H2, H3, eight_bits_round_trip by exact Hc.
    rewrite firstn_skipn. repeat split.
    rewrite andb_true_r. apply is_byte_intro, parseInt2_byte. lia.
Qed.

Lemma sum_dcw_acc (blocks : list (Z * Z)) (acc : Z) :
  fold_left (fun s b => s + fst b) blocks acc = acc + sum_dcw blocks.
Proof.
  unfold sum_dcw. revert acc; induction blocks as [|b bs IH]; intros acc;
    cbn [fold_left]; [lia|].
  rewrite (IH (acc + fst b)), (IH (0 + fst b)). lia.
Qed.

Lemma sum_dcw_cons (b : Z * Z) (blocks : list (Z * Z)) :
  sum_dcw (b :: blocks) = fst b + sum_dcw blocks.
Proof. unfold sum_dcw at 1. cbn [fold_left]. now rewrite sum_dcw_acc. Qed.

Lemma sum_dcw_nonneg (blocks : list (Z * Z)) :
  (forall b, In b blocks -> 0 <= fst b) -> 0 <= sum_dcw blocks.
Proof.
  induction blocks as [|b bs IH]; intros H; [cbn; lia|].
  rewrite sum_dcw_cons. specialize (H b (or_introl eq_refl)) as Hb.
  specialize (IH (fun b' Hb' => H b' (or_intror Hb'))). lia.
Qed.

Lemma len_slice {A : Type} (l : list A) (from to : Z) :
  0 <= from <= to -> to <= len l -> len (slice l from to) = to - from.
Proof.
  intros H1 H2. unfold slice, len in *.
  rewrite length_firstn, length_skipn. lia.
Qed.

Lemma firstn_plus {A : Type} (n m : nat) (l : list A) :
  firstn (n + m) l = firstn n l ++ firstn m (skipn n l).
Proof.
  revert l; induction n as [|n IH]; intros l; [reflexivity|].
  destruct l as [|x l]; cbn [Nat.add firstn skipn app].
  - now rewrite firstn_nil.
  - f_equal. apply IH.
Qed.

Lemma slice_split {A : Type} (l : list A) (a b c : Z) :
  0 <= a <= b -> b <= c ->
  slice l a b ++ slice l b c = slice l a c.
Proof.
  intros H1 H2. unfold slice.
  replace (Z.to_nat b) with (Z.to_nat (b - a) + Z.to_nat a)%nat by lia.
  rewrite <- skipn_skipn.
  replace (Z.to_nat (c - a)) with (Z.to_nat (b - a) + Z.to_nat (c - b))%nat
    by lia.
  rewrite firstn_plus. reflexivity.
Qed.

Lemma slice_all {A : Type} (l : list A) : slice l 0 (len l) = l.
Proof.
  unfold slice, len. cbn [Z.to_nat skipn].
  rewrite Z.sub_0_r, Nat2Z.id. apply firstn_all.
Qed.

Lemma forallb_slice {A : Type} (p : A -> bool) (l : list A) (from to : Z) :
  forallb p l = true -> forallb p (slice l from to) = true.
Proof. intros H. unfold slice. now apply forallb_firstn, forallb_skipn. Qed.

Lemma block_slices_shape (codewords : list jsval) (blocks : list (Z * Z))
  (offset : Z) :
  (forall b, In b blocks -> 0 <= fst b) ->
  0 <= offset -> offset + sum_dcw blocks <= len codewords ->
  List.concat (block_slices codewords blocks offset)
  = slice codewords offset (offset + sum_dcw blocks)
  /\ map len (block_slices codewords blocks offset) = map fst blocks.
Proof.
  revert offset; induction blocks as [|[d e] bs IH]; intros offset Hpos Hoff Hle.
  - cbn. unfold slice. rewrite Z.add_0_r, Z.sub_diag. cbn. auto.
  - rewrite sum_dcw_cons in *. cbn [fst] in *.
    assert (Hd : 0 <= d) by (apply (Hpos (d, e)); now left).
    pose proof (sum_dcw_nonneg bs (fun b H => Hpos b (or_intror H))) as Hs.
    destruct (IH (offset + d) (fun b H => Hpos b (or_intror H))
                ltac:(lia) ltac:(lia)) as (H1 & H2).
    cbn [block_slices List.concat map fst]. rewrite H1, H2. split.
    + replace (offset + d + sum_dcw bs) with (offset + (d + sum_dcw bs)) by lia.
      apply slice_split; lia.
    + f_equal. rewrite len_slice; lia.
Qed.

Lemma forallb_block_slices (codewords : list jsval) (blocks : list (Z * Z))
  (offset : Z) :
  forallb is_byte codewords = true ->
  forallb (forallb is_byte) (block_slices codewords blocks offset) = true.
Proof.
  intros H. revert offset; induction blocks as [|[d e] bs IH]; intros offset;
    cbn [block_slices forallb]; [reflexivity|].
  rewrite IH, forallb_slice by exact H. reflexivity.
Qed.

(** ** The field of 256 elements *)

Lemma exp_logs_ok : forallb (exp_log_ok loaded_module) (zrange 0 255) = true.
Proof. vm_compute. reflexivity. Qed.

Lemma log_exps_ok : forallb (log_exp_ok loaded_module) (zrange 0 256) = true.
Proof. vm_compute. reflexivity. Qed.

Lemma xtimes_ok : forallb xtime_ok (zrange 0 256) = true.
Proof. vm_compute. reflexivity. Qed.

Lemma exp_fact (k : Z) :
  0 <= k <= 254 ->
  1 <= gexp k <= 255
  /\ arr_get (EXP_TABLE loaded_module) k = Num (gexp k)
  /\ Z.rem (glog (gexp k)) 255 = k
  /\ gexp (Z.rem (k + 1) 255) = xtime (gexp k).
Proof.
  intros Hk. pose proof exp_logs_ok as H. rewrite forallb_forall in H.
  specialize (H k (proj2 (In_zrange k 0 255) ltac:(lia))).
  unfold exp_log_ok in H.
  destruct (arr_get (EXP_TABLE loaded_module) k) as [| |z] eqn:Ez;
    try discriminate.
  apply andb_prop in H. destruct H as [H H3].
  apply andb_prop in H. destruct H as [H1 H2].
  apply in_range_bounds in H1.
  destruct (arr_get (LOG_TABLE loaded_module) z) as [| |l] eqn:El;
    try discriminate.
  apply andb_prop in H2. destruct H2 as [_ H2]. apply Z.eqb_eq in H2.
  apply jsval_eqb_eq in H3.
  assert (Eg : gexp k = z) by (unfold gexp; now rewrite Ez).
  rewrite Eg. split; [exact H1|]. split; [reflexivity|].
  split; [unfold glog; now rewrite El|].
  unfold gexp. now rewrite H3.
Qed.

Lemma log_fact (a : Z) :
  1 <= a <= 255 ->
  0 <= glog a <= 255
  /\ arr_get (LOG_TABLE loaded_module) a = Num (glog a)
  /\ gexp (Z.rem (glog a) 255) = a.
Proof.
  intros Ha. destruct (log_entry a Ha) as (l & Hl & Hr).
  pose proof log_exps_ok as H. rewrite forallb_forall in H.
  specialize (H a (proj2 (In_zrange a 0 256) ltac:(lia))).
  unfold log_exp_ok in H.
  destruct (a =? 0) eqn:E; [apply Z.eqb_eq in E; lia|]. cbn [orb] in H.
  rewrite Hl in H. apply jsval_eqb_eq in H.
  assert (Eg : glog a = l) by (unfold glog; now rewrite Hl).
  rewrite Eg. split; [exact Hr|]. split; [exact Hl|].
  unfold gexp. now rewrite H.
Qed.

Lemma gf_0_l (b : Z) : gf 0 b = 0.
Proof. reflexivity. Qed.

Lemma gf_0_r (a : Z) : gf a 0 = 0.
Proof. unfold gf. now rewrite gfMul_zero_r. Qed.

Lemma gf_comm (a b : Z) : gf a b = gf b a.
Proof. unfold gf. now rewrite gfMul_comm. Qed.

Lemma gfMul_gf (a b : Z) :
  0 <= a <= 255 -> 0 <= b <= 255 ->
  gfMul (Num a) (Num b) loaded_module = (Ok (Num (gf a b)), loaded_module)
  /\ 0 <= gf a b <= 255.
Proof.
  intros Ha Hb. destruct (gfMul_byte a b Ha Hb) as (z & Hz & Hr).
  unfold gf. rewrite Hz. cbn [fst num_of]. auto.
Qed.

Lemma gf_unfold (a b : Z) :
  1 <= a <= 255 -> 1 <= b <= 255 ->
  gf a b = gexp ((glog a + glog b) mod 255).
Proof.
  intros Ha Hb.
  destruct (log_fact a Ha) as (Hla & Ea & _).
  destruct (log_fact b Hb) as (Hlb & Eb & _).
  unfold gf, gfMul. cbn [strict_eq_num].
  replace (a =? 0) with false by (symmetry; apply Z.eqb_neq; lia).
  replace (b =? 0) with false by (symmetry; apply Z.eqb_neq; lia).
  cbn [orb]. unfold bindM, readLOG, readEXP. cbn [arr_index].
  rewrite Ea, Eb. unfold sum_rem_255. cbn [ToNumber arr_index fst].
  rewrite Z.rem_mod_nonneg by lia. reflexivity.
Qed.

Lemma gf_nonzero (a b : Z) :
  1 <= a <= 255 -> 1 <= b <= 255 ->
  1 <= gf a b <= 255
  /\ (glog (gf a b)) mod 255 = (glog a + glog b) mod 255.
Proof.
  intros Ha Hb. rewrite (gf_unfold a b Ha Hb).
  destruct (log_fact a Ha) as (Hla & _). destruct (log_fact b Hb) as (Hlb & _).
  pose proof (Z.mod_pos_bound (glog a + glog b) 255 ltac:(lia)) as Hm.
  destruct (exp_fact ((glog a + glog b) mod 255) ltac:(lia))
    as (Hr & _ & Hl & _).
  split; [exact Hr|].
  rewrite <- Z.rem_mod_nonneg; [exact Hl | | lia].
  assert (1 <= gexp ((glog a + glog b) mod 255) <= 255) as Hz by exact Hr.
  destruct (log_fact _ Hz) as (H & _). lia.
Qed.

Lemma gf_byte (a b : Z) :
  0 <= a <= 255 -> 0 <= b <= 255 -> 0 <= gf a b <= 255.
Proof. intros Ha Hb. apply (gfMul_gf a b Ha Hb). Qed.

Lemma gf_assoc (a b c : Z) :
  0 <= a <= 255 -> 0 <= b <= 255 -> 0 <= c <= 255 ->
  gf (gf a b) c = gf a (gf b c).
Proof.
  intros Ha Hb Hc.
  destruct (Z.eq_dec a 0) as [->|Na]; [now rewrite !gf_0_l|].
  destruct (Z.eq_dec b 0) as [->|Nb];
    [now rewrite gf_0_r, gf_0_l, gf_0_r|].
  destruct (Z.eq_dec c 0) as [->|Nc]; [now rewrite !gf_0_r|].
  destruct (gf_nonzero a b ltac:(lia) ltac:(lia)) as [Hab Lab].
  destruct (gf_nonzero b c ltac:(lia) ltac:(lia)) as [Hbc Lbc].
  rewrite (gf_unfold (gf a b) c Hab ltac:(lia)).
  rewrite (gf_unfold a (gf b c) ltac:(lia) Hbc).
  f_equal.
  assert (L1 : (glog (gf a b) + glog c) mod 255
               = (glog a + glog b + glog c) mod 255)
    by (rewrite <- Z.add_mod_idemp_l, Lab, Z.add_mod_idemp_l by lia;
        reflexivity).
  assert (L2 : (glog a + glog (gf b c)) mod 255
               = (glog a + (glog b + glog c)) mod 255)
    by (rewrite <- Z.add_mod_idemp_r, Lbc, Z.add_mod_idemp_r by lia;
        reflexivity).
  rewrite L1, L2. f_equal. lia.
Qed.

Lemma gf_1_l (a : Z) : 0 <= a <= 255 -> gf 1 a = a.
Proof.
  intros Ha. destruct (Z.eq_dec a 0) as [->|Na]; [apply gf_0_r|].
  rewrite (gf_unfold 1 a ltac:(lia) ltac:(lia)).
  change (glog 1) with 255.
  destruct (log_fact a ltac:(lia)) as (Hl & _ & He).
  replace ((255 + glog a) mod 255) with (glog a mod 255)
    by (rewrite <- Z.add_mod_idemp_l by lia; reflexivity).
  rewrite <- Z.rem_mod_nonneg by lia. exact He.
Qed.

Lemma gf_inverse (a : Z) :
  1 <= a <= 255 -> exists b, 1 <= b <= 255 /\ gf a b = 1.
Proof.
  intros Ha. destruct (log_fact a Ha) as (Hl & _ & _).
  pose proof (Z.mod_pos_bound (255 - glog a) 255 ltac:(lia)) as Hm.
  destruct (exp_fact ((255 - glog a) mod 255) ltac:(lia))
    as (Hr & _ & Hlog & _).
  exists (gexp ((255 - glog a) mod 255)). split; [exact Hr|].
  rewrite (gf_unfold a _ Ha Hr).
  destruct (log_fact _ Hr) as (Hl' & _).
  rewrite Z.rem_mod_nonneg in Hlog by lia.
  rewrite <- Z.add_mod_idemp_r, Hlog, Z.add_mod_idemp_r by lia.
  replace (glog a + (255 - glog a)) with 255 by lia. reflexivity.
Qed.

(** *** Products are linear *)

Lemma lxor_swap (x y p q : Z) :
  Z.lxor (Z.lxor x y) (Z.lxor p q) = Z.lxor (Z.lxor x p) (Z.lxor y q).
Proof.
  rewrite !Z.lxor_assoc. f_equal.
  rewrite <- !Z.lxor_assoc. f_equal. apply Z.lxor_comm.
Qed.

Lemma bit_sum_lxor (f : Z -> Z) (l : list Z) (b c : Z) :
  fold_right (fun i acc => Z.lxor (if Z.testbit (Z.lxor b c) i then f i else 0) acc)
    0 l
  = Z.lxor
      (fold_right (fun i acc => Z.lxor (if Z.testbit b i then f i else 0) acc) 0 l)
      (fold_right (fun i acc => Z.lxor (if Z.testbit c i then f i else 0) acc) 0 l).
Proof.
  induction l as [|i l IH]; cbn [fold_right]; [reflexivity|].
  rewrite IH, lxor_swap. f_equal.
  rewrite Z.lxor_spec.
  destruct (Z.testbit b i), (Z.testbit c i); cbn [xorb];
    now rewrite ?Z.lxor_nilpotent, ?Z.lxor_0_r, ?Z.lxor_0_l.
Qed.

Lemma xtime_fact (b : Z) :
  0 <= b <= 255 -> 0 <= xtime b <= 255 /\ xtime b = xtime_sum b.
Proof.
  intros Hb. pose proof xtimes_ok as H. rewrite forallb_forall in H.
  specialize (H b (proj2 (In_zrange b 0 256) ltac:(lia))).
  unfold xtime_ok in H. apply andb_prop in H. destruct H as [H1 H2].
  apply in_range_bounds in H1. apply Z.eqb_eq in H2. auto.
Qed.

Lemma xtime_lxor (b c : Z) :
  0 <= b <= 255 -> 0 <= c <= 255 ->
  xtime (Z.lxor b c) = Z.lxor (xtime b) (xtime c).
Proof.
  intros Hb Hc.
  rewrite (proj2 (xtime_fact _ (lxor_byte b c Hb Hc))).
  rewrite (proj2 (xtime_fact b Hb)), (proj2 (xtime_fact c Hc)).
  unfold xtime_sum. apply (bit_sum_lxor (fun i => xtime (2 ^ i))).
Qed.

Lemma iter_xtime_byte (k : nat) (b : Z) :
  0 <= b <= 255 -> 0 <= Nat.iter k xtime b <= 255.
Proof.
  intros Hb. induction k as [|k IH]; [exact Hb|].
  rewrite Nat.iter_succ. now apply xtime_fact.
Qed.

Lemma iter_xtime_lxor (k : nat) (b c : Z) :
  0 <= b <= 255 -> 0 <= c <= 255 ->
  Nat.iter k xtime (Z.lxor b c)
  = Z.lxor (Nat.iter k xtime b) (Nat.iter k xtime c).
Proof.
  intros Hb Hc. induction k as [|k IH]; [reflexivity|].
  rewrite !Nat.iter_succ, IH. apply xtime_lxor; now apply iter_xtime_byte.
Qed.

Lemma iter_xtime_0 (k : nat) : Nat.iter k xtime 0 = 0.
Proof.
  induction k as [|k IH]; [reflexivity|]. rewrite Nat.iter_succ, IH.
  reflexivity.
Qed.

Lemma gexp_shift (k : nat) (j : Z) :
  0 <= j ->
  gexp ((Z.of_nat k + j) mod 255) = Nat.iter k xtime (gexp (j mod 255)).
Proof.
  intros Hj. induction k as [|k IH].
  - reflexivity.
  - rewrite Nat.iter_succ, <- IH.
    pose proof (Z.mod_pos_bound (Z.of_nat k + j) 255 ltac:(lia)) as Hm.
    destruct (exp_fact ((Z.of_nat k + j) mod 255) ltac:(lia))
      as (_ & _ & _ & <-).
    rewrite Z.rem_mod_nonneg by lia.
    rewrite Z.add_mod_idemp_l by lia. f_equal. f_equal. lia.
Qed.

(** A product by a non-zero [a] is [glog a] doublings. *)
Lemma gf_iter_xtime (a b : Z) :
  1 <= a <= 255 -> 0 <= b <= 255 ->
  gf a b = Nat.iter (Z.to_nat (glog a)) xtime b.
Proof.
  intros Ha Hb. destruct (log_fact a Ha) as (Hl & _ & _).
  destruct (Z.eq_dec b 0) as [->|Nb];
    [now rewrite gf_0_r, iter_xtime_0|].
  rewrite (gf_unfold a b Ha ltac:(lia)).
  destruct (log_fact b ltac:(lia)) as (Hlb & _ & Hb').
  rewrite Z.rem_mod_nonneg in Hb' by lia.
  rewrite <- Hb' at 2.
  rewrite <- gexp_shift by lia. now rewrite Z2Nat.id by lia.
Qed.

Lemma gf_lxor_r (a b c : Z) :
  0 <= a <= 255 -> 0 <= b <= 255 -> 0 <= c <= 255 ->
  gf a (Z.lxor b c) = Z.lxor (gf a b) (gf a c).
Proof.
  intros Ha Hb Hc.
  destruct (Z.eq_dec a 0) as [->|Na]; [now rewrite !gf_0_l|].
  rewrite !gf_iter_xtime by (try apply lxor_byte; lia).
  now apply iter_xtime_lxor.
Qed.

Lemma gf_lxor_l (a b c : Z) :
  0 <= a <= 255 -> 0 <= b <= 255 -> 0 <= c <= 255 ->
  gf (Z.lxor a b) c = Z.lxor (gf a c) (gf b c).
Proof.
  intros Ha Hb Hc. rewrite !(gf_comm _ c). now apply gf_lxor_r.
Qed.

(** ** Polynomials over the field *)

Lemma xpow_succ (x : Z) (r : nat) (y : Z) :
  xpow x (S r) y = gf (xpow x r y) x.
Proof. unfold xpow. now rewrite Nat.iter_succ. Qed.

Lemma xpow_succ_r (x : Z) (r : nat) (y : Z) :
  xpow x (S r) y = xpow x r (gf y x).
Proof. unfold xpow. now rewrite Nat.iter_succ_r. Qed.

Lemma xpow_byte (x : Z) (r : nat) (y : Z) :
  0 <= x <= 255 -> 0 <= y <= 255 -> 0 <= xpow x r y <= 255.
Proof.
  intros Hx Hy. induction r as [|r IH]; [exact Hy|].
  rewrite xpow_succ. now apply gf_byte.
Qed.

Lemma xpow_0 (x : Z) (r : nat) : xpow x r 0 = 0.
Proof.
  induction r as [|r IH]; [reflexivity|]. rewrite xpow_succ, IH. apply gf_0_l.
Qed.

Lemma xpow_lxor (x : Z) (r : nat) (y z : Z) :
  0 <= x <= 255 -> 0 <= y <= 255 -> 0 <= z <= 255 ->
  xpow x r (Z.lxor y z) = Z.lxor (xpow x r y) (xpow x r z).
Proof.
  intros Hx Hy Hz. induction r as [|r IH]; [reflexivity|].
  rewrite !xpow_succ, IH. apply gf_lxor_l; auto using xpow_byte.
Qed.

Lemma xpow_scale (x : Z) (r : nat) (k y : Z) :
  0 <= x <= 255 -> 0 <= k <= 255 -> 0 <= y <= 255 ->
  xpow x r (gf k y) = gf k (xpow x r y).
Proof.
  intros Hx Hk Hy. induction r as [|r IH]; [reflexivity|].
  rewrite !xpow_succ, IH. apply gf_assoc; auto using xpow_byte.
Qed.

Lemma xpow_add (x : Z) (r s : nat) (y : Z) :
  xpow x (r + s) y = xpow x r (xpow x s y).
Proof. unfold xpow. apply Nat.iter_add. Qed.

Lemma horner_byte (p : list Z) (x acc : Z) :
  forallb (in_range 0 255) p = true -> 0 <= x <= 255 -> 0 <= acc <= 255 ->
  0 <= fold_left (fun acc c => Z.lxor (gf acc x) c) p acc <= 255.
Proof.
  revert acc; induction p as [|c p IH]; intros acc Hp Hx Ha;
    cbn [fold_left forallb] in *; [exact Ha|].
  apply andb_prop in Hp. destruct Hp as [Hc Hp]. apply in_range_bounds in Hc.
  apply IH; auto. apply lxor_byte; [now apply gf_byte | exact Hc].
Qed.

Lemma poly_eval_byte (p : list Z) (x : Z) :
  forallb (in_range 0 255) p = true -> 0 <= x <= 255 ->
  0 <= poly_eval p x <= 255.
Proof. intros Hp Hx. apply horner_byte; auto. lia. Qed.

(** Horner's rule started from [acc]: [acc] times [x] to the length, plus
    the value of the polynomial. *)
Lemma horner_acc (p : list Z) (x acc : Z) :
  forallb (in_range 0 255) p = true -> 0 <= x <= 255 -> 0 <= acc <= 255 ->
  fold_left (fun acc c => Z.lxor (gf acc x) c) p acc
  = Z.lxor (xpow x (List.length p) acc) (poly_eval p x).
Proof.
  revert acc; induction p as [|c p IH]; intros acc Hp Hx Ha;
    cbn [fold_left forallb List.length] in *.
  - unfold poly_eval. cbn [fold_left xpow Nat.iter]. now rewrite Z.lxor_0_r.
  - apply andb_prop in Hp. destruct Hp as [Hc Hp].
    apply in_range_bounds in Hc.
    pose proof (gf_byte acc x Ha Hx) as Hg.
    rewrite IH by (auto; apply lxor_byte; auto).
    unfold poly_eval. cbn [fold_left]. rewrite gf_0_l, Z.lxor_0_l.
    rewrite (IH c) by auto. fold (poly_eval p x).
    rewrite xpow_lxor by auto. rewrite xpow_succ_r.
    now rewrite Z.lxor_assoc.
Qed.

Lemma poly_eval_app (p q : list Z) (x : Z) :
  forallb (in_range 0 255) p = true -> forallb (in_range 0 255) q = true ->
  0 <= x <= 255 ->
  poly_eval (p ++ q) x
  = Z.lxor (xpow x (List.length q) (poly_eval p x)) (poly_eval q x).
Proof.
  intros Hp Hq Hx. unfold poly_eval at 1. rewrite fold_left_app.
  fold (poly_eval p x). apply horner_acc; auto. now apply poly_eval_byte.
Qed.

Lemma poly_eval_cons (c : Z) (p : list Z) (x : Z) :
  forallb (in_range 0 255) p = true -> 0 <= c <= 255 -> 0 <= x <= 255 ->
  poly_eval (c :: p) x = Z.lxor (xpow x (List.length p) c) (poly_eval p x).
Proof.
  intros Hp Hc Hx. unfold poly_eval at 1. cbn [fold_left].
  rewrite gf_0_l, Z.lxor_0_l. now apply horner_acc.
Qed.

Lemma poly_eval_zeros (n : nat) (x : Z) : poly_eval (repeat 0 n) x = 0.
Proof.
  unfold poly_eval. induction n as [|n IH]; cbn [repeat fold_left];
    [reflexivity|].
  now rewrite gf_0_l.
Qed.

Lemma poly_eval_snoc (p : list Z) (c x : Z) :
  poly_eval (p ++ [c]) x = Z.lxor (gf (poly_eval p x) x) c.
Proof. unfold poly_eval. now rewrite fold_left_app. Qed.

Lemma forallb_bytes_zeros (n : nat) :
  forallb (in_range 0 255) (repeat 0 n) = true.
Proof. now apply forallb_repeat. Qed.

(** *** Arrays of bytes as polynomials *)

Lemma vals_bytes (l : list jsval) :
  forallb is_byte l = true -> forallb (in_range 0 255) (vals l) = true.
Proof.
  induction l as [|v l IH]; cbn [forallb vals map]; [reflexivity|].
  intros H. apply andb_prop in H. destruct H as [Hv Hl].
  destruct (is_byte_inv v Hv) as (z & -> & Hz). cbn [num_of].
  fold (vals l). rewrite (IH Hl), andb_true_r.
  unfold in_range. apply andb_true_intro. split; apply Z.leb_le; lia.
Qed.

Lemma vals_app (a b : list jsval) : vals (a ++ b) = vals a ++ vals b.
Proof. apply map_app. Qed.

Lemma length_vals (l : list jsval) : List.length (vals l) = List.length l.
Proof. apply length_map. Qed.

Lemma arr_split (a : list jsval) (j : Z) :
  0 <= j < len a ->
  exists pre c post,
    a = pre ++ c :: post
    /\ List.length pre = Z.to_nat j
    /\ arr_get a j = c
    /\ forall w, arr_set a j w = pre ++ w :: post.
Proof.
  intros Hj. unfold arr_get, arr_set, len in *.
  replace (j <? 0) with false by (symmetry; apply Z.ltb_ge; lia).
  assert (Hn : (Z.to_nat j < List.length a)%nat) by lia.
  clear Hj. revert Hn. generalize (Z.to_nat j) as n. clear j.
  induction a as [|x a IH]; intros n Hn; cbn [List.length] in Hn; [lia|].
  destruct n as [|n].
  - exists [], x, a. cbn. auto.
  - destruct (IH n ltac:(lia)) as (pre & c & post & Ea & Hl & Hg & Hs).
    exists (x :: pre), c, post. cbn [app List.length nth set_nth].
    split; [now rewrite Ea at 1|]. split; [lia|]. split; [exact Hg|].
    intros w. now rewrite Hs.
Qed.

(** The update [a[j] ^= v] adds [v] times a power of [x] to the value of
    the polynomial. *)
Lemma xor_update (a : list jsval) (j : Z) (v : jsval) :
  forallb is_byte a = true -> 0 <= j < len a -> is_byte v = true ->
  forallb is_byte (arr_set a j (js_xor (arr_get a j) v)) = true
  /\ len (arr_set a j (js_xor (arr_get a j) v)) = len a
  /\ forall x, 0 <= x <= 255 ->
       poly_eval (vals (arr_set a j (js_xor (arr_get a j) v))) x
       = Z.lxor (poly_eval (vals a) x)
           (xpow x (List.length a - Z.to_nat j - 1) (num_of v)).
Proof.
  intros Ha Hj Hv.
  assert (Hb : forallb is_byte (arr_set a j (js_xor (arr_get a j) v)) = true).
  { apply forallb_arr_set; auto. apply js_xor_byte; auto.
    now apply forallb_arr_get. }
  split; [exact Hb|]. split; [apply len_arr_set; lia|].
  intros x Hx.
  pose proof (vals_bytes _ Hb) as Hvb. pose proof (vals_bytes _ Ha) as Hva.
  destruct (arr_split a j Hj) as (pre & c & post & Ea & Hl & Hg & Hs).
  rewrite Hs, Hg in Hvb |- *. clear Hs Hg Hb Hj. subst a.
  rewrite forallb_app in Ha. apply andb_prop in Ha. destruct Ha as [_ Ha].
  cbn [forallb] in Ha. apply andb_prop in Ha. destruct Ha as [Hcb _].
  destruct (is_byte_inv c Hcb) as (cz & -> & Hcz).
  destruct (is_byte_inv v Hv) as (vz & -> & Hvz).
  unfold js_xor in *. rewrite !ToInt32_byte in * by assumption.
  rewrite !vals_app in *. cbn [vals map num_of] in *. fold (vals post) in *.
  fold (vals pre) in *.
  rewrite forallb_app in Hva, Hvb. cbn [forallb] in Hva, Hvb.
  apply andb_prop in Hva. destruct Hva as [Hpre Hva].
  apply andb_prop in Hva. destruct Hva as [Hc Hpost].
  apply andb_prop in Hvb. destruct Hvb as [_ Hvb].
  apply andb_prop in Hvb. destruct Hvb as [Hc' _].
  assert (Hl1 : forallb (in_range 0 255) (cz :: vals post) = true)
    by (cbn [forallb]; now rewrite Hc, Hpost).
  assert (Hl2 : forallb (in_range 0 255) (Z.lxor cz vz :: vals post) = true)
    by (cbn [forallb]; now rewrite Hc', Hpost).
  rewrite !poly_eval_app by auto.
  rewrite !poly_eval_cons by (auto; now apply lxor_byte).
  rewrite xpow_lxor by auto.
  rewrite length_app. cbn [List.length]. rewrite !length_vals.
  replace (List.length pre + S (List.length post) - Z.to_nat j - 1)%nat
    with (List.length post) by lia.
  rewrite !Z.lxor_assoc. f_equal. f_equal. apply Z.lxor_comm.
Qed.

(** ** Reed-Solomon: the generator and the remainder *)

Lemma firstn_vals_step (a : list jsval) (j : Z) :
  0 <= j < len a ->
  firstn (S (Z.to_nat j)) (vals a)
  = firstn (Z.to_nat j) (vals a) ++ [num_of (arr_get a j)].
Proof.
  intros Hj. destruct (arr_split a j Hj) as (pre & c & post & -> & Hl & -> & _).
  rewrite vals_app. cbn [vals map]. fold (vals pre) (vals post).
  rewrite <- Hl, <- (length_vals pre).
  replace (S (List.length (vals pre))) with (List.length (vals pre) + 1)%nat
    by lia.
  rewrite firstn_app_2. cbn [firstn].
  assert (H0 : firstn (List.length (vals pre))
                 (vals pre ++ num_of c :: vals post) = vals pre).
  { rewrite firstn_app, firstn_all, Nat.sub_diag. cbn [firstn].
    apply app_nil_r. }
  now rewrite H0.
Qed.

Lemma byte_of_bytes (a : list jsval) (j : Z) :
  forallb is_byte a = true -> 0 <= j < len a ->
  arr_get a j = Num (num_of (arr_get a j))
  /\ 0 <= num_of (arr_get a j) <= 255.
Proof.
  intros Ha Hj. pose proof (forallb_arr_get _ _ _ Ha Hj) as Hb.
  destruct (is_byte_inv _ Hb) as (z & -> & Hz). auto.
Qed.

Lemma firstn_bytes (n : nat) (l : list Z) :
  forallb (in_range 0 255) l = true ->
  forallb (in_range 0 255) (firstn n l) = true.
Proof. apply forallb_firstn. Qed.

(** One round of [rsGenPoly] multiplies the polynomial by [x + EXP[i]]. *)
Lemma rsGenPoly_round_eval (i : Z) (poly : list jsval) :
  0 <= i <= 254 -> forallb is_byte poly = true ->
  exists newPoly,
    forM
      (fun j newPoly =>
         let newPoly :=
           arr_set newPoly j (js_xor (arr_get newPoly j) (arr_get poly j)) in
         e <~ readEXP (Num i) ;;
         g <~ gfMul (arr_get poly j) e ;;
         retM (arr_set newPoly (j + 1) (js_xor (arr_get newPoly (j + 1)) g)))
      (zrange 0 (len poly))
      (repeat (Num 0) (Z.to_nat (len poly + 1))) loaded_module
    = (Ok newPoly, loaded_module)
    /\ len newPoly = len poly + 1
    /\ forallb is_byte newPoly = true
    /\ forall x, 0 <= x <= 255 ->
         poly_eval (vals newPoly) x
         = gf (poly_eval (vals poly) x) (Z.lxor x (gexp i)).
Proof.
  intros Hi Hpoly. pose proof (len_nonneg poly) as Hnn.
  destruct (exp_fact i Hi) as (Ha & Hexp & _).
  pose proof (vals_bytes poly Hpoly) as HP.
  unfold zrange.
  destruct (forM_range_inv
              (fun j np =>
                 len np = len poly + 1 /\ forallb is_byte np = true
                 /\ forall x, 0 <= x <= 255 ->
                      poly_eval (vals np) x
                      = gf (xpow x (List.length poly - Z.to_nat j)
                              (poly_eval (firstn (Z.to_nat j) (vals poly)) x))
                          (Z.lxor x (gexp i)))
              (fun j newPoly =>
                 let newPoly :=
                   arr_set newPoly j
                     (js_xor (arr_get newPoly j) (arr_get poly j)) in
                 e <~ readEXP (Num i) ;;
                 g <~ gfMul (arr_get poly j) e ;;
                 retM (arr_set newPoly (j + 1)
                         (js_xor (arr_get newPoly (j + 1)) g)))
              0 (Z.to_nat (len poly - 0))
              (repeat (Num 0) (Z.to_nat (len poly + 1))) loaded_module)
    as (np & Hf & Hl & Hb & He).
  - split; [rewrite len_repeat; lia|].
    split; [now apply forallb_repeat|].
    intros x Hx. change (Z.to_nat 0) with 0%nat. cbn [firstn].
    unfold vals. rewrite map_repeat. cbn [num_of].
    rewrite poly_eval_zeros. change (poly_eval [] x) with 0.
    now rewrite xpow_0, gf_0_l.
  - intros j np Hj (Hl & Hb & He). cbv zeta.
    assert (Hj' : 0 <= j < len poly) by lia.
    destruct (byte_of_bytes poly j Hpoly Hj') as (Ep & Hp).
    set (p := num_of (arr_get poly j)) in *.
    destruct (xor_update np j (arr_get poly j) Hb ltac:(lia)
                (forallb_arr_get _ _ _ Hpoly Hj')) as (Hb1 & Hl1 & He1).
    set (np1 := arr_set np j (js_xor (arr_get np j) (arr_get poly j))) in *.
    destruct (gfMul_gf p (gexp i) Hp ltac:(lia)) as (Hg & Hgb).
    destruct (xor_update np1 (j + 1) (Num (gf p (gexp i))) Hb1 ltac:(lia)
                (is_byte_intro _ Hgb)) as (Hb2 & Hl2 & He2).
    rewrite (bindM_step _ _ (Num (gexp i)) loaded_module loaded_module)
      by (unfold readEXP; cbn [arr_index]; now rewrite Hexp).
    rewrite <- Ep in Hg.
    rewrite (bindM_step _ _ (Num (gf p (gexp i))) loaded_module loaded_module)
      by exact Hg.
    eexists. split; [reflexivity|].
    split; [lia|]. split; [exact Hb2|].
    intros x Hx. rewrite (He2 x Hx), (He1 x Hx), (He x Hx). cbn [num_of].
    fold p.
    assert (Hn1 : List.length np1 = S (List.length poly))
      by (unfold len in *; lia).
    assert (Hn0 : List.length np = S (List.length poly))
      by (unfold len in *; lia).
    rewrite Hn1, Hn0.
    replace (Z.to_nat (j + 1)) with (S (Z.to_nat j)) by lia.
    rewrite firstn_vals_step by exact Hj'. fold p.
    rewrite poly_eval_snoc.
    set (e := poly_eval (firstn (Z.to_nat j) (vals poly)) x).
    assert (Hev : 0 <= e <= 255)
      by (apply poly_eval_byte; [now apply firstn_bytes | exact Hx]).
    assert (Hr : exists r, (List.length poly - Z.to_nat j = S r)%nat
                           /\ (S (List.length poly) - Z.to_nat j - 1 = S r)%nat
                           /\ (S (List.length poly) - S (Z.to_nat j) - 1 = r)%nat
                           /\ (List.length poly - S (Z.to_nat j) = r)%nat).
    { exists (List.length poly - Z.to_nat j - 1)%nat. unfold len in *. lia. }
    destruct Hr as (r & -> & -> & -> & ->).
    pose proof (gf_byte e x Hev Hx) as Hex.
    pose proof (xpow_byte x r p Hx Hp) as Hxp.
    pose proof (xpow_byte x r (gf e x) Hx Hex) as Hxe.
    assert (Hxa : 0 <= Z.lxor x (gexp i) <= 255) by (apply lxor_byte; lia).
    pose proof (xpow_byte x (S r) e Hx Hev) as Hxe'.
    assert (A1 : xpow x r (Z.lxor (gf e x) p)
                 = Z.lxor (xpow x (S r) e) (xpow x r p))
      by (rewrite xpow_lxor by auto; now rewrite <- xpow_succ_r).
    assert (A2 : gf (Z.lxor (xpow x (S r) e) (xpow x r p)) (Z.lxor x (gexp i))
                 = Z.lxor (gf (xpow x (S r) e) (Z.lxor x (gexp i)))
                     (gf (xpow x r p) (Z.lxor x (gexp i))))
      by (apply gf_lxor_l; auto).
    assert (A3 : gf (xpow x r p) (Z.lxor x (gexp i))
                 = Z.lxor (xpow x (S r) p) (gf (xpow x r p) (gexp i)))
      by (rewrite gf_lxor_r by (auto; lia); now rewrite <- xpow_succ).
    assert (A4 : xpow x r (gf p (gexp i)) = gf (xpow x r p) (gexp i))
      by (rewrite (gf_comm p (gexp i)), xpow_scale by (auto; lia);
          apply gf_comm).
    rewrite A1, A2, A3, A4. now rewrite !Z.lxor_assoc.
  - exists np. split; [exact Hf|]. split; [exact Hl|]. split; [exact Hb|].
    intros x Hx. rewrite (He x Hx).
    replace (Z.to_nat (0 + Z.of_nat (Z.to_nat (len poly - 0))))
      with (List.length poly) by (unfold len; lia).
    rewrite Nat.sub_diag. rewrite <- (length_vals poly), firstn_all.
    reflexivity.
Qed.

(** The generator polynomial vanishes at the first [ecLen] powers of 2. *)
Lemma rsGenPoly_vanishes (ecLen : Z) :
  0 <= ecLen <= 255 ->
  exists gen,
    rsGenPoly ecLen loaded_module = (Ok gen, loaded_module)
    /\ len gen = ecLen + 1
    /\ forallb is_byte gen = true
    /\ forall r, 0 <= r < ecLen -> poly_eval (vals gen) (gexp r) = 0.
Proof.
  intros Hec. unfold rsGenPoly, zrange.
  destruct (forM_range_inv
              (fun i poly =>
                 len poly = i + 1 /\ forallb is_byte poly = true
                 /\ forall r, 0 <= r < i -> poly_eval (vals poly) (gexp r) = 0)
              (fun i poly =>
                 newPoly <~
                   forM
                     (fun j newPoly =>
                        let newPoly :=
                          arr_set newPoly j
                            (js_xor (arr_get newPoly j) (arr_get poly j)) in
                        e <~ readEXP (Num i) ;;
                        g <~ gfMul (arr_get poly j) e ;;
                        retM (arr_set newPoly (j + 1)
                                (js_xor (arr_get newPoly (j + 1)) g)))
                     (zrange 0 (len poly))
                     (repeat (Num 0) (Z.to_nat (len poly + 1))) ;;
                 retM newPoly)
              0 (Z.to_nat (ecLen - 0)) [Num 1] loaded_module)
    as (gen & Hf & Hl & Hb & Hroots).
  - split; [reflexivity|]. split; [reflexivity|]. intros r Hr. lia.
  - intros i poly Hi (Hl & Hb & Hroots).
    destruct (rsGenPoly_round_eval i poly ltac:(lia) Hb)
      as (np & Hnp & Hl' & Hb' & He).
    exists np. rewrite (bindM_step _ _ np loaded_module loaded_module Hnp).
    split; [reflexivity|]. split; [lia|]. split; [exact Hb'|].
    intros r Hr.
    destruct (exp_fact r ltac:(lia)) as (Hgr & _).
    rewrite (He (gexp r) ltac:(lia)).
    destruct (Z.eq_dec r i) as [->|Hne].
    + now rewrite Z.lxor_nilpotent, gf_0_r.
    + now rewrite (Hroots r ltac:(lia)), gf_0_l.
  - exists gen. split; [exact Hf|]. split; [lia|]. split; [exact Hb|].
    intros r Hr. apply Hroots. lia.
Qed.

(** One division step of [rsEncode]: the generator, scaled by the leading
    coefficient and shifted to index [i], is added to the message. *)
Lemma rsEncode_step (gen msg : list jsval) (i c : Z) :
  forallb is_byte gen = true -> forallb is_byte msg = true ->
  arr_get gen 0 = Num 1 -> 1 <= len gen ->
  0 <= i -> i + len gen <= len msg ->
  arr_get msg i = Num c ->
  exists msg',
    forM
      (fun j msg =>
         g <~ gfMul (arr_get gen j) (Num c) ;;
         retM (arr_set msg (i + j) (js_xor (arr_get msg (i + j)) g)))
      (zrange 0 (len gen)) msg loaded_module
    = (Ok msg', loaded_module)
    /\ len msg' = len msg
    /\ forallb is_byte msg' = true
    /\ (forall t, 0 <= t < i -> arr_get msg' t = arr_get msg t)
    /\ arr_get msg' i = Num 0
    /\ forall x, 0 <= x <= 255 ->
         poly_eval (vals msg') x
         = Z.lxor (poly_eval (vals msg) x)
             (xpow x (List.length msg - Z.to_nat i - List.length gen)
                (gf c (poly_eval (vals gen) x))).
Proof.
  intros Hgen Hmsg Hlead Hlen Hi Hfit Hc.
  assert (Hcb : 0 <= c <= 255).
  { destruct (byte_of_bytes msg i Hmsg ltac:(lia)) as (E & Hb).
    rewrite Hc in Hb. exact Hb. }
  pose proof (vals_bytes gen Hgen) as HG.
  unfold zrange.
  destruct (forM_range_inv
              (fun j m =>
                 len m = len msg /\ forallb is_byte m = true
                 /\ (forall t, 0 <= t < i -> arr_get m t = arr_get msg t)
                 /\ arr_get m i = (if j =? 0 then Num c else Num 0)
                 /\ forall x, 0 <= x <= 255 ->
                      poly_eval (vals m) x
                      = Z.lxor (poly_eval (vals msg) x)
                          (xpow x (List.length msg - Z.to_nat i - Z.to_nat j)
                             (gf c (poly_eval (firstn (Z.to_nat j) (vals gen))
                                      x))))
              (fun j msg =>
                 g <~ gfMul (arr_get gen j) (Num c) ;;
                 retM (arr_set msg (i + j) (js_xor (arr_get msg (i + j)) g)))
              0 (Z.to_nat (len gen - 0)) msg loaded_module)
    as (m & Hf & Hl & Hb & Hkeep & Hzero & He).
  - split; [reflexivity|]. split; [exact Hmsg|]. split; [auto|].
    split; [exact Hc|].
    intros x Hx. change (Z.to_nat 0) with 0%nat. cbn [firstn].
    change (poly_eval [] x) with 0.
    now rewrite gf_0_r, xpow_0, Z.lxor_0_r.
  - intros j m Hj (Hl & Hb & Hkeep & Hzero & He).
    assert (Hj' : 0 <= j < len gen) by lia.
    destruct (byte_of_bytes gen j Hgen Hj') as (Eg & Hg).
    set (g := num_of (arr_get gen j)) in *.
    destruct (gfMul_gf g c Hg Hcb) as (Hmul & Hmb).
    rewrite <- Eg in Hmul.
    rewrite (bindM_step _ _ (Num (gf g c)) loaded_module loaded_module Hmul).
    destruct (xor_update m (i + j) (Num (gf g c)) Hb ltac:(lia)
                (is_byte_intro _ Hmb)) as (Hb' & Hl' & He').
    eexists. split; [reflexivity|].
    split; [lia|]. split; [exact Hb'|].
    split.
    { intros t Ht. rewrite arr_get_set_other by lia. now apply Hkeep. }
    split.
    { destruct (Z.eq_dec j 0) as [->|Hne].
      - replace (i + 0) with i by lia.
        rewrite arr_get_set_same by lia. rewrite Hzero. cbn [Z.eqb].
        assert (Eg1 : g = 1).
        { unfold g. replace (arr_get gen 0) with (Num 1). reflexivity. }
        rewrite Eg1, gf_1_l by exact Hcb.
        unfold js_xor. rewrite !ToInt32_byte by exact Hcb.
        now rewrite Z.lxor_nilpotent.
      - rewrite arr_get_set_other by lia. rewrite Hzero.
        replace (j =? 0) with false by (symmetry; apply Z.eqb_neq; lia).
        replace (j + 1 =? 0) with false by (symmetry; apply Z.eqb_neq; lia).
        reflexivity. }
    intros x Hx. rewrite (He' x Hx), (He x Hx). cbn [num_of].
    replace (Z.to_nat (j + 1)) with (S (Z.to_nat j)) by lia.
    rewrite firstn_vals_step by exact Hj'. fold g.
    rewrite poly_eval_snoc.
    set (e := poly_eval (firstn (Z.to_nat j) (vals gen)) x).
    assert (Hev : 0 <= e <= 255)
      by (apply poly_eval_byte; [now apply firstn_bytes | exact Hx]).
    assert (Hr : exists r,
               (List.length msg - Z.to_nat i - Z.to_nat j = S r)%nat
               /\ (List.length m - Z.to_nat (i + j) - 1 = r)%nat
               /\ (List.length msg - Z.to_nat i - S (Z.to_nat j) = r)%nat).
    { exists (List.length msg - Z.to_nat i - Z.to_nat j - 1)%nat.
      unfold len in *. lia. }
    destruct Hr as (r & -> & -> & ->).
    pose proof (gf_byte e x Hev Hx) as Hex.
    pose proof (gf_byte c e Hcb Hev) as Hce.
    pose proof (gf_byte c g Hcb Hg) as Hcg.
    assert (A1 : gf c (Z.lxor (gf e x) g)
                 = Z.lxor (gf (gf c e) x) (gf c g))
      by (rewrite gf_lxor_r by auto; now rewrite gf_assoc by auto).
    rewrite A1, xpow_lxor by (auto; now apply gf_byte).
    rewrite <- xpow_succ_r, (gf_comm g c).
    now rewrite Z.lxor_assoc.
  - exists m. split; [exact Hf|]. split; [exact Hl|]. split; [exact Hb|].
    split; [exact Hkeep|].
    split.
    { rewrite Hzero.
      replace (0 + Z.of_nat (Z.to_nat (len gen - 0)) =? 0) with false
        by (symmetry; apply Z.eqb_neq; lia).
      reflexivity. }
    intros x Hx. rewrite (He x Hx).
    replace (Z.to_nat (0 + Z.of_nat (Z.to_nat (len gen - 0))))
      with (List.length gen) by (unfold len; lia).
    rewrite <- (length_vals gen) at 2. now rewrite firstn_all.
Qed.

Lemma zero_prefix (n : nat) (a : list jsval) :
  (n <= List.length a)%nat ->
  (forall t, 0 <= t < Z.of_nat n -> arr_get a t = Num 0) ->
  vals a = repeat 0 n ++ vals (skipn n a).
Proof.
  revert a; induction n as [|n IH]; intros a Hn Hz; [reflexivity|].
  destruct a as [|v a]; cbn [List.length] in Hn; [lia|].
  cbn [repeat app skipn vals map].
  pose proof (Hz 0 ltac:(lia)) as H0. cbn in H0. subst v. cbn [num_of].
  f_equal. apply IH; [lia|].
  intros t Ht. specialize (Hz (t + 1) ltac:(lia)).
  unfold arr_get in *.
  replace (t + 1 <? 0) with false in Hz by (symmetry; apply Z.ltb_ge; lia).
  replace (t <? 0) with false by (symmetry; apply Z.ltb_ge; lia).
  replace (Z.to_nat (t + 1)) with (S (Z.to_nat t)) in Hz by lia.
  exact Hz.
Qed.

(** The codeword [rsEncode] completes (data followed by the remainder) is
    a multiple of the generator: it vanishes where the generator does. *)
Lemma rsEncode_vanishes (data : list jsval) (ecLen : Z) :
  0 <= ecLen <= 255 -> forallb is_byte data = true ->
  exists ec,
    rsEncode data ecLen loaded_module = (Ok ec, loaded_module)
    /\ len ec = ecLen
    /\ forallb is_byte ec = true
    /\ forall r, 0 <= r < ecLen ->
         poly_eval (vals (data ++ ec)) (gexp r) = 0.
Proof.
  intros Hec Hdata. unfold rsEncode.
  destruct (rsGenPoly_vanishes ecLen Hec) as (gen & Hgen & Hlgen & Hbgen & Hroots).
  destruct (rsGenPoly_shape ecLen Hec) as (gen' & Hgen' & _ & _ & Hlead).
  rewrite Hgen in Hgen'. injection Hgen' as <-.
  rewrite (bindM_step _ _ gen loaded_module loaded_module Hgen).
  replace ((ecLen <? 0) || (4294967295 <? ecLen)) with false by lia.
  rewrite (bindM_step _ _ (data ++ repeat (Num 0) (Z.to_nat ecLen))
             loaded_module loaded_module eq_refl).
  pose proof (len_nonneg data) as Hnn.
  set (msg0 := data ++ repeat (Num 0) (Z.to_nat ecLen)).
  assert (Hl0 : len msg0 = len data + ecLen)
    by (unfold msg0; rewrite len_app, len_repeat; lia).
  assert (Hb0 : forallb is_byte msg0 = true)
    by (unfold msg0; rewrite forallb_app, Hdata; cbn;
        now apply forallb_repeat).
  unfold zrange.
  destruct (forM_range_inv
              (fun i msg =>
                 len msg = len data + ecLen /\ forallb is_byte msg = true
                 /\ (forall t, 0 <= t < i -> arr_get msg t = Num 0)
                 /\ forall r, 0 <= r < ecLen ->
                      poly_eval (vals msg) (gexp r)
                      = poly_eval (vals msg0) (gexp r))
              (fun i msg =>
                 let coef := arr_get msg i in
                 if strict_eq_num coef 0 then retM msg
                 else
                   forM
                     (fun j msg =>
                        g <~ gfMul (arr_get gen j) coef ;;
                        retM (arr_set msg (i + j)
                                (js_xor (arr_get msg (i + j)) g)))
                     (zrange 0 (len gen)) msg)
              0 (Z.to_nat (len data - 0)) msg0 loaded_module)
    as (msg & Hf & Hl & Hb & Hzero & He).
  - split; [exact Hl0|]. split; [exact Hb0|]. split; [intros t Ht; lia|].
    auto.
  - intros i msg Hi (Hl & Hb & Hzero & He). cbv zeta.
    destruct (byte_of_bytes msg i Hb ltac:(lia)) as (Ec & Hc).
    set (c := num_of (arr_get msg i)) in *. rewrite Ec.
    cbn [strict_eq_num].
    destruct (c =? 0) eqn:E0.
    + apply Z.eqb_eq in E0. exists msg. split; [reflexivity|].
      split; [exact Hl|]. split; [exact Hb|]. split; [|exact He].
      intros t Ht. destruct (Z.eq_dec t i) as [->|Hne];
        [now rewrite Ec, E0 | apply Hzero; lia].
    + destruct (rsEncode_step gen msg i c Hbgen Hb Hlead ltac:(lia) ltac:(lia)
                  ltac:(lia) Ec)
        as (msg' & Hf' & Hl' & Hb' & Hkeep & Hz' & He').
      exists msg'. split; [exact Hf'|]. split; [lia|]. split; [exact Hb'|].
      split.
      * intros t Ht. destruct (Z.eq_dec t i) as [->|Hne]; [exact Hz'|].
        rewrite Hkeep by lia. apply Hzero. lia.
      * intros r Hr. destruct (exp_fact r ltac:(lia)) as (Hgr & _).
        rewrite (He' (gexp r) ltac:(lia)), (Hroots r Hr).
        now rewrite gf_0_r, xpow_0, Z.lxor_0_r, (He r Hr).
  - rewrite (bindM_step _ _ msg loaded_module loaded_module Hf).
    eexists. split; [reflexivity|].
    assert (Hle : len (skipn (List.length data) msg) = ecLen)
      by (unfold len in *; rewrite length_skipn; lia).
    split; [exact Hle|].
    pose proof (forallb_skipn is_byte (List.length data) msg Hb) as Hbe.
    split; [exact Hbe|].
    intros r Hr. destruct (exp_fact r ltac:(lia)) as (Hgr & _).
    assert (Hx : 0 <= gexp r <= 255) by lia.
    pose proof (vals_bytes data Hdata) as HD.
    pose proof (vals_bytes _ Hbe) as HE.
    assert (Emsg : vals msg
                   = repeat 0 (List.length data)
                     ++ vals (skipn (List.length data) msg)).
    { apply zero_prefix; [unfold len in *; lia|].
      intros t Ht. apply Hzero. unfold len in *. lia. }
    pose proof (He r Hr) as Heq. rewrite Emsg in Heq.
    rewrite poly_eval_app in Heq by (auto using forallb_bytes_zeros).
    rewrite poly_eval_zeros, xpow_0, Z.lxor_0_l in Heq.
    unfold msg0 in Heq. rewrite vals_app in Heq.
    unfold vals at 3 in Heq. rewrite map_repeat in Heq. cbn [num_of] in Heq.
    rewrite poly_eval_app in Heq by (auto using forallb_bytes_zeros).
    rewrite poly_eval_zeros, Z.lxor_0_r, repeat_length in Heq.
    rewrite vals_app, poly_eval_app by auto.
    rewrite length_vals.
    replace (List.length (skipn (List.length data) msg)) with (Z.to_nat ecLen)
      by (unfold len in Hle; lia).
    rewrite Heq. apply Z.lxor_nilpotent.
Qed.

(** ** Bit stream: the blocks and their check symbols *)

(** The loop over the blocks: data blocks are the slices of the codewords,
    and each gets its error-correction bytes, which make it a codeword. *)
Lemma blocks_loop (codewords : list jsval) (blocks : list (Z * Z))
  (dbs ebs : list (list jsval)) (offset : Z) :
  forallb is_byte codewords = true ->
  (forall b, In b blocks -> 0 <= snd b <= 255) ->
  exists ecs,
    forM
      (fun '(dcw, ecCw) '(dataBlocks, ecBlocks, offset) =>
         ec <~ rsEncode (slice codewords offset (offset + dcw)) ecCw ;;
         retM (dataBlocks ++ [slice codewords offset (offset + dcw)],
               ecBlocks ++ [ec], offset + dcw))
      blocks (dbs, ebs, offset) loaded_module
    = (Ok (dbs ++ block_slices codewords blocks offset, ebs ++ ecs,
           offset + sum_dcw blocks), loaded_module)
    /\ map len ecs = map snd blocks
    /\ forallb (forallb is_byte) ecs = true
    /\ Forall2 rs_codeword (block_slices codewords blocks offset) ecs.
Proof.
  intros Hcw. revert dbs ebs offset.
  induction blocks as [|[d e] bs IH]; intros dbs ebs offset Hec; cbn [forM].
  - exists []. rewrite !app_nil_r. cbn [sum_dcw fold_left block_slices].
    rewrite Z.add_0_r. split; [reflexivity|]. split; [reflexivity|].
    split; [reflexivity | constructor].
  - destruct (rsEncode_vanishes (slice codewords offset (offset + d)) e)
      as (ec & Hrs & Hlec & Hbec & Hcode).
    { apply (Hec (d, e)). now left. }
    { now apply forallb_slice. }
    rewrite (bindM_step _ _ (dbs ++ [slice codewords offset (offset + d)],
                             ebs ++ [ec], offset + d)
               loaded_module loaded_module).
    2:{ rewrite (bindM_step _ _ ec loaded_module loaded_module Hrs).
        reflexivity. }
    destruct (IH (dbs ++ [slice codewords offset (offset + d)]) (ebs ++ [ec])
                (offset + d) (fun b H => Hec b (or_intror H)))
      as (ecs & Hf & Hl & Hb & Hcodes).
    exists (ec :: ecs). cbv beta. rewrite Hf, sum_dcw_cons. cbn [fst block_slices].
    rewrite <- !app_assoc. cbn [app]. split; [do 3 f_equal; lia|].
    cbn [map snd forallb]. rewrite Hl, Hlec, Hbec, Hb.
    split; [reflexivity|]. split; [reflexivity|].
    constructor; [|exact Hcodes].
    intros r Hr. apply Hcode. lia.
Qed.

Lemma payload_bits_fold (data : jsstring) (version : Z) :
  fold_left (fun bits c => bits ++ padStart0 8 (toString2 c)) data
    ([false; true; false; false]
       ++ padStart0 (if version <=? 9 then 8 else 16) (toString2 (len data)))
  = payload_bits data version.
Proof.
  rewrite fold_left_bits. unfold payload_bits, count_bits.
  now rewrite <- app_assoc.
Qed.

(** [encodeDataByte] throws exactly when the mode, count and character
    bits exceed the capacity of the blocks. *)
Lemma encodeDataByte_throws (data : jsstring) (version : Z)
  (blocks : list (Z * Z)) (st : module_state) :
  sum_dcw blocks * 8 < len (payload_bits data version) ->
  encodeDataByte data version blocks st = (Throw RangeError, st).
Proof.
  intros H. unfold encodeDataByte. cbv zeta. rewrite payload_bits_fold.
  replace (Z.min 4 (sum_dcw blocks * 8 - len (payload_bits data version)) <? 0)
    with true by (symmetry; apply Z.ltb_lt; lia).
  reflexivity.
Qed.

(** Within capacity [encodeDataByte] returns: the data blocks are the
    codewords of the bit string, cut as the block list says, the bit string
    starts with the mode, count and characters, and every block has its
    error-correction bytes. *)
Lemma encodeDataByte_run (data : jsstring) (version : Z)
  (blocks : list (Z * Z)) :
  (forall b, In b blocks -> 0 <= fst b /\ 0 <= snd b <= 255) ->
  len (payload_bits data version) <= sum_dcw blocks * 8 ->
  exists dataBlocks ecBlocks pad,
    encodeDataByte data version blocks loaded_module
    = (Ok (dataBlocks, ecBlocks), loaded_module)
    /\ bits_of (List.concat dataBlocks) = payload_bits data version ++ pad
    /\ len (List.concat dataBlocks) = sum_dcw blocks
    /\ map len dataBlocks = map fst blocks
    /\ map len ecBlocks = map snd blocks
    /\ forallb (forallb is_byte) dataBlocks = true
    /\ forallb (forallb is_byte) ecBlocks = true
    /\ Forall2 rs_codeword dataBlocks ecBlocks.
Proof.
  intros Hblocks Hfit. unfold encodeDataByte. cbv zeta.
  rewrite payload_bits_fold.
  set (payload := payload_bits data version) in *.
  set (cap := sum_dcw blocks * 8) in *.
  pose proof (len_nonneg payload) as Hpn.
  assert (Hs : 0 <= sum_dcw blocks)
    by (apply sum_dcw_nonneg; intros b Hb; now apply Hblocks).
  replace (Z.min 4 (cap - len payload) <? 0) with false
    by (symmetry; apply Z.ltb_ge; lia).
  set (bits1 := payload ++ repeat false (Z.to_nat (Z.min 4 (cap - len payload)))).
  assert (Hl1 : len bits1 <= cap)
    by (unfold bits1; rewrite len_app, len_repeat; lia).
  unfold liftM at 1. unfold bindM at 1.
  destruct (align_loop bits1) as (k & bits2 & Hw2 & Hb2 & Hm2 & Hl2).
  unfold liftM at 1. unfold bindM at 1. rewrite Hw2.
  assert (Hcap8 : cap mod 8 = 0) by (unfold cap; apply Z.mod_mul; lia).
  assert (Hl2' : len bits2 <= cap).
  { pose proof (Z.div_mod (len bits2) 8 ltac:(lia)).
    pose proof (Z.div_mod cap 8 ltac:(lia)). lia. }
  destruct (pad_loop cap bits2 Hcap8 Hm2 Hl2')
    as (pad & bits3 & idx & Hw3 & Hb3 & Hl3).
  unfold liftM at 1. unfold bindM at 1. rewrite Hw3. cbn [fst].
  assert (Hlen3 : List.length bits3 = (8 * Z.to_nat (sum_dcw blocks))%nat)
    by (unfold len, cap in Hl3; lia).
  destruct (split_codewords_bits _ _ Hlen3) as (Hbits & Hcount & Hbytes).
  set (codewords := split_codewords bits3) in *.
  destruct (blocks_loop codewords blocks [] [] 0 Hbytes)
    as (ecs & Hf & Hlecs & Hbecs & Hcodes).
  { intros b Hb. now apply Hblocks. }
  rewrite (bindM_step _ _ _ loaded_module loaded_module Hf).
  cbn [app].
  destruct (block_slices_shape codewords blocks 0) as (Hcat & Hlens).
  { intros b Hb. now apply Hblocks. }
  { lia. }
  { unfold len. rewrite Hcount. lia. }
  assert (Hall : slice codewords 0 (0 + sum_dcw blocks) = codewords).
  { rewrite Z.add_0_l.
    replace (sum_dcw blocks) with (len codewords)
      by (unfold len; rewrite Hcount; lia).
    apply slice_all. }
  exists (block_slices codewords blocks 0), ecs,
    (repeat false (Z.to_nat (Z.min 4 (cap - len payload)))
       ++ repeat false k ++ pad).
  split; [reflexivity|]. rewrite Hcat, Hall. split.
  - rewrite Hbits, Hb3, Hb2. unfold bits1. now rewrite <- !app_assoc.
  - split; [unfold len; rewrite Hcount; lia|].
    split; [exact Hlens|]. split; [exact Hlecs|].
    split; [now apply forallb_block_slices|].
    split; [exact Hbecs | exact Hcodes].
Qed.

Lemma encodeDataByte_ok (data : jsstring) (version : Z)
  (blocks : list (Z * Z)) :
  (forall b, In b blocks -> 0 <= fst b /\ 0 <= snd b <= 255) ->
  len (payload_bits data version) <= sum_dcw blocks * 8 ->
  exists dataBlocks ecBlocks pad,
    encodeDataByte data version blocks loaded_module
    = (Ok (dataBlocks, ecBlocks), loaded_module)
    /\ bits_of (List.concat dataBlocks) = payload_bits data version ++ pad
    /\ len (List.concat dataBlocks) = sum_dcw blocks
    /\ map len dataBlocks = map fst blocks
    /\ map len ecBlocks = map snd blocks
    /\ forallb (forallb is_byte) dataBlocks = true
    /\ forallb (forallb is_byte) ecBlocks = true.
Proof.
  intros Hblocks Hfit.
  destruct (encodeDataByte_run data version blocks Hblocks Hfit)
    as (d & e & pad & H1 & H2 & H3 & H4 & H5 & H6 & H7 & _).
  exists d, e, pad. auto 10.
Qed.

(** ** Interleaving *)

Lemma fold_left_app_flat_map {A B : Type} (f : A -> list B) (l : list A)
  (acc : list B) :
  fold_left (fun r x => r ++ f x) l acc = acc ++ flat_map f l.
Proof.
  revert acc; induction l as [|x l IH]; intros acc; cbn [fold_left flat_map].
  - now rewrite app_nil_r.
  - rewrite IH. now rewrite app_assoc.
Qed.

Lemma interleave_round (i : Z) (bs : list (list jsval)) (r : list jsval) :
  fold_left
    (fun result block =>
       if i <? len block then result ++ [arr_get block i] else result)
    bs r
  = r ++ column i bs.
Proof.
  unfold column. rewrite <- fold_left_app_flat_map.
  revert r; induction bs as [|b bs IH]; intros r; cbn [fold_left];
    [reflexivity|].
  destruct (i <? len b); [apply IH|]. rewrite app_nil_r. apply IH.
Qed.

Lemma fold_left_same {A B : Type} (f g : A -> B -> A) (l : list B) (a : A) :
  (forall a b, f a b = g a b) -> fold_left f l a = fold_left g l a.
Proof.
  intros H. revert a; induction l as [|b l IH]; intros a; cbn [fold_left];
    [reflexivity|].
  now rewrite H, IH.
Qed.

Lemma interleave_pass_columns (bs : list (list jsval)) (r : list jsval) :
  interleave_pass bs r
  = r ++ flat_map (fun i => column i bs) (zrange 0 (max_len bs)).
Proof.
  unfold interleave_pass, for_pure.
  rewrite <- fold_left_app_flat_map.
  apply fold_left_same. intros acc i. apply interleave_round.
Qed.

Lemma max_len_acc (bs : list (list jsval)) (acc : Z) :
  0 <= acc ->
  fold_left (fun acc b => Z.max acc (len b)) bs acc = Z.max acc (max_len bs).
Proof.
  unfold max_len. revert acc; induction bs as [|b bs IH]; intros acc Hacc;
    cbn [fold_left]; [lia|].
  pose proof (len_nonneg b).
  rewrite (IH (Z.max acc (len b))), (IH (Z.max 0 (len b))) by lia. lia.
Qed.

Lemma max_len_cons (b : list jsval) (bs : list (list jsval)) :
  max_len (b :: bs) = Z.max (len b) (max_len bs).
Proof.
  unfold max_len at 1. cbn [fold_left]. pose proof (len_nonneg b).
  rewrite max_len_acc by lia. lia.
Qed.

Lemma max_len_nonneg (bs : list (list jsval)) : 0 <= max_len bs.
Proof.
  induction bs as [|b bs IH]; [cbn; lia|]. rewrite max_len_cons. lia.
Qed.

Lemma column_past_end (i : Z) (bs : list (list jsval)) :
  max_len bs <= i -> column i bs = [].
Proof.
  induction bs as [|b bs IH]; intros H; [reflexivity|].
  rewrite max_len_cons in H. unfold column in *. cbn [flat_map].
  replace (i <? len b) with false by (symmetry; apply Z.ltb_ge; lia).
  apply IH. lia.
Qed.

Lemma column_tail (i : Z) (bs : list (list jsval)) :
  0 <= i -> column (i + 1) bs = column i (map (@tl jsval) bs).
Proof.
  intros Hi. unfold column.
  induction bs as [|b bs IH]; [reflexivity|]. cbn [map flat_map].
  rewrite IH. f_equal.
  destruct b as [|x b]; cbn [tl].
  - change (len (@nil jsval)) with 0.
    replace (i + 1 <? 0) with false by (symmetry; apply Z.ltb_ge; lia).
    replace (i <? 0) with false by (symmetry; apply Z.ltb_ge; lia).
    reflexivity.
  - rewrite len_cons.
    destruct (i <? len b) eqn:E.
    + replace (i + 1 <? 1 + len b) with true
        by (symmetry; apply Z.ltb_lt; apply Z.ltb_lt in E; lia).
      f_equal. unfold arr_get.
      replace (i + 1 <? 0) with false by (symmetry; apply Z.ltb_ge; lia).
      replace (i <? 0) with false by (symmetry; apply Z.ltb_ge; lia).
      replace (Z.to_nat (i + 1)) with (S (Z.to_nat i)) by lia.
      reflexivity.
    + replace (i + 1 <? 1 + len b) with false
        by (symmetry; apply Z.ltb_ge; apply Z.ltb_ge in E; lia).
      reflexivity.
Qed.

Lemma max_len_tails (bs : list (list jsval)) (n : Z) :
  max_len bs <= n + 1 -> 0 <= n -> max_len (map (@tl jsval) bs) <= n.
Proof.
  induction bs as [|b bs IH]; intros H Hn; [cbn; lia|].
  cbn [map]. rewrite max_len_cons in *.
  specialize (IH ltac:(lia) Hn).
  destruct b as [|x b]; cbn [tl].
  - change (len (@nil jsval)) with 0. lia.
  - rewrite len_cons in H. lia.
Qed.

Lemma heads_and_tails (bs : list (list jsval)) :
  Permutation (column 0 bs ++ List.concat (map (@tl jsval) bs))
    (List.concat bs).
Proof.
  unfold column. induction bs as [|b bs IH]; [constructor|].
  cbn [flat_map map List.concat].
  destruct b as [|x b]; cbn [tl].
  - cbn. exact IH.
  - rewrite len_cons.
    replace (0 <? 1 + len b) with true
      by (symmetry; apply Z.ltb_lt; pose proof (len_nonneg b); lia).
    cbn [app arr_get Z.ltb Z.compare Z.to_nat nth]. constructor.
    rewrite app_assoc.
    eapply Permutation_trans;
      [apply Permutation_app_tail, Permutation_app_comm|].
    rewrite <- app_assoc. now apply Permutation_app_head.
Qed.

Lemma flat_map_zseq_shift {B : Type} (f : Z -> list B) (lo : Z) (n : nat) :
  flat_map f (zseq (lo + 1) n) = flat_map (fun i => f (i + 1)) (zseq lo n).
Proof.
  revert lo; induction n as [|n IH]; intros lo; cbn [zseq flat_map];
    [reflexivity|].
  f_equal. apply IH.
Qed.

Lemma flat_map_same_in {A B : Type} (f g : A -> list B) (l : list A) :
  (forall x, In x l -> f x = g x) -> flat_map f l = flat_map g l.
Proof.
  induction l as [|x l IH]; intros H; cbn [flat_map]; [reflexivity|].
  rewrite (H x (or_introl eq_refl)), IH; [reflexivity|].
  intros y Hy. apply H. now right.
Qed.

Lemma columns_permutation (n : nat) (bs : list (list jsval)) :
  max_len bs <= Z.of_nat n ->
  Permutation (flat_map (fun i => column i bs) (zseq 0 n)) (List.concat bs).
Proof.
  revert bs; induction n as [|n IH]; intros bs Hmax.
  - cbn [zseq flat_map].
    assert (Hempty : List.concat bs = []).
    { induction bs as [|b bs IHb]; [reflexivity|].
      rewrite max_len_cons in Hmax. pose proof (len_nonneg b).
      pose proof (max_len_nonneg bs).
      destruct b; [|rewrite len_cons in Hmax; pose proof (len_nonneg b); lia].
      cbn. apply IHb. lia. }
    rewrite Hempty. constructor.
  - cbn [zseq flat_map]. rewrite flat_map_zseq_shift.
    rewrite (flat_map_same_in (fun i => column (i + 1) bs)
               (fun i => column i (map (@tl jsval) bs))).
    2:{ intros i Hi. apply In_zseq in Hi. apply column_tail. lia. }
    eapply Permutation_trans; [|apply heads_and_tails].
    apply Permutation_app_head, IH, max_len_tails; lia.
Qed.

Lemma interleave_pass_permutation (bs : list (list jsval)) (r : list jsval) :
  Permutation (interleave_pass bs r) (r ++ List.concat bs).
Proof.
  rewrite interleave_pass_columns. apply Permutation_app_head.
  unfold zrange. apply columns_permutation.
  pose proof (max_len_nonneg bs). lia.
Qed.

(** ** Placement order *)

Lemma mget_Ok_inv (m : matrix) (r c : Z) (x : jsval) :
  mget m r c = Ok x -> 0 <= r < len m.
Proof.
  unfold mget, len. destruct (r <? 0) eqn:E; [discriminate|].
  apply Z.ltb_ge in E.
  destruct (nth_error m (Z.to_nat r)) as [row|] eqn:En; [|discriminate].
  intros _. assert (Z.to_nat r < List.length m)%nat
    by (apply nth_error_Some; congruence). lia.
Qed.

Lemma foldM_keeps {A St : Type} (P : St -> Prop) (body : A -> St -> result St)
  (l : list A) (s s' : St) :
  (forall x s s', In x l -> body x s = Ok s' -> P s -> P s') ->
  foldM body l s = Ok s' -> P s -> P s'.
Proof.
  revert s; induction l as [|x l IH]; intros s Hbody; cbn [foldM].
  - intros [= <-]. auto.
  - intros H Hs. inv_bind H.
    apply (IH x0); [intros y t t' Hy; apply Hbody; now right | exact H|].
    apply (Hbody x s x0); [now left | exact Hx | exact Hs].
Qed.

Lemma while_loop_keeps {St : Type} (P : St -> Prop) (cond : St -> bool)
  (body : St -> result St) (fuel : nat) (s s' : St) :
  (forall s s', cond s = true -> body s = Ok s' -> P s -> P s') ->
  while_loop fuel cond body s = Ok s' -> P s -> P s'.
Proof.
  intros Hbody. revert s; induction fuel as [|fuel IH]; intros s;
    cbn [while_loop].
  - destruct (cond s); [discriminate|]. intros [= <-]. auto.
  - destruct (cond s) eqn:Ec; [|intros [= <-]; auto].
    intros H Hs. inv_bind H. apply (IH x); [exact H|]. eauto.
Qed.

Lemma place_cell_keeps (m0 : matrix) (bits : list bool) (row col c : Z)
  (st st' : place_state) :
  0 <= col - c ->
  place_cell bits row col c st = Ok st' ->
  place_inv m0 st /\ placed_in_order bits st ->
  place_inv m0 st' /\ placed_in_order bits st'.
Proof.
  intros Hcc Hcell (Hinv & Hord).
  pose proof Hinv as (Hlen & Hnd & Hw & Hrest & Hidx).
  assert (Hrow : 0 <= row < len m0).
  { unfold place_cell in Hcell. inv_bind Hcell.
    apply mget_Ok_inv in Hx. lia. }
  destruct (place_cell_ok m0 bits row col c st Hinv Hrow Hcc)
    as (st'' & Heq & (Hinv' & _) & _).
  rewrite Hcell in Heq. injection Heq as <-.
  split; [exact Hinv'|].
  unfold place_cell in Hcell. inv_bind Hcell.
  destruct (is_null x) eqn:Enull; cbn [negb] in Hcell;
    [|injection Hcell as <-; exact Hord].
  inv_bind Hcell. injection Hcell as <-.
  unfold placed_in_order. cbn [pl_written pl_matrix rev].
  intros k r c' Hk.
  assert (Hnew : ~ In (row, col - c) (pl_written st)).
  { intros Hin. destruct (Hw _ _ Hin) as (_ & _ & _ & [H|H]);
      rewrite Hx in H; destruct x; discriminate. }
  destruct (Nat.lt_ge_cases k (List.length (rev (pl_written st)))) as [Hlt|Hge].
  - rewrite nth_error_app1 in Hk by exact Hlt.
    rewrite (mget_mset_other _ _ _ _ _ _ _ Hx0).
    + now apply Hord.
    + intros [= -> ->]. apply Hnew. apply in_rev.
      eapply nth_error_In; eauto.
  - rewrite nth_error_app2 in Hk by exact Hge.
    destruct (k - List.length (rev (pl_written st)))%nat as [|j] eqn:Ej;
      [|destruct j; discriminate Hk].
    injection Hk as <- <-.
    rewrite (mget_mset_same _ _ _ _ _ Hx0 Hcc).
    rewrite length_rev in *. f_equal. f_equal.
    rewrite Hidx. unfold len. lia.
Qed.

Lemma place_column_keeps (m0 : matrix) (bits : list bool) (size : Z)
  (st st' : place_state) :
  (pl_col st >=? 1) = true ->
  place_column bits size st = Ok st' ->
  place_inv m0 st /\ placed_in_order bits st ->
  place_inv m0 st' /\ placed_in_order bits st'.
Proof.
  intros Hcol Hpc HP. apply Z.geb_le in Hcol.
  unfold place_column in Hpc. inv_bind Hpc. injection Hpc as <-.
  set (col := if pl_col st =? 6 then 5 else pl_col st) in *.
  assert (Hc : 1 <= col) by (unfold col; destruct (pl_col st =? 6); lia).
  assert (HP' : place_inv m0 x /\ placed_in_order bits x).
  { refine (foldM_keeps
              (fun s => place_inv m0 s /\ placed_in_order bits s)
              _ _ _ _ _ Hx HP).
    intros row s s' _ Hrow Hs. unfold for_range in Hrow.
    refine (foldM_keeps
              (fun s => place_inv m0 s /\ placed_in_order bits s)
              _ _ _ _ _ Hrow Hs).
    intros c t t' Hc' Hcell Ht. apply In_zrange in Hc'.
    eapply place_cell_keeps; eauto. lia. }
  exact HP'.
Qed.

(** Running [placeData] on a template of a tabulated version. *)
Lemma placeData_run_ok (v : Z) (codewords : list jsval) :
  1 <= v <= 10 -> forallb is_byte codewords = true ->
  exists m0 st,
    createMatrix v = Ok (m0, v * 4 + 17)
    /\ square (v * 4 + 17) m0
    /\ placeData_run m0 (v * 4 + 17) codewords = Ok st
    /\ data_bits codewords = Ok (bits_of codewords)
    /\ place_inv m0 st
    /\ placed_in_order (bits_of codewords) st
    /\ forall r c, 0 <= r < v * 4 + 17 -> 0 <= c < v * 4 + 17 ->
         covered m0 st r c
         /\ exists x, mget m0 r c = Ok x /\ (x = Null \/ is_module x = true).
Proof.
  intros Hv Hcw. remember (v * 4 + 17) as size eqn:Esize.
  pose proof placement_templates_ok as Hok. rewrite forallb_forall in Hok.
  specialize (Hok v (proj2 (In_zrange v 1 11) ltac:(lia))).
  unfold placement_template_ok in Hok.
  destruct (createMatrix v) as [[m0 size']|]; [|discriminate].
  repeat (apply andb_prop in Hok; destruct Hok as [Hok ?]).
  apply Z.eqb_eq in Hok. rewrite <- Esize in Hok. subst size'.
  match goal with H : squareb _ _ = true |- _ =>
    apply squareb_square in H; rename H into Hsq end.
  match goal with H : loop_ends _ _ = true |- _ => rename H into Hends end.
  match goal with H : forallb (fun r => forallb _ _) _ = true |- _ =>
    rename H into Hcells end.
  pose proof Hsq as [Hlen _].
  assert (Hbits : data_bits codewords = Ok (bits_of codewords)).
  { unfold data_bits, bits_of.
    assert (Hacc : forall acc,
               foldM (fun byte bits => b <- byte_bits byte ;; Ok (bits ++ b))
                 codewords acc
               = Ok (acc ++ flat_map codeword_bits codewords)).
    { induction codewords as [|w cw IH]; intros acc; cbn [foldM flat_map].
      - now rewrite app_nil_r.
      - cbn [forallb] in Hcw. apply andb_prop in Hcw. destruct Hcw as [Hw Hcw].
        destruct (is_byte_inv w Hw) as (z & -> & _).
        cbn [byte_bits bind codeword_bits]. rewrite IH by exact Hcw.
        now rewrite app_assoc. }
    apply (Hacc []). }
  set (st0 := {| pl_col := size - 1; pl_matrix := m0; pl_bitIdx := 0;
                 pl_upward := true; pl_written := [] |}).
  assert (Hinv0 : place_inv m0 st0).
  { unfold place_inv, st0. cbn [pl_matrix pl_written pl_bitIdx].
    split; [reflexivity|]. split; [constructor|].
    split; [intros r c []|]. split; [reflexivity|]. reflexivity. }
  assert (Hord0 : placed_in_order (bits_of codewords) st0).
  { intros k r c Hk. cbn in Hk. destruct k; discriminate Hk. }
  destruct (place_loop_ok m0 (bits_of codewords) size (Z.to_nat size) st0
              Hinv0 Hlen Hends) as (st & Hrun & Hinv & _ & Hcov).
  assert (HP : place_inv m0 st /\ placed_in_order (bits_of codewords) st).
  { refine (while_loop_keeps
              (fun s => place_inv m0 s /\ placed_in_order (bits_of codewords) s)
              _ _ _ _ _ _ Hrun (conj Hinv0 Hord0)).
    intros s s' Hc Hb Hs. eapply place_column_keeps; eauto. }
  exists m0, st. split; [reflexivity|]. split; [exact Hsq|]. split.
  { unfold placeData_run. rewrite Hbits. exact Hrun. }
  split; [exact Hbits|]. split; [exact Hinv|]. split; [apply HP|].
  intros r c Hr Hc.
  rewrite forallb_forall in Hcells.
  specialize (Hcells r (proj2 (In_zrange r 0 size) Hr)).
  rewrite forallb_forall in Hcells.
  specialize (Hcells c (proj2 (In_zrange c 0 size) Hc)).
  destruct (mget m0 r c) as [x|] eqn:Ex; [|discriminate].
  destruct x as [| |z].
  - discriminate.
  - apply existsb_exists in Hcells. destruct Hcells as (c' & Hc' & Heq).
    apply Z.eqb_eq in Heq. subst c'.
    split; [now apply Hcov|]. exists Null. auto.
  - split; [right; exists (Num z); split; [exact Ex | discriminate]|].
    exists (Num z). auto.
Qed.

(** ** Format information and the finished matrix *)

Lemma foldM_app {A St : Type} (f : A -> St -> result St) (l1 l2 : list A)
  (s : St) :
  foldM f (l1 ++ l2) s = (s' <- foldM f l1 s ;; foldM f l2 s').
Proof.
  revert s; induction l1 as [|a l1 IH]; intros s; cbn [app foldM bind].
  - reflexivity.
  - destruct (f a s) as [s1|e]; cbn [bind]; [apply IH|reflexivity].
Qed.

Lemma foldM_map {A B St : Type} (f : B -> St -> result St) (g : A -> B)
  (l : list A) (s : St) :
  foldM f (map g l) s = foldM (fun i s => f (g i) s) l s.
Proof.
  revert s; induction l as [|a l IH]; intros s; cbn [map foldM].
  - reflexivity.
  - destruct (f (g a) s) as [s1|e]; cbn [bind]; [apply IH|reflexivity].
Qed.

Lemma foldM_same {A St : Type} (f g : A -> St -> result St) (l : list A)
  (s : St) :
  (forall i s, In i l -> f i s = g i s) -> foldM f l s = foldM g l s.
Proof.
  revert s; induction l as [|a l IH]; intros s H; cbn [foldM].
  - reflexivity.
  - rewrite (H a s (or_introl eq_refl)).
    destruct (g a s) as [s1|e]; cbn [bind]; [|reflexivity].
    apply IH. intros i s' Hi. apply H. now right.
Qed.

Lemma applyMask_format_writes (res : matrix) (size : Z) :
  applyMask_format res size
  = foldM (fun w m => mset m (fst (fst w)) (snd (fst w)) (snd w))
      (format_writes size) res.
Proof.
  unfold applyMask_format, format_writes, for_range.
  assert (H1 : forall s,
             foldM (fun i res => p <- position_at hPositions i ;;
                                 mset res (fst p) (snd p) (formatBit i))
               (zrange 0 8) s
             = foldM (fun i s =>
                        mset s (fst (nth (Z.to_nat i) hPositions (0, 0)))
                          (snd (nth (Z.to_nat i) hPositions (0, 0)))
                          (formatBit i)) (zrange 0 8) s).
  { intros s. apply foldM_same. intros i s' Hi.
    change (zrange 0 8) with [0; 1; 2; 3; 4; 5; 6; 7] in Hi. cbn [In] in Hi.
    repeat (destruct Hi as [<-|Hi]; [reflexivity|]). destruct Hi. }
  assert (H2 : forall s,
             foldM (fun i res => p <- position_at vPositions i ;;
                                 mset res (fst p) (snd p) (formatBit (14 - i)))
               (zrange 0 7) s
             = foldM (fun i s =>
                        mset s (fst (nth (Z.to_nat i) vPositions (0, 0)))
                          (snd (nth (Z.to_nat i) vPositions (0, 0)))
                          (formatBit (14 - i))) (zrange 0 7) s).
  { intros s. apply foldM_same. intros i s' Hi.
    change (zrange 0 7) with [0; 1; 2; 3; 4; 5; 6] in Hi. cbn [In] in Hi.
    repeat (destruct Hi as [<-|Hi]; [reflexivity|]). destruct Hi. }
  rewrite foldM_app, foldM_map. cbn [fst snd]. rewrite H1.
  destruct (foldM _ (zrange 0 8) res) as [s1|e]; cbn [bind]; [|reflexivity].
  rewrite foldM_app, foldM_map. cbn [fst snd]. rewrite H2.
  destruct (foldM _ (zrange 0 7) s1) as [s2|e]; cbn [bind]; [|reflexivity].
  rewrite foldM_app, foldM_map. cbn [fst snd].
  destruct (foldM _ (zrange 0 7) s2) as [s3|e]; cbn [bind]; [|reflexivity].
  rewrite foldM_map. reflexivity.
Qed.

Lemma writes_cells (ws : list (Z * Z * jsval)) (m m' : matrix) :
  foldM (fun w m => mset m (fst (fst w)) (snd (fst w)) (snd w)) ws m = Ok m' ->
  (forall w, In w ws -> 0 <= snd (fst w)) ->
  forall r c,
    mget m' r c = match last_write ws r c with
                  | Some v => Ok v
                  | None => mget m r c
                  end.
Proof.
  revert m; induction ws as [|[[r' c'] v] ws IH]; intros m H Hpos r c;
    cbn [foldM last_write] in *.
  - now injection H as <-.
  - inv_bind H. cbn [fst snd] in Hx.
    rewrite (IH x H (fun w Hw => Hpos w (or_intror Hw))).
    destruct (last_write ws r c) as [v'|]; [reflexivity|].
    destruct ((r' =? r) && (c' =? c)) eqn:E.
    + apply andb_prop in E. destruct E as [E1 E2].
      apply Z.eqb_eq in E1, E2. subst r' c'.
      apply (mget_mset_same _ _ _ _ _ Hx).
      apply (Hpos (r, c, v)). now left.
    + apply (mget_mset_other _ _ _ _ _ _ _ Hx).
      intros [= -> ->]. rewrite !Z.eqb_refl in E. discriminate.
Qed.

Lemma upd_row_Forall (P : list jsval -> Prop) (m m' : matrix) (n : nat)
  (f : list jsval -> list jsval) :
  upd_row m n f = Some m' -> Forall P m -> (forall row, P row -> P (f row)) ->
  Forall P m'.
Proof.
  revert m m'; induction n as [|n IH]; intros [|row m] m' H Hall Hf;
    cbn in H; try discriminate.
  - injection H as <-. inversion Hall; subst. constructor; auto.
  - destruct (upd_row m n f) as [m''|] eqn:E; [|discriminate].
    injection H as <-. inversion Hall; subst. constructor; eauto.
Qed.

Lemma mset_square (size : Z) (m m' : matrix) (r c : Z) (v : jsval) :
  square size m -> 0 <= c < size -> mset m r c v = Ok m' -> square size m'.
Proof.
  intros [Hlen Hrows] Hc H. split.
  - now rewrite (len_mset _ _ _ _ _ H).
  - apply mset_inv in H. destruct H as (_ & H).
    apply (upd_row_Forall _ _ _ _ _ H Hrows).
    intros row Hrow. rewrite len_arr_set; lia.
Qed.

Lemma square_new_matrix (size : Z) (v : jsval) :
  0 <= size -> square size (new_matrix size v).
Proof.
  intros H. split; [now apply len_new_matrix|].
  unfold new_matrix. apply Forall_forall. intros row Hrow.
  apply repeat_spec in Hrow. subst row. rewrite len_repeat. lia.
Qed.

Lemma writes_square (size : Z) (ws : list (Z * Z * jsval)) (m : matrix) :
  square size m ->
  (forall w, In w ws -> 0 <= fst (fst w) < size /\ 0 <= snd (fst w) < size) ->
  exists m',
    foldM (fun w m => mset m (fst (fst w)) (snd (fst w)) (snd w)) ws m = Ok m'
    /\ square size m'.
Proof.
  revert m; induction ws as [|w ws IH]; intros m Hsq Hin; cbn [foldM].
  - eauto.
  - destruct (Hin w (or_introl eq_refl)) as (Hr & Hc).
    destruct (mset_Ok m (fst (fst w)) (snd (fst w)) (snd w)) as (m1 & Hm1).
    { destruct Hsq as [-> _]. exact Hr. }
    rewrite Hm1. cbn [bind].
    apply IH; [eapply mset_square; eauto|].
    intros w' Hw'. apply Hin. now right.
Qed.

Lemma format_writes_in_range (size : Z) :
  17 <= size ->
  forall w, In w (format_writes size) ->
    0 <= fst (fst w) < size /\ 0 <= snd (fst w) < size.
Proof.
  intros Hs w Hw. unfold format_writes in Hw.
  repeat (apply in_app_or in Hw; destruct Hw as [Hw|Hw]);
    apply in_map_iff in Hw; destruct Hw as (i & <- & Hi).
  - change (zrange 0 8) with [0; 1; 2; 3; 4; 5; 6; 7] in Hi. cbn [In] in Hi.
    repeat (destruct Hi as [<-|Hi]; [cbv - [Z.le Z.lt]; lia|]). destruct Hi.
  - change (zrange 0 7) with [0; 1; 2; 3; 4; 5; 6] in Hi. cbn [In] in Hi.
    repeat (destruct Hi as [<-|Hi]; [cbv - [Z.le Z.lt]; lia|]). destruct Hi.
  - apply In_zrange in Hi. cbn [fst snd]. lia.
  - apply In_zrange in Hi. cbn [fst snd]. lia.
Qed.

Lemma last_write_in (ws : list (Z * Z * jsval)) (r c : Z) (v : jsval) :
  last_write ws r c = Some v -> In (r, c, v) ws.
Proof.
  induction ws as [|[[r' c'] v'] ws IH]; cbn [last_write]; [discriminate|].
  destruct (last_write ws r c) as [v''|].
  - intros [= <-]. right. now apply IH.
  - destruct ((r' =? r) && (c' =? c)) eqn:E; [|discriminate].
    intros [= <-]. apply andb_prop in E. destruct E as [E1 E2].
    apply Z.eqb_eq in E1, E2. subst. now left.
Qed.

Lemma format_writes_bits (size : Z) (r c : Z) (v : jsval) :
  last_write (format_writes size) r c = Some v -> v = Num 0 \/ v = Num 1.
Proof.
  intros H. apply last_write_in in H.
  apply (in_map snd) in H. cbn [snd] in H.
  unfold format_writes in H. rewrite !map_app, !map_map in H.
  cbn [snd] in H.
  change (zrange 0 8) with [0; 1; 2; 3; 4; 5; 6; 7] in H.
  change (zrange 0 7) with [0; 1; 2; 3; 4; 5; 6] in H.
  vm_compute in H.
  repeat (destruct H as [<-|H]; [auto|]). destruct H.
Qed.

Lemma foldM_keeps_square (size : Z) (m : matrix) (rs cs : list Z)
  (step : Z -> Z -> matrix -> result matrix) (res res' : matrix) :
  (forall r c s s', In c cs -> step r c s = Ok s' -> square size s ->
                    square size s') ->
  foldM (fun r res => foldM (step r) cs res) rs res = Ok res' ->
  square size res -> square size res'.
Proof.
  intros Hstep.
  apply (foldM_keeps (square size)). intros r s s' _ Hrow.
  apply (foldM_keeps (square size) _ _ _ _ (fun c t t' Hc => Hstep r c t t' Hc)
           Hrow).
Qed.

(** [applyMask] on a matrix of a tabulated version: it returns a square
    matrix, in which a cell holds its format bit if a format loop writes
    it, and otherwise the copied value, flipped where the template is unset
    and the mask function holds. *)
Lemma applyMask_cells (v : Z) (m : matrix) :
  1 <= v <= 10 -> len m = v * 4 + 17 ->
  exists t res,
    createMatrix v = Ok (t, v * 4 + 17)
    /\ applyMask m (v * 4 + 17) = Ok res
    /\ square (v * 4 + 17) res
    /\ forall r c, 0 <= r < v * 4 + 17 -> 0 <= c < v * 4 + 17 ->
         exists x tv,
           mget m r c = Ok x /\ mget t r c = Ok tv
           /\ mget res r c
              = match last_write (format_writes (v * 4 + 17)) r c with
                | Some fv => Ok fv
                | None =>
                    Ok (if is_null tv && maskFn r c
                        then js_xor (nullish_or x (Num 0)) (Num 1)
                        else nullish_or x (Num 0))
                end.
Proof.
  intros Hv Hm. remember (v * 4 + 17) as size eqn:Esize.
  assert (Hsize : 17 <= size) by lia.
  assert (Hpos : 0 <= size) by lia.
  destruct (createMatrix_tabulated v Hv) as (t & Ht & Hsq).
  rewrite <- Esize in Ht, Hsq. destruct Hsq as [Hlt _].
  destruct (all_cells_loop size _ _ (copy_is_cell_step size m Hm)
              (new_matrix size (Num 0)) (len_new_matrix _ _ Hpos))
    as (res0 & Hcopy & Hlen0 & Hcells0).
  assert (Hsq0 : square size res0).
  { unfold for_range in Hcopy.
    refine (foldM_keeps_square size m _ _ _ _ _ _ Hcopy
              (square_new_matrix size (Num 0) Hpos)).
    intros r c s s' Hc Hs Hsq. apply In_zrange in Hc.
    inv_bind Hs. eapply mset_square; eauto. }
  change (applyMask_copy m size = Ok res0) in Hcopy.
  destruct (all_cells_loop size _ _ (mask_is_cell_step size t Hlt) res0 Hlen0)
    as (res1 & Hmask & Hlen1 & Hcells1).
  assert (Hsq1 : square size res1).
  { unfold for_range in Hmask.
    refine (foldM_keeps_square size m _ _ _ _ _ _ Hmask Hsq0).
    intros r c s s' Hc Hs Hsq. apply In_zrange in Hc.
    inv_bind Hs. destruct (is_null x && maskFn r c).
    - inv_bind Hs. eapply mset_square; eauto.
    - now injection Hs as <-. }
  change (applyMask_mask t res0 size = Ok res1) in Hmask.
  destruct (writes_square size (format_writes size) res1 Hsq1
              (format_writes_in_range size Hsize)) as (res & Hfmt & Hsq2).
  assert (Hdiv : (size - 17) / 4 = v).
  { rewrite Esize. replace (v * 4 + 17 - 17) with (v * 4) by lia.
    apply Z.div_mul. lia. }
  exists t, res. split; [exact Ht|]. split.
  { unfold applyMask. rewrite Hcopy. cbn [bind]. rewrite Hdiv, Ht.
    cbn [bind fst]. rewrite Hmask. cbn [bind].
    rewrite applyMask_format_writes. exact Hfmt. }
  split; [exact Hsq2|].
  intros r c Hr Hc.
  destruct (Hcells0 r c Hr Hc) as (old0 & _ & H0).
  destruct (Hcells1 r c Hr Hc) as (old1 & Ho1 & H1).
  destruct (mget_Ok m r c ltac:(lia)) as (x & Hx).
  destruct (mget_Ok t r c ltac:(lia)) as (tv & Htv).
  unfold copy_cell in H0. rewrite Hx in H0.
  unfold mask_cell in H1. rewrite Htv in H1.
  rewrite H0 in Ho1. injection Ho1 as <-.
  exists x, tv. split; [exact Hx|]. split; [exact Htv|].
  rewrite (writes_cells _ _ _ Hfmt).
  - rewrite H1. reflexivity.
  - intros w Hw. apply (format_writes_in_range size Hsize w Hw).
Qed.

(** ** From payload to matrix *)

Lemma rows_ok : forallb row_ok VERSION_TABLE = true.
Proof. vm_compute. reflexivity. Qed.

Lemma row_info_fields (row : Z * Z * Z * Z * Z * Z * Z) :
  version (row_info row) = row_version row
  /\ blocks (row_info row) = row_blocks row.
Proof. destruct row as [[[[[[? ?] ?] ?] ?] ?] ?]. split; reflexivity. Qed.

Lemma pickVersion_bounds (n : Z) :
  1 <= version (pickVersion n) <= 10
  /\ forall b, In b (blocks (pickVersion n)) ->
       0 <= fst b /\ 0 <= snd b <= 255.
Proof.
  destruct (pickVersion_in_table n) as (row & Hin & ->).
  destruct (row_info_fields row) as [-> ->].
  pose proof rows_ok as H. rewrite forallb_forall in H.
  specialize (H row Hin). unfold row_ok in H.
  apply andb_prop in H. destruct H as [Hv Hb].
  unfold in_range in Hv. apply andb_prop in Hv. destruct Hv as [H1 H2].
  apply Z.leb_le in H1, H2. split; [lia|].
  rewrite forallb_forall in Hb. intros b Hbin. specialize (Hb b Hbin).
  apply andb_prop in Hb. destruct Hb as [H3 H4].
  unfold in_range in H4. apply andb_prop in H4. destruct H4 as [H4 H5].
  apply Z.leb_le in H3, H4, H5. lia.
Qed.

Lemma len_flat_map_bytes (data : jsstring) :
  forallb is_latin1 data = true ->
  len (flat_map (fun c => padStart0 8 (toString2 c)) data) = 8 * len data.
Proof.
  induction data as [|c data IH]; cbn [forallb flat_map]; intros H.
  - reflexivity.
  - apply andb_prop in H. destruct H as [Hc Hd].
    unfold is_latin1, in_range in Hc. apply andb_prop in Hc.
    destruct Hc as [H0 H1]. apply Z.leb_le in H0, H1.
    rewrite len_app, len_cons, (IH Hd).
    destruct (byte_conversion c ltac:(lia)) as [-> _]. lia.
Qed.

Lemma len_payload_latin1 (data : jsstring) (v : Z) :
  forallb is_latin1 data = true -> len data <= 255 ->
  len (payload_bits data v) = 4 + count_bits v + 8 * len data.
Proof.
  intros Hd Hn. unfold payload_bits.
  rewrite len_app, len_app, (len_flat_map_bytes data Hd).
  pose proof (len_nonneg data).
  destruct (count_conversion v (len data) ltac:(lia)) as [-> _].
  change (len [false; true; false; false]) with 4. lia.
Qed.

Lemma len_payload_lower (data : jsstring) (v : Z) :
  4 + count_bits v + 8 * len data <= len (payload_bits data v).
Proof.
  rewrite <- payload_bits_fold.
  etransitivity; [|apply len_payload_bits].
  rewrite len_app. fold (count_bits v).
  pose proof (len_padStart0 (count_bits v) (toString2 (len data))).
  change (len [false; true; false; false]) with 4. lia.
Qed.

(** For Latin-1 text the payload fits the selected version exactly when it
    has at most 212 characters. *)
Lemma payload_fits_latin1 (data : jsstring) :
  forallb is_latin1 data = true -> (payload_fits data <-> len data <= 212).
Proof.
  intros Hd. unfold payload_fits.
  destruct (Z_lt_le_dec (len data) 213) as [Hlt|Hge].
  - split; [lia|intros _].
    rewrite (len_payload_latin1 data _ Hd) by lia.
    unfold pickVersion.
    destruct (pickVersion_loop VERSION_TABLE (len data)) as [info|] eqn:E.
    + destruct (pickVersion_loop_some _ _ _ E) as (row & _ & -> & Hfit).
      destruct (row_info_fields row) as [-> ->].
      unfold row_fits in Hfit. apply Z.leb_le in Hfit.
      unfold count_bits. lia.
    + apply pickVersion_loop_fallback_iff in E. lia.
  - split; [|lia]. intros H.
    rewrite (pickVersion_overflow _ Hge) in H. cbn [version blocks] in H.
    pose proof (len_payload_lower data 10) as Hl.
    change (count_bits 10) with 16 in Hl.
    change (sum_dcw [(43, 26); (43, 26); (43, 26); (43, 26); (43, 26)] * 8)
      with 1720 in H.
    lia.
Qed.

Lemma forallb_concat {A : Type} (p : A -> bool) (ls : list (list A)) :
  forallb (forallb p) ls = true -> forallb p (List.concat ls) = true.
Proof.
  induction ls as [|l ls IH]; cbn [forallb List.concat]; [reflexivity|].
  intros H. apply andb_prop in H. destruct H as [H1 H2].
  rewrite forallb_app, H1. now apply IH.
Qed.

Lemma forallb_permutation {A : Type} (p : A -> bool) (l l' : list A) :
  Permutation l l' -> forallb p l' = true -> forallb p l = true.
Proof.
  intros Hp H. rewrite forallb_forall in *. intros x Hx.
  apply H. eapply Permutation_in; eauto.
Qed.

Lemma interleave_bytes (dataBlocks ecBlocks : list (list jsval)) :
  forallb (forallb is_byte) dataBlocks = true ->
  forallb (forallb is_byte) ecBlocks = true ->
  forallb is_byte (interleave dataBlocks ecBlocks) = true.
Proof.
  intros Hd He. unfold interleave.
  apply (forallb_permutation _ _ _ (interleave_pass_permutation _ _)).
  rewrite forallb_app, (forallb_concat _ _ He), andb_true_r.
  apply (forallb_permutation _ _ _ (interleave_pass_permutation _ _)).
  cbn [app]. now apply forallb_concat.
Qed.

(** The run of [generateQrMatrix] on a payload that fits, stage by stage. *)
Lemma generateQrMatrix_run (data : jsstring) :
  payload_fits data ->
  exists dataBlocks ecBlocks pad t st m,
    let info := pickVersion (len data) in
    let size := version info * 4 + 17 in
    let stream := interleave dataBlocks ecBlocks in
    1 <= version info <= 10
    /\ encodeDataByte data (version info) (blocks info) loaded_module
       = (Ok (dataBlocks, ecBlocks), loaded_module)
    /\ bits_of (List.concat dataBlocks) = payload_bits data (version info) ++ pad
    /\ map len dataBlocks = map fst (blocks info)
    /\ map len ecBlocks = map snd (blocks info)
    /\ forallb is_byte stream = true
    /\ createMatrix (version info) = Ok (t, size)
    /\ square size t
    /\ placeData_run t size stream = Ok st
    /\ place_inv t st
    /\ placed_in_order (bits_of stream) st
    /\ (forall r c, 0 <= r < size -> 0 <= c < size -> covered t st r c)
    /\ generateQrMatrix data loaded_module = (Ok m, loaded_module)
    /\ square size m
    /\ forall r c, 0 <= r < size -> 0 <= c < size ->
         exists x tv,
           mget (pl_matrix st) r c = Ok x /\ mget t r c = Ok tv
           /\ (tv = Null \/ is_module tv = true)
           /\ mget m r c
              = match last_write (format_writes size) r c with
                | Some fv => Ok fv
                | None =>
                    Ok (if is_null tv && maskFn r c
                        then js_xor (nullish_or x (Num 0)) (Num 1)
                        else nullish_or x (Num 0))
                end.
Proof.
  intros Hfit. unfold payload_fits in Hfit.
  destruct (pickVersion_bounds (len data)) as (Hv & Hblocks).
  destruct (encodeDataByte_ok data _ _ Hblocks Hfit)
    as (dataBlocks & ecBlocks & pad & Henc & Hbits & _ & Hld & Hle & Hbd & Hbe).
  pose proof (interleave_bytes _ _ Hbd Hbe) as Hstream.
  destruct (placeData_run_ok _ _ Hv Hstream)
    as (t & st & Ht & Hsq & Hrun & _ & Hinv & Hord & Hcov).
  assert (Hlen : len (pl_matrix st) = version (pickVersion (len data)) * 4 + 17).
  { destruct Hinv as (-> & _). apply Hsq. }
  destruct (applyMask_cells _ (pl_matrix st) Hv Hlen)
    as (t' & m & Ht' & Hmask & Hsqm & Hcells).
  rewrite Ht in Ht'. injection Ht' as <-.
  exists dataBlocks, ecBlocks, pad, t, st, m. cbv zeta.
  split; [exact Hv|]. split; [exact Henc|]. split; [exact Hbits|].
  split; [exact Hld|]. split; [exact Hle|]. split; [exact Hstream|].
  split; [exact Ht|]. split; [exact Hsq|]. split; [exact Hrun|].
  split; [exact Hinv|]. split; [exact Hord|].
  split; [intros r c Hr Hc; apply (Hcov r c Hr Hc)|].
  split.
  { unfold generateQrMatrix. cbv zeta. unfold bindM. rewrite Henc.
    cbn [fst snd]. unfold liftM. rewrite Ht. cbn [bind fst snd].
    unfold placeData. rewrite Hrun. cbn [bind]. rewrite Hmask. reflexivity. }
  split; [exact Hsqm|].
  intros r c Hr Hc.
  destruct (Hcells r c Hr Hc) as (x & tv & Hx & Htv & Hm).
  destruct (Hcov r c Hr Hc) as (_ & y & Hy & Hyv).
  rewrite Htv in Hy. injection Hy as <-.
  exists x, tv. auto.
Qed.

(** A payload that does not fit makes [generateQrMatrix] throw. *)
Lemma generateQrMatrix_no_fit (data : jsstring) (st : module_state) :
  ~ payload_fits data -> generateQrMatrix data st = (Throw RangeError, st).
Proof.
  intros H. unfold payload_fits in H. unfold generateQrMatrix. cbv zeta.
  unfold bindM. rewrite encodeDataByte_throws by lia. reflexivity.
Qed.

Lemma js_xor_bit (b : Z) :
  b = 0 \/ b = 1 -> js_xor (Num b) (Num 1) = Num (1 - b).
Proof. intros [-> | ->]; reflexivity. Qed.

(** The value [generateQrMatrix] leaves in a cell is 0 or 1. *)
Lemma final_cell_bit (t : matrix) (st : place_state) (r c : Z) (x tv : jsval) :
  place_inv t st -> covered t st r c ->
  mget (pl_matrix st) r c = Ok x -> mget t r c = Ok tv ->
  tv = Null \/ is_module tv = true ->
  (tv = Null -> In (r, c) (pl_written st) /\ (x = Num 0 \/ x = Num 1))
  /\ (tv <> Null -> x = tv).
Proof.
  intros (_ & _ & Hw & Hnw & _) Hcov Hx Htv Hmod. split.
  - intros ->. destruct Hcov as [Hin | (y & Hy & Hne)].
    + split; [exact Hin|]. destruct (Hw r c Hin) as (_ & _ & _ & [H|H]);
        rewrite H in Hx; injection Hx as <-; auto.
    + rewrite Htv in Hy. injection Hy as <-. now destruct Hne.
  - intros Hne.
    assert (Hnot : ~ In (r, c) (pl_written st)).
    { intros Hin. destruct (Hw r c Hin) as (_ & _ & H & _).
      rewrite Htv in H. injection H as ->. now destruct Hne. }
    rewrite (Hnw r c Hnot), Htv in Hx. now injection Hx as <-.
Qed.

(** ** Reading the payload back *)

Lemma slice_middle {A : Type} (pre chunk rest : list A) :
  slice (pre ++ chunk ++ rest) (len pre) (len pre + len chunk) = chunk.
Proof.
  unfold slice, len.
  replace (Z.to_nat (Z.of_nat (List.length pre) + Z.of_nat (List.length chunk)
                     - Z.of_nat (List.length pre)))
    with (List.length chunk + 0)%nat by lia.
  rewrite Nat2Z.id.
  replace (List.length pre) with (List.length pre + 0)%nat at 1 by lia.
  rewrite skipn_app, (skipn_all2 pre) by lia.
  replace (List.length pre + 0 - List.length pre)%nat with 0%nat by lia.
  cbn [app skipn]. rewrite firstn_app_2. cbn [firstn]. apply app_nil_r.
Qed.

Lemma decode_chars (pre pad : list bool) (data : jsstring) :
  forallb is_latin1 data = true ->
  map (fun k =>
         parseInt2
           (slice (pre ++ flat_map (fun c => padStart0 8 (toString2 c)) data
                     ++ pad)
              (len pre + 8 * k) (len pre + 8 * k + 8)))
      (zseq 0 (List.length data))
  = data.
Proof.
  revert pre; induction data as [|c data IH]; intros pre Hd;
    cbn [forallb List.length zseq map flat_map] in *; [reflexivity|].
  apply andb_prop in Hd. destruct Hd as [Hc Hd].
  unfold is_latin1, in_range in Hc. apply andb_prop in Hc.
  destruct Hc as [H0 H1]. apply Z.leb_le in H0, H1.
  destruct (byte_conversion c ltac:(lia)) as [Hlen Hval].
  f_equal.
  - replace (len pre + 8 * 0 + 8) with (len pre + 8) by lia.
    replace (len pre + 8 * 0) with (len pre + 0) by lia.
    rewrite slice_app_skip by lia.
    rewrite <- app_assoc.
    pose proof (slice_prefix (padStart0 8 (toString2 c))
                  (flat_map (fun c => padStart0 8 (toString2 c)) data ++ pad))
      as Hs.
    rewrite Hlen in Hs. rewrite Hs. exact Hval.
  - rewrite map_zseq_shift.
    etransitivity; [|exact (IH (pre ++ padStart0 8 (toString2 c)) Hd)].
    apply map_ext. intros k.
    rewrite len_app, Hlen, <- !app_assoc.
    do 2 f_equal; lia.
Qed.

Lemma decode_payload_bits (data : jsstring) (version : Z)
  (codewords : list jsval) (pad : list bool) :
  forallb is_latin1 data = true -> len data <= 255 ->
  bits_of codewords = payload_bits data version ++ pad ->
  decode_payload version codewords = data.
Proof.
  intros Hd Hn Hbits. unfold decode_payload. cbv zeta. rewrite Hbits.
  unfold payload_bits. pose proof (len_nonneg data) as Hnn.
  destruct (count_conversion version (len data) ltac:(lia)) as [Hlen Hval].
  set (count := padStart0 (count_bits version) (toString2 (len data))) in *.
  set (mode := [false; true; false; false]).
  assert (Hcount : parseInt2
                     (slice ((mode ++ count ++ flat_map
                                (fun c => padStart0 8 (toString2 c)) data) ++ pad)
                        4 (4 + count_bits version)) = len data).
  { rewrite <- !app_assoc.
    pose proof (slice_middle mode count
                  (flat_map (fun c => padStart0 8 (toString2 c)) data ++ pad))
      as Hs.
    rewrite Hlen in Hs. change (len mode) with 4 in Hs.
    rewrite Hs. exact Hval. }
  rewrite Hcount. unfold zrange.
  replace (Z.to_nat (len data - 0)) with (List.length data) by (unfold len; lia).
  etransitivity; [|exact (decode_chars (mode ++ count) pad data Hd)].
  apply map_ext. intros k.
  rewrite len_app, Hlen. change (len mode) with 4.
  rewrite <- !app_assoc. reflexivity.
Qed.

(** ** Room for the stream *)

Lemma len_concat (ls : list (list jsval)) :
  len (List.concat ls) = sumZ (map len ls).
Proof.
  induction ls as [|l ls IH]; cbn [List.concat map sumZ fold_right];
    [reflexivity|].
  rewrite len_app. unfold sumZ in IH. now rewrite IH.
Qed.

Lemma len_permutation {A : Type} (l l' : list A) :
  Permutation l l' -> len l = len l'.
Proof. intros H. unfold len. now rewrite (Permutation_length H). Qed.

Lemma interleave_permutation_concat (dataBlocks ecBlocks : list (list jsval)) :
  Permutation (interleave dataBlocks ecBlocks)
    (List.concat dataBlocks ++ List.concat ecBlocks).
Proof.
  unfold interleave.
  etransitivity; [apply interleave_pass_permutation|].
  apply Permutation_app_tail.
  apply (interleave_pass_permutation dataBlocks []).
Qed.

Lemma len_interleave (dataBlocks ecBlocks : list (list jsval))
  (blocks : list (Z * Z)) :
  map len dataBlocks = map fst blocks -> map len ecBlocks = map snd blocks ->
  len (interleave dataBlocks ecBlocks) = total_codewords blocks.
Proof.
  intros Hd He.
  rewrite (len_permutation _ _ (interleave_permutation_concat _ _)).
  rewrite len_app, !len_concat, Hd, He. reflexivity.
Qed.

Lemma len_bits_of (codewords : list jsval) :
  forallb is_byte codewords = true ->
  len (bits_of codewords) = 8 * len codewords.
Proof.
  induction codewords as [|w cw IH]; cbn [forallb]; intros H; [reflexivity|].
  apply andb_prop in H. destruct H as [Hw Hcw].
  destruct (is_byte_inv w Hw) as (z & -> & Hz).
  unfold bits_of in *. cbn [flat_map codeword_bits].
  rewrite len_app, len_cons, (IH Hcw).
  destruct (byte_conversion z Hz) as [-> _]. lia.
Qed.

Lemma rows_template_ok : forallb row_template_ok VERSION_TABLE = true.
Proof. vm_compute. reflexivity. Qed.

Lemma arr_get_Null_range (row : list jsval) (c : Z) :
  arr_get row c = Null -> 0 <= c < len row.
Proof.
  unfold arr_get, len. destruct (c <? 0) eqn:E; [discriminate|].
  apply Z.ltb_ge in E. intros H.
  destruct (Nat.lt_ge_cases (Z.to_nat c) (List.length row)) as [Hlt|Hge];
    [lia|].
  rewrite nth_overflow in H by exact Hge. discriminate.
Qed.

Lemma mget_Null_range (size : Z) (t : matrix) (r c : Z) :
  square size t -> mget t r c = Ok Null -> 0 <= r < size /\ 0 <= c < size.
Proof.
  intros [Hlen Hrows] H. pose proof (mget_Ok_inv _ _ _ _ H) as Hr.
  split; [lia|]. unfold mget in H.
  destruct (r <? 0); [discriminate|].
  destruct (nth_error t (Z.to_nat r)) as [row|] eqn:En; [|discriminate].
  injection H as H. apply arr_get_Null_range in H.
  rewrite Forall_forall in Hrows.
  rewrite (Hrows row (nth_error_In _ _ En)) in H. exact H.
Qed.

Lemma In_null_cells (t : matrix) (size r c : Z) :
  In (r, c) (null_cells t size)
  <-> 0 <= r < size /\ 0 <= c < size /\ mget t r c = Ok Null.
Proof.
  unfold null_cells. rewrite filter_In, in_prod_iff, !In_zrange.
  cbn [fst snd]. split.
  - intros ((Hr & Hc) & H). split; [exact Hr|]. split; [exact Hc|].
    destruct (mget t r c) as [[| |z]|]; try discriminate. reflexivity.
  - intros (Hr & Hc & ->). auto.
Qed.

Lemma NoDup_pairs {A B : Type} (l1 : list A) (l2 : list B) :
  NoDup l1 -> NoDup l2 -> NoDup (list_prod l1 l2).
Proof.
  intros H1 H2. induction H1 as [|x l1 Hx H1 IH]; cbn [list_prod];
    [constructor|].
  apply NoDup_app.
  - clear - H2. induction H2 as [|y l2 Hy H2 IH]; cbn [map]; constructor;
      [|exact IH].
    intros Hin. apply in_map_iff in Hin. destruct Hin as (y' & [= ->] & Hin).
    contradiction.
  - exact IH.
  - intros [a b] Hin Hin'. apply in_map_iff in Hin.
    destruct Hin as (y & [= <- <-] & _).
    apply in_prod_iff in Hin'. destruct Hin' as [Hin' _]. contradiction.
Qed.

Lemma NoDup_null_cells (t : matrix) (size : Z) : NoDup (null_cells t size).
Proof.
  unfold null_cells. apply NoDup_filter.
  apply NoDup_pairs; apply NoDup_zrange.
Qed.

(** [placeData] writes exactly the unset cells of the template. *)
Lemma written_null_cells (size : Z) (t : matrix) (st : place_state) :
  square size t -> place_inv t st ->
  (forall r c, 0 <= r < size -> 0 <= c < size -> covered t st r c) ->
  len (pl_written st) = len (null_cells t size).
Proof.
  intros Hsq (_ & Hnd & Hw & _ & _) Hcov. unfold len. f_equal.
  apply Nat.le_antisymm; apply NoDup_incl_length;
    try exact Hnd; try apply NoDup_null_cells.
  - intros [r c] Hin. apply In_null_cells.
    destruct (Hw r c Hin) as (_ & _ & Hnull & _).
    destruct (mget_Null_range size t r c Hsq Hnull) as [Hr Hc]. auto.
  - intros [r c] Hin. apply In_null_cells in Hin.
    destruct Hin as (Hr & Hc & Hnull).
    destruct (Hcov r c Hr Hc) as [H | (y & Hy & Hne)]; [exact H|].
    rewrite Hnull in Hy. injection Hy as <-. now destruct Hne.
Qed.

Lemma pickVersion_template (n : Z) :
  exists t,
    createMatrix (version (pickVersion n))
    = Ok (t, version (pickVersion n) * 4 + 17)
    /\ 8 * total_codewords (blocks (pickVersion n))
       <= len (null_cells t (version (pickVersion n) * 4 + 17))
    /\ forall w, In w (format_writes (version (pickVersion n) * 4 + 17)) ->
         exists x, mget t (fst (fst w)) (snd (fst w)) = Ok x /\ x <> Null.
Proof.
  destruct (pickVersion_bounds n) as (Hv & _).
  destruct (createMatrix_tabulated _ Hv) as (t & Ht & _).
  destruct (pickVersion_in_table n) as (row & Hin & E).
  rewrite E in *. destruct (row_info_fields row) as [Ev Eb].
  rewrite Ev, Eb in *.
  pose proof rows_template_ok as H. rewrite forallb_forall in H.
  specialize (H row Hin). unfold row_template_ok in H. rewrite Ht in H.
  apply andb_prop in H. destruct H as [H1 H2]. apply Z.leb_le in H1.
  exists t. split; [exact Ht|]. split; [exact H1|].
  intros w Hw. rewrite forallb_forall in H2. specialize (H2 w Hw).
  destruct (mget t (fst (fst w)) (snd (fst w))) as [x|]; [|discriminate].
  exists x. split; [reflexivity|]. intros ->. discriminate.
Qed.

(** ** Function patterns of the templates *)

Lemma templates_patterns_ok :
  forallb template_patterns_ok (zrange 1 11) = true.
Proof. vm_compute. reflexivity. Qed.

Lemma version_areas_unset : forallb version_area_unset (zrange 1 11) = true.
Proof. vm_compute. reflexivity. Qed.

Lemma timing_alignments_absent :
  forallb timing_alignment_absent (zrange 1 11) = true.
Proof. vm_compute. reflexivity. Qed.

Lemma cell_is_eq (t : matrix) (r c : Z) (v : jsval) :
  cell_is t r c v = true -> mget t r c = Ok v.
Proof.
  unfold cell_is. destruct (mget t r c) as [x|]; [|discriminate].
  intros H. now rewrite (jsval_eqb_eq _ _ H).
Qed.

Lemma no_format_eq (size r c : Z) :
  no_format size r c = true -> last_write (format_writes size) r c = None.
Proof.
  unfold no_format. destruct (last_write _ _ _); [discriminate|reflexivity].
Qed.

(** ** Rendering and the public entry point *)

Lemma foldM_total {A St : Type} (body : A -> St -> result St) (l : list A)
  (s : St) :
  (forall x s, In x l -> exists s', body x s = Ok s') ->
  exists s', foldM body l s = Ok s'.
Proof.
  revert s; induction l as [|x l IH]; intros s H; cbn [foldM]; [eauto|].
  destruct (H x s (or_introl eq_refl)) as (s1 & ->). cbn [bind].
  apply IH. intros y t Hy. apply H. now right.
Qed.

(** [qrToSvg] reads only rows that exist, so that it returns on every
    matrix. *)
Lemma qrToSvg_total (m : matrix) (moduleSize quietZone : Z) :
  exists svg, qrToSvg m moduleSize quietZone = Ok svg.
Proof.
  unfold qrToSvg. cbv zeta. unfold for_range.
  match goal with
  | |- context [foldM ?body (zrange 0 (len m)) []] =>
      destruct (foldM_total body (zrange 0 (len m)) []) as (paths & ->)
  end.
  - intros r s Hr. apply In_zrange in Hr.
    apply foldM_total. intros c p _.
    destruct (mget_Ok m r c Hr) as (x & ->). cbn [bind].
    destruct (strict_eq_num x 1); eexists; reflexivity.
  - cbn [bind]. eexists. reflexivity.
Qed.


Lemma latin1_ascii (s : jsstring) :
  forallb is_ascii s = true -> forallb is_latin1 s = true.
Proof.
  intros H. rewrite forallb_forall in *. intros c Hc. specialize (H c Hc).
  unfold is_ascii in H. apply andb_prop in H. destruct H as [H0 H1].
  apply Z.leb_le in H0. apply Z.ltb_lt in H1.
  unfold is_latin1, in_range. apply andb_true_intro.
  split; apply Z.leb_le; lia.
Qed.

(** From a URI to the data URI. *)
Lemma generateUpiQrCode_ok (params : UpiQrParams) (uri : jsstring) :
  buildUpiUri params = Ok uri -> payload_fits uri ->
  exists m svg,
    generateQrMatrix uri loaded_module = (Ok m, loaded_module)
    /\ qrToSvg m 4 4 = Ok svg
    /\ forall w, generateUpiQrCode w params loaded_module
                 = (Ok (lit "data:image/svg+xml;base64," ++ base64 svg),
                    loaded_module).
Proof.
  intros Huri Hfit.
  destruct (generateQrMatrix_run uri Hfit)
    as (d & e & pad & t & st & m & H). cbv zeta in H.
  destruct H as (_ & _ & _ & _ & _ & _ & _ & _ & _ & _ & _ & _ & Hm & _).
  destruct (qrToSvg_total m 4 4) as (svg & Hsvg).
  exists m, svg. split; [exact Hm|]. split; [exact Hsvg|].
  intros w. unfold generateUpiQrCode, bindM, liftM, retM.
  rewrite Huri, Hm, Hsvg.
  pose proof (qrToSvg_ascii m svg Hsvg) as Hascii.
  destruct w.
  - now rewrite (btoa_ascii svg Hascii).
  - unfold buffer_base64. now rewrite (utf8_bytes_ascii svg Hascii).
Qed.

(** The exceptions of [buildUpiUri] are those of [encodeURIComponent]. *)
Lemma encodeURIComponent_throws (s : jsstring) (e : exn) :
  encodeURIComponent s = Throw e -> e = URIError.
Proof.
  remember (List.length s) as n eqn:En.
  revert s e En. induction n as [n IH] using lt_wf_ind. intros s e En.
  destruct s as [|c rest]; [discriminate|]. cbn [encodeURIComponent].
  cbn [List.length] in En.
  assert (Hrest : forall e', encodeURIComponent rest = Throw e' -> e' = URIError).
  { intros e'. apply (IH (List.length rest)); [lia | reflexivity]. }
  destruct (uriUnescaped c).
  - destruct (encodeURIComponent rest) as [r|e'] eqn:Er; cbn [bind];
      [discriminate|]. intros [= <-]. now apply Hrest.
  - destruct (is_low_surrogate c); [now intros [= <-]|].
    destruct (is_high_surrogate c).
    + destruct rest as [|d rest']; [now intros [= <-]|].
      destruct (is_low_surrogate d); [|now intros [= <-]].
      destruct (encodeURIComponent rest') as [r|e'] eqn:Er; cbn [bind];
        [discriminate|]. intros [= <-].
      apply (IH (List.length rest')) with (s := rest');
        [cbn [List.length] in En; lia | reflexivity | exact Er].
    + destruct (encodeURIComponent rest) as [r|e'] eqn:Er; cbn [bind];
        [discriminate|]. intros [= <-]. now apply Hrest.
Qed.

Lemma bind_throws {A B : Type} (r : result A) (k : A -> result B) (e : exn) :
  bind r k = Throw e -> r = Throw e \/ exists a, r = Ok a /\ k a = Throw e.
Proof. destruct r as [a|e']; cbn [bind]; [eauto | intros [= <-]; auto]. Qed.

Lemma optional_field_throws (b : bool) (s : jsstring)
  (k : jsstring -> list jsstring) (parts : list jsstring) (e : exn) :
  (if b then x <- encodeURIComponent s ;; Ok (k x) else Ok parts) = Throw e ->
  e = URIError.
Proof.
  destruct b; [|discriminate]. intros H. apply bind_throws in H.
  destruct H as [H | (x & _ & H)]; [|discriminate].
  eapply encodeURIComponent_throws; eassumption.
Qed.

Lemma buildUpiUri_throws (params : UpiQrParams) (e : exn) :
  buildUpiUri params = Throw e -> e = URIError.
Proof.
  unfold buildUpiUri. intros H. apply bind_throws in H.
  destruct H as [H | (x & _ & H)]; [|discriminate].
  unfold buildUpiUri_parts in H. cbv zeta in H.
  apply bind_throws in H. destruct H as [H | (pa & _ & H)];
    [eapply encodeURIComponent_throws; eassumption|].
  apply bind_throws in H. destruct H as [H | (p1 & _ & H)];
    [exact (optional_field_throws _ _ _ _ _ H)|].
  apply bind_throws in H. destruct H as [H | (p2 & _ & H)];
    [exact (optional_field_throws _ _ _ _ _ H)|].
  apply bind_throws in H. destruct H as [H | (p3 & _ & H)];
    [exact (optional_field_throws _ _ _ _ _ H) | discriminate].
Qed.

(** ** A valid UPI id in a URI *)

Lemma encodeURIComponent_unescaped (s t : jsstring) :
  forallb uriUnescaped s = true ->
  encodeURIComponent (s ++ t) = (r <- encodeURIComponent t ;; Ok (s ++ r)).
Proof.
  induction s as [|c s IH]; cbn [forallb app]; intros H.
  - now destruct (encodeURIComponent t).
  - apply andb_prop in H. destruct H as [Hc Hs].
    cbn [encodeURIComponent]. rewrite Hc, (IH Hs).
    now destruct (encodeURIComponent t).
Qed.

Lemma encodeURIComponent_plain (s : jsstring) :
  forallb uriUnescaped s = true -> encodeURIComponent s = Ok s.
Proof.
  intros H. rewrite <- (app_nil_r s) at 1.
  rewrite (encodeURIComponent_unescaped s [] H). cbn [encodeURIComponent bind].
  now rewrite app_nil_r.
Qed.

Lemma encodeURIComponent_at (t : jsstring) :
  encodeURIComponent (64 :: t)
  = (r <- encodeURIComponent t ;; Ok (lit "%40" ++ r)).
Proof. reflexivity. Qed.

Lemma alnum_unescaped (c : Z) : is_alnum c = true -> uriUnescaped c = true.
Proof. intros H. unfold uriUnescaped. now rewrite H. Qed.

Lemma local_char_unescaped (c : Z) :
  is_local_char c = true -> uriUnescaped c = true.
Proof.
  unfold is_local_char, uriUnescaped. intros H.
  apply orb_prop in H. destruct H as [H|H]; [now rewrite H|].
  apply orb_true_iff. right. cbn [existsb] in *.
  repeat (apply orb_prop in H; destruct H as [H|H];
          [rewrite H; rewrite ?orb_true_r; reflexivity|]).
  discriminate.
Qed.

Lemma forallb_impl {A : Type} (p q : A -> bool) (l : list A) :
  (forall x, p x = true -> q x = true) ->
  forallb p l = true -> forallb q l = true.
Proof.
  intros Hpq H. rewrite forallb_forall in *. auto.
Qed.

(** The percent-encoding of a well-shaped id escapes the [@] and nothing
    else. *)
Lemma encodeURIComponent_upi_shape (s : jsstring) :
  upi_shape s ->
  exists local handle,
    s = local ++ [64] ++ handle
    /\ forallb is_local_char local = true
    /\ forallb is_alnum handle = true
    /\ 1 <= len local <= 50 /\ 1 <= len handle <= 50
    /\ encodeURIComponent s = Ok (local ++ lit "%40" ++ handle).
Proof.
  intros (c0 & l & h0 & h & -> & Hc0 & Hl & Hlc & Hh0 & Hh & Hhc).
  exists (c0 :: l), (h0 :: h).
  assert (Hlocal : forallb is_local_char (c0 :: l) = true).
  { cbn [forallb]. rewrite Hlc, andb_true_r. unfold is_local_char.
    now rewrite Hc0. }
  assert (Hhandle : forallb is_alnum (h0 :: h) = true).
  { cbn [forallb]. rewrite Hhc, andb_true_r. unfold is_alnum.
    now rewrite Hh0. }
  split; [reflexivity|]. split; [exact Hlocal|]. split; [exact Hhandle|].
  split; [rewrite len_cons; unfold len; lia|].
  split; [rewrite len_cons; unfold len; lia|].
  rewrite encodeURIComponent_unescaped
    by (eapply forallb_impl; [apply local_char_unescaped | exact Hlocal]).
  change ([64] ++ h0 :: h) with (64 :: (h0 :: h)).
  rewrite encodeURIComponent_at.
  rewrite (encodeURIComponent_plain (h0 :: h))
    by (eapply forallb_impl; [apply alnum_unescaped | exact Hhandle]).
  reflexivity.
Qed.

Lemma validateUpiId_valid_shape (s : jsstring) :
  valid (validateUpiId s) = true -> upi_shape (trim s).
Proof.
  rewrite validateUpiId_unfold.
  destruct (is_nil (trim s)); [discriminate|].
  destruct (negb (atCount (trim s) =? 1)); [discriminate|].
  destruct (regex_test upi_regex (trim s)) eqn:E; [|discriminate].
  intros _. now apply regex_test_upi.
Qed.

Lemma local_char_ascii (c : Z) : is_local_char c = true -> is_ascii c = true.
Proof.
  intros H. apply local_char_unescaped in H.
  unfold uriUnescaped, is_alnum, is_alpha, is_upper, is_lower, is_digit,
    in_range in H. cbn [existsb] in H.
  unfold is_ascii. apply andb_true_intro.
  repeat match type of H with
         | (_ || _) = true => apply orb_prop in H; destruct H as [H|H]
         | (_ && _) = true => apply andb_prop in H; destruct H as [? H]
         end;
    repeat match goal with
           | Hq : (_ <=? _) = true |- _ => apply Z.leb_le in Hq
           | Hq : (_ =? _) = true |- _ => apply Z.eqb_eq in Hq
           end;
    try discriminate; split; try apply Z.leb_le; try apply Z.ltb_lt; lia.
Qed.

Lemma alnum_ascii (c : Z) : is_alnum c = true -> is_ascii c = true.
Proof.
  intros H. apply local_char_ascii. unfold is_local_char. now rewrite H.
Qed.

(** ** The payment form *)

Lemma upiValidResult_valid (f : upi_form) :
  valid (upiValidResult f) = true ->
  form_method_upi f = true /\ valid (validateUpiId (form_upiId f)) = true.
Proof.
  unfold upiValidResult.
  destruct (form_method_upi f); cbn [negb orb]; [|discriminate].
  destruct (is_nil (form_upiId f)); [discriminate|]. auto.
Qed.

Lemma latin1_app (a b : jsstring) :
  forallb is_latin1 a = true -> forallb is_latin1 b = true ->
  forallb is_latin1 (a ++ b) = true.
Proof. intros Ha Hb. now rewrite forallb_app, Ha, Hb. Qed.

Ltac latin1_pieces :=
  repeat match goal with
         | |- forallb is_latin1 (_ ++ _) = true => apply latin1_app
         | |- forallb is_latin1 _ = true => assumption || reflexivity
         end.

Ltac len_lits :=
  repeat match goal with
         | |- context [len (lit ?s)] =>
             let v := eval vm_compute in (len (lit s)) in
             change (len (lit s)) with v
         | H : context [len (lit ?s)] |- _ =>
             let v := eval vm_compute in (len (lit s)) in
             change (len (lit s)) with v in H
         end.

(** The text the form puts after [pa=], [pn=] and so on, for a valid id. *)
Lemma form_qr_uri (f : upi_form) :
  valid (upiValidResult f) = true ->
  exists local handle,
    trim (form_upiId f) = local ++ [64] ++ handle
    /\ forallb is_local_char local = true
    /\ forallb is_alnum handle = true
    /\ 1 <= len local <= 50 /\ 1 <= len handle <= 50
    /\ buildUpiUri (form_qr_params f)
       = Ok (lit "upi://pay?pa=" ++ local ++ lit "%40" ++ handle
               ++ lit "&pn=Pay%20Simul%20Test"
               ++ match amount_text (form_qr_params f) with
                  | Some a => lit "&am=" ++ a
                  | None => []
                  end
               ++ lit "&cu=INR&tn=Payment%20Simulation").
Proof.
  intros Hv. apply upiValidResult_valid in Hv. destruct Hv as [_ Hv].
  apply validateUpiId_valid_shape in Hv.
  destruct (encodeURIComponent_upi_shape _ Hv)
    as (local & handle & Hs & Hl & Hh & Hll & Hlh & Henc).
  exists local, handle.
  split; [exact Hs|]. split; [exact Hl|]. split; [exact Hh|].
  split; [exact Hll|]. split; [exact Hlh|].
  unfold buildUpiUri, buildUpiUri_parts, amount_text, form_qr_params.
  cbn [vpa payeeName amount currency note mcc txnRefId].
  rewrite Henc. cbn [bind truthy lit]. unfold form_amount_param.
  destruct (positive_amount (form_amount f)) eqn:Ep.
  - rewrite Ep. cbn. rewrite <- !app_assoc. reflexivity.
  - cbn. rewrite <- !app_assoc. reflexivity.
Qed.

Lemma form_qr_uri_fits (f : upi_form) (uri : jsstring) :
  valid (upiValidResult f) = true ->
  (forall a, amount_text (form_qr_params f) = Some a ->
             forallb is_latin1 a = true /\ len a <= 39) ->
  buildUpiUri (form_qr_params f) = Ok uri ->
  payload_fits uri.
Proof.
  intros Hv Ham Huri.
  destruct (form_qr_uri f Hv)
    as (local & handle & _ & Hl & Hh & Hll & Hlh & Hb).
  assert (Euri : uri = lit "upi://pay?pa=" ++ local ++ lit "%40" ++ handle
               ++ lit "&pn=Pay%20Simul%20Test"
               ++ match amount_text (form_qr_params f) with
                  | Some a => lit "&am=" ++ a
                  | None => []
                  end
               ++ lit "&cu=INR&tn=Payment%20Simulation") by congruence.
  clear Hb Huri. subst uri.
  assert (Hla : forallb is_latin1 local = true).
  { apply latin1_ascii.
    eapply forallb_impl; [apply local_char_ascii | exact Hl]. }
  assert (Hha : forallb is_latin1 handle = true).
  { apply latin1_ascii.
    eapply forallb_impl; [apply alnum_ascii | exact Hh]. }
  destruct (amount_text (form_qr_params f)) as [a|] eqn:Ea.
  - destruct (Ham a eq_refl) as [Ha Hn].
    apply (fun H => proj2 (payload_fits_latin1 _ H)); [latin1_pieces|].
    rewrite !len_app. len_lits. lia.
  - apply (fun H => proj2 (payload_fits_latin1 _ H)); [latin1_pieces|].
    rewrite !len_app. len_lits. change (len (@nil Z)) with 0. lia.
Qed.

(** For a valid id the form shows a QR code: the [catch] branch is not
    taken. *)
Lemma upiQrDataUri_valid (w : bool) (f : upi_form) :
  valid (upiValidResult f) = true ->
  (forall a, amount_text (form_qr_params f) = Some a ->
             forallb is_latin1 a = true /\ len a <= 39) ->
  exists svg,
    upiQrDataUri w f loaded_module
    = (Ok (Some (lit "data:image/svg+xml;base64," ++ base64 svg)),
       loaded_module).
Proof.
  intros Hv Ham.
  destruct (form_qr_uri f Hv) as (local & handle & _ & _ & _ & _ & _ & Hb).
  pose proof (form_qr_uri_fits f _ Hv Ham Hb) as Hfit.
  destruct (generateUpiQrCode_ok _ _ Hb Hfit) as (m & svg & _ & _ & Hgen).
  exists svg. unfold upiQrDataUri. rewrite Hv.
  destruct (upiValidResult_valid f Hv) as [-> _]. cbn [negb orb].
  unfold catch_null. now rewrite (Hgen w).
Qed.

Lemma upiQrDataUri_invalid (w : bool) (f : upi_form) (st : module_state) :
  valid (upiValidResult f) = false ->
  upiQrDataUri w f st = (Ok None, st).
Proof.
  intros Hv. unfold upiQrDataUri. rewrite Hv, orb_true_r. reflexivity.
Qed.

(** ** The alphabet of a percent-encoded value *)

Lemma lor_byte (a b : Z) :
  0 <= a <= 255 -> 0 <= b <= 255 -> 0 <= Z.lor a b <= 255.
Proof.
  intros Ha Hb.
  assert (H0 : 0 <= Z.lor a b) by (apply Z.lor_nonneg; lia).
  split; [exact H0|].
  destruct (Z.eq_dec (Z.lor a b) 0) as [->|Hne]; [lia|].
  assert (Hlt : Z.lor a b < 2 ^ 8); [|lia].
  apply Z.log2_lt_pow2; [lia|].
  rewrite Z.log2_lor by lia.
  apply Z.max_lub_lt.
  - destruct (Z.eq_dec a 0) as [->|]; [cbn; lia|].
    apply Z.log2_lt_pow2; lia.
  - destruct (Z.eq_dec b 0) as [->|]; [cbn; lia|].
    apply Z.log2_lt_pow2; lia.
Qed.

Lemma land_63 (a : Z) : 0 <= Z.land a 63 <= 63.
Proof.
  change 63 with (Z.ones 6). rewrite Z.land_ones by lia.
  pose proof (Z.mod_pos_bound a (2 ^ 6) ltac:(lia)). change (2 ^ 6) with 64 in *.
  change (Z.ones 6) with 63. lia.
Qed.

Lemma shiftr_bound (a n k : Z) :
  0 <= n -> 0 <= a < k * 2 ^ n -> 0 <= Z.shiftr a n < k.
Proof.
  intros Hn Ha. rewrite Z.shiftr_div_pow2 by lia.
  assert (Hp : 0 < 2 ^ n) by (apply Z.pow_pos_nonneg; lia).
  split; [apply Z.div_pos; lia|].
  apply Z.div_lt_upper_bound; lia.
Qed.

Lemma utf8_octets (cp : Z) :
  0 <= cp < 1114112 -> Forall (fun o => 0 <= o <= 255) (utf8 cp).
Proof.
  intros Hcp. unfold utf8.
  destruct (cp <? 128) eqn:E1; [apply Z.ltb_lt in E1; repeat constructor; lia|].
  destruct (cp <? 2048) eqn:E2.
  { apply Z.ltb_lt in E2.
    pose proof (shiftr_bound cp 6 32 ltac:(lia) ltac:(lia)).
    pose proof (land_63 cp).
    repeat constructor; apply lor_byte; lia. }
  destruct (cp <? 65536) eqn:E3.
  { apply Z.ltb_lt in E3.
    pose proof (shiftr_bound cp 12 16 ltac:(lia) ltac:(lia)).
    pose proof (land_63 (Z.shiftr cp 6)). pose proof (land_63 cp).
    repeat constructor; apply lor_byte; lia. }
  pose proof (shiftr_bound cp 18 8 ltac:(lia) ltac:(lia)).
  pose proof (land_63 (Z.shiftr cp 12)).
  pose proof (land_63 (Z.shiftr cp 6)). pose proof (land_63 cp).
  repeat constructor; apply lor_byte; lia.
Qed.

Lemma hex_digit_unescaped (n : Z) :
  0 <= n <= 15 -> uriUnescaped (hex_digit n) = true.
Proof.
  intros Hn.
  assert (H : In n (zrange 0 16)) by (apply In_zrange; lia).
  vm_compute in H. repeat (destruct H as [<-|H]; [reflexivity|]). destruct H.
Qed.

Lemma pct_uri_chars (o : Z) :
  0 <= o <= 255 -> forallb is_uri_char (pct o) = true.
Proof.
  intros Ho. unfold pct. cbn [forallb].
  assert (H1 : 0 <= o / 16 < 16)
    by (split; [apply Z.div_pos; lia | apply Z.div_lt_upper_bound; lia]).
  pose proof (Z.mod_pos_bound o 16 ltac:(lia)) as H2.
  unfold is_uri_char at 2 3.
  rewrite !hex_digit_unescaped by lia. reflexivity.
Qed.

Lemma pct_octets_uri_chars (os : list Z) :
  Forall (fun o => 0 <= o <= 255) os ->
  forallb is_uri_char (pct_octets os) = true.
Proof.
  intros H. unfold pct_octets. induction H as [|o os Ho _ IH];
    cbn [flat_map]; [reflexivity|].
  now rewrite forallb_app, pct_uri_chars, IH.
Qed.

(** Whatever [encodeURIComponent] returns consists of unescaped characters
    and of [%] followed by hexadecimal digits. *)
Lemma encodeURIComponent_uri_chars (s r : jsstring) :
  wf_string s = true -> encodeURIComponent s = Ok r ->
  forallb is_uri_char r = true.
Proof.
  unfold wf_string.
  remember (List.length s) as n eqn:En.
  revert s r En. induction n as [n IH] using lt_wf_ind. intros s r En Hwf.
  destruct s as [|c rest]; [intros [= <-]; reflexivity|].
  cbn [encodeURIComponent forallb List.length] in *.
  apply andb_prop in Hwf. destruct Hwf as [Hc Hrest].
  apply in_range_bounds in Hc.
  assert (Hrec : forall r', encodeURIComponent rest = Ok r' ->
                            forallb is_uri_char r' = true).
  { intros r'. apply (IH (List.length rest)); [lia | reflexivity | exact Hrest]. }
  destruct (uriUnescaped c) eqn:Eu.
  - destruct (encodeURIComponent rest) as [r'|]; [|discriminate].
    cbn [bind]. intros [= <-]. cbn [forallb]. unfold is_uri_char at 1.
    rewrite Eu. cbn [orb andb]. now apply Hrec.
  - destruct (is_low_surrogate c); [discriminate|].
    destruct (is_high_surrogate c) eqn:Eh.
    + destruct rest as [|d rest']; [discriminate|].
      destruct (is_low_surrogate d) eqn:El; [|discriminate].
      cbn [forallb] in Hrest. apply andb_prop in Hrest.
      destruct Hrest as [Hd Hrest'].
      destruct (encodeURIComponent rest') as [r'|] eqn:Er; [|discriminate].
      cbn [bind]. intros [= <-]. rewrite forallb_app.
      apply in_range_bounds in Hd, Eh, El.
      rewrite pct_octets_uri_chars
        by (apply utf8_octets; unfold surrogate_pair; lia).
      apply (IH (List.length rest')) with (s := rest');
        [cbn [List.length] in En; lia | reflexivity | exact Hrest' | exact Er].
    + destruct (encodeURIComponent rest) as [r'|]; [|discriminate].
      cbn [bind]. intros [= <-]. rewrite forallb_app.
      rewrite pct_octets_uri_chars by (apply utf8_octets; lia).
      now apply Hrec.
Qed.

Lemma unescaped_ascii (c : Z) : uriUnescaped c = true -> is_ascii c = true.
Proof.
  intros H.
  unfold uriUnescaped, is_alnum, is_alpha, is_upper, is_lower, is_digit,
    in_range in H. cbn [existsb] in H.
  unfold is_ascii. apply andb_true_intro.
  repeat match type of H with
         | (_ || _) = true => apply orb_prop in H; destruct H as [H|H]
         | (_ && _) = true => apply andb_prop in H; destruct H as [? H]
         end;
    repeat match goal with
           | Hq : (_ <=? _) = true |- _ => apply Z.leb_le in Hq
           | Hq : (_ =? _) = true |- _ => apply Z.eqb_eq in Hq
           end;
    try discriminate; split; try apply Z.leb_le; try apply Z.ltb_lt; lia.
Qed.

Lemma uri_char_ascii (c : Z) : is_uri_char c = true -> is_ascii c = true.
Proof.
  unfold is_uri_char. intros H. apply orb_prop in H.
  destruct H as [H|H]; [now apply unescaped_ascii|].
  apply Z.eqb_eq in H. now subst.
Qed.

Lemma join_ascii (sep : jsstring) (parts : list jsstring) :
  forallb is_ascii sep = true ->
  (forall p, In p parts -> forallb is_ascii p = true) ->
  forallb is_ascii (join sep parts) = true.
Proof.
  intros Hsep. induction parts as [|p parts IH]; intros Hp; [reflexivity|].
  destruct parts as [|q parts]; cbn [join].
  - apply Hp. now left.
  - rewrite !forallb_app, Hsep, (Hp p (or_introl eq_refl)).
    cbn [andb]. apply IH. intros x Hx. apply Hp. now right.
Qed.

(** With ASCII text in the fields it copies, [buildUpiUri] returns ASCII
    text. *)
Lemma buildUpiUri_ascii_text (params : UpiQrParams) (uri : jsstring) :
  wf_text_fields params -> ascii_raw_fields params ->
  buildUpiUri params = Ok uri -> forallb is_ascii uri = true.
Proof.
  intros (Wpa & Wpn & Wtn & Wtr) (Acu & Amc & Aam) H.
  unfold buildUpiUri in H.
  destruct (buildUpiUri_parts params) as [parts|] eqn:Ep; [|discriminate].
  cbn [bind] in H. injection H as <-.
  destruct (buildUpiUri_parts_shape params parts Ep)
    as (epa & epn & etn & etr & Hpa & Hpn & Htn & Htr & ->).
  assert (Henc : forall s r, wf_string s = true -> encodeURIComponent s = Ok r ->
                             forallb is_ascii r = true).
  { intros s r Hs Hr. eapply forallb_impl; [apply uri_char_ascii|].
    eapply encodeURIComponent_uri_chars; eauto. }
  apply join_ascii; [reflexivity|].
  intros p Hin.
  repeat (apply in_app_or in Hin; destruct Hin as [Hin|Hin]).
  - destruct Hin as [<-|[]]. rewrite forallb_app. cbn -[is_ascii lit].
    rewrite (Henc _ _ Wpa Hpa). reflexivity.
  - apply In_opt_part in Hin. destruct Hin as [Ht ->].
    rewrite forallb_app, (Henc _ _ Wpn (Hpn Ht)). reflexivity.
  - destruct (amount_text params) as [a|]; [|destruct Hin].
    destruct Hin as [<-|[]]. rewrite forallb_app, (Aam a eq_refl). reflexivity.
  - destruct Hin as [<-|[]]. rewrite forallb_app, Acu. reflexivity.
  - apply In_opt_part in Hin. destruct Hin as [Ht ->].
    rewrite forallb_app, (Henc _ _ Wtn (Htn Ht)). reflexivity.
  - apply In_opt_part in Hin. destruct Hin as [Ht ->].
    rewrite forallb_app, Amc. reflexivity.
  - apply In_opt_part in Hin. destruct Hin as [Ht ->].
    rewrite forallb_app, (Henc _ _ Wtr (Htr Ht)). reflexivity.
Qed.

(** * Further properties of the encoder *)

(** X1.  [encodeDataByte] throws, and then a RangeError, exactly when the
    mode, count and character bits of the text exceed the capacity of the
    block list: the terminator length is negative then, and [repeat]
    rejects it. *)
Theorem encodeDataByte_capacity (data : jsstring) (version : Z)
  (blocks : list (Z * Z)) :
  (forall b, In b blocks -> 0 <= fst b /\ 0 <= snd b <= 255) ->
  (sum_dcw blocks * 8 < len (payload_bits data version) ->
   encodeDataByte data version blocks loaded_module
   = (Throw RangeError, loaded_module))
  /\ (len (payload_bits data version) <= sum_dcw blocks * 8 ->
      exists r, encodeDataByte data version blocks loaded_module
                = (Ok r, loaded_module)).
Proof.
  intros Hb. split.
  - apply encodeDataByte_throws.
  - intros Hfit.
    destruct (encodeDataByte_ok data version blocks Hb Hfit)
      as (d & e & _ & H & _). eauto.
Qed.

Lemma encodeDataByte_capacity_witness :
  (sum_dcw [(16, 10)] * 8 < len (payload_bits sample_uri 1) ->
   encodeDataByte sample_uri 1 [(16, 10)] loaded_module
   = (Throw RangeError, loaded_module))
  /\ (len (payload_bits sample_uri 1) <= sum_dcw [(16, 10)] * 8 ->
      exists r, encodeDataByte sample_uri 1 [(16, 10)] loaded_module
                = (Ok r, loaded_module)).
Proof.
  apply (encodeDataByte_capacity sample_uri 1 [(16, 10)]).
  intros b [<-|[]]. cbn. lia.
Defined.

(** X2.  Within capacity [encodeDataByte] returns one data block and one
    error-correction block per entry of the block list, with the lengths the
    entry gives, all of bytes; the data blocks, read in order, spell the
    mode, count and character bits, followed by terminator and padding. *)
Theorem encodeDataByte_blocks (data : jsstring) (version : Z)
  (blocks : list (Z * Z)) :
  (forall b, In b blocks -> 0 <= fst b /\ 0 <= snd b <= 255) ->
  len (payload_bits data version) <= sum_dcw blocks * 8 ->
  exists dataBlocks ecBlocks pad,
    encodeDataByte data version blocks loaded_module
    = (Ok (dataBlocks, ecBlocks), loaded_module)
    /\ bits_of (List.concat dataBlocks) = payload_bits data version ++ pad
    /\ len (List.concat dataBlocks) = sum_dcw blocks
    /\ map len dataBlocks = map fst blocks
    /\ map len ecBlocks = map snd blocks
    /\ forallb (forallb is_byte) dataBlocks = true
    /\ forallb (forallb is_byte) ecBlocks = true.
Proof. exact (encodeDataByte_ok data version blocks). Qed.

Lemma encodeDataByte_blocks_witness :
  exists dataBlocks ecBlocks pad,
    encodeDataByte (lit "a@b") 1 [(16, 10)] loaded_module
    = (Ok (dataBlocks, ecBlocks), loaded_module)
    /\ bits_of (List.concat dataBlocks) = payload_bits (lit "a@b") 1 ++ pad
    /\ len (List.concat dataBlocks) = sum_dcw [(16, 10)]
    /\ map len dataBlocks = map fst [(16, 10)]
    /\ map len ecBlocks = map snd [(16, 10)]
    /\ forallb (forallb is_byte) dataBlocks = true
    /\ forallb (forallb is_byte) ecBlocks = true.
Proof.
  apply (encodeDataByte_blocks (lit "a@b") 1 [(16, 10)]).
  - intros b [<-|[]]. cbn. lia.
  - vm_compute. discriminate.
Defined.

(** X3.  Round trip of the byte-mode segment: for a text of Latin-1
    characters, at most 255 of them, that fits the block list, reading the
    data codewords back (skip the mode, read the count, then one character
    per 8 bits) gives the text again. *)
Theorem encodeDataByte_round_trip (data : jsstring) (version : Z)
  (blocks : list (Z * Z)) :
  (forall b, In b blocks -> 0 <= fst b /\ 0 <= snd b <= 255) ->
  len (payload_bits data version) <= sum_dcw blocks * 8 ->
  forallb is_latin1 data = true -> len data <= 255 ->
  exists dataBlocks ecBlocks,
    encodeDataByte data version blocks loaded_module
    = (Ok (dataBlocks, ecBlocks), loaded_module)
    /\ decode_payload version (List.concat dataBlocks) = data.
Proof.
  intros Hb Hfit Hd Hn.
  destruct (encodeDataByte_ok data version blocks Hb Hfit)
    as (d & e & pad & H & Hbits & _).
  exists d, e. split; [exact H|].
  exact (decode_payload_bits data version _ pad Hd Hn Hbits).
Qed.

Lemma encodeDataByte_round_trip_witness :
  exists dataBlocks ecBlocks,
    encodeDataByte (lit "a@b") 1 [(16, 10)] loaded_module
    = (Ok (dataBlocks, ecBlocks), loaded_module)
    /\ decode_payload 1 (List.concat dataBlocks) = lit "a@b".
Proof.
  apply (encodeDataByte_round_trip (lit "a@b") 1 [(16, 10)]).
  - intros b [<-|[]]. cbn. lia.
  - vm_compute. discriminate.
  - reflexivity.
  - vm_compute. discriminate.
Defined.

(** X4.  [interleave] loses and duplicates nothing: its result is a
    rearrangement of the codewords of the data blocks followed by those of
    the error-correction blocks, whatever the block lengths. *)
Theorem interleave_is_permutation (dataBlocks ecBlocks : list (list jsval)) :
  Permutation (interleave dataBlocks ecBlocks)
    (List.concat dataBlocks ++ List.concat ecBlocks)
  /\ len (interleave dataBlocks ecBlocks)
     = len (List.concat dataBlocks) + len (List.concat ecBlocks).
Proof.
  split; [apply interleave_permutation_concat|].
  rewrite (len_permutation _ _ (interleave_permutation_concat _ _)).
  apply len_app.
Qed.

(** X5.  The order [interleave] produces: all data codewords come before
    all error-correction codewords, and within each part the codewords are
    taken round by round, round [i] taking the [i]-th codeword of every
    block that has one, in block order. *)
Theorem interleave_by_columns (dataBlocks ecBlocks : list (list jsval)) :
  interleave dataBlocks ecBlocks
  = flat_map (fun i => column i dataBlocks) (zrange 0 (max_len dataBlocks))
    ++ flat_map (fun i => column i ecBlocks) (zrange 0 (max_len ecBlocks)).
Proof.
  unfold interleave. rewrite !interleave_pass_columns. reflexivity.
Qed.

(** X6.  [placeData] on the template of a tabulated version and a stream
    of bytes: it returns, it writes every unset cell of the template, and
    the cells carry the bits of the stream in the order they were written,
    the [k]-th written cell holding bit [k] (0 once the stream is
    exhausted). *)
Theorem placeData_stream_order (v : Z) (codewords : list jsval) :
  1 <= v <= 10 -> forallb is_byte codewords = true ->
  exists t st,
    createMatrix v = Ok (t, v * 4 + 17)
    /\ placeData_run t (v * 4 + 17) codewords = Ok st
    /\ placeData t (v * 4 + 17) codewords = Ok (pl_matrix st)
    /\ len (pl_written st) = len (null_cells t (v * 4 + 17))
    /\ (forall r c, In (r, c) (pl_written st)
                    <-> In (r, c) (null_cells t (v * 4 + 17)))
    /\ forall (k : nat) (r c : Z),
         nth_error (rev (pl_written st)) k = Some (r, c) ->
         mget (pl_matrix st) r c
         = Ok (bit_at (bits_of codewords) (Z.of_nat k)).
Proof.
  intros Hv Hcw.
  destruct (placeData_run_ok v codewords Hv Hcw)
    as (t & st & Ht & Hsq & Hrun & _ & Hinv & Hord & Hcov).
  exists t, st. split; [exact Ht|]. split; [exact Hrun|].
  split; [unfold placeData; now rewrite Hrun|].
  assert (Hcov' : forall r c, 0 <= r < v * 4 + 17 -> 0 <= c < v * 4 + 17 ->
                              covered t st r c)
    by (intros r c Hr Hc; apply (Hcov r c Hr Hc)).
  split; [exact (written_null_cells _ t st Hsq Hinv Hcov')|].
  split; [|exact Hord].
  intros r c. rewrite In_null_cells. split.
  - intros Hin. destruct Hinv as (_ & _ & Hw & _).
    destruct (Hw r c Hin) as (_ & _ & Hnull & _).
    destruct (mget_Null_range _ t r c Hsq Hnull) as [Hr Hc]. auto.
  - intros (Hr & Hc & Hnull).
    destruct (Hcov' r c Hr Hc) as [H | (y & Hy & Hne)]; [exact H|].
    rewrite Hnull in Hy. injection Hy as <-. now destruct Hne.
Qed.

Lemma placeData_stream_order_witness :
  exists t st,
    createMatrix 1 = Ok (t, 1 * 4 + 17)
    /\ placeData_run t (1 * 4 + 17) (map Num [64; 20; 134]) = Ok st
    /\ placeData t (1 * 4 + 17) (map Num [64; 20; 134]) = Ok (pl_matrix st)
    /\ len (pl_written st) = len (null_cells t (1 * 4 + 17))
    /\ (forall r c, In (r, c) (pl_written st)
                    <-> In (r, c) (null_cells t (1 * 4 + 17)))
    /\ forall (k : nat) (r c : Z),
         nth_error (rev (pl_written st)) k = Some (r, c) ->
         mget (pl_matrix st) r c
         = Ok (bit_at (bits_of (map Num [64; 20; 134])) (Z.of_nat k)).
Proof.
  apply (placeData_stream_order 1 (map Num [64; 20; 134]));
    [lia | reflexivity].
Defined.

(** X7.  [applyMask] on a matrix with the row count of a tabulated version:
    it returns a square matrix of the same size, in which a cell that one of
    the four format loops writes holds the bit the last such write gave it,
    and any other cell holds the input value (0 for an unset one), flipped
    exactly when the template of the version has the cell unset and
    [(r + c) % 2 === 0]. *)
Theorem applyMask_cell_values (v : Z) (m : matrix) :
  1 <= v <= 10 -> len m = v * 4 + 17 ->
  exists t res,
    createMatrix v = Ok (t, v * 4 + 17)
    /\ applyMask m (v * 4 + 17) = Ok res
    /\ square (v * 4 + 17) res
    /\ forall r c, 0 <= r < v * 4 + 17 -> 0 <= c < v * 4 + 17 ->
         exists x tv,
           mget m r c = Ok x /\ mget t r c = Ok tv
           /\ mget res r c
              = match last_write (format_writes (v * 4 + 17)) r c with
                | Some fv => Ok fv
                | None =>
                    Ok (if is_null tv && maskFn r c
                        then js_xor (nullish_or x (Num 0)) (Num 1)
                        else nullish_or x (Num 0))
                end.
Proof. exact (applyMask_cells v m). Qed.

Lemma applyMask_cell_values_witness :
  exists t res,
    createMatrix 1 = Ok (t, 1 * 4 + 17)
    /\ applyMask (new_matrix 21 (Num 1)) (1 * 4 + 17) = Ok res
    /\ square (1 * 4 + 17) res
    /\ forall r c, 0 <= r < 1 * 4 + 17 -> 0 <= c < 1 * 4 + 17 ->
         exists x tv,
           mget (new_matrix 21 (Num 1)) r c = Ok x /\ mget t r c = Ok tv
           /\ mget res r c
              = match last_write (format_writes (1 * 4 + 17)) r c with
                | Some fv => Ok fv
                | None =>
                    Ok (if is_null tv && maskFn r c
                        then js_xor (nullish_or x (Num 0)) (Num 1)
                        else nullish_or x (Num 0))
                end.
Proof.
  apply (applyMask_cell_values 1 (new_matrix 21 (Num 1)));
    [lia | reflexivity].
Defined.

(** X8.  When the text fits the version [pickVersion] selects for its
    length, [generateQrMatrix] returns without touching the tables: the
    result is a square matrix of side [version * 4 + 17] in which every
    cell holds 0 or 1, so that no cell is left [null] or [undefined]. *)
Theorem generateQrMatrix_returns (data : jsstring) :
  payload_fits data ->
  exists m,
    generateQrMatrix data loaded_module = (Ok m, loaded_module)
    /\ square (version (pickVersion (len data)) * 4 + 17) m
    /\ forall r c,
         0 <= r < version (pickVersion (len data)) * 4 + 17 ->
         0 <= c < version (pickVersion (len data)) * 4 + 17 ->
         mget m r c = Ok (Num 0) \/ mget m r c = Ok (Num 1).
Proof.
  intros Hfit.
  destruct (generateQrMatrix_run data Hfit)
    as (d & e & pad & t & st & m & H). cbv zeta in H.
  destruct H as (_ & _ & _ & _ & _ & _ & _ & _ & _ & Hinv & _ & Hcov
                 & Hm & Hsq & Hcells).
  exists m. split; [exact Hm|]. split; [exact Hsq|].
  intros r c Hr Hc.
  destruct (Hcells r c Hr Hc) as (x & tv & Hx & Htv & Hmod & ->).
  destruct (last_write _ r c) as [fv|] eqn:Ef.
  { destruct (format_writes_bits _ _ _ _ Ef) as [-> | ->]; auto. }
  destruct (final_cell_bit t st r c x tv Hinv (Hcov r c Hr Hc) Hx Htv Hmod)
    as [Hnull Hfixed].
  destruct tv as [| |z].
  - destruct Hmod as [Hmod|Hmod]; discriminate Hmod.
  - destruct (Hnull eq_refl) as (_ & [-> | ->]);
      cbn [is_null andb nullish_or]; destruct (maskFn r c); auto.
  - rewrite (Hfixed ltac:(discriminate)). cbn [is_null andb nullish_or].
    destruct Hmod as [Hmod|Hmod]; [discriminate|].
    cbn [is_module] in Hmod. apply orb_prop in Hmod.
    destruct Hmod as [Hz|Hz]; apply Z.eqb_eq in Hz; subst z; auto.
Qed.

Lemma generateQrMatrix_returns_witness :
  exists m,
    generateQrMatrix sample_uri loaded_module = (Ok m, loaded_module)
    /\ square (version (pickVersion (len sample_uri)) * 4 + 17) m
    /\ forall r c,
         0 <= r < version (pickVersion (len sample_uri)) * 4 + 17 ->
         0 <= c < version (pickVersion (len sample_uri)) * 4 + 17 ->
         mget m r c = Ok (Num 0) \/ mget m r c = Ok (Num 1).
Proof.
  apply (generateQrMatrix_returns sample_uri).
  unfold payload_fits. vm_compute. discriminate.
Defined.

(** X9.  The length limit of [generateQrMatrix]: a text of Latin-1
    characters is encoded exactly when it has at most 212 of them; from 213
    on the call throws a RangeError. *)
Theorem generateQrMatrix_latin1_limit (data : jsstring) :
  forallb is_latin1 data = true ->
  (len data <= 212 ->
   exists m, generateQrMatrix data loaded_module = (Ok m, loaded_module))
  /\ (212 < len data ->
      generateQrMatrix data loaded_module = (Throw RangeError, loaded_module)).
Proof.
  intros Hd. split.
  - intros Hn. apply (payload_fits_latin1 data Hd) in Hn.
    destruct (generateQrMatrix_run data Hn)
      as (d & e & pad & t & st & m & H). cbv zeta in H.
    destruct H as (_ & _ & _ & _ & _ & _ & _ & _ & _ & _ & _ & _ & Hm & _).
    eauto.
  - intros Hn. apply generateQrMatrix_no_fit.
    rewrite (payload_fits_latin1 data Hd). lia.
Qed.

Lemma generateQrMatrix_latin1_limit_witness :
  (len sample_uri <= 212 ->
   exists m, generateQrMatrix sample_uri loaded_module = (Ok m, loaded_module))
  /\ (212 < len sample_uri ->
      generateQrMatrix sample_uri loaded_module
      = (Throw RangeError, loaded_module)).
Proof. apply (generateQrMatrix_latin1_limit sample_uri). reflexivity. Defined.

(** X10.  Every matrix [generateQrMatrix] returns shows the function
    patterns a reader looks for: the three finder patterns, at the top-left,
    top-right and bottom-left corners, and the two timing patterns along row
    6 and column 6, dark on even indices.  Neither masking nor the format
    information touches them. *)
Theorem generateQrMatrix_function_patterns (data : jsstring) :
  payload_fits data ->
  exists m,
    generateQrMatrix data loaded_module = (Ok m, loaded_module)
    /\ (forall r c, 0 <= r < 7 -> 0 <= c < 7 ->
          mget m r c = Ok (Num (finder_module r c))
          /\ mget m r (version (pickVersion (len data)) * 4 + 17 - 7 + c)
             = Ok (Num (finder_module r c))
          /\ mget m (version (pickVersion (len data)) * 4 + 17 - 7 + r) c
             = Ok (Num (finder_module r c)))
    /\ (forall i, 8 <= i < version (pickVersion (len data)) * 4 + 17 - 8 ->
          mget m 6 i = Ok (Num (timing_module i))
          /\ mget m i 6 = Ok (Num (timing_module i))).
Proof.
  intros Hfit.
  destruct (generateQrMatrix_run data Hfit)
    as (d & e & pad & t & st & m & H). cbv zeta in H.
  destruct H as (Hv & _ & _ & _ & _ & _ & Ht & _ & _ & Hinv & _ & Hcov
                 & Hm & _ & Hcells).
  set (size := version (pickVersion (len data)) * 4 + 17) in *.
  assert (Hfixed : forall r c z,
             0 <= r < size -> 0 <= c < size ->
             cell_is t r c (Num z) = true -> no_format size r c = true ->
             mget m r c = Ok (Num z)).
  { intros r c z Hr Hc Hcell Hfmt.
    apply cell_is_eq in Hcell. apply no_format_eq in Hfmt.
    destruct (Hcells r c Hr Hc) as (x & tv & Hx & Htv & Hmod & ->).
    rewrite Hfmt. rewrite Hcell in Htv. injection Htv as <-.
    destruct (final_cell_bit t st r c x (Num z) Hinv (Hcov r c Hr Hc) Hx Hcell
                Hmod) as [_ Hfix].
    rewrite (Hfix ltac:(discriminate)). reflexivity. }
  pose proof templates_patterns_ok as Hok. rewrite forallb_forall in Hok.
  specialize (Hok _ (proj2 (In_zrange (version (pickVersion (len data))) 1 11)
                           ltac:(lia))).
  unfold template_patterns_ok in Hok. rewrite Ht in Hok. fold size in Hok.
  apply andb_prop in Hok. destruct Hok as [Hfinder Htiming].
  rewrite forallb_forall in Hfinder, Htiming.
  exists m. split; [exact Hm|]. split.
  - intros r c Hr Hc.
    specialize (Hfinder r (proj2 (In_zrange r 0 7) Hr)).
    rewrite forallb_forall in Hfinder.
    specialize (Hfinder c (proj2 (In_zrange c 0 7) Hc)).
    repeat (apply andb_prop in Hfinder; destruct Hfinder as [Hfinder ?]).
    assert (Hs : 21 <= size) by (unfold size; lia).
    split; [apply Hfixed; auto; lia|].
    split; apply Hfixed; auto; lia.
  - intros i Hi.
    specialize (Htiming i (proj2 (In_zrange i 8 (size - 8)) Hi)).
    repeat (apply andb_prop in Htiming; destruct Htiming as [Htiming ?]).
    split; apply Hfixed; auto; lia.
Qed.

Lemma generateQrMatrix_function_patterns_witness :
  exists m,
    generateQrMatrix sample_uri loaded_module = (Ok m, loaded_module)
    /\ (forall r c, 0 <= r < 7 -> 0 <= c < 7 ->
          mget m r c = Ok (Num (finder_module r c))
          /\ mget m r (version (pickVersion (len sample_uri)) * 4 + 17 - 7 + c)
             = Ok (Num (finder_module r c))
          /\ mget m (version (pickVersion (len sample_uri)) * 4 + 17 - 7 + r) c
             = Ok (Num (finder_module r c)))
    /\ (forall i, 8 <= i < version (pickVersion (len sample_uri)) * 4 + 17 - 8 ->
          mget m 6 i = Ok (Num (timing_module i))
          /\ mget m i 6 = Ok (Num (timing_module i))).
Proof.
  apply (generateQrMatrix_function_patterns sample_uri).
  unfold payload_fits. vm_compute. discriminate.
Defined.

(** X11.  No codeword bit is lost on the way to the matrix.  With the
    blocks [encodeDataByte] returns and the stream [interleave] makes of
    them, there is an order of distinct cells, all unset in the template,
    such that for every bit index [k] of the stream the [k]-th cell of the
    final matrix holds bit [k], flipped when [(r + c) % 2 === 0]: the
    template has room for the whole stream and the format information
    overwrites none of these cells. *)
Theorem generateQrMatrix_carries_stream (data : jsstring) :
  payload_fits data ->
  exists dataBlocks ecBlocks t m cells,
    encodeDataByte data (version (pickVersion (len data)))
      (blocks (pickVersion (len data))) loaded_module
    = (Ok (dataBlocks, ecBlocks), loaded_module)
    /\ createMatrix (version (pickVersion (len data)))
       = Ok (t, version (pickVersion (len data)) * 4 + 17)
    /\ generateQrMatrix data loaded_module = (Ok m, loaded_module)
    /\ NoDup cells
    /\ forall k,
         0 <= k < len (bits_of (interleave dataBlocks ecBlocks)) ->
         exists r c,
           nth_error cells (Z.to_nat k) = Some (r, c)
           /\ mget t r c = Ok Null
           /\ mget m r c
              = Ok (if maskFn r c
                    then js_xor (bit_at (bits_of (interleave dataBlocks ecBlocks)) k)
                           (Num 1)
                    else bit_at (bits_of (interleave dataBlocks ecBlocks)) k).
Proof.
  intros Hfit.
  destruct (generateQrMatrix_run data Hfit)
    as (d & e & pad & t & st & m & H). cbv zeta in H.
  destruct H as (Hv & Henc & _ & Hld & Hle & Hbytes & Ht & Hsq & _ & Hinv
                 & Hord & Hcov & Hm & _ & Hcells).
  set (size := version (pickVersion (len data)) * 4 + 17) in *.
  exists d, e, t, m, (rev (pl_written st)).
  split; [exact Henc|]. split; [exact Ht|]. split; [exact Hm|].
  split; [apply NoDup_rev; apply Hinv|].
  intros k Hk.
  destruct (pickVersion_template (len data)) as (t' & Ht' & Hroom & Hfmt).
  fold size in Ht', Hroom, Hfmt. rewrite Ht in Ht'. injection Ht' as <-.
  assert (Hlen : len (bits_of (interleave d e)) <= len (pl_written st)).
  { rewrite (written_null_cells size t st Hsq Hinv Hcov).
    rewrite (len_bits_of (interleave d e) Hbytes).
    rewrite (len_interleave d e _ Hld Hle). exact Hroom. }
  destruct (nth_error (rev (pl_written st)) (Z.to_nat k)) as [[r c]|] eqn:En.
  2:{ apply nth_error_None in En. rewrite length_rev in En.
      unfold len in Hlen, Hk. lia. }
  exists r, c. split; [reflexivity|].
  pose proof (Hord _ _ _ En) as Hbit. rewrite Z2Nat.id in Hbit by lia.
  assert (Hin : In (r, c) (pl_written st)).
  { apply in_rev. eapply nth_error_In; eauto. }
  destruct Hinv as (_ & _ & Hw & _).
  destruct (Hw r c Hin) as (_ & _ & Hnull & _).
  destruct (mget_Null_range size t r c Hsq Hnull) as [Hr Hc].
  split; [exact Hnull|].
  destruct (Hcells r c Hr Hc) as (x & tv & Hx & Htv & _ & ->).
  rewrite Hbit in Hx. injection Hx as <-.
  rewrite Hnull in Htv. injection Htv as <-.
  destruct (last_write (format_writes size) r c) as [fv|] eqn:Ef.
  { apply last_write_in in Ef.
    destruct (Hfmt _ Ef) as (y & Hy & Hne). cbn [fst snd] in Hy.
    rewrite Hnull in Hy. injection Hy as <-. now destruct Hne. }
  cbn [is_null andb].
  destruct (bit_at_module (bits_of (interleave d e)) k) as [-> | ->]; reflexivity.
Qed.

Lemma generateQrMatrix_carries_stream_witness :
  exists dataBlocks ecBlocks t m cells,
    encodeDataByte sample_uri (version (pickVersion (len sample_uri)))
      (blocks (pickVersion (len sample_uri))) loaded_module
    = (Ok (dataBlocks, ecBlocks), loaded_module)
    /\ createMatrix (version (pickVersion (len sample_uri)))
       = Ok (t, version (pickVersion (len sample_uri)) * 4 + 17)
    /\ generateQrMatrix sample_uri loaded_module = (Ok m, loaded_module)
    /\ NoDup cells
    /\ forall k,
         0 <= k < len (bits_of (interleave dataBlocks ecBlocks)) ->
         exists r c,
           nth_error cells (Z.to_nat k) = Some (r, c)
           /\ mget t r c = Ok Null
           /\ mget m r c
              = Ok (if maskFn r c
                    then js_xor (bit_at (bits_of (interleave dataBlocks ecBlocks)) k)
                           (Num 1)
                    else bit_at (bits_of (interleave dataBlocks ecBlocks)) k).
Proof.
  apply (generateQrMatrix_carries_stream sample_uri).
  unfold payload_fits. vm_compute. discriminate.
Defined.

(** X12.  The format information in the returned matrix: a cell that one
    of the four format loops of [applyMask] writes ends with the bit of the
    last loop that writes it, whatever the template or the data put
    there. *)
Theorem generateQrMatrix_format_cells (data : jsstring) (r c : Z) (fv : jsval) :
  payload_fits data ->
  last_write (format_writes (version (pickVersion (len data)) * 4 + 17)) r c
  = Some fv ->
  exists m,
    generateQrMatrix data loaded_module = (Ok m, loaded_module)
    /\ mget m r c = Ok fv.
Proof.
  intros Hfit Hf.
  destruct (generateQrMatrix_run data Hfit)
    as (d & e & pad & t & st & m & H). cbv zeta in H.
  destruct H as (Hv & _ & _ & _ & _ & _ & _ & _ & _ & _ & _ & _ & Hm & _
                 & Hcells).
  exists m. split; [exact Hm|].
  pose proof (last_write_in _ _ _ _ Hf) as Hin.
  assert (Hs : 17 <= version (pickVersion (len data)) * 4 + 17) by lia.
  destruct (format_writes_in_range _ Hs _ Hin) as [Hr Hc].
  cbn [fst snd] in Hr, Hc.
  destruct (Hcells r c Hr Hc) as (x & tv & _ & _ & _ & ->).
  now rewrite Hf.
Qed.

Lemma generateQrMatrix_format_cells_witness :
  exists m,
    generateQrMatrix sample_uri loaded_module = (Ok m, loaded_module)
    /\ mget m 8 0 = Ok (Num 1).
Proof.
  apply (generateQrMatrix_format_cells sample_uri 8 0 (Num 1)).
  - unfold payload_fits. vm_compute. discriminate.
  - vm_compute. reflexivity.
Defined.

(** X13.  [createMatrix] reserves nothing for version information: for the
    versions 7 to 10 the two 6x3 areas beside the top-right and bottom-left
    finder patterns are left unset, that is, they are cells for data. *)
Theorem createMatrix_no_version_information (v r c : Z) :
  7 <= v <= 10 -> 0 <= r < 6 -> v * 4 + 17 - 11 <= c < v * 4 + 17 - 8 ->
  exists t,
    createMatrix v = Ok (t, v * 4 + 17)
    /\ mget t r c = Ok Null /\ mget t c r = Ok Null.
Proof.
  intros Hv Hr Hc.
  destruct (createMatrix_tabulated v ltac:(lia)) as (t & Ht & _).
  pose proof version_areas_unset as Hok. rewrite forallb_forall in Hok.
  specialize (Hok v (proj2 (In_zrange v 1 11) ltac:(lia))).
  unfold version_area_unset in Hok. rewrite Ht in Hok.
  rewrite forallb_forall in Hok.
  specialize (Hok r (proj2 (In_zrange r 0 6) Hr)).
  rewrite forallb_forall in Hok.
  specialize (Hok c (proj2 (In_zrange c _ _) Hc)).
  apply andb_prop in Hok. destruct Hok as [H1 H2].
  exists t. split; [exact Ht|]. split; now apply cell_is_eq.
Qed.

Lemma createMatrix_no_version_information_witness :
  exists t,
    createMatrix 7 = Ok (t, 7 * 4 + 17)
    /\ mget t 0 34 = Ok Null /\ mget t 34 0 = Ok Null.
Proof. apply (createMatrix_no_version_information 7 0 34); lia. Defined.

(** X14.  [createMatrix] draws the timing patterns before the alignment
    patterns and skips an alignment pattern whose centre is already set.  So
    an alignment position that lies on a timing pattern gets no pattern: for
    each such position [p] (versions 7 to 10 have one), the cells around
    [(6, p)] and [(p, 6)] in rows, respectively columns, 4, 5, 7 and 8 stay
    unset. *)
Theorem createMatrix_skips_alignment_on_timing (v p r c : Z) :
  1 <= v <= 10 -> In p (middle_positions v) ->
  In r [4; 5; 7; 8] -> -2 <= c <= 2 ->
  exists t,
    createMatrix v = Ok (t, v * 4 + 17)
    /\ mget t r (p + c) = Ok Null /\ mget t (p + c) r = Ok Null.
Proof.
  intros Hv Hp Hr Hc.
  destruct (createMatrix_tabulated v Hv) as (t & Ht & _).
  pose proof timing_alignments_absent as Hok. rewrite forallb_forall in Hok.
  specialize (Hok v (proj2 (In_zrange v 1 11) ltac:(lia))).
  unfold timing_alignment_absent in Hok. rewrite Ht in Hok.
  rewrite forallb_forall in Hok. specialize (Hok p Hp).
  rewrite forallb_forall in Hok. specialize (Hok r Hr).
  rewrite forallb_forall in Hok.
  specialize (Hok c (proj2 (In_zrange c (-2) 3) ltac:(lia))).
  apply andb_prop in Hok. destruct Hok as [H1 H2].
  exists t. split; [exact Ht|]. split; now apply cell_is_eq.
Qed.

Lemma createMatrix_skips_alignment_on_timing_witness :
  exists t,
    createMatrix 7 = Ok (t, 7 * 4 + 17)
    /\ mget t 4 (22 + 0) = Ok Null /\ mget t (22 + 0) 4 = Ok Null.
Proof.
  apply (createMatrix_skips_alignment_on_timing 7 22 4 0);
    [lia | vm_compute; auto | cbn; auto | lia].
Defined.


(** X16.  When [buildUpiUri] returns a URI that fits the version selected
    for its length, [generateUpiQrCode] returns a data URI: the fixed prefix
    followed by the base64 text of the SVG of the matrix.  The browser path
    ([btoa]) and the server path ([Buffer]) give the same string, and the
    tables are left as they are. *)
Theorem generateUpiQrCode_returns (params : UpiQrParams) (uri : jsstring) :
  buildUpiUri params = Ok uri -> payload_fits uri ->
  exists m svg,
    generateQrMatrix uri loaded_module = (Ok m, loaded_module)
    /\ qrToSvg m 4 4 = Ok svg
    /\ forall w, generateUpiQrCode w params loaded_module
                 = (Ok (lit "data:image/svg+xml;base64," ++ base64 svg),
                    loaded_module).
Proof. exact (generateUpiQrCode_ok params uri). Qed.

Lemma generateUpiQrCode_returns_witness :
  exists m svg,
    generateQrMatrix (lit "upi://pay?pa=a%40b&cu=INR") loaded_module
    = (Ok m, loaded_module)
    /\ qrToSvg m 4 4 = Ok svg
    /\ forall w, generateUpiQrCode w (params_of_vpa (lit "a@b")) loaded_module
                 = (Ok (lit "data:image/svg+xml;base64," ++ base64 svg),
                    loaded_module).
Proof.
  apply (generateUpiQrCode_returns (params_of_vpa (lit "a@b"))
           (lit "upi://pay?pa=a%40b&cu=INR")).
  - reflexivity.
  - unfold payload_fits. vm_compute. discriminate.
Defined.

(** X17.  The only exceptions of [generateUpiQrCode]: a URIError, when
    [buildUpiUri] throws it (a lone surrogate in a text field), and a
    RangeError, when the URI does not fit the selected version.  Nothing
    else is thrown, and no loop of the embedding runs out of fuel. *)
Theorem generateUpiQrCode_exceptions (w : bool) (params : UpiQrParams)
  (e : exn) (st : module_state) :
  generateUpiQrCode w params loaded_module = (Throw e, st) ->
  (e = URIError /\ buildUpiUri params = Throw URIError)
  \/ (e = RangeError
      /\ exists uri, buildUpiUri params = Ok uri /\ ~ payload_fits uri).
Proof.
  intros H. destruct (buildUpiUri params) as [uri|e'] eqn:Euri.
  - right.
    destruct (Z_le_gt_dec
                (len (payload_bits uri (version (pickVersion (len uri)))))
                (sum_dcw (blocks (pickVersion (len uri))) * 8)) as [Hfit|Hno].
    + destruct (generateUpiQrCode_ok params uri Euri Hfit)
        as (m & svg & _ & _ & Hgen).
      rewrite (Hgen w) in H. discriminate.
    + assert (Hnot : ~ payload_fits uri) by (unfold payload_fits; lia).
      unfold generateUpiQrCode, bindM, liftM in H. rewrite Euri in H.
      rewrite (generateQrMatrix_no_fit uri loaded_module Hnot) in H.
      injection H as <- _. split; [reflexivity|]. exists uri. auto.
  - left. pose proof (buildUpiUri_throws params e' Euri) as ->.
    unfold generateUpiQrCode, bindM, liftM in H. rewrite Euri in H.
    injection H as <- _. auto.
Qed.

Lemma generateUpiQrCode_exceptions_witness :
  (URIError = URIError /\ buildUpiUri lone_surrogate_params = Throw URIError)
  \/ (URIError = RangeError
      /\ exists uri, buildUpiUri lone_surrogate_params = Ok uri
                     /\ ~ payload_fits uri).
Proof.
  apply (generateUpiQrCode_exceptions true lone_surrogate_params URIError
           loaded_module).
  reflexivity.
Defined.

(** X18.  A valid UPI id passes through [buildUpiUri] unharmed: for an id
    [validateUpiId] accepts, the trimmed id is [local@handle] and its
    percent-encoding, the value of [pa], is the same text with the [@]
    written [%40]; no other character is escaped and [encodeURIComponent]
    does not throw. *)
Theorem valid_upi_id_encoding (upiId : jsstring) :
  valid (validateUpiId upiId) = true ->
  exists local handle,
    trim upiId = local ++ [64] ++ handle
    /\ forallb is_local_char local = true
    /\ forallb is_alnum handle = true
    /\ 1 <= len local <= 50 /\ 1 <= len handle <= 50
    /\ encodeURIComponent (trim upiId) = Ok (local ++ lit "%40" ++ handle).
Proof.
  intros Hv. apply encodeURIComponent_upi_shape.
  now apply validateUpiId_valid_shape.
Qed.

Lemma valid_upi_id_encoding_witness :
  exists local handle,
    trim (lit " merchant@upi ") = local ++ [64] ++ handle
    /\ forallb is_local_char local = true
    /\ forallb is_alnum handle = true
    /\ 1 <= len local <= 50 /\ 1 <= len handle <= 50
    /\ encodeURIComponent (trim (lit " merchant@upi "))
       = Ok (local ++ lit "%40" ++ handle).
Proof. apply (valid_upi_id_encoding (lit " merchant@upi ")). reflexivity. Defined.

(** X19.  The QR code of the payment form.  With an amount text of at most
    39 Latin-1 characters, [upiQrDataUri] is a data URI exactly when the id
    field holds a valid UPI id and the method is UPI, and [null] otherwise:
    for a valid id the URI has at most 212 characters, so that the [catch]
    branch of the form is never taken. *)
Theorem upiQrDataUri_iff_valid (w : bool) (f : upi_form) :
  (forall a, amount_text (form_qr_params f) = Some a ->
             forallb is_latin1 a = true /\ len a <= 39) ->
  (valid (upiValidResult f) = true ->
   exists svg,
     upiQrDataUri w f loaded_module
     = (Ok (Some (lit "data:image/svg+xml;base64," ++ base64 svg)),
        loaded_module))
  /\ (valid (upiValidResult f) = false ->
      upiQrDataUri w f loaded_module = (Ok None, loaded_module)).
Proof.
  intros Ham. split.
  - intros Hv. exact (upiQrDataUri_valid w f Hv Ham).
  - apply upiQrDataUri_invalid.
Qed.

Lemma upiQrDataUri_iff_valid_witness :
  (valid (upiValidResult sample_form) = true ->
   exists svg,
     upiQrDataUri true sample_form loaded_module
     = (Ok (Some (lit "data:image/svg+xml;base64," ++ base64 svg)),
        loaded_module))
  /\ (valid (upiValidResult sample_form) = false ->
      upiQrDataUri true sample_form loaded_module = (Ok None, loaded_module)).
Proof.
  apply (upiQrDataUri_iff_valid true sample_form).
  intros a [= <-]. split; [reflexivity | vm_compute; discriminate].
Defined.

(** X20.  The URI the payment form appends to the payload: for a valid id
    [local@handle] it is [upi://pay?pa=local%40handle], then [&am=] and the
    amount text when the amount is positive, then [&cu=INR]; the call does
    not throw. *)
Theorem form_upiUri_of_valid_id (f : upi_form) :
  valid (upiValidResult f) = true ->
  exists local handle,
    trim (form_upiId f) = local ++ [64] ++ handle
    /\ form_upiUri f
       = Some (Ok (lit "upi://pay?pa=" ++ local ++ lit "%40" ++ handle
                     ++ match amount_text (form_qr_params f) with
                        | Some a => lit "&am=" ++ a
                        | None => []
                        end
                     ++ lit "&cu=INR")).
Proof.
  intros Hv. pose proof (upiValidResult_valid f Hv) as [Hm Hval].
  assert (Hnil : is_nil (form_upiId f) = false).
  { unfold upiValidResult in Hv. rewrite Hm in Hv. cbn [negb orb] in Hv.
    destruct (is_nil (form_upiId f)); [discriminate | reflexivity]. }
  apply validateUpiId_valid_shape in Hval.
  destruct (encodeURIComponent_upi_shape _ Hval)
    as (local & handle & Hs & _ & _ & _ & _ & Henc).
  exists local, handle. split; [exact Hs|].
  unfold form_upiUri. rewrite Hm, Hnil. cbn [negb andb]. f_equal.
  unfold buildUpiUri, buildUpiUri_parts, amount_text, form_qr_params.
  cbn [vpa payeeName amount currency note mcc txnRefId].
  rewrite Henc. cbn [bind truthy lit]. unfold form_amount_param.
  destruct (positive_amount (form_amount f)) eqn:Ep.
  - rewrite Ep. cbn. rewrite <- !app_assoc. reflexivity.
  - cbn. rewrite <- !app_assoc. reflexivity.
Qed.

Lemma form_upiUri_of_valid_id_witness :
  exists local handle,
    trim (form_upiId sample_form) = local ++ [64] ++ handle
    /\ form_upiUri sample_form
       = Some (Ok (lit "upi://pay?pa=" ++ local ++ lit "%40" ++ handle
                     ++ match amount_text (form_qr_params sample_form) with
                        | Some a => lit "&am=" ++ a
                        | None => []
                        end
                     ++ lit "&cu=INR")).
Proof. apply (form_upiUri_of_valid_id sample_form). reflexivity. Defined.

(** X21.  [gfMul] is associative on bytes: multiplying the product of [a]
    and [b] by [c] gives the same byte as multiplying [a] by the product of
    [b] and [c]. *)
Theorem gfMul_associative (a b c : Z) :
  0 <= a <= 255 -> 0 <= b <= 255 -> 0 <= c <= 255 ->
  (x <~ gfMul (Num a) (Num b) ;; gfMul x (Num c)) loaded_module
  = (y <~ gfMul (Num b) (Num c) ;; gfMul (Num a) y) loaded_module.
Proof.
  intros Ha Hb Hc.
  destruct (gfMul_gf a b Ha Hb) as (Hab & Rab).
  destruct (gfMul_gf b c Hb Hc) as (Hbc & Rbc).
  rewrite (bindM_step _ _ _ _ _ Hab), (bindM_step _ _ _ _ _ Hbc).
  rewrite (proj1 (gfMul_gf _ c Rab Hc)), (proj1 (gfMul_gf a _ Ha Rbc)).
  now rewrite gf_assoc.
Qed.

Lemma gfMul_associative_witness :
  (x <~ gfMul (Num 2) (Num 128) ;; gfMul x (Num 3)) loaded_module
  = (y <~ gfMul (Num 128) (Num 3) ;; gfMul (Num 2) y) loaded_module.
Proof. apply (gfMul_associative 2 128 3); lia. Defined.

(** X22.  [gfMul] distributes over [^] on bytes, the law that makes the
    arithmetic of [rsGenPoly] and [rsEncode] polynomial arithmetic:
    [gfMul(a, b ^ c)] is [gfMul(a, b) ^ gfMul(a, c)]. *)
Theorem gfMul_distributes_over_xor (a b c : Z) :
  0 <= a <= 255 -> 0 <= b <= 255 -> 0 <= c <= 255 ->
  exists p q,
    gfMul (Num a) (Num b) loaded_module = (Ok p, loaded_module)
    /\ gfMul (Num a) (Num c) loaded_module = (Ok q, loaded_module)
    /\ gfMul (Num a) (js_xor (Num b) (Num c)) loaded_module
       = (Ok (js_xor p q), loaded_module).
Proof.
  intros Ha Hb Hc.
  destruct (gfMul_gf a b Ha Hb) as (Hab & Rab).
  destruct (gfMul_gf a c Ha Hc) as (Hac & Rac).
  exists (Num (gf a b)), (Num (gf a c)).
  split; [exact Hab|]. split; [exact Hac|].
  unfold js_xor. rewrite !ToInt32_byte by assumption.
  rewrite (proj1 (gfMul_gf a _ Ha (lxor_byte b c Hb Hc))).
  now rewrite gf_lxor_r.
Qed.

Lemma gfMul_distributes_over_xor_witness :
  exists p q,
    gfMul (Num 2) (Num 128) loaded_module = (Ok p, loaded_module)
    /\ gfMul (Num 2) (Num 3) loaded_module = (Ok q, loaded_module)
    /\ gfMul (Num 2) (js_xor (Num 128) (Num 3)) loaded_module
       = (Ok (js_xor p q), loaded_module).
Proof. apply (gfMul_distributes_over_xor 2 128 3); lia. Defined.

(** X23.  The non-zero bytes form a group under [gfMul]: the product of two
    non-zero bytes is a non-zero byte, and every non-zero byte has an
    inverse. *)
Theorem gfMul_nonzero_invertible (a b : Z) :
  1 <= a <= 255 -> 1 <= b <= 255 ->
  (exists z, gfMul (Num a) (Num b) loaded_module = (Ok (Num z), loaded_module)
             /\ 1 <= z <= 255)
  /\ exists a', 1 <= a' <= 255
                /\ gfMul (Num a) (Num a') loaded_module
                   = (Ok (Num 1), loaded_module).
Proof.
  intros Ha Hb. split.
  - exists (gf a b). split; [apply gfMul_gf; lia|].
    apply (gf_nonzero a b Ha Hb).
  - destruct (gf_inverse a Ha) as (a' & Ha' & E).
    exists a'. split; [exact Ha'|].
    rewrite (proj1 (gfMul_gf a a' ltac:(lia) ltac:(lia))). now rewrite E.
Qed.

Lemma gfMul_nonzero_invertible_witness :
  (exists z, gfMul (Num 2) (Num 128) loaded_module
             = (Ok (Num z), loaded_module)
             /\ 1 <= z <= 255)
  /\ exists a', 1 <= a' <= 255
                /\ gfMul (Num 2) (Num a') loaded_module
                   = (Ok (Num 1), loaded_module).
Proof. apply (gfMul_nonzero_invertible 2 128); lia. Defined.

(** X24.  The polynomial [rsGenPoly(ecLen)] returns is the generator of a
    Reed-Solomon code: [ecLen + 1] byte coefficients, the leading one 1, and,
    read with the highest degree first and evaluated with [gfMul] and [^],
    it vanishes at [EXP_TABLE[r]] for every [r < ecLen].  The call does not
    throw and leaves the tables as they are. *)
Theorem rsGenPoly_roots (ecLen : Z) :
  0 <= ecLen <= 255 ->
  exists gen,
    rsGenPoly ecLen loaded_module = (Ok gen, loaded_module)
    /\ len gen = ecLen + 1
    /\ forallb is_byte gen = true
    /\ arr_get gen 0 = Num 1
    /\ forall r, 0 <= r < ecLen -> poly_eval (vals gen) (gexp r) = 0.
Proof.
  intros Hec.
  destruct (rsGenPoly_vanishes ecLen Hec) as (gen & H1 & H2 & H3 & H4).
  destruct (rsGenPoly_shape ecLen Hec) as (gen' & H1' & _ & _ & Hlead).
  rewrite H1 in H1'. injection H1' as <-.
  exists gen. auto.
Qed.

Lemma rsGenPoly_roots_witness :
  exists gen,
    rsGenPoly 10 loaded_module = (Ok gen, loaded_module)
    /\ len gen = 10 + 1
    /\ forallb is_byte gen = true
    /\ arr_get gen 0 = Num 1
    /\ forall r, 0 <= r < 10 -> poly_eval (vals gen) (gexp r) = 0.
Proof. apply (rsGenPoly_roots 10). lia. Defined.

(** X25.  [rsEncode] computes valid check symbols and never throws on a
    block of bytes: it returns exactly [ecLen] bytes, and the block followed
    by them is a Reed-Solomon codeword, a polynomial that vanishes at every
    root of the generator, so that a decoder finds all syndromes zero. *)
Theorem rsEncode_codeword (data : list jsval) (ecLen : Z) :
  0 <= ecLen <= 255 -> forallb is_byte data = true ->
  exists ec,
    rsEncode data ecLen loaded_module = (Ok ec, loaded_module)
    /\ len ec = ecLen
    /\ forallb is_byte ec = true
    /\ rs_codeword data ec.
Proof.
  intros Hec Hdata.
  destruct (rsEncode_vanishes data ecLen Hec Hdata)
    as (ec & H1 & H2 & Hb & H3).
  exists ec. split; [exact H1|]. split; [exact H2|]. split; [exact Hb|].
  intros r Hr. apply H3. lia.
Qed.

Lemma rsEncode_codeword_witness :
  exists ec,
    rsEncode (map Num [64; 20; 134]) 10 loaded_module = (Ok ec, loaded_module)
    /\ len ec = 10
    /\ forallb is_byte ec = true
    /\ rs_codeword (map Num [64; 20; 134]) ec.
Proof.
  apply (rsEncode_codeword (map Num [64; 20; 134]) 10); [lia | reflexivity].
Defined.

(** X26.  Every block [encodeDataByte] returns is protected: each data
    block, followed by the error-correction block at the same position, is
    a Reed-Solomon codeword. *)
Theorem encodeDataByte_codewords (data : jsstring) (version : Z)
  (blocks : list (Z * Z)) :
  (forall b, In b blocks -> 0 <= fst b /\ 0 <= snd b <= 255) ->
  len (payload_bits data version) <= sum_dcw blocks * 8 ->
  exists dataBlocks ecBlocks,
    encodeDataByte data version blocks loaded_module
    = (Ok (dataBlocks, ecBlocks), loaded_module)
    /\ Forall2 rs_codeword dataBlocks ecBlocks.
Proof.
  intros Hb Hfit.
  destruct (encodeDataByte_run data version blocks Hb Hfit)
    as (d & e & pad & H & _ & _ & _ & _ & _ & _ & Hcodes).
  eauto.
Qed.

Lemma encodeDataByte_codewords_witness :
  exists dataBlocks ecBlocks,
    encodeDataByte (lit "a@b") 1 [(16, 10)] loaded_module
    = (Ok (dataBlocks, ecBlocks), loaded_module)
    /\ Forall2 rs_codeword dataBlocks ecBlocks.
Proof.
  apply (encodeDataByte_codewords (lit "a@b") 1 [(16, 10)]).
  - intros b [<-|[]]. cbn. lia.
  - vm_compute. discriminate.
Defined.

(** X27.  The values [buildUpiUri] percent-encodes cannot break the query
    string: the values emitted for pa, pn, tn and tr consist only of
    letters, digits, [- _ . ! ~ * ' ( )] and [%], so that they contain no
    [&], [=], [?], [#] or space. *)
Theorem buildUpiUri_encoded_alphabet (params : UpiQrParams)
  (parts : list jsstring) (v : jsstring) :
  buildUpiUri_parts params = Ok parts -> wf_text_fields params ->
  emits parts "upi://pay?pa=" v \/ emits parts "pn=" v
  \/ emits parts "tn=" v \/ emits parts "tr=" v ->
  forallb is_uri_char v = true
  /\ forallb (fun c => negb (existsb (Z.eqb c) [38; 61; 63; 35; 32])) v = true.
Proof.
  intros H (Wpa & Wpn & Wtn & Wtr) Hv.
  assert (Hchars : forallb is_uri_char v = true).
  { destruct (buildUpiUri_parts_shape params parts H)
      as (epa & epn & etn & etr & Hpa & Hpn & Htn & Htr & ->).
    unfold emits in Hv.
    change (lit "upi://pay?pa=")
      with [117; 112; 105; 58; 47; 47; 112; 97; 121; 63; 112; 97; 61] in *.
    change (lit "pn=") with [112; 110; 61] in *.
    change (lit "am=") with [97; 109; 61] in *.
    change (lit "cu=") with [99; 117; 61] in *.
    change (lit "tn=") with [116; 110; 61] in *.
    change (lit "mc=") with [109; 99; 61] in *.
    change (lit "tr=") with [116; 114; 61] in *.
    destruct Hv as [Hin|[Hin|[Hin|Hin]]]; find_part Hin; injection Hin as <-;
      first
        [ exact (encodeURIComponent_uri_chars _ _ Wpa Hpa)
        | match goal with
          | Ht : truthy (payeeName params) = true |- _ =>
              exact (encodeURIComponent_uri_chars _ _ Wpn (Hpn Ht))
          end
        | match goal with
          | Ht : truthy (note params) = true |- _ =>
              exact (encodeURIComponent_uri_chars _ _ Wtn (Htn Ht))
          end
        | match goal with
          | Ht : truthy (txnRefId params) = true |- _ =>
              exact (encodeURIComponent_uri_chars _ _ Wtr (Htr Ht))
          end ]. }
  split; [exact Hchars|].
  eapply forallb_impl; [|exact Hchars].
  intros c Hc. cbn [existsb].
  destruct (c =? 38) eqn:E1; [apply Z.eqb_eq in E1; now subst|].
  destruct (c =? 61) eqn:E2; [apply Z.eqb_eq in E2; now subst|].
  destruct (c =? 63) eqn:E3; [apply Z.eqb_eq in E3; now subst|].
  destruct (c =? 35) eqn:E4; [apply Z.eqb_eq in E4; now subst|].
  destruct (c =? 32) eqn:E5; [apply Z.eqb_eq in E5; now subst|].
  reflexivity.
Qed.

Lemma buildUpiUri_encoded_alphabet_witness :
  forallb is_uri_char (lit "a%26b%40c") = true
  /\ forallb (fun c => negb (existsb (Z.eqb c) [38; 61; 63; 35; 32]))
       (lit "a%26b%40c") = true.
Proof.
  apply (buildUpiUri_encoded_alphabet (params_of_vpa (lit "a&b@c"))
           [lit "upi://pay?pa=a%26b%40c"; lit "cu=INR"] (lit "a%26b%40c")).
  - reflexivity.
  - repeat split.
  - left. unfold emits. cbn. auto.
Defined.

(** X28.  The contract of [generateUpiQrCode] in terms of the URI: when
    the text fields are strings and the currency code, merchant category
    code and amount text are ASCII, the URI [buildUpiUri] returns is ASCII,
    and the call returns a data URI if the URI has at most 212 characters
    and throws a RangeError if it has more. *)
Theorem generateUpiQrCode_length_limit (w : bool) (params : UpiQrParams)
  (uri : jsstring) :
  wf_text_fields params -> ascii_raw_fields params ->
  buildUpiUri params = Ok uri ->
  forallb is_ascii uri = true
  /\ (len uri <= 212 ->
      exists svg,
        generateUpiQrCode w params loaded_module
        = (Ok (lit "data:image/svg+xml;base64," ++ base64 svg), loaded_module))
  /\ (212 < len uri ->
      generateUpiQrCode w params loaded_module
      = (Throw RangeError, loaded_module)).
Proof.
  intros Hwf Hraw Huri.
  pose proof (buildUpiUri_ascii_text params uri Hwf Hraw Huri) as Hascii.
  pose proof (latin1_ascii uri Hascii) as Hlatin.
  split; [exact Hascii|]. split.
  - intros Hn. apply (payload_fits_latin1 uri Hlatin) in Hn.
    destruct (generateUpiQrCode_ok params uri Huri Hn)
      as (m & svg & _ & _ & Hgen).
    exists svg. apply Hgen.
  - intros Hn. unfold generateUpiQrCode, bindM, liftM. rewrite Huri.
    rewrite generateQrMatrix_no_fit; [reflexivity|].
    rewrite (payload_fits_latin1 uri Hlatin). lia.
Qed.

Lemma generateUpiQrCode_length_limit_witness :
  forallb is_ascii (lit "upi://pay?pa=a%40b&cu=INR") = true
  /\ (len (lit "upi://pay?pa=a%40b&cu=INR") <= 212 ->
      exists svg,
        generateUpiQrCode true (params_of_vpa (lit "a@b")) loaded_module
        = (Ok (lit "data:image/svg+xml;base64," ++ base64 svg), loaded_module))
  /\ (212 < len (lit "upi://pay?pa=a%40b&cu=INR") ->
      generateUpiQrCode true (params_of_vpa (lit "a@b")) loaded_module
      = (Throw RangeError, loaded_module)).
Proof.
  apply (generateUpiQrCode_length_limit true (params_of_vpa (lit "a@b"))
           (lit "upi://pay?pa=a%40b&cu=INR")).
  - repeat split.
  - split; [reflexivity|]. split; [reflexivity|]. intros a H. discriminate H.
  - reflexivity.
Defined.
